(** * Routing core of the A* routing visualizer

    A shallow embedding of the routing core (graph model, OSM parser, access
    rules, map matching and A* search), of the animator of the search steps
    and of the bounds of the map, and the properties of its specification.

    Conventions of the embedding:
    - a JavaScript [number] holding a measure (coordinate, distance, speed,
      time) is a binary64 [float] with the IEEE operations of [PrimFloat];
      a [number] holding an OSM identifier is a [Z];
    - a JavaScript [Map] is an insertion-ordered association list ([JsMap]),
      a [Set] a duplicate-free list ([JsSet]);
    - an optional field ([barrier?: string]) is an [option];
    - [haversine] calls [Math.sin], [Math.cos] and [Math.atan2], whose results
      are implementation-approximated; it is a variable of the sections that
      use it. *)

From Stdlib Require Import String Ascii.
From Stdlib Require Import ZArith List Bool Floats Lia Permutation.
Import ListNotations.

Set Warnings "-inexact-float".

(* ------------------------------------------------------------------------- *)
(** ** JavaScript numbers *)

Module JsNum.

Definition Infinity : float := infinity.

  (** The literal [3.6] (nearest binary64 value). *)
Definition c3_6 : float := 0x1.ccccccccccccdp+1%float.

  (** [Math.max(a, b)]: NaN if either is NaN, and [+0] is larger than [-0]. *)
Definition mathMax (a b : float) : float :=
    if PrimFloat.is_nan a || PrimFloat.is_nan b then nan
    else if (a <? b)%float then b
    else if (b <? a)%float then a
    else if PrimFloat.get_sign a then b else a.

  (** [Math.min(a, b)]: NaN if either is NaN, and [-0] is smaller than [+0]. *)
Definition mathMin (a b : float) : float :=
    if PrimFloat.is_nan a || PrimFloat.is_nan b then nan
    else if (a <? b)%float then a
    else if (b <? a)%float then b
    else if PrimFloat.get_sign a then a else b.

  (** The number value of an integer (rounded to nearest, ties to even). *)
Definition ofZ (z : Z) : float := SF2Prim (binary_normalize prec emax z 0 false).

End JsNum.

(* ------------------------------------------------------------------------- *)
(** ** [Map<number, V>] and [Set<number>] *)

Module JsMap.
Section WithValue.
Context {V : Type}.

Definition t := list (Z * V).

Definition empty : t := [].

Fixpoint get (m : t) (k : Z) : option V :=
      match m with
      | [] => None
      | (k', v) :: rest => if (k' =? k)%Z then Some v else get rest k
      end.

Definition has (m : t) (k : Z) : bool :=
      match get m k with Some _ => true | None => false end.

    (** [m.set(k, v)]: an existing key keeps its position. *)
Fixpoint set (m : t) (k : Z) (v : V) : t :=
      match m with
      | [] => [(k, v)]
      | (k', v') :: rest =>
          if (k' =? k)%Z then (k, v) :: rest else (k', v') :: set rest k v
      end.

Definition keys (m : t) : list Z := map fst m.
Definition values (m : t) : list V := map snd m.
Definition size (m : t) : nat := length m.
End WithValue.
Arguments t : clear implicits.
End JsMap.

Module JsSet.
Definition t := list Z.
Definition empty : t := [].
Definition has (s : t) (k : Z) : bool := existsb (Z.eqb k) s.
Definition add (s : t) (k : Z) : t := if has s k then s else s ++ [k].
End JsSet.

(* ------------------------------------------------------------------------- *)
(** ** Arrays *)

(** The consecutive pairs [(l[i], l[i + 1])] for [i] from [0] to
    [l.length - 2]. *)
Fixpoint segmentsOf {A : Type} (l : list A) : list (A * A) :=
  match l with
  | a :: (b :: _) as rest => (a, b) :: segmentsOf rest
  | _ => []
  end.

(* ------------------------------------------------------------------------- *)
(** ** Data model (osm/graph.ts) *)

Module Graph.

Inductive RoutingMode := car | bicycle | pedestrian.

Record GraphNode := {
  id : Z;
  lat : float;
  lon : float;
  barrier : option string
}.

(** [GraphEdge], with the representation of the [geometry] array left open:
    a list of coordinate pairs where edges are values, a reference where the
    store is modelled (route trimming). *)
Record GraphEdgeOf (G : Type) := {
  from : Z;
  to : Z;
  wayId : Z;
  highway : string;
  maxspeed : float;
  oneway : bool;
  onewayBicycle : bool;
  isReverse : bool;
  distance : float;
  geometry : G;
  access : option string;
  motorVehicle : option string;
  vehicle : option string;
  bicycleTag : option string;
  foot : option string
}.
Arguments from {G}.
Arguments to {G}.
Arguments wayId {G}.
Arguments highway {G}.
Arguments maxspeed {G}.
Arguments oneway {G}.
Arguments onewayBicycle {G}.
Arguments isReverse {G}.
Arguments distance {G}.
Arguments geometry {G}.
Arguments access {G}.
Arguments motorVehicle {G}.
Arguments vehicle {G}.
Arguments bicycleTag {G}.
Arguments foot {G}.

Definition Coord : Type := float * float.
Definition GraphEdge : Type := GraphEdgeOf (list Coord).

Record TurnRestriction := {
  fromWayId : Z;
  viaNodeId : Z;
  toWayId : Z;
  type : string
}.

Record RoutingGraph := {
  nodes : JsMap.t GraphNode;
  adjacency : JsMap.t (list GraphEdge);
  restrictions : list TurnRestriction
}.

(** Every edge stored in the adjacency map, in iteration order. *)
Definition allEdges (g : RoutingGraph) : list GraphEdge :=
  concat (JsMap.values (adjacency g)).

End Graph.
Export Graph.

(* ------------------------------------------------------------------------- *)
(** ** Access rule engine (routing/road-types.ts) *)

Module RoadTypes.

Definition setHas (s : list string) (x : string) : bool :=
    existsb (String.eqb x) s.

Fixpoint lookup {V : Type} (tbl : list (string * V)) (k : string) : option V :=
    match tbl with
    | [] => None
    | (k', v) :: rest => if String.eqb k' k then Some v else lookup rest k
    end.

Definition CAR_BLOCKING_BARRIERS : list string :=
    [ "bollard"; "block"; "cycle_barrier"; "bus_trap";
      "kissing_gate"; "stile"; "turnstile"; "planter";
      "height_restrictor"; "sally_port"; "yes" ]%string.

Definition BICYCLE_BLOCKING_BARRIERS : list string :=
    [ "block"; "kissing_gate"; "stile"; "turnstile" ]%string.

  (** [!node.barrier] holds for an absent tag and for the empty string. *)
Definition isBarrierBlocking (node : GraphNode) (mode : RoutingMode) : bool :=
    match barrier node with
    | None => false
    | Some ""%string => false
    | Some b =>
        match mode with
        | car => setHas CAR_BLOCKING_BARRIERS b
        | bicycle => setHas BICYCLE_BLOCKING_BARRIERS b
        | pedestrian => false
        end
    end.

Record ModeAccess := {
    forCar : bool;
    forBicycle : bool;
    forPedestrian : bool
  }.

Definition modeAccess (r : ModeAccess) (mode : RoutingMode) : bool :=
    match mode with
    | car => forCar r
    | bicycle => forBicycle r
    | pedestrian => forPedestrian r
    end.

Definition ra (c b p : bool) : ModeAccess :=
    {| forCar := c; forBicycle := b; forPedestrian := p |}.

  (** The own keys of the tables. Both are object literals, so that a read
      under a name of [Object.prototype] gives the inherited member: in
      [isEdgeAccessible] that member is truthy and has no property named
      after a mode, so that the edge is rejected as under a missing key;
      in [getTravelSpeed] it is returned, see [InheritedMember]. *)
Definition ROAD_ACCESS : list (string * ModeAccess) :=
    [ ("motorway",       ra true  false false);
      ("motorway_link",  ra true  false false);
      ("trunk",          ra true  false false);
      ("trunk_link",     ra true  false false);
      ("primary",        ra true  true  true);
      ("primary_link",   ra true  true  true);
      ("secondary",      ra true  true  true);
      ("secondary_link", ra true  true  true);
      ("tertiary",       ra true  true  true);
      ("tertiary_link",  ra true  true  true);
      ("residential",    ra true  true  true);
      ("unclassified",   ra true  true  true);
      ("service",        ra true  true  true);
      ("living_street",  ra true  true  true);
      ("cycleway",       ra false true  true);
      ("footway",        ra false false true);
      ("pedestrian",     ra false false true);
      ("path",           ra false false true);
      ("steps",          ra false false true);
      ("busway",         ra false false false) ]%string.

Definition DEFAULT_SPEEDS : list (string * float) :=
    [ ("motorway", 100%float); ("motorway_link", 60%float);
      ("trunk", 80%float); ("trunk_link", 50%float);
      ("primary", 50%float); ("primary_link", 40%float);
      ("secondary", 50%float); ("secondary_link", 30%float);
      ("tertiary", 30%float); ("tertiary_link", 20%float);
      ("residential", 30%float); ("unclassified", 30%float);
      ("service", 15%float); ("living_street", 15%float);
      ("cycleway", 20%float);
      ("footway", 5%float); ("pedestrian", 5%float); ("path", 5%float);
      ("steps", 3%float);
      ("busway", 50%float) ]%string.

  (** The names of the members of [Object.prototype], which an object
      literal inherits: [constructor], the methods, and the accessor
      [__proto__]. *)
Definition OBJECT_PROTOTYPE_KEYS : list string :=
    [ "constructor"; "hasOwnProperty"; "isPrototypeOf"; "propertyIsEnumerable";
      "toLocaleString"; "toString"; "valueOf"; "__proto__";
      "__defineGetter__"; "__defineSetter__";
      "__lookupGetter__"; "__lookupSetter__" ]%string.

  (** What [getTravelSpeed] returns: a number or, read from [DEFAULT_SPEEDS]
      under a name of [Object.prototype], the member inherited under that
      name (a function, or the prototype itself for [__proto__]), which is
      not nullish. *)
Inductive SpeedValue :=
  | NumberValue (x : float)
  | InheritedMember (key : string).

  (** [ToNumber], applied by the arithmetic and the comparisons: a function,
      and the prototype object, have the number value NaN. *)
Definition toNumber (v : SpeedValue) : float :=
    match v with
    | NumberValue x => x
    | InheritedMember _ => nan
    end.

Definition DENY_VALUES : list string := [ "no"; "private" ]%string.

Definition allowedBy (v : string) : bool := negb (setHas DENY_VALUES v).

  (** The general [access] tag, the last rule of [isEdgeAccessible]. *)
Definition generalAccess {G} (edge : GraphEdgeOf G) : bool :=
    match access edge with
    | Some v => allowedBy v
    | None => true
    end.

Definition isEdgeAccessible {G} (edge : GraphEdgeOf G) (mode : RoutingMode) : bool :=
    match lookup ROAD_ACCESS (highway edge) with
    | None => false
    | Some roadAccess =>
        if negb (modeAccess roadAccess mode) then false else
        match mode with
        | car =>
            match motorVehicle edge with
            | Some v => allowedBy v
            | None =>
                match vehicle edge with
                | Some v => allowedBy v
                | None => generalAccess edge
                end
            end
        | bicycle =>
            match bicycleTag edge with
            | Some v => allowedBy v
            | None =>
                match vehicle edge with
                | Some v => allowedBy v
                | None => generalAccess edge
                end
            end
        | pedestrian =>
            match foot edge with
            | Some v => allowedBy v
            | None => generalAccess edge
            end
        end
    end.

Definition canTraverseDirection {G} (edge : GraphEdgeOf G) (_fromNodeId : Z)
      (mode : RoutingMode) (ignoreRestrictions : bool) : bool :=
    match mode with
    | pedestrian => true
    | _ =>
        if negb (oneway edge) then true else
        let isAgainstOneway := isReverse edge in
        match mode with
        | bicycle =>
            if negb isAgainstOneway then true else negb (onewayBicycle edge)
        | _ =>
            if ignoreRestrictions then true else negb isAgainstOneway
        end
    end.

  (** [DEFAULT_SPEEDS[edge.highway] ?? 30] is the last case: [30] stands
      for [undefined] only. *)
Definition getTravelSpeed {G} (edge : GraphEdgeOf G) (mode : RoutingMode)
      : SpeedValue :=
    match mode with
    | bicycle => NumberValue 20%float
    | pedestrian => NumberValue 5%float
    | car =>
        if (0 <? maxspeed edge)%float then NumberValue (maxspeed edge)
        else match lookup DEFAULT_SPEEDS (highway edge) with
             | Some s => NumberValue s
             | None =>
                 if setHas OBJECT_PROTOTYPE_KEYS (highway edge)
                 then InheritedMember (highway edge)
                 else NumberValue 30%float
             end
    end.

Definition getTravelTime {G} (edge : GraphEdgeOf G) (mode : RoutingMode) : float :=
    let speedKmh := getTravelSpeed edge mode in
    let speedMs := (toNumber speedKmh / JsNum.c3_6)%float in
    (distance edge / speedMs)%float.

Definition getMaxSpeed (mode : RoutingMode) : float :=
    match mode with
    | bicycle => 20%float
    | pedestrian => 5%float
    | car => 100%float
    end.

End RoadTypes.

(* ------------------------------------------------------------------------- *)
(** ** Geodesy (osm/parser.ts, [haversine]) *)

(** The engine's [Math.sin], [Math.cos] and [Math.atan2]. *)
Record MathLib := {
  Math_sin : float -> float;
  Math_cos : float -> float;
  Math_atan2 : float -> float -> float
}.

Module Geo.
Section WithMath.
Variable M : MathLib.

    (** [Math.PI] *)
Definition PI : float := 0x1.921fb54442d18p+1%float.

Definition toRad (d : float) : float := (d * PI / 180)%float.

    (** [x ** 2], taken as the correctly rounded square. *)
Definition sq (x : float) : float := (x * x)%float.

Definition haversine (lat1 lon1 lat2 lon2 : float) : float :=
      let R := 6371000%float in
      let dLat := toRad (lat2 - lat1) in
      let dLon := toRad (lon2 - lon1) in
      let a :=
        (sq (Math_sin M (dLat / 2))
         + Math_cos M (toRad lat1) * Math_cos M (toRad lat2)
           * sq (Math_sin M (dLon / 2)))%float in
      (R * 2 * Math_atan2 M (PrimFloat.sqrt a) (PrimFloat.sqrt (1 - a)))%float.
End WithMath.
End Geo.

(* ------------------------------------------------------------------------- *)
(** ** Arrays updated by index *)

Fixpoint replaceAt {A : Type} (l : list A) (i : nat) (x : A) : list A :=
  match l, i with
  | [], _ => []
  | _ :: rest, O => x :: rest
  | y :: rest, S i' => y :: replaceAt rest i' x
  end.

(** [[l[i], l[j]] = [l[j], l[i]]] for indices inside the array. *)
Definition swapAt {A : Type} (l : list A) (i j : nat) : list A :=
  match nth_error l i, nth_error l j with
  | Some a, Some b => replaceAt (replaceAt l i b) j a
  | _, _ => l
  end.

(* ------------------------------------------------------------------------- *)
(** ** The binary min-heap of the search (routing/a-star.ts, [MinHeap]) *)

Module MinHeap.

Record item := { key : float; value : Z }.

Definition t := list item.

Definition size (h : t) : nat := length h.

  (** [items[a].key < items[b].key] *)
Definition keyLt (items : t) (a b : nat) : bool :=
    match nth_error items a, nth_error items b with
    | Some x, Some y => (key x <? key y)%float
    | _, _ => false
    end.

  (** The loop of [bubbleUp]; [fuel] bounds its iterations and [i] is enough,
      see [bubbleUp_fuel]. *)
Fixpoint bubbleUp (fuel : nat) (items : t) (i : nat) : t :=
    match fuel with
    | O => items
    | S fuel' =>
        if (0 <? i)%nat then
          let parent := Nat.shiftr (i - 1) 1 in
          match nth_error items i, nth_error items parent with
          | Some it, Some pt =>
              (* items[i].key >= items[parent].key *)
              if (key pt <=? key it)%float then items
              else bubbleUp fuel' (swapAt items i parent) parent
          | _, _ => items
          end
        else items
    end.

Definition push (h : t) (k : float) (v : Z) : t :=
    let items := h ++ [{| key := k; value := v |}] in
    bubbleUp (length items) items (length items - 1).

  (** The loop of [sinkDown]; [length items - i] iterations are enough, see
      [sinkDown_fuel]. *)
Fixpoint sinkDown (fuel : nat) (items : t) (i : nat) : t :=
    match fuel with
    | O => items
    | S fuel' =>
        let n := length items in
        let left := 2 * i + 1 in
        let right := 2 * i + 2 in
        let smallest := i in
        let smallest :=
          if (left <? n)%nat && keyLt items left smallest then left else smallest in
        let smallest :=
          if (right <? n)%nat && keyLt items right smallest then right else smallest in
        if (smallest =? i)%nat then items
        else sinkDown fuel' (swapAt items i smallest) smallest
    end.

  (** [pop()]: [None] is [undefined] (empty heap); otherwise the value at the
      root and the heap that remains. *)
Definition pop (h : t) : option (Z * t) :=
    match h with
    | [] => None
    | top :: _ =>
        let last := List.last h top in
        match removelast h with
        | [] => Some (value top, [])
        | _ :: rest =>
            let items := last :: rest in
            Some (value top, sinkDown (length items) items 0)
        end
    end.

End MinHeap.

(* ------------------------------------------------------------------------- *)
(** ** Search engine (routing/a-star.ts) *)

Module AStar.
Import RoadTypes.

Inductive AStarStep :=
  | Explore (edge : GraphEdge) (fromNodeId toNodeId : Z)
  | Done (path : list GraphEdge) (pathNodeIds : list Z) (totalTime : option float)
  | NoRoute.

Definition isExplore (s : AStarStep) : bool :=
    match s with Explore _ _ _ => true | _ => false end.

Definition isTerminal (s : AStarStep) : bool :=
    match s with Explore _ _ _ => false | _ => true end.

  (** How a run of the generator ends: it returns, it throws (a [TypeError]
      on a node id absent from [graph.nodes]), or the walk along the
      predecessor links never leaves them. *)
Inductive Completion := Returned | Threw | Diverged.

Record CameFromEntry := {
    prevNodeId : Z;
    edge : GraphEdge;
    prevWayId : Z
  }.

Record AStarOptions := { ignoreRestrictions : option bool }.

  (** [!!options.ignoreRestrictions] *)
Definition ignoring (options : AStarOptions) : bool :=
    match ignoreRestrictions options with
    | Some b => b
    | None => false
    end.

Definition isCar (mode : RoutingMode) : bool :=
    match mode with car => true | _ => false end.

Definition isRestricted (graph : RoutingGraph)
      (fromWay viaNode toWay : Z) : bool :=
    existsb
      (fun r =>
         (fromWayId r =? fromWay)%Z && (viaNodeId r =? viaNode)%Z
         && (toWayId r =? toWay)%Z && String.prefix "no_" (type r))
      (restrictions graph).

  (** The turn restriction check of the neighbour loop. *)
Definition turnRestricted (graph : RoutingGraph) (mode : RoutingMode)
      (options : AStarOptions) (currentWayId currentId : Z)
      (e : GraphEdge) : bool :=
    isCar mode && negb (currentWayId =? 0)%Z && negb (ignoring options)
    && isRestricted graph currentWayId currentId (wayId e).

  (** The barrier check of the neighbour loop. *)
Definition barrierBlocked (graph : RoutingGraph) (mode : RoutingMode)
      (options : AStarOptions) (toNodeId : Z) : bool :=
    negb (ignoring options)
    && match JsMap.get (nodes graph) toNodeId with
       | Some toNode => isBarrierBlocking toNode mode
       | None => false
       end.

Definition targetOf (currentId : Z) (e : GraphEdge) : Z :=
    if (from e =? currentId)%Z then to e else from e.

Record SearchState := {
    gScore : JsMap.t float;
    cameFrom : JsMap.t CameFromEntry;
    openSet : MinHeap.t;
    closed : JsSet.t
  }.

Definition gScoreOr (st : SearchState) (nodeId : Z) : float :=
    match JsMap.get (gScore st) nodeId with
    | Some g => g
    | None => JsNum.Infinity
    end.

  (** The [while (cameFrom.has(cur))] loop of the path reconstruction, in
      the order of its [push]es; [None] when [fuel] links did not leave the
      predecessor map. *)
Fixpoint walkBack (fuel : nat) (cf : JsMap.t CameFromEntry) (cur : Z)
      : option (list GraphEdge * list Z) :=
    match fuel with
    | O => None
    | S fuel' =>
        match JsMap.get cf cur with
        | None => Some ([], [])
        | Some entry =>
            match walkBack fuel' cf (prevNodeId entry) with
            | Some (path, ids) => Some (edge entry :: path, cur :: ids)
            | None => None
            end
        end
    end.

Section WithGraph.
Variable M : MathLib.
Variable graph : RoutingGraph.
Variable startNodeId endNodeId : Z.
Variable mode : RoutingMode.
Variable options : AStarOptions.
Variable endNode : GraphNode.

Definition maxSpeedMs : float := (getMaxSpeed mode / JsNum.c3_6)%float.

    (** [None]: [graph.nodes.get(nodeId)!] is [undefined] and reading its
        [lat] throws. *)
Definition heuristic (nodeId : Z) : option float :=
      match JsMap.get (nodes graph) nodeId with
      | Some node =>
          Some (Geo.haversine M (lat node) (lon node) (lat endNode) (lon endNode)
                / maxSpeedMs)%float
      | None => None
      end.

    (** The [for (const edge of neighbors)] loop: the steps it yields and the
        state it leaves, [None] when it threw. *)
Fixpoint expand (currentId : Z) (currentG : float) (currentWayId : Z)
        (neighbors : list GraphEdge) (st : SearchState)
        : list AStarStep * option SearchState :=
      match neighbors with
      | [] => ([], Some st)
      | e :: rest =>
          if negb (isEdgeAccessible e mode) then
            expand currentId currentG currentWayId rest st
          else
            let toNodeId := targetOf currentId e in
            if negb (canTraverseDirection e currentId mode (ignoring options)) then
              expand currentId currentG currentWayId rest st
            else if turnRestricted graph mode options currentWayId currentId e then
              expand currentId currentG currentWayId rest st
            else if barrierBlocked graph mode options toNodeId then
              expand currentId currentG currentWayId rest st
            else
              let step := Explore e currentId toNodeId in
              let tentativeG := (currentG + getTravelTime e mode)%float in
              if (tentativeG <? gScoreOr st toNodeId)%float then
                match heuristic toNodeId with
                | None => ([step], None)
                | Some h =>
                    let st' :=
                      {| gScore := JsMap.set (gScore st) toNodeId tentativeG;
                         cameFrom :=
                           JsMap.set (cameFrom st) toNodeId
                             {| prevNodeId := currentId; edge := e;
                                prevWayId := wayId e |};
                         openSet :=
                           MinHeap.push (openSet st) (tentativeG + h)%float toNodeId;
                         closed := closed st |} in
                    let (steps, r) :=
                      expand currentId currentG currentWayId rest st' in
                    (step :: steps, r)
                end
              else
                let (steps, r) := expand currentId currentG currentWayId rest st in
                (step :: steps, r)
      end.

    (** [done]: the predecessor links walked back from the goal. *)
Definition reconstruct (st : SearchState) : option AStarStep :=
      match walkBack (S (JsMap.size (cameFrom st))) (cameFrom st) endNodeId with
      | Some (path, ids) =>
          Some (Done (rev path) (rev (ids ++ [startNodeId]))
                  (JsMap.get (gScore st) endNodeId))
      | None => None
      end.

    (** The [while (openSet.size > 0)] loop; [None] when [fuel] iterations did
        not end it. *)
Fixpoint searchLoop (fuel : nat) (st : SearchState)
        : option (list AStarStep * Completion) :=
      match fuel with
      | O => None
      | S fuel' =>
          match MinHeap.pop (openSet st) with
          | None => Some ([NoRoute], Returned)
          | Some (currentId, rest) =>
              if JsSet.has (closed st) currentId then
                searchLoop fuel'
                  {| gScore := gScore st; cameFrom := cameFrom st;
                     openSet := rest; closed := closed st |}
              else
                let st1 :=
                  {| gScore := gScore st; cameFrom := cameFrom st;
                     openSet := rest; closed := JsSet.add (closed st) currentId |} in
                if (currentId =? endNodeId)%Z then
                  match reconstruct st1 with
                  | Some step => Some ([step], Returned)
                  | None => Some ([], Diverged)
                  end
                else
                  let currentG := gScoreOr st1 currentId in
                  let currentWayId :=
                    match JsMap.get (cameFrom st1) currentId with
                    | Some entry => wayId (edge entry)
                    | None => 0%Z
                    end in
                  match JsMap.get (adjacency graph) currentId with
                  | None => searchLoop fuel' st1
                  | Some neighbors =>
                      match expand currentId currentG currentWayId neighbors st1 with
                      | (steps, None) => Some (steps, Threw)
                      | (steps, Some st2) =>
                          match searchLoop fuel' st2 with
                          | Some (more, c) => Some (steps ++ more, c)
                          | None => None
                          end
                      end
                  end
          end
      end.

    (** Iterations that end the loop on every graph, see [searchLoop_total]. *)
Definition searchFuel : nat := 2 + length (allEdges graph).

Definition initialState (h0 : float) : SearchState :=
      {| gScore := JsMap.set JsMap.empty startNodeId 0%float;
         cameFrom := JsMap.empty;
         openSet := MinHeap.push [] h0 startNodeId;
         closed := JsSet.empty |}.
End WithGraph.

  (** The generator [aStarRoute], run to its end: the steps it yields, in
      order, and how it ends. *)
Definition aStarRoute (M : MathLib) (graph : RoutingGraph)
      (startNodeId endNodeId : Z) (mode : RoutingMode) (options : AStarOptions)
      : list AStarStep * Completion :=
    match JsMap.get (nodes graph) endNodeId, JsMap.get (nodes graph) startNodeId with
    | Some endNode, Some startNode =>
        if (startNodeId =? endNodeId)%Z then
          ([Done [] [startNodeId] (Some 0%float)], Returned)
        else
          match heuristic M graph mode endNode startNodeId with
          | None => ([], Threw)
          | Some h0 =>
              match searchLoop M graph startNodeId endNodeId mode options endNode
                      (searchFuel graph) (initialState startNodeId h0) with
              | Some r => r
              | None => ([], Diverged)
              end
          end
    | _, _ => ([NoRoute], Returned)
    end.

  (** [runAStarToCompletion]: the collected steps and the path of the [done]
      step. *)
Definition runAStarToCompletion (M : MathLib) (graph : RoutingGraph)
      (startNodeId endNodeId : Z) (mode : RoutingMode) (options : AStarOptions)
      : list AStarStep * option (list GraphEdge) :=
    let steps := fst (aStarRoute M graph startNodeId endNodeId mode options) in
    (steps,
     fold_left
       (fun finalPath step =>
          match step with Done path _ _ => Some path | _ => finalPath end)
       steps None).

End AStar.


(* ------------------------------------------------------------------------- *)
(** ** Map-extract parser (osm/parser.ts, [parseOSM]) *)

(** [adjacency.get(k)!.push(e)], after [adjacency.set(k, [])] for a new key. *)
Definition pushEdge (adj : JsMap.t (list GraphEdge)) (k : Z) (e : GraphEdge)
    : JsMap.t (list GraphEdge) :=
  match JsMap.get adj k with
  | Some es => JsMap.set adj k (es ++ [e])
  | None => JsMap.set adj k [e]
  end.

Module Parser.

(** The document [DOMParser] returns, reduced to what [parseOSM] reads: the
    [node], [way] and [relation] elements in document order, each with its
    [tag], [nd] and [member] children. An identifier attribute is given
    after [Number(...)]: [None] is [NaN], and other values are integers; the
    [id] of a way is taken to be an integer. A [tag] without [k] matches no
    key and is left out. *)
Definition Tags : Type := list (string * option string).

Record NodeEl := {
  nodeId : option Z;
  nodeLat : float;
  nodeLon : float;
  nodeTags : Tags
}.

Record WayEl := {
  wayElId : Z;
  wayTags : Tags;
  wayRefs : list (option Z)
}.

Record MemberEl := {
  memberRole : option string;
  memberType : option string;
  memberRef : option Z
}.

Record RelationEl := {
  relationTags : Tags;
  relationMembers : list MemberEl
}.

Record Document := {
  nodeEls : list NodeEl;
  wayEls : list WayEl;
  relationEls : list RelationEl
}.

(** [getTag(el, key)]: the [v] of the first tag whose [k] is [key]; [None]
    is [null]. *)
Fixpoint getTag (tags : Tags) (key : string) : option string :=
  match tags with
  | [] => None
  | (k, v) :: rest => if String.eqb k key then v else getTag rest key
  end.

(** A string that is not empty ([!s] is false). *)
Definition truthy (s : option string) : bool :=
  match s with
  | None => false
  | Some ""%string => false
  | Some _ => true
  end.

Definition isSpace (c : ascii) : bool :=
  let n := nat_of_ascii c in
  ((9 <=? n) && (n <=? 13))%nat || (n =? 32)%nat.

Definition digitOf (c : ascii) : option Z :=
  let n := nat_of_ascii c in
  if ((48 <=? n) && (n <=? 57))%nat then Some (Z.of_nat (n - 48)) else None.

Fixpoint skipSpaces (s : string) : string :=
  match s with
  | String c rest => if isSpace c then skipSpaces rest else s
  | EmptyString => s
  end.

(** The digits at the head of [s], read in base 10; [acc] is the value read
    so far, [None] before the first digit. *)
Fixpoint readDigits (s : string) (acc : option Z) : option Z :=
  match s with
  | String c rest =>
      match digitOf c with
      | Some d =>
          readDigits rest
            (Some (10 * match acc with Some a => a | None => 0 end + d)%Z)
      | None => acc
      end
  | EmptyString => acc
  end.

(** [parseInt(s, 10)] on ASCII input: [None] is [NaN]. *)
Definition parseInt10 (s : string) : option Z :=
  match skipSpaces s with
  | String "-"%char rest => option_map Z.opp (readDigits rest None)
  | String "+"%char rest => readDigits rest None
  | rest => readDigits rest None
  end.

(** What [parseOSM] reads of a way before it walks its node references. *)
Record WayInfo := {
  infoWayId : Z;
  infoHighway : string;
  infoMaxspeed : float;
  infoOneway : bool;
  infoOnewayBicycle : bool;
  infoAccess : option string;
  infoMotorVehicle : option string;
  infoVehicle : option string;
  infoBicycle : option string;
  infoFoot : option string
}.

Definition isOneOf (s : option string) (values : list string) : bool :=
  match s with
  | Some v => existsb (String.eqb v) values
  | None => false
  end.

Definition wayInfo (way : WayEl) (hw : string) : WayInfo :=
  let onewayTag := getTag (wayTags way) "oneway" in
  let onewayBicycleTag := getTag (wayTags way) "oneway:bicycle" in
  let maxspeedTag := getTag (wayTags way) "maxspeed" in
  {| infoWayId := wayElId way;
     infoHighway := hw;
     infoMaxspeed :=
       match maxspeedTag with
       | Some s =>
           if truthy maxspeedTag then
             match parseInt10 s with
             | Some z => JsNum.ofZ z
             | None => 0%float
             end
           else 0%float
       | None => 0%float
       end;
     infoOneway := isOneOf onewayTag ["yes"; "1"; "true"]%string;
     infoOnewayBicycle := negb (isOneOf onewayBicycleTag ["no"]%string);
     infoAccess := getTag (wayTags way) "access";
     infoMotorVehicle := getTag (wayTags way) "motor_vehicle";
     infoVehicle := getTag (wayTags way) "vehicle";
     infoBicycle := getTag (wayTags way) "bicycle";
     infoFoot := getTag (wayTags way) "foot" |}.

Section WithMath.
Variable M : MathLib.

Definition segmentDistance (fromNode toNode : GraphNode) : float :=
  Geo.haversine M (lat fromNode) (lon fromNode) (lat toNode) (lon toNode).

(** [edge] *)
Definition forwardEdge (w : WayInfo) (fromId toId : Z)
    (fromNode toNode : GraphNode) : GraphEdge :=
  {| from := fromId; to := toId; wayId := infoWayId w;
     highway := infoHighway w; maxspeed := infoMaxspeed w;
     oneway := infoOneway w; onewayBicycle := infoOnewayBicycle w;
     isReverse := false;
     distance := segmentDistance fromNode toNode;
     geometry := [(lat fromNode, lon fromNode); (lat toNode, lon toNode)];
     access := infoAccess w; motorVehicle := infoMotorVehicle w;
     vehicle := infoVehicle w; bicycleTag := infoBicycle w; foot := infoFoot w |}.

(** [reverseEdge] *)
Definition reverseEdge (w : WayInfo) (fromId toId : Z)
    (fromNode toNode : GraphNode) : GraphEdge :=
  {| from := toId; to := fromId; wayId := infoWayId w;
     highway := infoHighway w; maxspeed := infoMaxspeed w;
     oneway := infoOneway w; onewayBicycle := infoOnewayBicycle w;
     isReverse := true;
     distance := segmentDistance fromNode toNode;
     geometry := [(lat toNode, lon toNode); (lat fromNode, lon fromNode)];
     access := infoAccess w; motorVehicle := infoMotorVehicle w;
     vehicle := infoVehicle w; bicycleTag := infoBicycle w; foot := infoFoot w |}.

(** The adjacency map and the set of referenced nodes, as the loop over the
    ways fills them. *)
Record Build := {
  builtAdjacency : JsMap.t (list GraphEdge);
  referencedNodes : JsSet.t
}.

(** 1. Parse nodes. *)
Definition parseNodes (els : list NodeEl) : JsMap.t GraphNode :=
  fold_left
    (fun allNodes el =>
       match nodeId el with
       | Some i =>
           if negb (PrimFloat.is_nan (nodeLat el))
              && negb (PrimFloat.is_nan (nodeLon el))
           then
             JsMap.set allNodes i
               {| id := i; lat := nodeLat el; lon := nodeLon el;
                  barrier := getTag (nodeTags el) "barrier" |}
           else allNodes
       | None => allNodes
       end)
    els JsMap.empty.

(** One iteration of the loop over [j]: the pair [nodeIds[j]],
    [nodeIds[j + 1]]. *)
Definition addSegment (allNodes : JsMap.t GraphNode) (w : WayInfo)
    (b : Build) (fromRef toRef : option Z) : Build :=
  match fromRef, toRef with
  | Some fromId, Some toId =>
      match JsMap.get allNodes fromId, JsMap.get allNodes toId with
      | Some fromNode, Some toNode =>
          {| builtAdjacency :=
               pushEdge
                 (pushEdge (builtAdjacency b) fromId
                    (forwardEdge w fromId toId fromNode toNode))
                 toId (reverseEdge w fromId toId fromNode toNode);
             referencedNodes :=
               JsSet.add (JsSet.add (referencedNodes b) fromId) toId |}
      | _, _ => b
      end
  | _, _ => b
  end.

(** The loop over [j] from [0] to [nodeIds.length - 2]. *)
Fixpoint addSegments (allNodes : JsMap.t GraphNode) (w : WayInfo)
    (b : Build) (nodeIds : list (option Z)) : Build :=
  match nodeIds with
  | fromRef :: (toRef :: _) as rest =>
      addSegments allNodes w (addSegment allNodes w b fromRef toRef) rest
  | _ => b
  end.

(** 2. One way. *)
Definition addWay (allNodes : JsMap.t GraphNode) (b : Build) (way : WayEl) : Build :=
  match getTag (wayTags way) "highway" with
  | Some hw =>
      if truthy (Some hw) then addSegments allNodes (wayInfo way hw) b (wayRefs way)
      else b
  | None => b
  end.

(** 3. One relation. *)
Definition memberOf (role kind : string) (m : MemberEl) : bool :=
  isOneOf (memberRole m) [role] && isOneOf (memberType m) [kind].

Definition pickRef (role kind : string) (current : Z) (m : MemberEl) : Z :=
  if memberOf role kind m then
    match memberRef m with Some z => z | None => 0%Z end
  else current.

Definition addRelation (rs : list TurnRestriction) (rel : RelationEl)
    : list TurnRestriction :=
  if negb (isOneOf (getTag (relationTags rel) "type") ["restriction"]%string) then rs
  else
    match getTag (relationTags rel) "restriction" with
    | Some restrictionType =>
        if negb (truthy (Some restrictionType)) then rs
        else
          let fromWay := fold_left (pickRef "from" "way") (relationMembers rel) 0%Z in
          let viaNode := fold_left (pickRef "via" "node") (relationMembers rel) 0%Z in
          let toWay := fold_left (pickRef "to" "way") (relationMembers rel) 0%Z in
          if negb (fromWay =? 0)%Z && negb (viaNode =? 0)%Z && negb (toWay =? 0)%Z
          then rs ++ [{| fromWayId := fromWay; viaNodeId := viaNode;
                         toWayId := toWay; type := restrictionType |}]
          else rs
    | None => rs
    end.

(** 4. The final node map. *)
Definition keepReferenced (allNodes : JsMap.t GraphNode) (referenced : JsSet.t)
    : JsMap.t GraphNode :=
  fold_left
    (fun nodes i =>
       match JsMap.get allNodes i with
       | Some node => JsMap.set nodes i node
       | None => nodes
       end)
    referenced JsMap.empty.

Definition buildWays (allNodes : JsMap.t GraphNode) (ways : list WayEl) : Build :=
  fold_left (addWay allNodes) ways
    {| builtAdjacency := JsMap.empty; referencedNodes := JsSet.empty |}.

Definition parseOSM (doc : Document) : RoutingGraph :=
  let allNodes := parseNodes (nodeEls doc) in
  let b := buildWays allNodes (wayEls doc) in
  {| nodes := keepReferenced allNodes (referencedNodes b);
     adjacency := builtAdjacency b;
     restrictions := fold_left addRelation (relationEls doc) [] |}.

End WithMath.
End Parser.

(* ------------------------------------------------------------------------- *)
(** ** Geometric matcher (routing/map-matching.ts) *)

(** How a call ends: with a value, or with the [TypeError] of a property
    read on [undefined]. *)
Inductive Outcome (A : Type) : Type :=
| Normal (a : A)
| TypeError.
Arguments Normal {A} a.
Arguments TypeError {A}.

(** [SnapResult], with the representation of the [edge] left open as for
    [GraphEdgeOf]. *)
Module SnapResult.
Record t (E : Type) := {
  nodeId : Z;
  lat : float;
  lon : float;
  edge : E;
  distanceToSnap : float
}.
Arguments nodeId {E}.
Arguments lat {E}.
Arguments lon {E}.
Arguments edge {E}.
Arguments distanceToSnap {E}.
End SnapResult.

Module MapMatching.
Import RoadTypes.

Record Projection := { x : float; y : float; t : float }.

Definition projectPointOnSegment (px py ax ay bx by_ : float) : Projection :=
  let dx := (bx - ax)%float in
  let dy := (by_ - ay)%float in
  let lenSq := (dx * dx + dy * dy)%float in
  if (lenSq =? 0)%float then {| x := ax; y := ay; t := 0 |}
  else
    let t0 := (((px - ax) * dx + (py - ay) * dy) / lenSq)%float in
    let t1 := JsNum.mathMax 0 (JsNum.mathMin 1 t0) in
    {| x := (ax + t1 * dx)%float; y := (ay + t1 * dy)%float; t := t1 |}.

(** The key [`${edge.wayId}-${edge.from}-${edge.to}`]: on integers the
    string determines the three numbers, which stand for it. *)
Definition EdgeKey : Type := Z * Z * Z.

Definition keyOf (e : GraphEdge) : EdgeKey := (wayId e, from e, to e).

Definition keyEqb (a b : EdgeKey) : bool :=
  let '(a1, a2, a3) := a in
  let '(b1, b2, b3) := b in
  (a1 =? b1)%Z && (a2 =? b2)%Z && (a3 =? b3)%Z.

Definition seenHas (seen : list EdgeKey) (k : EdgeKey) : bool :=
  existsb (keyEqb k) seen.

(** [bestDist], [bestLat], [bestLon] and [bestEdge]. *)
Record Best := {
  bestDist : float;
  bestLat : float;
  bestLon : float;
  bestEdge : option GraphEdge
}.

Section WithMath.
Variable M : MathLib.

(** The distance from the query point to its projection on a segment. *)
Definition projectedDistance (lat lon : float) (seg : Coord * Coord) : float :=
  let proj :=
    projectPointOnSegment lat lon (fst (fst seg)) (snd (fst seg))
      (fst (snd seg)) (snd (snd seg)) in
  Geo.haversine M lat lon (x proj) (y proj).

(** One iteration of the loop over the geometry of [e]. *)
Definition scanSegment (lat lon : float) (e : GraphEdge) (b : Best)
    (seg : Coord * Coord) : Best :=
  let proj :=
    projectPointOnSegment lat lon (fst (fst seg)) (snd (fst seg))
      (fst (snd seg)) (snd (snd seg)) in
  let dist := Geo.haversine M lat lon (x proj) (y proj) in
  if (dist <? bestDist b)%float then
    {| bestDist := dist; bestLat := x proj; bestLon := y proj; bestEdge := Some e |}
  else b.

(** One iteration of the loop over the edges. *)
Definition scanEdge (lat lon : float) (mode : RoutingMode)
    (st : list EdgeKey * Best) (e : GraphEdge) : list EdgeKey * Best :=
  let (seen, b) := st in
  if seenHas seen (keyOf e) then st
  else
    let seen' := keyOf e :: seen in
    if negb (isEdgeAccessible e mode) then (seen', b)
    else (seen', fold_left (scanSegment lat lon e) (segmentsOf (geometry e)) b).

Definition noBest : Best :=
  {| bestDist := JsNum.Infinity; bestLat := 0; bestLon := 0; bestEdge := None |}.

(** [snapToRoad]: [Normal None] is [null]. *)
Definition snapToRoad (lat lon : float) (graph : RoutingGraph) (mode : RoutingMode)
    : Outcome (option (SnapResult.t GraphEdge)) :=
  let b := snd (fold_left (scanEdge lat lon mode) (allEdges graph) ([], noBest)) in
  match bestEdge b with
  | None => Normal None
  | Some e =>
      match JsMap.get (nodes graph) (from e), JsMap.get (nodes graph) (to e) with
      | Some fromNode, Some toNode =>
          let distToFrom :=
            Geo.haversine M (bestLat b) (bestLon b)
              (Graph.lat fromNode) (Graph.lon fromNode) in
          let distToTo :=
            Geo.haversine M (bestLat b) (bestLon b)
              (Graph.lat toNode) (Graph.lon toNode) in
          Normal
            (Some
               {| SnapResult.nodeId :=
                    if (distToFrom <=? distToTo)%float then from e else to e;
                  SnapResult.lat := bestLat b;
                  SnapResult.lon := bestLon b;
                  SnapResult.edge := e;
                  SnapResult.distanceToSnap := bestDist b |})
      | _, _ => TypeError
      end
  end.

(** [findSnapSegment] on the coordinates of a geometry; reading
    [geometry[0][0]] of an empty geometry throws. *)
Record SnapSegment := {
  segmentIndex : nat;
  projLat : float;
  projLon : float
}.

Record FindState := {
  fBestDist : float;
  fBest : SnapSegment
}.

Definition findStep (snapLat snapLon : float) (st : FindState)
    (iseg : nat * (Coord * Coord)) : FindState :=
  let proj :=
    projectPointOnSegment snapLat snapLon
      (fst (fst (snd iseg))) (snd (fst (snd iseg)))
      (fst (snd (snd iseg))) (snd (snd (snd iseg))) in
  let dist := Geo.haversine M snapLat snapLon (x proj) (y proj) in
  if (dist <? fBestDist st)%float then
    {| fBestDist := dist;
       fBest := {| segmentIndex := fst iseg; projLat := x proj; projLon := y proj |} |}
  else st.

(** The segments with their index [i]. *)
Definition indexed {A : Type} (l : list A) : list (nat * A) :=
  combine (seq 0 (length l)) l.

Definition findSnapSegment (snapLat snapLon : float) (geometry : list Coord)
    : Outcome SnapSegment :=
  match geometry with
  | [] => TypeError
  | first :: _ =>
      Normal
        (fBest
           (fold_left (findStep snapLat snapLon) (indexed (segmentsOf geometry))
              {| fBestDist := JsNum.Infinity;
                 fBest := {| segmentIndex := 0; projLat := fst first;
                             projLon := snd first |} |}))
  end.

End WithMath.
End MapMatching.

(* ------------------------------------------------------------------------- *)
(** ** Route trimming (routing/map-matching.ts, [trimRouteToSnapPoints])

    Trimming builds new objects from shared ones, so it is modelled over a
    store: a route is an array of references to edge objects, the geometry
    of an edge object is a reference to an array of references to coordinate
    pairs. *)

Module Store.

Definition loc := nat.

Inductive obj :=
| OPair (p : Coord)
| OArray (elems : list loc)
| OEdge (e : GraphEdgeOf loc).

Definition t := list obj.

End Store.

Module Trim.
Import Store MapMatching.

(** A computation over the store; a [TypeError] keeps the store it was
    thrown in. *)
Definition Comp (A : Type) : Type := Store.t -> Store.t * Outcome A.

Definition ret {A : Type} (a : A) : Comp A := fun s => (s, Normal a).

Definition throw {A : Type} : Comp A := fun s => (s, TypeError).

Definition bind {A B : Type} (m : Comp A) (f : A -> Comp B) : Comp B :=
  fun s =>
    match m s with
    | (s', Normal a) => f a s'
    | (s', TypeError) => (s', TypeError)
    end.

Notation "x <- m ;; f" := (bind m (fun x => f))
  (at level 61, m at next level, right associativity).

(** A new object. *)
Definition alloc (o : obj) : Comp loc := fun s => (s ++ [o], Normal (length s)).

Definition lift {A : Type} (r : Outcome A) : Comp A := fun s => (s, r).

Definition readPair (l : loc) : Comp Coord :=
  fun s => match nth_error s l with
           | Some (OPair p) => (s, Normal p)
           | _ => (s, TypeError)
           end.

Definition readArray (l : loc) : Comp (list loc) :=
  fun s => match nth_error s l with
           | Some (OArray elems) => (s, Normal elems)
           | _ => (s, TypeError)
           end.

Definition readEdge (l : loc) : Comp (GraphEdgeOf loc) :=
  fun s => match nth_error s l with
           | Some (OEdge e) => (s, Normal e)
           | _ => (s, TypeError)
           end.

Definition write (l : loc) (o : obj) : Comp unit :=
  fun s => (replaceAt s l o, Normal tt).

Fixpoint mapM {A B : Type} (f : A -> Comp B) (l : list A) : Comp (list B) :=
  match l with
  | [] => ret []
  | a :: rest => (b <- f a ;; bs <- mapM f rest ;; ret (b :: bs))
  end.

Fixpoint forEach {A : Type} (f : A -> Comp unit) (l : list A) : Comp unit :=
  match l with
  | [] => ret tt
  | a :: rest => (_ <- f a ;; forEach f rest)
  end.

(** [arr.push(x)] *)
Definition push (arr : loc) (x : loc) : Comp unit :=
  elems <- readArray arr ;; write arr (OArray (elems ++ [x])).

Definition withGeometry (e : GraphEdgeOf loc) (g : loc) : GraphEdgeOf loc :=
  {| from := from e; to := to e; wayId := wayId e; highway := highway e;
     maxspeed := maxspeed e; oneway := oneway e;
     onewayBicycle := onewayBicycle e; isReverse := isReverse e;
     distance := distance e; geometry := g;
     access := access e; motorVehicle := motorVehicle e; vehicle := vehicle e;
     bicycleTag := bicycleTag e; foot := foot e |}.

(** [edge.geometry = g] *)
Definition setGeometry (edge : loc) (g : loc) : Comp unit :=
  e <- readEdge edge ;; write edge (OEdge (withGeometry e g)).

(** The coordinates a geometry array refers to. *)
Definition readCoords (geometry : loc) : Comp (list Coord) :=
  elems <- readArray geometry ;; mapM readPair elems.

Record TrimmedRoute := { edges : loc }.

Section WithMath.
Variable M : MathLib.

Definition findSnapSegmentAt (snapLat snapLon : float) (geometry : loc)
    : Comp SnapSegment :=
  coords <- readCoords geometry ;;
  lift (findSnapSegment M snapLat snapLon coords).

Definition trimGeometryFromStart (geometry : loc) (snapLat snapLon : float)
    : Comp loc :=
  seg <- findSnapSegmentAt snapLat snapLon geometry ;;
  p <- alloc (OPair (projLat seg, projLon seg)) ;;
  result <- alloc (OArray [p]) ;;
  elems <- readArray geometry ;;
  _ <- forEach (push result) (skipn (segmentIndex seg + 1) elems) ;;
  ret result.

Definition trimGeometryToEnd (geometry : loc) (snapLat snapLon : float)
    : Comp loc :=
  seg <- findSnapSegmentAt snapLat snapLon geometry ;;
  result <- alloc (OArray []) ;;
  elems <- readArray geometry ;;
  _ <- forEach (push result) (firstn (segmentIndex seg + 1) elems) ;;
  p <- alloc (OPair (projLat seg, projLon seg)) ;;
  _ <- push result p ;;
  ret result.

(** [{ ...e, geometry: [...e.geometry] }] *)
Definition copyEdge (edge : loc) : Comp loc :=
  e <- readEdge edge ;;
  elems <- readArray (geometry e) ;;
  g <- alloc (OArray elems) ;;
  alloc (OEdge (withGeometry e g)).

(** Which snap comes first along the geometry. *)
Definition originFirst (coords : list Coord) (originSeg destSeg : SnapSegment)
    : Outcome bool :=
  if (segmentIndex originSeg <? segmentIndex destSeg)%nat then Normal true
  else if (segmentIndex originSeg =? segmentIndex destSeg)%nat then
    match nth_error coords (segmentIndex originSeg),
          nth_error coords (segmentIndex destSeg) with
    | Some po, Some pd =>
        Normal
          (Geo.haversine M (fst po) (snd po) (projLat originSeg) (projLon originSeg)
           <=? Geo.haversine M (fst pd) (snd pd) (projLat destSeg) (projLon destSeg))%float
    | _, _ => TypeError
    end
  else Normal false.

Definition trimRouteToSnapPoints (path : loc)
    (originSnap destinationSnap : SnapResult.t loc) : Comp TrimmedRoute :=
  pathEdges <- readArray path ;;
  match pathEdges with
  | [] =>
      empty <- alloc (OArray []) ;;
      ret {| edges := empty |}
  | _ :: _ =>
      copies <- mapM copyEdge pathEdges ;;
      result <- alloc (OArray copies) ;;
      match copies with
      | [only] =>
          e <- readEdge only ;;
          let geo := geometry e in
          originSeg <- findSnapSegmentAt (SnapResult.lat originSnap)
                         (SnapResult.lon originSnap) geo ;;
          destSeg <- findSnapSegmentAt (SnapResult.lat destinationSnap)
                       (SnapResult.lon destinationSnap) geo ;;
          coords <- readCoords geo ;;
          first <- lift (originFirst coords originSeg destSeg) ;;
          if first then
            trimmed <- trimGeometryFromStart geo (SnapResult.lat originSnap)
                         (SnapResult.lon originSnap) ;;
            g <- trimGeometryToEnd trimmed (SnapResult.lat destinationSnap)
                   (SnapResult.lon destinationSnap) ;;
            _ <- setGeometry only g ;;
            ret {| edges := result |}
          else
            trimmed <- trimGeometryFromStart geo (SnapResult.lat destinationSnap)
                         (SnapResult.lon destinationSnap) ;;
            g <- trimGeometryToEnd trimmed (SnapResult.lat originSnap)
                   (SnapResult.lon originSnap) ;;
            _ <- setGeometry only g ;;
            ret {| edges := result |}
      | firstEdge :: _ =>
          e0 <- readEdge firstEdge ;;
          let firstGeo := geometry e0 in
          let firstNodeId := from e0 in
          g0 <- (if (SnapResult.nodeId originSnap =? firstNodeId)%Z then
                   trimGeometryFromStart firstGeo (SnapResult.lat originSnap)
                     (SnapResult.lon originSnap)
                 else
                   trimGeometryToEnd firstGeo (SnapResult.lat originSnap)
                     (SnapResult.lon originSnap)) ;;
          _ <- setGeometry firstEdge g0 ;;
          let lastEdge := List.last copies firstEdge in
          e1 <- readEdge lastEdge ;;
          let lastGeo := geometry e1 in
          let lastToNodeId := to e1 in
          g1 <- (if (SnapResult.nodeId destinationSnap =? lastToNodeId)%Z then
                   trimGeometryToEnd lastGeo (SnapResult.lat destinationSnap)
                     (SnapResult.lon destinationSnap)
                 else
                   trimGeometryFromStart lastGeo (SnapResult.lat destinationSnap)
                     (SnapResult.lon destinationSnap)) ;;
          _ <- setGeometry lastEdge g1 ;;
          ret {| edges := result |}
      | [] => ret {| edges := result |}
      end
  end.

End WithMath.
End Trim.

(* ------------------------------------------------------------------------- *)
(** ** Animation of the steps (animation/animator.ts, [Animator])

    The animator is a state and methods that change it; what it asks of the
    renderer, of the frame scheduler and of its callbacks is the list of
    events a call returns. The handle [requestAnimationFrame] returns is
    only tested against [null]: the state holds whether there is one. The
    clock [performance.now()] is an argument of the calls that read it. *)

(** The engine's [Math.pow] and [Math.round]. *)
Record PowLib := {
  Math_pow : float -> float -> float;
  Math_round : float -> float
}.

Module Animation.
Import AStar MapMatching.

Record AnimationStats := {
  exploredEdges : nat;
  routeEdges : nat;
  totalSteps : nat
}.

Inductive Event :=
| ClearAnimation                      (* renderer.clearAnimation() *)
| AddExploredEdge (e : GraphEdge)     (* renderer.addExploredEdge(e) *)
| AddRouteEdge (e : GraphEdge)        (* renderer.addRouteEdge(e) *)
| RequestFrame                        (* requestAnimationFrame(this.tick) *)
| CancelFrame                         (* cancelAnimationFrame(this.animationId) *)
| Progress (stats : AnimationStats)   (* this.onProgress(stats) *)
| Complete.                           (* this.onComplete() *)

Record Animator := {
  steps : list AStarStep;
  pathEdgeSet : list EdgeKey;
  pathEdgeMap : list (EdgeKey * GraphEdge);
  currentIndex : nat;
  animationId : bool;
  speed : float;
  lastFrameTime : float;
  onComplete : bool;
  onProgress : bool;
  exploredCount : nat;
  routeCount : nat
}.

(** [new Animator(renderer)] *)
Definition create : Animator :=
  {| steps := []; pathEdgeSet := []; pathEdgeMap := []; currentIndex := 0;
     animationId := false; speed := 5; lastFrameTime := 0;
     onComplete := false; onProgress := false;
     exploredCount := 0; routeCount := 0 |}.

(** [edgeKey]: the way and the two ends, the lower first. *)
Definition edgeKey (e : GraphEdge) : EdgeKey :=
  (wayId e, Z.min (from e) (to e), Z.max (from e) (to e)).

Definition setAdd (s : list EdgeKey) (k : EdgeKey) : list EdgeKey :=
  if seenHas s k then s else s ++ [k].

Fixpoint mapGet (m : list (EdgeKey * GraphEdge)) (k : EdgeKey) : option GraphEdge :=
  match m with
  | [] => None
  | (k', e) :: rest => if keyEqb k' k then Some e else mapGet rest k
  end.

Fixpoint mapSet (m : list (EdgeKey * GraphEdge)) (k : EdgeKey) (e : GraphEdge)
    : list (EdgeKey * GraphEdge) :=
  match m with
  | [] => [(k, e)]
  | (k', e') :: rest =>
      if keyEqb k' k then (k, e) :: rest else (k', e') :: mapSet rest k e
  end.

(** [stop()] *)
Definition stop (a : Animator) : Animator * list Event :=
  if animationId a then
    ({| steps := steps a; pathEdgeSet := pathEdgeSet a;
        pathEdgeMap := pathEdgeMap a; currentIndex := currentIndex a;
        animationId := false; speed := speed a;
        lastFrameTime := lastFrameTime a;
        onComplete := onComplete a; onProgress := onProgress a;
        exploredCount := exploredCount a; routeCount := routeCount a |},
     [CancelFrame])
  else (a, []).

(** [loadSteps(steps, finalPath)] *)
Definition loadSteps (newSteps : list AStarStep) (finalPath : list GraphEdge)
    (a : Animator) : Animator * list Event :=
  let (a1, ev) := stop a in
  ({| steps := newSteps;
      pathEdgeSet := fold_left (fun s e => setAdd s (edgeKey e)) finalPath [];
      pathEdgeMap := fold_left (fun m e => mapSet m (edgeKey e) e) finalPath [];
      currentIndex := 0;
      animationId := animationId a1; speed := speed a1;
      lastFrameTime := lastFrameTime a1;
      onComplete := onComplete a1; onProgress := onProgress a1;
      exploredCount := 0; routeCount := 0 |},
   ev ++ [ClearAnimation]).

(** [setSpeed(speed)] *)
Definition setSpeed (s : float) (a : Animator) : Animator :=
  {| steps := steps a; pathEdgeSet := pathEdgeSet a;
     pathEdgeMap := pathEdgeMap a; currentIndex := currentIndex a;
     animationId := animationId a;
     speed := JsNum.mathMax 1 (JsNum.mathMin 10 s);
     lastFrameTime := lastFrameTime a;
     onComplete := onComplete a; onProgress := onProgress a;
     exploredCount := exploredCount a; routeCount := routeCount a |}.

(** [getSpeed()] *)
Definition getSpeed (a : Animator) : float := speed a.

(** [isRunning()] *)
Definition isRunning (a : Animator) : bool := animationId a.

(** [reset()] *)
Definition reset (a : Animator) : Animator * list Event :=
  let (a1, ev) := stop a in
  ({| steps := steps a1; pathEdgeSet := pathEdgeSet a1;
      pathEdgeMap := pathEdgeMap a1; currentIndex := 0;
      animationId := animationId a1; speed := speed a1;
      lastFrameTime := lastFrameTime a1;
      onComplete := onComplete a1; onProgress := onProgress a1;
      exploredCount := 0; routeCount := 0 |},
   ev ++ [ClearAnimation]).

(** [emitProgress()] *)
Definition emitProgress (a : Animator) : list Event :=
  if onProgress a then
    [Progress {| exploredEdges := exploredCount a; routeEdges := routeCount a;
                 totalSteps := length (steps a) |}]
  else [].

(** [this.onComplete?.()] *)
Definition callComplete (a : Animator) : list Event :=
  if onComplete a then [Complete] else [].

(** [getInterval()] *)
Definition getInterval (a : Animator) : float :=
  if (speed a <=? 1)%float then 100%float else 0%float.

Section WithPow.
Variable P : PowLib.

(** [getStepsPerFrame()] *)
Definition getStepsPerFrame (a : Animator) : float :=
  if (speed a <=? 1)%float then 2%float
  else if (speed a <=? 3)%float then (speed a * 4)%float
  else if (speed a <=? 6)%float then (speed a * 10)%float
  else Math_round P (Math_pow P 2 (speed a)).

(** The state after the explore step of [e] is drawn, and what is drawn. *)
Definition drawExplore (e : GraphEdge) (a : Animator) : Animator * list Event :=
  let onRoute := seenHas (pathEdgeSet a) (edgeKey e) in
  ({| steps := steps a; pathEdgeSet := pathEdgeSet a;
      pathEdgeMap := pathEdgeMap a; currentIndex := S (currentIndex a);
      animationId := animationId a; speed := speed a;
      lastFrameTime := lastFrameTime a;
      onComplete := onComplete a; onProgress := onProgress a;
      exploredCount := S (exploredCount a);
      routeCount := if onRoute then S (routeCount a) else routeCount a |},
   AddExploredEdge e
   :: (if onRoute then
         [AddRouteEdge
            match mapGet (pathEdgeMap a) (edgeKey e) with
            | Some trimmedEdge => trimmedEdge
            | None => e
            end]
       else [])).

(** The state after a terminal step is read. *)
Definition passTerminal (a : Animator) : Animator :=
  {| steps := steps a; pathEdgeSet := pathEdgeSet a;
     pathEdgeMap := pathEdgeMap a; currentIndex := S (currentIndex a);
     animationId := animationId a; speed := speed a;
     lastFrameTime := lastFrameTime a;
     onComplete := onComplete a; onProgress := onProgress a;
     exploredCount := exploredCount a; routeCount := routeCount a |}.

(** The [while] loop of [tick]; the flag tells that it left by [return],
    on a terminal step. Each iteration takes one step, so that the steps
    left, [fuel], bound the iterations. *)
Fixpoint frameLoop (fuel : nat) (stepsPerFrame processed : float) (a : Animator)
    : Animator * list Event * bool :=
  match fuel with
  | O => (a, [], false)
  | S fuel' =>
      if (processed <? stepsPerFrame)%float
         && (currentIndex a <? length (steps a))%nat
      then
        match nth_error (steps a) (currentIndex a) with
        | Some (Explore e _ _) =>
            let (a1, ev) := drawExplore e a in
            let '(a2, ev', returned) :=
              frameLoop fuel' stepsPerFrame (processed + 1)%float a1 in
            (a2, ev ++ ev', returned)
        | Some _ =>
            let a1 := passTerminal a in
            let (a2, ev) := stop a1 in
            (a2, emitProgress a1 ++ ev ++ callComplete a2, true)
        | None => (a, [], false)
        end
      else (a, [], false)
  end.

Definition requested (a : Animator) : Animator :=
  {| steps := steps a; pathEdgeSet := pathEdgeSet a;
     pathEdgeMap := pathEdgeMap a; currentIndex := currentIndex a;
     animationId := true; speed := speed a;
     lastFrameTime := lastFrameTime a;
     onComplete := onComplete a; onProgress := onProgress a;
     exploredCount := exploredCount a; routeCount := routeCount a |}.

Definition atTime (now : float) (a : Animator) : Animator :=
  {| steps := steps a; pathEdgeSet := pathEdgeSet a;
     pathEdgeMap := pathEdgeMap a; currentIndex := currentIndex a;
     animationId := animationId a; speed := speed a;
     lastFrameTime := now;
     onComplete := onComplete a; onProgress := onProgress a;
     exploredCount := exploredCount a; routeCount := routeCount a |}.

(** [tick], at the time [now]. *)
Definition tick (now : float) (a : Animator) : Animator * list Event :=
  let elapsed := (now - lastFrameTime a)%float in
  let stepsPerFrame := getStepsPerFrame a in
  let interval := getInterval a in
  if (elapsed <? interval)%float then (requested a, [RequestFrame])
  else
    let a0 := atTime now a in
    let '(a1, ev, returned) :=
      frameLoop (length (steps a0) - currentIndex a0) stepsPerFrame 0 a0 in
    if returned then (a1, ev)
    else if (length (steps a1) <=? currentIndex a1)%nat then
      let (a2, ev') := stop a1 in
      (a2, ev ++ emitProgress a1 ++ ev' ++ callComplete a2)
    else (requested a1, ev ++ emitProgress a1 ++ [RequestFrame]).

(** [start(onComplete, onProgress)]: the flags tell which callbacks are
    given; [now] is the time [start] reads and [now'] the time the first
    [tick] reads. *)
Definition start (complete progress : bool) (now now' : float) (a : Animator)
    : Animator * list Event :=
  if animationId a then (a, [])
  else
    let a1 :=
      {| steps := steps a; pathEdgeSet := pathEdgeSet a;
         pathEdgeMap := pathEdgeMap a; currentIndex := currentIndex a;
         animationId := animationId a; speed := speed a;
         lastFrameTime := now;
         onComplete := complete; onProgress := progress;
         exploredCount := exploredCount a; routeCount := routeCount a |} in
    let (a2, ev) := tick now' a1 in
    (a2, emitProgress a1 ++ ev).

End WithPow.
End Animation.

(* ------------------------------------------------------------------------- *)
(** ** The bounds of the map (map/map-renderer.ts, [getBounds]) *)

Module Renderer.

(** [Math.min(...xs)] *)
Definition mathMinAll (xs : list float) : float :=
  fold_left JsNum.mathMin xs JsNum.Infinity.

(** [Math.max(...xs)] *)
Definition mathMaxAll (xs : list float) : float :=
  fold_left JsNum.mathMax xs neg_infinity.

(** [getBounds]: [None] is [null]; otherwise the two corners given to
    [L.latLngBounds], the south-west one first. *)
Definition getBounds (graph : RoutingGraph) : option (Coord * Coord) :=
  let lats := map lat (JsMap.values (nodes graph)) in
  let lons := map lon (JsMap.values (nodes graph)) in
  if (length lats =? 0)%nat then None
  else Some ((mathMinAll lats, mathMinAll lons), (mathMaxAll lats, mathMaxAll lons)).

End Renderer.
(* ------------------------------------------------------------------------- *)
(** ** A math library and the graphs of the test suite, for evaluation *)

Module Examples.
Import AStar.

  (** Polynomial approximations, good to about 1e-12 on the arguments the
      examples use. The examples do not depend on the digits they return. *)
Definition sinApprox (x : float) : float :=
    let x2 := (x * x)%float in
    (x * (1 - x2 / 6 * (1 - x2 / 20 * (1 - x2 / 42 * (1 - x2 / 72
       * (1 - x2 / 110 * (1 - x2 / 156 * (1 - x2 / 210))))))))%float.

Definition cosApprox (x : float) : float :=
    let x2 := (x * x)%float in
    (1 - x2 / 2 * (1 - x2 / 12 * (1 - x2 / 30 * (1 - x2 / 56
       * (1 - x2 / 90 * (1 - x2 / 132 * (1 - x2 / 182)))))))%float.

Definition atanSmall (z : float) : float :=
    let z2 := (z * z)%float in
    (z * (1 - z2 * (1 / 3 - z2 * (1 / 5 - z2 * (1 / 7 - z2 * (1 / 9
       - z2 * (1 / 11 - z2 * (1 / 13 - z2 / 15))))))))%float.

Definition halve (z : float) : float :=
    (z / (1 + PrimFloat.sqrt (1 + z * z)))%float.

Definition atanUnit (z : float) : float :=
    (4 * atanSmall (halve (halve z)))%float.

  (** For [y >= 0] and [x >= 0], the quadrant [haversine] uses. *)
Definition atan2Approx (y x : float) : float :=
    if (y <=? x)%float then
      if (x =? 0)%float then 0%float else atanUnit (y / x)
    else (Geo.PI / 2 - atanUnit (x / y))%float.

Definition exampleMath : MathLib :=
    {| Math_sin := sinApprox; Math_cos := cosApprox; Math_atan2 := atan2Approx |}.

Definition makeNode (i : Z) (la lo : float) (b : option string) : GraphNode :=
    {| id := i; lat := la; lon := lo; barrier := b |}.

Definition makeEdge (f t w : Z) (hw : string) (ms : float) (ow : bool)
      (dist : float) (geo : list Coord) : GraphEdge :=
    {| from := f; to := t; wayId := w; highway := hw; maxspeed := ms;
       oneway := ow; onewayBicycle := false; isReverse := false;
       distance := dist; geometry := geo;
       access := None; motorVehicle := None; vehicle := None;
       bicycleTag := None; foot := None |}.

Definition withReverse (e : GraphEdge) (r : bool) : GraphEdge :=
    {| from := from e; to := to e; wayId := wayId e; highway := highway e;
       maxspeed := maxspeed e; oneway := oneway e;
       onewayBicycle := onewayBicycle e; isReverse := r;
       distance := distance e; geometry := geometry e;
       access := access e; motorVehicle := motorVehicle e; vehicle := vehicle e;
       bicycleTag := bicycleTag e; foot := foot e |}.

Definition reversed (e : GraphEdge) : GraphEdge :=
    {| from := to e; to := from e; wayId := wayId e; highway := highway e;
       maxspeed := maxspeed e; oneway := oneway e;
       onewayBicycle := onewayBicycle e; isReverse := true;
       distance := distance e; geometry := rev (geometry e);
       access := access e; motorVehicle := motorVehicle e; vehicle := vehicle e;
       bicycleTag := bicycleTag e; foot := foot e |}.


  (** [buildGraph] of a-star.test.ts: every edge with its reverse. *)
Definition buildGraph (ns : list GraphNode) (es : list GraphEdge)
      (rs : list TurnRestriction) : RoutingGraph :=
    {| nodes := fold_left (fun m n => JsMap.set m (id n) n) ns JsMap.empty;
       adjacency :=
         fold_left
           (fun adj e =>
              pushEdge (pushEdge adj (from e) (withReverse e false))
                (to e) (reversed e))
           es JsMap.empty;
       restrictions := rs |}.

Definition noOptions : AStarOptions := {| ignoreRestrictions := None |}.

Definition n1 := makeNode 1 52.370 4.890 None.
Definition n2 := makeNode 2 52.371 4.891 None.
Definition n3 := makeNode 3 52.372 4.892 None.

Definition e12 :=
    makeEdge 1 2 100 "residential" 30 false 100 [(52.370, 4.890); (52.371, 4.891)]%float.
Definition e23 :=
    makeEdge 2 3 200 "residential" 30 false 100 [(52.371, 4.891); (52.372, 4.892)]%float.

Definition lineGraph : RoutingGraph := buildGraph [n1; n2; n3] [e12; e23] [].

End Examples.

(* ------------------------------------------------------------------------- *)
(** ** The order of binary64 numbers

    What the search needs of [<] on numbers: a comparison that holds has no
    NaN operand, it is asymmetric, and its negation is transitive on numbers
    that are not NaN. *)

Module FloatOrder.

(** [x] is not NaN. *)
Definition isNumber (x : float) : Prop := Prim2SF x <> S754_nan.

Lemma SFltb_number a b : SFltb a b = true -> a <> S754_nan /\ b <> S754_nan.
Proof.
  unfold SFltb, SFcompare.
  destruct a, b; try discriminate; split; discriminate.
Qed.

Ltac order_cases :=
  repeat match goal with
    | |- context [Z.compare ?x ?y] => destruct (Z.compare_spec x y)
    | |- context [Pos.compare_cont Eq ?x ?y] =>
        change (Pos.compare_cont Eq x y) with (Pos.compare x y);
        destruct (Pos.compare_spec x y)
    | H : context [Z.compare ?x ?y] |- _ => destruct (Z.compare_spec x y)
    | H : context [Pos.compare_cont Eq ?x ?y] |- _ =>
        change (Pos.compare_cont Eq x y) with (Pos.compare x y) in H;
        destruct (Pos.compare_spec x y)
    end.

Lemma SFltb_asym a b : SFltb a b = true -> SFltb b a = false.
Proof.
  unfold SFltb, SFcompare.
  destruct a as [[]|[]| |[] ma ea], b as [[]|[]| |[] mb eb];
    try reflexivity; try discriminate;
    intros H; order_cases; cbn in *; try reflexivity; try discriminate; lia.
Qed.

Lemma SFltb_negtrans a b c :
  b <> S754_nan ->
  SFltb a b = false -> SFltb b c = false -> SFltb a c = false.
Proof.
  unfold SFltb, SFcompare. intros Hb.
  destruct a as [[]|[]| |[] ma ea], b as [[]|[]| |[] mb eb],
           c as [[]|[]| |[] mc ec];
    try reflexivity; try discriminate; try congruence;
    intros H1 H2; order_cases; cbn in *;
    try reflexivity; try discriminate; lia.
Qed.

Lemma SFltb_irrefl a : SFltb a a = false.
Proof.
  destruct (SFltb a a) eqn:E; [|reflexivity].
  pose proof (SFltb_asym _ _ E). congruence.
Qed.

(** Adding [+0] lowers no number. *)
Lemma add_zero_never_lower x : (x + 0 <? x)%float = false.
Proof.
  rewrite ltb_spec, add_spec.
  replace (Prim2SF 0) with (S754_zero false) by (vm_compute; reflexivity).
  unfold SF64add, SFadd.
  destruct (Prim2SF x) as [[]|[]| |[] m e]; try reflexivity; apply SFltb_irrefl.
Qed.

Lemma ltb_number a b : (a <? b)%float = true -> isNumber a /\ isNumber b.
Proof. rewrite ltb_spec. apply SFltb_number. Qed.

Lemma ltb_asym a b : (a <? b)%float = true -> (b <? a)%float = false.
Proof. rewrite !ltb_spec. apply SFltb_asym. Qed.

Lemma ltb_negtrans a b c :
  isNumber b ->
  (a <? b)%float = false -> (b <? c)%float = false -> (a <? c)%float = false.
Proof. rewrite !ltb_spec. apply SFltb_negtrans. Qed.

Lemma ltb_irrefl a : (a <? a)%float = false.
Proof.
  destruct (a <? a)%float eqn:E; [|reflexivity].
  pose proof (ltb_asym _ _ E). congruence.
Qed.

Lemma isNumber_zero : isNumber 0%float.
Proof. unfold isNumber. vm_compute. discriminate. Qed.

Lemma isNumber_infinity : isNumber infinity.
Proof. unfold isNumber. vm_compute. discriminate. Qed.

End FloatOrder.
(* ------------------------------------------------------------------------- *)
(** * Properties *)

(** ** Arrays and the heap *)

Lemma replaceAt_length {A : Type} (l : list A) (i : nat) (x : A) :
  length (replaceAt l i x) = length l.
Proof.
  revert i; induction l as [|y l IH]; intros [|i]; simpl; auto.
Qed.

Lemma swapAt_length {A : Type} (l : list A) (i j : nat) :
  length (swapAt l i j) = length l.
Proof.
  unfold swapAt.
  destruct (nth_error l i), (nth_error l j); auto.
  now rewrite !replaceAt_length.
Qed.

Lemma removelast_length {A : Type} (l : list A) :
  length (removelast l) = pred (length l).
Proof.
  rewrite removelast_firstn_len, length_firstn. lia.
Qed.

Module MinHeapFacts.
Import MinHeap.

Lemma bubbleUp_length fuel : forall items i,
    length (bubbleUp fuel items i) = length items.
  Proof.
    induction fuel as [|fuel IH]; intros items i; cbn [bubbleUp]; auto.
    destruct (0 <? i)%nat; auto.
    destruct (nth_error items i) as [it|]; auto.
    destruct (nth_error items (Nat.shiftr (i - 1) 1)) as [pt|]; auto.
    destruct (key pt <=? key it)%float; auto.
    now rewrite IH, swapAt_length.
  Qed.

Lemma sinkDown_length fuel : forall items i,
    length (sinkDown fuel items i) = length items.
  Proof.
    induction fuel as [|fuel IH]; intros items i; cbn [sinkDown]; auto.
    match goal with |- context [if ?c then items else _] => destruct c end; auto.
    now rewrite IH, swapAt_length.
  Qed.

Lemma push_size h k v : size (push h k v) = S (size h).
  Proof.
    unfold push, size. rewrite bubbleUp_length, length_app. simpl. lia.
  Qed.

Lemma pop_none h : pop h = None <-> h = [].
  Proof.
    unfold pop. destruct h as [|top h]; [tauto|].
    destruct (removelast (top :: h)); split; discriminate.
  Qed.

Lemma pop_size h v rest : pop h = Some (v, rest) -> S (size rest) = size h.
  Proof.
    unfold pop, size. destruct h as [|top h]; [discriminate|].
    pose proof (removelast_length (top :: h)) as L.
    destruct (removelast (top :: h)) as [|x r] eqn:E.
    - intros [= _ <-]. simpl in L |- *. lia.
    - intros H.
      apply (f_equal (fun o => match o with
                               | Some (_, q) => length q
                               | None => O
                               end)) in H.
      cbv beta iota zeta in H. rewrite sinkDown_length in H.
      simpl in L, H |- *. lia.
  Qed.

Lemma shiftr1_lt i : (0 < i)%nat -> (Nat.shiftr (i - 1) 1 < i)%nat.
  Proof.
    intros H. rewrite Nat.shiftr_div_pow2. change (2 ^ 1)%nat with 2%nat.
    pose proof (Nat.Div0.mul_div_le (i - 1) 2). lia.
  Qed.

  (** [bubbleUp] leaves its loop within [i] iterations: more fuel changes
      nothing. *)
Lemma bubbleUp_fuel fuel : forall fuel' items i,
    (i <= fuel)%nat -> (i <= fuel')%nat ->
    bubbleUp fuel items i = bubbleUp fuel' items i.
  Proof.
    induction fuel as [|fuel IH]; intros fuel' items i H H'.
    - assert (i = 0)%nat by lia; subst. destruct fuel'; reflexivity.
    - destruct fuel' as [|fuel'].
      + assert (i = 0)%nat by lia; subst. reflexivity.
      + cbn [bubbleUp]. destruct (0 <? i)%nat eqn:Hi; auto.
        apply Nat.ltb_lt in Hi. pose proof (shiftr1_lt i Hi).
        destruct (nth_error items i) as [it|]; auto.
        destruct (nth_error items (Nat.shiftr (i - 1) 1)) as [pt|]; auto.
        destruct (key pt <=? key it)%float; auto.
        apply IH; lia.
  Qed.

  (** [sinkDown] leaves its loop within [length items - i] iterations. *)
Lemma sinkDown_fuel fuel : forall fuel' items i,
    (length items - i <= fuel)%nat -> (length items - i <= fuel')%nat ->
    sinkDown fuel items i = sinkDown fuel' items i.
  Proof.
    induction fuel as [|fuel IH]; intros fuel' items i H H'.
    - destruct fuel' as [|fuel']; auto. cbn [sinkDown].
      replace (2 * i + 1 <? length items)%nat with false
        by (symmetry; apply Nat.ltb_ge; lia).
      replace (2 * i + 2 <? length items)%nat with false
        by (symmetry; apply Nat.ltb_ge; lia).
      simpl. now rewrite Nat.eqb_refl.
    - destruct fuel' as [|fuel'].
      + cbn [sinkDown].
        replace (2 * i + 1 <? length items)%nat with false
          by (symmetry; apply Nat.ltb_ge; lia).
        replace (2 * i + 2 <? length items)%nat with false
          by (symmetry; apply Nat.ltb_ge; lia).
        simpl. now rewrite Nat.eqb_refl.
      + cbn [sinkDown].
        set (l := (2 * i + 1 <? length items)%nat && keyLt items (2 * i + 1) i).
        set (s1 := if l then (2 * i + 1)%nat else i).
        set (r := (2 * i + 2 <? length items)%nat && keyLt items (2 * i + 2) s1).
        set (s2 := if r then (2 * i + 2)%nat else s1).
        destruct (s2 =? i)%nat eqn:E; auto.
        apply Nat.eqb_neq in E.
        assert (i < s2 /\ s2 < length items)%nat as [Hlo Hhi].
        { subst s2 s1. destruct r eqn:Er.
          - subst r. apply andb_prop in Er as [Er _]. apply Nat.ltb_lt in Er. lia.
          - destruct l eqn:El; [|lia].
            subst l. apply andb_prop in El as [El _]. apply Nat.ltb_lt in El. lia. }
        apply IH; rewrite swapAt_length; lia.
  Qed.

End MinHeapFacts.

(** ** Maps and sets *)

Module JsMapFacts.
Section WithValue.
Context {V : Type}.
Implicit Types (m : JsMap.t V) (k : Z) (v : V).

Lemma get_set m k v k' :
      JsMap.get (JsMap.set m k v) k' =
      if (k =? k')%Z then Some v else JsMap.get m k'.
    Proof.
      induction m as [|[k0 v0] m IH]; simpl.
      - reflexivity.
      - destruct (k0 =? k)%Z eqn:E; simpl.
        + apply Z.eqb_eq in E; subst k0. destruct (k =? k')%Z; reflexivity.
        + rewrite IH. destruct (k0 =? k')%Z eqn:E'; [|reflexivity].
          apply Z.eqb_eq in E'; subst k0. now rewrite Z.eqb_sym, E.
    Qed.

Lemma get_set_same m k v : JsMap.get (JsMap.set m k v) k = Some v.
    Proof. now rewrite get_set, Z.eqb_refl. Qed.

Lemma get_set_other m k v k' :
      k <> k' -> JsMap.get (JsMap.set m k v) k' = JsMap.get m k'.
    Proof.
      intros H. rewrite get_set.
      destruct (k =? k')%Z eqn:E; [apply Z.eqb_eq in E; contradiction | reflexivity].
    Qed.

Lemma get_In m k v : JsMap.get m k = Some v -> In (k, v) m.
    Proof.
      induction m as [|[k0 v0] m IH]; simpl; [discriminate|].
      destruct (k0 =? k)%Z eqn:E.
      - apply Z.eqb_eq in E; subst. intros [= ->]. now left.
      - intros H. right. now apply IH.
    Qed.

Lemma get_In_values m k v : JsMap.get m k = Some v -> In v (JsMap.values m).
    Proof.
      intros H. apply get_In in H. unfold JsMap.values.
      change v with (snd (k, v)). now apply in_map.
    Qed.

Lemma get_In_keys m k v : JsMap.get m k = Some v -> In k (JsMap.keys m).
    Proof.
      intros H. apply get_In in H. unfold JsMap.keys.
      change k with (fst (k, v)). now apply in_map.
    Qed.

Lemma In_keys_get m k : In k (JsMap.keys m) -> exists v, JsMap.get m k = Some v.
    Proof.
      induction m as [|[k0 v0] m IH]; simpl; [tauto|].
      intros [->|H].
      - rewrite Z.eqb_refl. eauto.
      - destruct (k0 =? k)%Z; eauto.
    Qed.

Lemma has_true m k : JsMap.has m k = true <-> In k (JsMap.keys m).
    Proof.
      unfold JsMap.has. split.
      - destruct (JsMap.get m k) eqn:E; [|discriminate].
        intros _. eapply get_In_keys; eauto.
      - intros H. apply In_keys_get in H as [v ->]. reflexivity.
    Qed.

Lemma keys_set m k v :
      forall k', In k' (JsMap.keys (JsMap.set m k v)) <-> k' = k \/ In k' (JsMap.keys m).
    Proof.
      intros k'. rewrite <- !has_true. unfold JsMap.has. rewrite get_set.
      destruct (k =? k')%Z eqn:E.
      - apply Z.eqb_eq in E. subst. intuition.
      - apply Z.eqb_neq in E. destruct (JsMap.get m k'); intuition congruence.
    Qed.
End WithValue.
End JsMapFacts.

Module JsSetFacts.
Lemma set_has_true s k : JsSet.has s k = true <-> In k s.
  Proof.
    unfold JsSet.has. rewrite existsb_exists. split.
    - intros [x [H E]]. apply Z.eqb_eq in E. now subst.
    - intros H. exists k. split; [assumption | apply Z.eqb_refl].
  Qed.

Lemma has_add s c k : JsSet.has (JsSet.add s c) k = (k =? c)%Z || JsSet.has s k.
  Proof.
    unfold JsSet.add. destruct (JsSet.has s c) eqn:E.
    - destruct (k =? c)%Z eqn:Ek; [|reflexivity].
      apply Z.eqb_eq in Ek; subst. now rewrite E.
    - unfold JsSet.has. rewrite existsb_app. simpl.
      rewrite orb_false_r. apply orb_comm.
  Qed.
End JsSetFacts.

(** ** The search loop *)

Module AStarFacts.
Import RoadTypes AStar.

(** Every edge stored under a node leads to a node of the graph. *)
Definition TargetsPresent (graph : RoutingGraph) : Prop :=
  forall c es e,
    JsMap.get (adjacency graph) c = Some es -> In e es ->
    JsMap.has (nodes graph) (targetOf c e) = true.

(** Travel times are not negative: added to a score, the travel time of an
    edge never gives a lower score. *)
Definition TimesNeverLower (graph : RoutingGraph) (mode : RoutingMode) : Prop :=
  forall e, In e (allEdges graph) ->
  forall x : float, (x + getTravelTime e mode <? x)%float = false.

(** [TargetsPresent], decided edge by edge. *)
Definition targetsPresentb (graph : RoutingGraph) : bool :=
  forallb
    (fun kv =>
       forallb (fun e => JsMap.has (nodes graph) (targetOf (fst kv) e)) (snd kv))
    (adjacency graph).

Lemma targetsPresentb_sound graph :
  targetsPresentb graph = true -> TargetsPresent graph.
Proof.
  unfold targetsPresentb. rewrite forallb_forall. intros H c es e Hg He.
  apply JsMapFacts.get_In in Hg. specialize (H _ Hg). cbn [fst snd] in H.
  rewrite forallb_forall in H. now apply H.
Qed.

Definition allExplore (steps : list AStarStep) : Prop :=
  Forall (fun s => isExplore s = true) steps.

(** The steps of a run: explore steps, then one terminal step when the run
    returns and none when it does not. *)
Definition WellFormedRun (r : list AStarStep * Completion) : Prop :=
  match snd r with
  | Returned =>
      exists explores terminal,
        fst r = explores ++ [terminal]
        /\ allExplore explores /\ isTerminal terminal = true
  | _ => allExplore (fst r)
  end.

Lemma get_allEdges (graph : RoutingGraph) c es e :
  JsMap.get (adjacency graph) c = Some es -> In e es -> In e (allEdges graph).
Proof.
  intros Hg He. unfold allEdges. apply in_concat. exists es. split; [|assumption].
  eapply JsMapFacts.get_In_values; eauto.
Qed.

Section WithGraph.
Variable M : MathLib.
Variable graph : RoutingGraph.
Variable startNodeId endNodeId : Z.
Variable mode : RoutingMode.
Variable options : AStarOptions.
Variable endNode : GraphNode.

Local Abbreviation expand := (AStar.expand M graph mode options endNode).
Local Abbreviation heuristic := (AStar.heuristic M graph mode endNode).
Local Abbreviation searchLoop :=
  (AStar.searchLoop M graph startNodeId endNodeId mode options endNode).

    (** The four checks a candidate edge must survive to be explored. *)
Definition passes (currentId currentWayId : Z) (e : GraphEdge) : bool :=
      isEdgeAccessible e mode
      && canTraverseDirection e currentId mode (ignoring options)
      && negb (turnRestricted graph mode options currentWayId currentId e)
      && negb (barrierBlocked graph mode options (targetOf currentId e)).

    (** The state after a successful relaxation of [e] out of [currentId]. *)
Definition relax (currentId : Z) (e : GraphEdge) (tentativeG h : float)
        (st : SearchState) : SearchState :=
      {| gScore := JsMap.set (gScore st) (targetOf currentId e) tentativeG;
         cameFrom :=
           JsMap.set (cameFrom st) (targetOf currentId e)
             {| prevNodeId := currentId; edge := e; prevWayId := wayId e |};
         openSet :=
           MinHeap.push (openSet st) (tentativeG + h)%float (targetOf currentId e);
         closed := closed st |}.

Inductive ExpandCase (currentId : Z) (currentG : float) (currentWayId : Z)
        (e : GraphEdge) (rest : list GraphEdge) (st : SearchState)
        : list AStarStep * option SearchState -> Prop :=
    | case_skip :
        passes currentId currentWayId e = false ->
        ExpandCase currentId currentG currentWayId e rest st
          (expand currentId currentG currentWayId rest st)
    | case_keep :
        passes currentId currentWayId e = true ->
        (currentG + getTravelTime e mode <? gScoreOr st (targetOf currentId e))%float
          = false ->
        ExpandCase currentId currentG currentWayId e rest st
          (Explore e currentId (targetOf currentId e)
             :: fst (expand currentId currentG currentWayId rest st),
           snd (expand currentId currentG currentWayId rest st))
    | case_throw :
        passes currentId currentWayId e = true ->
        (currentG + getTravelTime e mode <? gScoreOr st (targetOf currentId e))%float
          = true ->
        heuristic (targetOf currentId e) = None ->
        ExpandCase currentId currentG currentWayId e rest st
          ([Explore e currentId (targetOf currentId e)], None)
    | case_relax h :
        passes currentId currentWayId e = true ->
        (currentG + getTravelTime e mode <? gScoreOr st (targetOf currentId e))%float
          = true ->
        heuristic (targetOf currentId e) = Some h ->
        ExpandCase currentId currentG currentWayId e rest st
          (Explore e currentId (targetOf currentId e)
             :: fst (expand currentId currentG currentWayId rest
                       (relax currentId e (currentG + getTravelTime e mode)%float h st)),
           snd (expand currentId currentG currentWayId rest
                  (relax currentId e (currentG + getTravelTime e mode)%float h st))).

Lemma expand_cons currentId currentG currentWayId e rest st :
  ExpandCase currentId currentG currentWayId e rest st
    (expand currentId currentG currentWayId (e :: rest) st).
Proof.
  cbn [AStar.expand].
  destruct (isEdgeAccessible e mode) eqn:E1; cbn [negb];
    [|apply case_skip; unfold passes; now rewrite E1].
  destruct (canTraverseDirection e currentId mode (ignoring options)) eqn:E2;
    cbn [negb]; [|apply case_skip; unfold passes; now rewrite E1, E2].
  destruct (turnRestricted graph mode options currentWayId currentId e) eqn:E3;
    [apply case_skip; unfold passes; now rewrite E1, E2, E3|].
  destruct (barrierBlocked graph mode options (targetOf currentId e)) eqn:E4;
    [apply case_skip; unfold passes; now rewrite E1, E2, E3, E4|].
  assert (passes currentId currentWayId e = true) as Hp
    by (unfold passes; now rewrite E1, E2, E3, E4).
  destruct (currentG + getTravelTime e mode <? gScoreOr st (targetOf currentId e))%float
    eqn:Elt.
  - destruct (heuristic (targetOf currentId e)) as [h|] eqn:Eh.
    + pose proof (case_relax currentId currentG currentWayId e rest st h Hp Elt Eh) as C.
      unfold relax in C.
      destruct (AStar.expand M graph mode options endNode currentId currentG
                  currentWayId rest _) as [steps r].
      exact C.
    + now apply case_throw.
  - pose proof (case_keep currentId currentG currentWayId e rest st Hp Elt) as C.
    destruct (expand currentId currentG currentWayId rest st) as [steps r].
    exact C.
Qed.

(** Only [explore] steps leave the neighbour loop. *)
Lemma expand_explore currentId currentG currentWayId neighbors : forall st,
  Forall (fun s => isExplore s = true)
    (fst (expand currentId currentG currentWayId neighbors st)).
Proof.
  induction neighbors as [|e rest IH]; intros st.
  - constructor.
  - destruct (expand_cons currentId currentG currentWayId e rest st); cbn [fst].
    + apply IH.
    + constructor; [reflexivity | apply IH].
    + repeat constructor.
    + constructor; [reflexivity | apply IH].
Qed.

(** The neighbour loop closes no node and pushes at most one node per edge. *)
Lemma expand_state currentId currentG currentWayId neighbors : forall st st',
  snd (expand currentId currentG currentWayId neighbors st) = Some st' ->
  closed st' = closed st
  /\ (MinHeap.size (openSet st') <= MinHeap.size (openSet st) + length neighbors)%nat.
Proof.
  induction neighbors as [|e rest IH]; intros st st'.
  - cbn. intros [= <-]. split; [reflexivity | lia].
  - destruct (expand_cons currentId currentG currentWayId e rest st);
      cbn [snd length]; intros Hs.
    + apply IH in Hs as [-> Hs]. split; [reflexivity | lia].
    + apply IH in Hs as [-> Hs]. split; [reflexivity | lia].
    + discriminate.
    + apply IH in Hs as [-> Hs]. split; [reflexivity|].
      cbn [relax openSet] in Hs. rewrite MinHeapFacts.push_size in Hs. lia.
Qed.

(** Edges still to be scanned: those stored under a node not yet closed. *)
Fixpoint pending (cl : JsSet.t) (adj : JsMap.t (list GraphEdge)) : nat :=
  match adj with
  | [] => O
  | (k, es) :: rest => (if JsSet.has cl k then O else length es) + pending cl rest
  end.

Lemma pending_add_le cl c adj : (pending (JsSet.add cl c) adj <= pending cl adj)%nat.
Proof.
  induction adj as [|[k es] adj IH]; cbn [pending]; [lia|].
  rewrite JsSetFacts.has_add.
  destruct (k =? c)%Z; cbn [orb]; [lia|].
  destruct (JsSet.has cl k); lia.
Qed.

Lemma pending_close cl c adj es :
  JsSet.has cl c = false -> JsMap.get adj c = Some es ->
  (pending (JsSet.add cl c) adj + length es <= pending cl adj)%nat.
Proof.
  intros Hc.
  induction adj as [|[k es'] adj IH]; cbn [pending JsMap.get]; [discriminate|].
  rewrite JsSetFacts.has_add.
  destruct (k =? c)%Z eqn:E; cbn [orb].
  - apply Z.eqb_eq in E; subst k. intros [= ->]. rewrite Hc.
    pose proof (pending_add_le cl c adj). lia.
  - intros H. specialize (IH H). destruct (JsSet.has cl k); lia.
Qed.

Lemma pending_empty adj : pending JsSet.empty adj = length (concat (JsMap.values adj)).
Proof.
  induction adj as [|[k es] adj IH]; cbn [pending JsMap.values map concat snd];
    [reflexivity|].
  rewrite length_app. unfold JsMap.values in IH. rewrite <- IH. reflexivity.
Qed.

(** The loop ends within [fuel] iterations when [fuel] exceeds the open nodes
    plus the edges still to be scanned. *)
Lemma searchLoop_enough fuel : forall st,
  (MinHeap.size (openSet st) + pending (closed st) (adjacency graph) < fuel)%nat ->
  searchLoop fuel st <> None.
Proof.
  induction fuel as [|fuel IH]; intros st Hf; [lia|].
  cbn [AStar.searchLoop].
  destruct (MinHeap.pop (openSet st)) as [[currentId rest]|] eqn:Ep; [|discriminate].
  apply MinHeapFacts.pop_size in Ep.
  destruct (JsSet.has (closed st) currentId) eqn:Ec.
  - apply IH. cbn [openSet closed]. lia.
  - destruct (currentId =? endNodeId)%Z.
    + destruct (reconstruct _ _ _); discriminate.
    + destruct (JsMap.get (adjacency graph) currentId) as [neighbors|] eqn:Ea.
      * match goal with
        | |- context [AStar.expand _ _ _ _ _ ?a ?b ?c neighbors ?s] =>
            pose proof (expand_state a b c neighbors s) as Hs;
            destruct (expand a b c neighbors s) as [steps [st2|]]
        end; [|discriminate].
        destruct (Hs st2 eq_refl) as [Hcl Hop]. cbn [openSet closed] in Hcl, Hop.
        pose proof (pending_close _ _ _ _ Ec Ea) as Hp.
        specialize (IH st2). rewrite Hcl in IH.
        destruct (searchLoop fuel st2) as [[more c]|]; [discriminate|].
        exfalso. apply IH; [lia | reflexivity].
      * apply IH. cbn [openSet closed].
        pose proof (pending_add_le (closed st) currentId (adjacency graph)). lia.
Qed.

(** [searchFuel] iterations end the loop from the initial state. *)
Lemma searchLoop_total h0 :
  searchLoop (searchFuel graph) (initialState startNodeId h0) <> None.
Proof.
  apply searchLoop_enough.
  cbn [initialState openSet closed]. rewrite MinHeapFacts.push_size, pending_empty.
  unfold searchFuel, allEdges. cbn. lia.
Qed.

(** *** Predecessor links *)

(** The nodes met walking the predecessor links from [v], [v] first, up to
    the node that has no link. *)
Inductive Chain (cf : JsMap.t CameFromEntry) : Z -> list Z -> Prop :=
| chain_root v : JsMap.get cf v = None -> Chain cf v [v]
| chain_link v entry l :
    JsMap.get cf v = Some entry -> Chain cf (prevNodeId entry) l ->
    Chain cf v (v :: l).

Lemma chain_det cf v l1 : Chain cf v l1 -> forall l2, Chain cf v l2 -> l1 = l2.
Proof.
  induction 1 as [v Hv|v entry l Hv Hc IH]; intros l2 H2; inversion H2; subst;
    try congruence.
  f_equal. apply IH. congruence.
Qed.

Lemma chain_suffix cf v l : Chain cf v l ->
  forall x, In x l -> exists l', Chain cf x l' /\ (length l' <= length l)%nat.
Proof.
  induction 1 as [v Hv|v entry l Hv Hc IH]; intros x Hx.
  - destruct Hx as [<-|[]]. exists [v]. split; [now constructor | lia].
  - destruct Hx as [<-|Hx].
    + exists (v :: l). split; [econstructor; eauto | lia].
    + destruct (IH x Hx) as [l' [Hl' Hle]]. exists l'. split; [assumption|].
      cbn [length]. lia.
Qed.

Lemma chain_NoDup cf v l : Chain cf v l -> NoDup l.
Proof.
  induction 1 as [v Hv|v entry l Hv Hc IH].
  - constructor; [intros [] | constructor].
  - constructor; [|assumption]. intros Hin.
    destruct (chain_suffix _ _ _ Hc v Hin) as [l' [Hl' Hle]].
    assert (l' = v :: l)
      by (apply (chain_det cf v l' Hl' (v :: l)); econstructor; eauto).
    subst l'. cbn [length] in Hle. lia.
Qed.

Lemma chain_keys cf v l : Chain cf v l ->
  forall x, In x (removelast l) -> In x (JsMap.keys cf).
Proof.
  induction 1 as [v Hv|v entry l Hv Hc IH]; intros x Hx.
  - destruct Hx.
  - assert (l <> []) as Hne by (inversion Hc; discriminate).
    destruct l as [|y l]; [congruence|].
    change (removelast (v :: y :: l)) with (v :: removelast (y :: l)) in Hx.
    destruct Hx as [<-|Hx]; [eapply JsMapFacts.get_In_keys; eauto | now apply IH].
Qed.

Lemma NoDup_removelast {A : Type} (l : list A) : NoDup l -> NoDup (removelast l).
Proof.
  induction 1 as [|x l Hx Hl IH]; [constructor|].
  destruct l as [|y l]; [constructor|].
  change (removelast (x :: y :: l)) with (x :: removelast (y :: l)).
  constructor; [|assumption].
  intros Hin. apply Hx.
  rewrite (app_removelast_last y (l := y :: l)) by discriminate.
  apply in_or_app. now left.
Qed.

(** A chain has at most one node per link of the map, and its root. *)
Lemma chain_length cf v l : Chain cf v l -> (length l <= S (JsMap.size cf))%nat.
Proof.
  intros Hc.
  pose proof (NoDup_removelast _ (chain_NoDup _ _ _ Hc)) as Hnd.
  pose proof (NoDup_incl_length Hnd (chain_keys _ _ _ Hc)) as Hle.
  rewrite removelast_length in Hle. unfold JsMap.keys in Hle.
  rewrite length_map in Hle. unfold JsMap.size. lia.
Qed.

Lemma walkBack_chain cf v l : Chain cf v l ->
  forall fuel, (length l <= fuel)%nat -> walkBack fuel cf v <> None.
Proof.
  induction 1 as [v Hv|v entry l Hv Hc IH]; intros fuel Hf;
    (destruct fuel as [|fuel]; [cbn [length] in Hf; lia|]);
    cbn [walkBack]; rewrite Hv; [discriminate|].
  cbn [length] in Hf. specialize (IH fuel ltac:(lia)).
  destruct (walkBack fuel cf (prevNodeId entry)) as [[path ids]|];
    [discriminate | congruence].
Qed.

Lemma chain_walkBack cf fuel : forall v,
  walkBack fuel cf v <> None -> exists l, Chain cf v l.
Proof.
  induction fuel as [|fuel IH]; intros v; cbn [walkBack]; [congruence|].
  destruct (JsMap.get cf v) as [entry|] eqn:Ev.
  - intros H. destruct (IH (prevNodeId entry)) as [l Hl].
    + destruct (walkBack fuel cf (prevNodeId entry)); congruence.
    + exists (v :: l). econstructor; eauto.
  - intros _. exists [v]. now constructor.
Qed.

(** The bound [reconstruct] gives the walk loses no run: a walk it cuts
    short is one that no number of iterations ends. *)
Lemma walkBack_diverges cf v :
  walkBack (S (JsMap.size cf)) cf v = None -> forall fuel, walkBack fuel cf v = None.
Proof.
  intros H fuel. destruct (walkBack fuel cf v) eqn:E; [|reflexivity].
  exfalso. destruct (chain_walkBack cf fuel v) as [l Hl]; [congruence|].
  apply (walkBack_chain _ _ _ Hl (S (JsMap.size cf))); [|assumption].
  exact (chain_length _ _ _ Hl).
Qed.

(** *** The scores along the predecessor links *)

(** What the relaxations keep true: every score is a number, no node scores
    below its predecessor, and the links from every node end. *)
Record Inv (st : SearchState) : Prop := {
  inv_number : forall v g, JsMap.get (gScore st) v = Some g -> FloatOrder.isNumber g;
  inv_order : forall v entry,
    JsMap.get (cameFrom st) v = Some entry ->
    (gScoreOr st v <? gScoreOr st (prevNodeId entry))%float = false;
  inv_chain : forall v, exists l, Chain (cameFrom st) v l
}.

Lemma gScoreOr_number st v : Inv st -> FloatOrder.isNumber (gScoreOr st v).
Proof.
  intros I. unfold gScoreOr. destruct (JsMap.get (gScore st) v) eqn:E.
  - eapply inv_number; eauto.
  - apply FloatOrder.isNumber_infinity.
Qed.

Lemma gScoreOr_relax u e T h st w :
  gScoreOr (relax u e T h st) w =
  if (targetOf u e =? w)%Z then T else gScoreOr st w.
Proof.
  unfold gScoreOr, relax; cbn [gScore]. rewrite JsMapFacts.get_set.
  now destruct (targetOf u e =? w)%Z.
Qed.

(** Walking the links never leads to a node that scores above the start of
    the walk. *)
Lemma chain_scores st u l :
  Inv st -> Chain (cameFrom st) u l ->
  forall x, In x l -> (gScoreOr st u <? gScoreOr st x)%float = false.
Proof.
  intros I. induction 1 as [v Hv|v entry l Hv Hc IH]; intros x Hx.
  - destruct Hx as [<-|[]]. apply FloatOrder.ltb_irrefl.
  - destruct Hx as [<-|Hx]; [apply FloatOrder.ltb_irrefl|].
    apply FloatOrder.ltb_negtrans with (b := gScoreOr st (prevNodeId entry)).
    + now apply gScoreOr_number.
    + eapply inv_order; eauto.
    + now apply IH.
Qed.

Lemma chain_set_avoid cf v entry u l :
  Chain cf u l -> ~ In v l -> Chain (JsMap.set cf v entry) u l.
Proof.
  induction 1 as [w Hw|w ent l Hw Hc IH]; intros Hn.
  - apply chain_root. rewrite JsMapFacts.get_set_other; [assumption|].
    intros ->. apply Hn. now left.
  - eapply chain_link.
    + rewrite JsMapFacts.get_set_other; [eassumption|].
      intros ->. apply Hn. now left.
    + apply IH. intros Hin. apply Hn. now right.
Qed.

Lemma chain_set cf v entry lu :
  Chain (JsMap.set cf v entry) (prevNodeId entry) lu ->
  forall w l, Chain cf w l -> exists l', Chain (JsMap.set cf v entry) w l'.
Proof.
  intros Hu. induction 1 as [w Hw|w ent l Hw Hc IH].
  - destruct (Z.eq_dec v w) as [->|Hne].
    + exists (w :: lu). eapply chain_link; [apply JsMapFacts.get_set_same | exact Hu].
    + exists [w]. apply chain_root. now rewrite JsMapFacts.get_set_other.
  - destruct (Z.eq_dec v w) as [->|Hne].
    + exists (w :: lu). eapply chain_link; [apply JsMapFacts.get_set_same | exact Hu].
    + destruct IH as [l' Hl']. exists (w :: l').
      eapply chain_link; [|exact Hl']. now rewrite JsMapFacts.get_set_other.
Qed.

Lemma inv_initial h0 : Inv (initialState startNodeId h0).
Proof.
  constructor; cbn [initialState gScore cameFrom].
  - intros v g. cbn. destruct (startNodeId =? v)%Z; [|discriminate].
    intros [= <-]. apply FloatOrder.isNumber_zero.
  - intros v entry. discriminate.
  - intros v. exists [v]. now constructor.
Qed.

(** A relaxation out of [u] by a travel time that lowers no score keeps the
    invariant, and leaves the score of [u] as it is. *)
Lemma inv_relax st u e h :
  let T := (gScoreOr st u + getTravelTime e mode)%float in
  Inv st ->
  (T <? gScoreOr st u)%float = false ->
  (T <? gScoreOr st (targetOf u e))%float = true ->
  Inv (relax u e T h st) /\ gScoreOr (relax u e T h st) u = gScoreOr st u.
Proof.
  intros T I Hlaw Hlt.
  set (v := targetOf u e) in *.
  assert (u <> v) as Huv by (intros E; rewrite <- E in Hlt; congruence).
  destruct (FloatOrder.ltb_number _ _ Hlt) as [HT _].
  pose proof (FloatOrder.ltb_asym _ _ Hlt) as Hasym.
  assert (forall w, gScoreOr (relax u e T h st) w
                    = if (v =? w)%Z then T else gScoreOr st w) as Hg
    by (intros w; apply gScoreOr_relax).
  assert (gScoreOr (relax u e T h st) u = gScoreOr st u) as Hgu.
  { rewrite Hg. destruct (v =? u)%Z eqn:E; [|reflexivity].
    apply Z.eqb_eq in E. congruence. }
  split; [|exact Hgu].
  constructor.
  - intros w g. cbn [relax gScore]. fold v. rewrite JsMapFacts.get_set.
    destruct (v =? w)%Z; [intros [= <-]; exact HT | apply (inv_number _ I)].
  - intros w entry. cbn [relax cameFrom]. fold v. rewrite JsMapFacts.get_set.
    destruct (v =? w)%Z eqn:E.
    + apply Z.eqb_eq in E; subst w. intros [= <-]. cbn [prevNodeId].
      rewrite Hgu, Hg, Z.eqb_refl. exact Hlaw.
    + intros Hw. rewrite (Hg w), E.
      pose proof (inv_order _ I _ _ Hw) as Ho.
      rewrite Hg. destruct (v =? prevNodeId entry)%Z eqn:Ep; [|exact Ho].
      apply Z.eqb_eq in Ep. rewrite <- Ep in Ho.
      apply FloatOrder.ltb_negtrans with (b := gScoreOr st v); auto.
      now apply gScoreOr_number.
  - destruct (inv_chain _ I u) as [lu Hlu].
    assert (~ In v lu) as Hn.
    { intros Hin. pose proof (chain_scores _ _ _ I Hlu v Hin) as Hs.
      assert ((T <? gScoreOr st v)%float = false); [|congruence].
      apply FloatOrder.ltb_negtrans with (b := gScoreOr st u); auto.
      now apply gScoreOr_number. }
    intros w. destruct (inv_chain _ I w) as [l Hl].
    cbn [relax cameFrom]. fold v.
    eapply chain_set; [|exact Hl]. cbn [prevNodeId].
    apply chain_set_avoid; [exact Hlu | exact Hn].
Qed.

Lemma inv_ext st st' :
  gScore st' = gScore st -> cameFrom st' = cameFrom st -> Inv st -> Inv st'.
Proof.
  intros Hg Hc [I1 I2 I3]. constructor; unfold gScoreOr in *; rewrite ?Hg, ?Hc; auto.
Qed.

(** The neighbour loop ends without throwing, on a state that keeps the
    invariant, when its edges lead to nodes of the graph and their travel
    times lower no score. *)
Lemma expand_inv currentId currentG currentWayId neighbors : forall st,
  (forall e, In e neighbors ->
     JsMap.has (nodes graph) (targetOf currentId e) = true
     /\ forall x, (x + getTravelTime e mode <? x)%float = false) ->
  Inv st -> gScoreOr st currentId = currentG ->
  exists st', snd (expand currentId currentG currentWayId neighbors st) = Some st'
              /\ Inv st'.
Proof.
  induction neighbors as [|e rest IH]; intros st Hn I Hg.
  - exists st. split; [reflexivity | assumption].
  - assert (forall e', In e' rest ->
              JsMap.has (nodes graph) (targetOf currentId e') = true
              /\ forall x, (x + getTravelTime e' mode <? x)%float = false) as Hrest
      by (intros e' He'; apply Hn; now right).
    destruct (Hn e (or_introl eq_refl)) as [Hhas Hlaw].
    destruct (expand_cons currentId currentG currentWayId e rest st)
      as [Hp|Hp Hlt|Hp Hlt Hh|h Hp Hlt Hh]; cbn [snd].
    + now apply IH.
    + now apply IH.
    + exfalso. unfold AStar.heuristic, JsMap.has in *.
      destruct (JsMap.get (nodes graph) (targetOf currentId e)); discriminate.
    + subst currentG.
      destruct (inv_relax st currentId e h I (Hlaw _) Hlt) as [I' Hg'].
      now apply IH.
Qed.

Lemma reconstruct_terminal st step :
  reconstruct startNodeId endNodeId st = Some step -> isTerminal step = true.
Proof.
  unfold reconstruct.
  destruct (walkBack _ _ _) as [[path ids]|]; [|discriminate].
  now intros [= <-].
Qed.

(** Whatever the graph, a run of the loop yields explore steps and then, if
    it returns, one terminal step. *)
Lemma searchLoop_shape fuel : forall st r,
  searchLoop fuel st = Some r -> WellFormedRun r.
Proof.
  induction fuel as [|fuel IH]; intros st r; cbn [AStar.searchLoop]; [discriminate|].
  destruct (MinHeap.pop (openSet st)) as [[currentId rest]|].
  2:{ intros [= <-]. exists [], NoRoute. repeat split. constructor. }
  destruct (JsSet.has (closed st) currentId); [apply IH|].
  destruct (currentId =? endNodeId)%Z.
  { destruct (reconstruct _ _ _) as [step|] eqn:Er; intros [= <-].
    - exists [], step. repeat split; [constructor|].
      eapply reconstruct_terminal; eauto.
    - constructor. }
  destruct (JsMap.get (adjacency graph) currentId) as [neighbors|]; [|apply IH].
  match goal with
  | |- context [AStar.expand _ _ _ _ _ ?a ?b ?c neighbors ?s] =>
      pose proof (expand_explore a b c neighbors s) as He;
      destruct (expand a b c neighbors s) as [steps [st2|]]
  end; cbn [fst] in He.
  - destruct (searchLoop fuel st2) as [[more c]|] eqn:Es; [|discriminate].
    intros [= <-]. apply IH in Es. unfold WellFormedRun in *. cbn [fst snd] in *.
    destruct c.
    + destruct Es as [ex [t [-> [Hex Ht]]]].
      exists (steps ++ ex), t. rewrite app_assoc. repeat split; [|assumption].
      apply Forall_app. now split.
    + apply Forall_app. now split.
    + apply Forall_app. now split.
  - intros [= <-]. exact He.
Qed.

Section Wellformed.
Hypothesis Htargets : TargetsPresent graph.
Hypothesis Htimes : TimesNeverLower graph mode.

(** On such a graph every run of the loop returns. *)
Lemma searchLoop_returns fuel : forall st r,
  Inv st -> searchLoop fuel st = Some r -> snd r = Returned.
Proof.
  induction fuel as [|fuel IH]; intros st r I; cbn [AStar.searchLoop]; [discriminate|].
  destruct (MinHeap.pop (openSet st)) as [[currentId rest]|]; [|now intros [= <-]].
  destruct (JsSet.has (closed st) currentId).
  { apply IH. eapply inv_ext; [| |exact I]; reflexivity. }
  set (st1 := {| gScore := gScore st; cameFrom := cameFrom st; openSet := rest;
                 closed := JsSet.add (closed st) currentId |}).
  assert (Inv st1) as I1 by (eapply inv_ext; [| |exact I]; reflexivity).
  destruct (currentId =? endNodeId)%Z.
  { unfold reconstruct.
    destruct (inv_chain _ I1 endNodeId) as [l Hl].
    pose proof (walkBack_chain _ _ _ Hl _ (chain_length _ _ _ Hl)) as Hw.
    destruct (walkBack _ _ _) as [[path ids]|]; [|congruence].
    now intros [= <-]. }
  destruct (JsMap.get (adjacency graph) currentId) as [neighbors|] eqn:Ea;
    [|now apply IH].
  destruct (expand_inv currentId (gScoreOr st1 currentId)
              match JsMap.get (cameFrom st1) currentId with
              | Some entry => wayId (edge entry)
              | None => 0%Z
              end neighbors st1) as [st2 [Hs I2]]; auto.
  { intros e He. split; [eapply Htargets; eauto|].
    apply Htimes. eapply get_allEdges; eauto. }
  destruct (expand _ _ _ neighbors st1) as [steps r2]. cbn [snd] in Hs. subst r2.
  destruct (searchLoop fuel st2) as [[more c]|] eqn:Es; [|discriminate].
  intros [= <-]. cbn [snd]. apply (IH _ _ I2 Es).
Qed.
End Wellformed.

End WithGraph.

(** *** Runs of [aStarRoute] *)

(** Whatever the graph, a run yields explore steps and then, if it returns,
    exactly one terminal step. *)
Lemma aStarRoute_shape M graph startNodeId endNodeId mode options :
  WellFormedRun (aStarRoute M graph startNodeId endNodeId mode options).
Proof.
  unfold aStarRoute.
  destruct (JsMap.get (nodes graph) endNodeId) as [endNode|];
    [|exists [], NoRoute; repeat split; constructor].
  destruct (JsMap.get (nodes graph) startNodeId) as [startNode|];
    [|exists [], NoRoute; repeat split; constructor].
  destruct (startNodeId =? endNodeId)%Z.
  { eexists [], _. repeat split. constructor. }
  destruct (heuristic _ _ _ _ _) as [h0|]; [|constructor].
  destruct (searchLoop _ _ _ _ _ _ _ _ _) as [r|] eqn:Es; [|constructor].
  eapply searchLoop_shape; eauto.
Qed.

(** On a graph whose edges lead to its nodes and whose travel times lower
    no score, every run returns. *)
Lemma aStarRoute_returns M graph startNodeId endNodeId mode options :
  TargetsPresent graph -> TimesNeverLower graph mode ->
  snd (aStarRoute M graph startNodeId endNodeId mode options) = Returned.
Proof.
  intros Htp Htn. unfold aStarRoute.
  destruct (JsMap.get (nodes graph) endNodeId) as [endNode|]; [|reflexivity].
  destruct (JsMap.get (nodes graph) startNodeId) as [startNode|] eqn:Es; [|reflexivity].
  destruct (startNodeId =? endNodeId)%Z; [reflexivity|].
  unfold heuristic. rewrite Es.
  match goal with
  | |- context [searchLoop ?M ?g ?s ?e ?m ?o ?n ?f ?st] =>
      pose proof (searchLoop_total M g s e m o n) as Ht;
      pose proof (searchLoop_returns M g s e m o n Htp Htn f st) as Hr
  end.
  match type of Ht with forall h0, ?P => idtac end.
  match goal with
  | |- context [initialState _ ?h] => specialize (Ht h)
  end.
  destruct (searchLoop _ _ _ _ _ _ _ _ _) as [r|]; [|congruence].
  apply Hr; [apply inv_initial | reflexivity].
Qed.

(** *** Graphs that differ in their restrictions *)

Lemma expand_congr M g g' mode options endNode :
  nodes g' = nodes g ->
  (forall w c e, turnRestricted g' mode options w c e
                 = turnRestricted g mode options w c e) ->
  forall currentId currentG currentWayId neighbors st,
    expand M g' mode options endNode currentId currentG currentWayId neighbors st
    = expand M g mode options endNode currentId currentG currentWayId neighbors st.
Proof.
  intros Hn Ht currentId currentG currentWayId.
  assert (forall n, barrierBlocked g' mode options n = barrierBlocked g mode options n)
    as Hb by (intros n; unfold barrierBlocked; now rewrite Hn).
  assert (forall n, heuristic M g' mode endNode n = heuristic M g mode endNode n)
    as Hh by (intros n; unfold heuristic; now rewrite Hn).
  induction neighbors as [|e rest IH]; intros st; cbn [expand]; [reflexivity|].
  rewrite Ht, Hb, Hh, !IH.
  destruct (heuristic M g mode endNode (targetOf currentId e)); [|reflexivity].
  now rewrite IH.
Qed.

Lemma searchLoop_congr M g g' s t mode options endNode :
  nodes g' = nodes g -> adjacency g' = adjacency g ->
  (forall w c e, turnRestricted g' mode options w c e
                 = turnRestricted g mode options w c e) ->
  forall fuel st,
    searchLoop M g' s t mode options endNode fuel st
    = searchLoop M g s t mode options endNode fuel st.
Proof.
  intros Hn Ha Ht.
  induction fuel as [|fuel IH]; intros st; cbn [searchLoop]; [reflexivity|].
  rewrite Ha.
  destruct (MinHeap.pop (openSet st)) as [[currentId rest]|]; [|reflexivity].
  rewrite !IH.
  destruct (JsSet.has (closed st) currentId); [reflexivity|].
  destruct (currentId =? t)%Z; [reflexivity|].
  destruct (JsMap.get (adjacency g) currentId) as [neighbors|]; [|reflexivity].
  rewrite (expand_congr M g g' mode options endNode Hn Ht).
  destruct (expand _ _ _ _ _ _ _ _ _ _) as [steps [st2|]]; [|reflexivity].
  now rewrite IH.
Qed.

(** The search reads the restrictions through [turnRestricted] only. *)
Lemma aStarRoute_congr M g g' s t mode options :
  nodes g' = nodes g -> adjacency g' = adjacency g ->
  (forall w c e, turnRestricted g' mode options w c e
                 = turnRestricted g mode options w c e) ->
  aStarRoute M g' s t mode options = aStarRoute M g s t mode options.
Proof.
  intros Hn Ha Ht. unfold aStarRoute, heuristic, searchFuel, allEdges.
  rewrite Hn, Ha.
  destruct (JsMap.get (nodes g) t) as [endNode|]; [|reflexivity].
  destruct (JsMap.get (nodes g) s) as [startNode|]; [|reflexivity].
  destruct (s =? t)%Z; [reflexivity|].
  now rewrite (searchLoop_congr M g g' s t mode options endNode Hn Ha Ht).
Qed.

End AStarFacts.

(** ** The barrier of the start node *)

Module BarrierFacts.
Import RoadTypes AStar AStarFacts.

(** The graph with the barrier tag of one node set to [b]. *)
Definition setBarrier (g : RoutingGraph) (nodeId : Z) (b : option string)
    : RoutingGraph :=
  match JsMap.get (nodes g) nodeId with
  | Some node =>
      {| nodes :=
           JsMap.set (nodes g) nodeId
             {| id := id node; lat := lat node; lon := lon node; barrier := b |};
         adjacency := adjacency g;
         restrictions := restrictions g |}
  | None => g
  end.

(** An explore step of an edge that leads to the node [s]. *)
Definition leadsTo (s : Z) (step : AStarStep) : bool :=
  match step with
  | Explore _ _ toNodeId => (toNodeId =? s)%Z
  | _ => false
  end.

(** The steps but for the explore steps of the edges that lead to [s]. *)
Definition elsewhere (s : Z) (steps : list AStarStep) : list AStarStep :=
  filter (fun step => negb (leadsTo s step)) steps.

Lemma elsewhere_app s l1 l2 : elsewhere s (l1 ++ l2) = elsewhere s l1 ++ elsewhere s l2.
Proof. apply filter_app. Qed.

Section WithStart.
Variable M : MathLib.
Variable g : RoutingGraph.
Variable s : Z.
Variable b : option string.

Lemma adjacency_setBarrier : adjacency (setBarrier g s b) = adjacency g.
Proof. unfold setBarrier. now destruct (JsMap.get (nodes g) s). Qed.

Lemma restrictions_setBarrier : restrictions (setBarrier g s b) = restrictions g.
Proof. unfold setBarrier. now destruct (JsMap.get (nodes g) s). Qed.

Lemma get_setBarrier_other n :
  n <> s -> JsMap.get (nodes (setBarrier g s b)) n = JsMap.get (nodes g) n.
Proof.
  intros H. unfold setBarrier. destruct (JsMap.get (nodes g) s); [|reflexivity].
  cbn [nodes]. apply JsMapFacts.get_set_other. congruence.
Qed.

Lemma get_setBarrier_same :
  JsMap.get (nodes (setBarrier g s b)) s =
  match JsMap.get (nodes g) s with
  | Some node =>
      Some {| id := id node; lat := lat node; lon := lon node; barrier := b |}
  | None => None
  end.
Proof.
  unfold setBarrier. destruct (JsMap.get (nodes g) s) eqn:E; [|exact E].
  cbn [nodes]. apply JsMapFacts.get_set_same.
Qed.

Variable mode : RoutingMode.
Variable options : AStarOptions.
Variable endNode : GraphNode.

Lemma heuristic_setBarrier n :
  heuristic M (setBarrier g s b) mode endNode n = heuristic M g mode endNode n.
Proof.
  unfold heuristic. destruct (Z.eq_dec n s) as [->|Hn].
  - rewrite get_setBarrier_same. now destruct (JsMap.get (nodes g) s).
  - now rewrite get_setBarrier_other.
Qed.

Lemma barrierBlocked_setBarrier n :
  n <> s ->
  barrierBlocked (setBarrier g s b) mode options n = barrierBlocked g mode options n.
Proof. intros H. unfold barrierBlocked. now rewrite get_setBarrier_other. Qed.

Lemma turnRestricted_setBarrier w c e :
  turnRestricted (setBarrier g s b) mode options w c e
  = turnRestricted g mode options w c e.
Proof.
  unfold turnRestricted, isRestricted. now rewrite restrictions_setBarrier.
Qed.

(** What the relaxations keep true when travel times lower no score: the
    scores are numbers that are not negative, and the start scores 0. *)
Record Scores (st : SearchState) : Prop := {
  scores_number : forall v x, JsMap.get (gScore st) v = Some x ->
                              FloatOrder.isNumber x /\ (x <? 0)%float = false;
  scores_start : JsMap.get (gScore st) s = Some 0%float
}.

Definition Sound (x : float) : Prop :=
  FloatOrder.isNumber x /\ (x <? 0)%float = false.

Lemma gScoreOr_sound st v : Scores st -> Sound (gScoreOr st v).
Proof.
  intros I. unfold gScoreOr. destruct (JsMap.get (gScore st) v) eqn:E.
  - eapply scores_number; eauto.
  - split; [apply FloatOrder.isNumber_infinity | reflexivity].
Qed.

Lemma scores_ext st st' : gScore st' = gScore st -> Scores st -> Scores st'.
Proof. intros H [I1 I2]. constructor; rewrite H; auto. Qed.

Section Expand.
Variable currentId : Z.
Variable currentG : float.
Variable currentWayId : Z.
Hypothesis HcurrentG : Sound currentG.

(** No edge of a time that lowers no score relaxes the start. *)
Lemma start_not_relaxed st (e : GraphEdge) :
  Scores st ->
  (forall x, (x + getTravelTime e mode <? x)%float = false) ->
  (currentG + getTravelTime e mode <? gScoreOr st s)%float = false.
Proof.
  intros I Hlaw. unfold gScoreOr. rewrite (scores_start _ I).
  destruct HcurrentG as [Hn Hz].
  apply FloatOrder.ltb_negtrans with (b := currentG); auto.
Qed.

Lemma scores_relax st (e : GraphEdge) h :
  Scores st ->
  (forall x, (x + getTravelTime e mode <? x)%float = false) ->
  targetOf currentId e <> s ->
  (currentG + getTravelTime e mode <? gScoreOr st (targetOf currentId e))%float = true ->
  Scores (relax currentId e (currentG + getTravelTime e mode)%float h st).
Proof.
  intros I Hlaw Hne Hlt. destruct HcurrentG as [Hn Hz].
  constructor; cbn [relax gScore].
  - intros v x. rewrite JsMapFacts.get_set.
    destruct (targetOf currentId e =? v)%Z; [|apply (scores_number _ I)].
    intros [= <-]. split.
    + apply (FloatOrder.ltb_number _ _ Hlt).
    + apply FloatOrder.ltb_negtrans with (b := currentG); auto.
  - rewrite JsMapFacts.get_set_other by assumption. apply (scores_start _ I).
Qed.

(** The neighbour loop on the two graphs: the same state, and the same
    steps but for the edges that lead to the start. *)
Lemma expand_setBarrier : forall (neighbors : list GraphEdge) st,
  Scores st ->
  (forall e, In e neighbors ->
     forall x, (x + getTravelTime e mode <? x)%float = false) ->
  elsewhere s
    (fst (expand M (setBarrier g s b) mode options endNode
            currentId currentG currentWayId neighbors st))
  = elsewhere s
      (fst (expand M g mode options endNode
              currentId currentG currentWayId neighbors st))
  /\ snd (expand M (setBarrier g s b) mode options endNode
            currentId currentG currentWayId neighbors st)
     = snd (expand M g mode options endNode
              currentId currentG currentWayId neighbors st)
  /\ forall st', snd (expand M g mode options endNode
                        currentId currentG currentWayId neighbors st) = Some st' ->
                 Scores st'.
Proof.
  induction neighbors as [|e rest IH]; intros st I Hlaw.
  - cbn [expand fst snd]. split; [reflexivity|split; [reflexivity|]].
    now intros st1 [= <-].
  - assert (forall e', In e' rest ->
              forall x, (x + getTravelTime e' mode <? x)%float = false) as Hrest
      by (intros e' He'; apply Hlaw; now right).
    specialize (Hlaw e (or_introl eq_refl)).
    destruct (Z.eq_dec (targetOf currentId e) s) as [Hs|Hs].
    + (* an edge that leads to the start: explored or not, it changes nothing *)
      pose proof (start_not_relaxed st e I Hlaw) as Hno. rewrite <- Hs in Hno.
      destruct (IH st I Hrest) as [IH1 [IH2 IH3]].
      destruct (expand_cons M (setBarrier g s b) mode options endNode
                  currentId currentG currentWayId e rest st)
        as [Hp'|Hp' Hlt'|Hp' Hlt' Hh'|h' Hp' Hlt' Hh']; try congruence;
      destruct (expand_cons M g mode options endNode
                  currentId currentG currentWayId e rest st)
        as [Hp|Hp Hlt|Hp Hlt Hh|h Hp Hlt Hh]; try congruence;
      cbn [fst snd elsewhere filter leadsTo]; rewrite ?Hs, ?Z.eqb_refl;
        cbn [negb]; auto.
    + (* any other edge: the two graphs treat it alike *)
      cbn [expand].
      rewrite turnRestricted_setBarrier, barrierBlocked_setBarrier by assumption.
      rewrite heuristic_setBarrier.
      destruct (isEdgeAccessible e mode); cbn [negb]; [|now apply IH].
      destruct (canTraverseDirection e currentId mode (ignoring options));
        cbn [negb]; [|now apply IH].
      destruct (turnRestricted g mode options currentWayId currentId e);
        [now apply IH|].
      destruct (barrierBlocked g mode options (targetOf currentId e));
        [now apply IH|].
      assert (leadsTo s (Explore e currentId (targetOf currentId e)) = false) as Hk
        by (cbn; now apply Z.eqb_neq).
      destruct (currentG + getTravelTime e mode
                <? gScoreOr st (targetOf currentId e))%float eqn:Hlt.
      * destruct (heuristic M g mode endNode (targetOf currentId e)) as [h|].
        -- match goal with
           | |- context [expand M g mode options endNode _ _ _ rest ?st1] =>
               assert (Scores st1) as I1
                 by (apply (scores_relax st e h I Hlaw Hs Hlt));
               destruct (IH st1 I1 Hrest) as [IH1 [IH2 IH3]];
               destruct (expand M (setBarrier g s b) mode options endNode
                           currentId currentG currentWayId rest st1) as [steps' r'];
               destruct (expand M g mode options endNode
                           currentId currentG currentWayId rest st1) as [steps r]
           end.
           cbn [fst snd] in *. unfold elsewhere in *. cbn [filter].
           rewrite Hk. cbn [negb]. rewrite IH1. auto.
        -- cbn [fst snd]. split; [reflexivity|split; [reflexivity|discriminate]].
      * destruct (IH st I Hrest) as [IH1 [IH2 IH3]].
        destruct (expand M (setBarrier g s b) mode options endNode
                    currentId currentG currentWayId rest st) as [steps' r'].
        destruct (expand M g mode options endNode
                    currentId currentG currentWayId rest st) as [steps r].
        cbn [fst snd] in *. unfold elsewhere in *. cbn [filter].
        rewrite Hk. cbn [negb]. rewrite IH1. auto.
Qed.

End Expand.

(** A run of the loop, but for the explore steps of the edges that lead to
    the start. *)
Definition project (r : option (list AStarStep * Completion))
    : option (list AStarStep * Completion) :=
  match r with
  | Some (steps, c) => Some (elsewhere s steps, c)
  | None => None
  end.

Variable t : Z.
Hypothesis Htimes : TimesNeverLower g mode.

Lemma searchLoop_setBarrier fuel : forall st,
  Scores st ->
  project (searchLoop M (setBarrier g s b) s t mode options endNode fuel st)
  = project (searchLoop M g s t mode options endNode fuel st).
Proof.
  induction fuel as [|fuel IH]; intros st I; cbn [searchLoop]; [reflexivity|].
  rewrite adjacency_setBarrier.
  destruct (MinHeap.pop (openSet st)) as [[currentId rest]|]; [|reflexivity].
  destruct (JsSet.has (closed st) currentId).
  { apply IH. apply (scores_ext st); [reflexivity | assumption]. }
  destruct (currentId =? t)%Z; [reflexivity|].
  destruct (JsMap.get (adjacency g) currentId) as [neighbors|] eqn:Ea.
  2:{ apply IH. apply (scores_ext st); [reflexivity | assumption]. }
  match goal with
  | |- context [expand M g mode options endNode currentId ?cg ?cw neighbors ?st1] =>
      assert (Scores st1) as I1 by (apply (scores_ext st); [reflexivity | assumption]);
      destruct (expand_setBarrier currentId cg cw (gScoreOr_sound st1 currentId I1)
                  neighbors st1 I1) as [H1 [H2 H3]];
        [ intros e He; apply Htimes; eapply get_allEdges; eauto |];
      destruct (expand M (setBarrier g s b) mode options endNode
                  currentId cg cw neighbors st1) as [steps' r'];
      destruct (expand M g mode options endNode
                  currentId cg cw neighbors st1) as [steps r]
  end.
  cbn [fst snd] in *. subst r'.
  destruct r as [st2|]; [|cbn [project]; now rewrite H1].
  specialize (IH st2 (H3 st2 eq_refl)).
  destruct (searchLoop M (setBarrier g s b) s t mode options endNode fuel st2)
    as [[more' c']|];
  destruct (searchLoop M g s t mode options endNode fuel st2) as [[more c]|];
    cbn [project] in *; try discriminate; [|reflexivity].
  injection IH as IH ->. now rewrite !elsewhere_app, H1, IH.
Qed.

Lemma scores_initial h0 : Scores (initialState s h0).
Proof.
  constructor; cbn [initialState gScore].
  - intros v x. rewrite JsMapFacts.get_set.
    destruct (s =? v)%Z; [|discriminate]. intros [= <-].
    split; [apply FloatOrder.isNumber_zero | reflexivity].
  - apply JsMapFacts.get_set_same.
Qed.

End WithStart.

(** The run on the graph with another barrier at the start: the same end and
    the same steps, but for the explore steps of the edges that lead to the
    start. *)
Lemma aStarRoute_setBarrier M g s b t mode options :
  TimesNeverLower g mode ->
  elsewhere s (fst (aStarRoute M (setBarrier g s b) s t mode options))
  = elsewhere s (fst (aStarRoute M g s t mode options))
  /\ snd (aStarRoute M (setBarrier g s b) s t mode options)
     = snd (aStarRoute M g s t mode options).
Proof.
  intros Htimes. unfold aStarRoute.
  destruct (Z.eqb_spec s t) as [<-|Hst].
  - rewrite get_setBarrier_same.
    destruct (JsMap.get (nodes g) s); split; reflexivity.
  - rewrite get_setBarrier_same, get_setBarrier_other by congruence.
    destruct (JsMap.get (nodes g) t) as [endNode|]; [|split; reflexivity].
    assert (searchFuel (setBarrier g s b) = searchFuel g) as ->
      by (unfold searchFuel, allEdges; now rewrite adjacency_setBarrier).
    destruct (JsMap.get (nodes g) s) as [startNode|]; [|split; reflexivity].
    rewrite heuristic_setBarrier.
    destruct (heuristic M g mode endNode s) as [h0|]; [|split; reflexivity].
    pose proof (searchLoop_setBarrier M g s b mode options endNode t Htimes
                  (searchFuel g) (initialState s h0) (scores_initial s h0)) as H.
    destruct (searchLoop M (setBarrier g s b) s t mode options endNode
                (searchFuel g) (initialState s h0)) as [[steps' c']|];
    destruct (searchLoop M g s t mode options endNode
                (searchFuel g) (initialState s h0)) as [[steps c]|];
      cbn [project] in H; try discriminate; [|split; reflexivity].
    injection H as H ->. split; [exact H | reflexivity].
Qed.

(** An explore step is yielded only for an edge that passed every check:
    its target carries no barrier that blocks the mode. *)
Lemma expand_explore_passes M g mode options endNode currentId currentG currentWayId :
  forall (neighbors : list GraphEdge) st e f n,
    In (Explore e f n)
       (fst (expand M g mode options endNode
               currentId currentG currentWayId neighbors st)) ->
    barrierBlocked g mode options n = false.
Proof.
  induction neighbors as [|e0 rest IH]; intros st e f n; [intros []|].
  destruct (expand_cons M g mode options endNode
              currentId currentG currentWayId e0 rest st)
    as [Hp|Hp Hlt|Hp Hlt Hh|h Hp Hlt Hh]; cbn [fst In].
  - apply IH.
  - intros [[= <- <- <-]|H]; [|now apply IH in H].
    unfold passes in Hp.
    destruct (barrierBlocked g mode options (targetOf currentId e0));
      [|reflexivity].
    rewrite !andb_false_r in Hp. discriminate.
  - intros [[= <- <- <-]|[]].
    unfold passes in Hp.
    destruct (barrierBlocked g mode options (targetOf currentId e0));
      [|reflexivity].
    rewrite !andb_false_r in Hp. discriminate.
  - intros [[= <- <- <-]|H]; [|now apply IH in H].
    unfold passes in Hp.
    destruct (barrierBlocked g mode options (targetOf currentId e0));
      [|reflexivity].
    rewrite !andb_false_r in Hp. discriminate.
Qed.

Lemma searchLoop_explore_passes M g s t mode options endNode fuel :
  forall st r e f n,
    searchLoop M g s t mode options endNode fuel st = Some r ->
    In (Explore e f n) (fst r) ->
    barrierBlocked g mode options n = false.
Proof.
  induction fuel as [|fuel IH]; intros st r e f n; cbn [searchLoop]; [discriminate|].
  destruct (MinHeap.pop (openSet st)) as [[currentId rest]|].
  2:{ intros [= <-]. cbn. intros [H|[]]. discriminate. }
  destruct (JsSet.has (closed st) currentId); [apply IH|].
  destruct (currentId =? t)%Z.
  { destruct (reconstruct s t _) as [step|] eqn:Er.
    - intros [= <-]. cbn [fst In]. intros [->|[]].
      apply reconstruct_terminal in Er. discriminate.
    - intros [= <-]. intros []. }
  destruct (JsMap.get (adjacency g) currentId) as [neighbors|]; [|apply IH].
  match goal with
  | |- context [expand M g mode options endNode currentId ?cg ?cw neighbors ?st1] =>
      pose proof (expand_explore_passes M g mode options endNode currentId cg cw
                    neighbors st1 e f n) as He;
      destruct (expand M g mode options endNode currentId cg cw neighbors st1)
        as [steps [st2|]]
  end; cbn [fst] in He.
  - destruct (searchLoop M g s t mode options endNode fuel st2) as [[more c]|] eqn:Es;
      [|discriminate].
    intros [= <-]. cbn [fst]. rewrite in_app_iff. intros [H|H]; [now apply He|].
    eapply IH; [exact Es | exact H].
  - intros [= <-]. exact He.
Qed.

Lemma aStarRoute_explore_passes M g s t mode options e f n :
  In (Explore e f n) (fst (aStarRoute M g s t mode options)) ->
  barrierBlocked g mode options n = false.
Proof.
  unfold aStarRoute.
  destruct (JsMap.get (nodes g) t) as [endNode|].
  2:{ cbn. intros [H|[]]. discriminate. }
  destruct (JsMap.get (nodes g) s) as [startNode|].
  2:{ cbn. intros [H|[]]. discriminate. }
  destruct (s =? t)%Z.
  { cbn. intros [H|[]]. discriminate. }
  destruct (heuristic M g mode endNode s) as [h0|]; [|intros []].
  destruct (searchLoop M g s t mode options endNode (searchFuel g)
              (initialState s h0)) as [r|] eqn:Es; [|intros []].
  now apply (searchLoop_explore_passes _ _ _ _ _ _ _ _ _ _ _ _ _ Es).
Qed.

End BarrierFacts.

(** ** The parser *)

Module ParserFacts.
Import Parser.

(** *** The way segments, as the specification counts them *)

(** A pair of consecutive node references of a way that has a [highway]
    tag, both naming nodes of the parsed node map. *)
Record Segment := {
  segWay : WayInfo;
  segFromId : Z;
  segToId : Z;
  segFrom : GraphNode;
  segTo : GraphNode
}.

Definition segmentOf (allNodes : JsMap.t GraphNode) (w : WayInfo)
    (p : option Z * option Z) : list Segment :=
  match p with
  | (Some fromId, Some toId) =>
      match JsMap.get allNodes fromId, JsMap.get allNodes toId with
      | Some fromNode, Some toNode =>
          [{| segWay := w; segFromId := fromId; segToId := toId;
              segFrom := fromNode; segTo := toNode |}]
      | _, _ => []
      end
  | _ => []
  end.

(** The way has a [highway] tag that is not empty. *)
Definition retained (way : WayEl) : option WayInfo :=
  match getTag (wayTags way) "highway" with
  | Some hw => if truthy (Some hw) then Some (wayInfo way hw) else None
  | None => None
  end.

Definition waySegments (allNodes : JsMap.t GraphNode) (way : WayEl) : list Segment :=
  match retained way with
  | Some w => flat_map (segmentOf allNodes w) (segmentsOf (wayRefs way))
  | None => []
  end.

(** Every segment of the document, in document order. *)
Definition segments (doc : Document) : list Segment :=
  flat_map (waySegments (parseNodes (nodeEls doc))) (wayEls doc).

Definition forwardOf (M : MathLib) (s : Segment) : GraphEdge :=
  forwardEdge M (segWay s) (segFromId s) (segToId s) (segFrom s) (segTo s).

Definition reverseOf (M : MathLib) (s : Segment) : GraphEdge :=
  reverseEdge M (segWay s) (segFromId s) (segToId s) (segFrom s) (segTo s).

Definition segmentEdges (M : MathLib) (s : Segment) : list GraphEdge :=
  [forwardOf M s; reverseOf M s].

Definition edgesOf (adj : JsMap.t (list GraphEdge)) : list GraphEdge :=
  concat (JsMap.values adj).

(** *** Edges *)

Lemma pushEdge_edges adj k e : Permutation (edgesOf (pushEdge adj k e)) (e :: edgesOf adj).
Proof.
  unfold pushEdge, edgesOf.
  induction adj as [|[k0 es0] adj IH]; cbn [JsMap.get].
  - cbn. constructor. constructor.
  - destruct (k0 =? k)%Z eqn:E.
    + cbn [JsMap.set]. rewrite E. cbn [JsMap.values map snd concat].
      rewrite <- app_assoc. cbn [app].
      apply Permutation_sym, Permutation_middle.
    + destruct (JsMap.get adj k) as [es|] eqn:Eg;
        cbn [JsMap.set]; rewrite E; cbn [JsMap.values map snd concat];
        change (map snd ?m) with (JsMap.values m);
        (etransitivity; [apply Permutation_app_head, IH|]);
        apply Permutation_sym, Permutation_middle.
Qed.

Section WithMath.
Variable M : MathLib.
Variable allNodes : JsMap.t GraphNode.

Lemma addSegment_edges w b fromRef toRef :
  Permutation (edgesOf (builtAdjacency (addSegment M allNodes w b fromRef toRef)))
    (edgesOf (builtAdjacency b)
       ++ flat_map (segmentEdges M) (segmentOf allNodes w (fromRef, toRef))).
Proof.
  unfold addSegment, segmentOf.
  destruct fromRef as [fromId|], toRef as [toId|];
    cbn [flat_map app]; rewrite ?app_nil_r; try reflexivity.
  destruct (JsMap.get allNodes fromId) as [fromNode|],
           (JsMap.get allNodes toId) as [toNode|];
    cbn [flat_map app]; rewrite ?app_nil_r; try reflexivity.
  cbn [builtAdjacency segmentEdges forwardOf reverseOf segWay segFromId segToId
       segFrom segTo].
  etransitivity; [apply pushEdge_edges|].
  etransitivity; [apply perm_skip, pushEdge_edges|].
  etransitivity; [apply perm_swap|].
  apply Permutation_cons_app. apply Permutation_cons_append.
Qed.

Lemma addSegments_edges w : forall nodeIds b,
  Permutation (edgesOf (builtAdjacency (addSegments M allNodes w b nodeIds)))
    (edgesOf (builtAdjacency b)
       ++ flat_map (segmentEdges M) (flat_map (segmentOf allNodes w) (segmentsOf nodeIds))).
Proof.
  induction nodeIds as [|fromRef rest IH]; intros b.
  - cbn. now rewrite app_nil_r.
  - destruct rest as [|toRef rest'].
    + cbn. now rewrite app_nil_r.
    + change (addSegments M allNodes w b (fromRef :: toRef :: rest'))
        with (addSegments M allNodes w (addSegment M allNodes w b fromRef toRef)
                (toRef :: rest')).
      change (segmentsOf (fromRef :: toRef :: rest'))
        with ((fromRef, toRef) :: segmentsOf (toRef :: rest')).
      cbn [flat_map]. rewrite flat_map_app, app_assoc.
      etransitivity; [apply IH|].
      apply Permutation_app_tail, addSegment_edges.
Qed.

Lemma addWay_edges b way :
  Permutation (edgesOf (builtAdjacency (addWay M allNodes b way)))
    (edgesOf (builtAdjacency b)
       ++ flat_map (segmentEdges M) (waySegments allNodes way)).
Proof.
  unfold addWay, waySegments, retained.
  destruct (getTag (wayTags way) "highway") as [hw|];
    [|cbn; now rewrite app_nil_r].
  destruct (truthy (Some hw)); [|cbn; now rewrite app_nil_r].
  apply addSegments_edges.
Qed.

Lemma addWays_edges : forall ways b,
  Permutation (edgesOf (builtAdjacency (fold_left (addWay M allNodes) ways b)))
    (edgesOf (builtAdjacency b)
       ++ flat_map (segmentEdges M) (flat_map (waySegments allNodes) ways)).
Proof.
  induction ways as [|way ways IH]; intros b; cbn [fold_left flat_map].
  - now rewrite app_nil_r.
  - rewrite flat_map_app, app_assoc.
    etransitivity; [apply IH|].
    apply Permutation_app_tail, addWay_edges.
Qed.

End WithMath.

(** The edges of the parsed graph are the two edges of every segment. *)
Lemma parseOSM_edges M doc :
  Permutation (allEdges (parseOSM M doc))
    (flat_map (segmentEdges M) (segments doc)).
Proof.
  unfold parseOSM, allEdges, segments, buildWays. cbn [adjacency].
  apply (addWays_edges M (parseNodes (nodeEls doc)) (wayEls doc)
           {| builtAdjacency := JsMap.empty; referencedNodes := JsSet.empty |}).
Qed.

(** *** Nodes *)

Lemma In_add s k i : In i (JsSet.add s k) <-> i = k \/ In i s.
Proof.
  rewrite <- !JsSetFacts.set_has_true, JsSetFacts.has_add, orb_true_iff, Z.eqb_eq.
  reflexivity.
Qed.

(** The endpoints of a list of segments. *)
Definition endpoint (segs : list Segment) (i : Z) : Prop :=
  exists s, In s segs /\ (i = segFromId s \/ i = segToId s).

Lemma endpoint_app segs1 segs2 i :
  endpoint (segs1 ++ segs2) i <-> endpoint segs1 i \/ endpoint segs2 i.
Proof.
  unfold endpoint. split.
  - intros [s [Hin H]]. apply in_app_or in Hin as [Hin|Hin]; eauto.
  - intros [[s [Hin H]]|[s [Hin H]]]; exists s; split; auto; apply in_or_app; auto.
Qed.

Lemma endpoint_nil i : endpoint [] i <-> False.
Proof. unfold endpoint. split; [intros [s [[] _]] | tauto]. Qed.

Section Referenced.
Variable M : MathLib.
Variable allNodes : JsMap.t GraphNode.

Lemma addSegment_referenced w b fromRef toRef i :
  In i (referencedNodes (addSegment M allNodes w b fromRef toRef)) <->
  In i (referencedNodes b) \/ endpoint (segmentOf allNodes w (fromRef, toRef)) i.
Proof.
  unfold addSegment, segmentOf.
  destruct fromRef as [fromId|], toRef as [toId|];
    try (rewrite endpoint_nil; tauto).
  destruct (JsMap.get allNodes fromId) as [fromNode|],
           (JsMap.get allNodes toId) as [toNode|];
    try (rewrite endpoint_nil; tauto).
  cbn [referencedNodes]. rewrite !In_add. unfold endpoint. split.
  - intros [->|[->|H]]; [right|right|now left];
      eexists; (split; [left; reflexivity|]); cbn; auto.
  - intros [H|[s [[<-|[]] [->| ->]]]]; cbn; auto.
Qed.

Lemma addSegments_referenced w i : forall nodeIds b,
  In i (referencedNodes (addSegments M allNodes w b nodeIds)) <->
  In i (referencedNodes b)
  \/ endpoint (flat_map (segmentOf allNodes w) (segmentsOf nodeIds)) i.
Proof.
  induction nodeIds as [|fromRef rest IH]; intros b.
  - cbn. rewrite endpoint_nil. tauto.
  - destruct rest as [|toRef rest'].
    + cbn. rewrite endpoint_nil. tauto.
    + change (addSegments M allNodes w b (fromRef :: toRef :: rest'))
        with (addSegments M allNodes w (addSegment M allNodes w b fromRef toRef)
                (toRef :: rest')).
      change (segmentsOf (fromRef :: toRef :: rest'))
        with ((fromRef, toRef) :: segmentsOf (toRef :: rest')).
      cbn [flat_map]. rewrite IH, addSegment_referenced, endpoint_app. tauto.
Qed.

Lemma addWay_referenced b way i :
  In i (referencedNodes (addWay M allNodes b way)) <->
  In i (referencedNodes b) \/ endpoint (waySegments allNodes way) i.
Proof.
  unfold addWay, waySegments, retained.
  destruct (getTag (wayTags way) "highway") as [hw|];
    [|rewrite endpoint_nil; tauto].
  destruct (truthy (Some hw)); [|rewrite endpoint_nil; tauto].
  apply addSegments_referenced.
Qed.

Lemma addWays_referenced i : forall ways b,
  In i (referencedNodes (fold_left (addWay M allNodes) ways b)) <->
  In i (referencedNodes b) \/ endpoint (flat_map (waySegments allNodes) ways) i.
Proof.
  induction ways as [|way ways IH]; intros b; cbn [fold_left flat_map].
  - rewrite endpoint_nil. tauto.
  - rewrite IH, addWay_referenced, endpoint_app. tauto.
Qed.

(** The endpoints of a segment are nodes of the parsed node map. *)
Lemma segmentOf_known w p s :
  In s (segmentOf allNodes w p) ->
  JsMap.has allNodes (segFromId s) = true /\ JsMap.has allNodes (segToId s) = true.
Proof.
  unfold segmentOf, JsMap.has. destruct p as [[fromId|] [toId|]]; try contradiction.
  destruct (JsMap.get allNodes fromId) as [fromNode|] eqn:Ef; [|contradiction].
  destruct (JsMap.get allNodes toId) as [toNode|] eqn:Et; [|contradiction].
  intros [<-|[]]. cbn. now rewrite Ef, Et.
Qed.

Lemma waySegments_known way s :
  In s (waySegments allNodes way) ->
  JsMap.has allNodes (segFromId s) = true /\ JsMap.has allNodes (segToId s) = true.
Proof.
  unfold waySegments. destruct (retained way) as [w|]; [|contradiction].
  rewrite in_flat_map. intros [p [_ H]]. eapply segmentOf_known; eauto.
Qed.

Lemma keepReferenced_keys i : forall referenced acc,
  In i (JsMap.keys
          (fold_left
             (fun nodes k =>
                match JsMap.get allNodes k with
                | Some node => JsMap.set nodes k node
                | None => nodes
                end)
             referenced acc)) <->
  In i (JsMap.keys acc) \/ (In i referenced /\ JsMap.has allNodes i = true).
Proof.
  induction referenced as [|k referenced IH]; intros acc; cbn [fold_left In].
  - tauto.
  - rewrite IH. unfold JsMap.has.
    destruct (JsMap.get allNodes k) as [node|] eqn:Ek.
    + rewrite JsMapFacts.keys_set. split.
      * intros [[->|H]|H]; [right; rewrite Ek; auto | auto | right; tauto].
      * intros [H|[[<-|H] H']]; auto.
    + split.
      * intros [H|H]; [auto | right; tauto].
      * intros [H|[[<-|H] H']]; auto. rewrite Ek in H'. discriminate.
Qed.

End Referenced.

(** The node map of the parsed graph holds the endpoints of the segments. *)
Lemma parseOSM_nodes M doc i :
  In i (JsMap.keys (nodes (parseOSM M doc))) <-> endpoint (segments doc) i.
Proof.
  unfold parseOSM, keepReferenced, buildWays, segments. cbn [nodes].
  rewrite keepReferenced_keys, addWays_referenced. cbn [JsMap.keys JsMap.empty map
    referencedNodes JsSet.empty In].
  split.
  - intros [[]|[[[]|H] _]]. exact H.
  - intros H. right. split; [now right|].
    destruct H as [s [Hin H]]. apply in_flat_map in Hin as [way [_ Hs]].
    apply waySegments_known in Hs as [Hf Ht]. destruct H as [-> | ->]; assumption.
Qed.

Lemma segmentEdges_length M segs :
  length (flat_map (segmentEdges M) segs) = (2 * length segs)%nat.
Proof.
  induction segs as [|s segs IH]; [reflexivity|].
  cbn [flat_map segmentEdges app length]. rewrite IH. lia.
Qed.

Lemma In_segmentEdges M segs e :
  In e (flat_map (segmentEdges M) segs) <->
  exists s, In s segs /\ (e = forwardOf M s \/ e = reverseOf M s).
Proof.
  rewrite in_flat_map. unfold segmentEdges. split.
  - intros [s [Hin [<-|[<-|[]]]]]; eauto.
  - intros [s [Hin [->| ->]]]; exists s; cbn; auto.
Qed.

End ParserFacts.

(** ** Snapping *)

Module MatchingFacts.
Import RoadTypes MapMatching.

(** The edges the scan projects: of the edges that share a key, the first. *)
Fixpoint firstOfKey (seen : list EdgeKey) (l : list GraphEdge) : list GraphEdge :=
  match l with
  | [] => []
  | e :: rest =>
      if seenHas seen (keyOf e) then firstOfKey seen rest
      else e :: firstOfKey (keyOf e :: seen) rest
  end.

Lemma firstOfKey_In seen l e : In e (firstOfKey seen l) -> In e l.
Proof.
  revert seen. induction l as [|e' l IH]; intros seen; cbn [firstOfKey]; [tauto|].
  destruct (seenHas seen (keyOf e')).
  - intros H. right. eapply IH; eauto.
  - intros [->|H]; [now left | right; eapply IH; eauto].
Qed.

Section WithMath.
Variable M : MathLib.
Variable lat lon : float.

(** Some segment of the geometry of [e] projects the query point to a
    distance below [Infinity]. *)
Definition reaches (e : GraphEdge) : bool :=
  existsb
    (fun seg => (projectedDistance M lat lon seg <? JsNum.Infinity)%float)
    (segmentsOf (geometry e)).

Definition unset (b : Best) : Prop :=
  bestEdge b = None -> bestDist b = JsNum.Infinity.

Lemma scanSegments_spec e : forall segs b,
  unset b ->
  unset (fold_left (scanSegment M lat lon e) segs b)
  /\ (bestEdge (fold_left (scanSegment M lat lon e) segs b) = None <->
      bestEdge b = None
      /\ existsb
           (fun seg => (projectedDistance M lat lon seg <? JsNum.Infinity)%float)
           segs = false)
  /\ (forall e', bestEdge (fold_left (scanSegment M lat lon e) segs b) = Some e' ->
                 bestEdge b = Some e' \/ e' = e).
Proof.
  induction segs as [|seg segs IH]; intros b Hb; cbn [fold_left existsb].
  - split; [exact Hb|]. split; [tauto|]. intros e' H. now left.
  - set (b1 := scanSegment M lat lon e b seg).
    assert (unset b1
            /\ (bestEdge b1 = None <->
                bestEdge b = None
                /\ (projectedDistance M lat lon seg <? JsNum.Infinity)%float = false)
            /\ (forall e', bestEdge b1 = Some e' -> bestEdge b = Some e' \/ e' = e))
      as [U1 [N1 S1]].
    { subst b1. unfold scanSegment, unset, projectedDistance in *.
      destruct (Geo.haversine M lat lon _ _ <? bestDist b)%float eqn:E;
        cbn [bestEdge bestDist].
      - split; [discriminate|]. split.
        + split; [discriminate|]. intros [Hn Hf]. rewrite (Hb Hn) in E. congruence.
        + intros e' [= <-]. now right.
      - split; [assumption|]. split.
        + split.
          * intros Hn. split; [assumption|]. now rewrite <- (Hb Hn).
          * tauto.
        + intros e' H. now left. }
    destruct (IH b1 U1) as [U [N S]]. split; [exact U|]. split.
    + rewrite N, N1, orb_false_iff. tauto.
    + intros e' H. destruct (S e' H) as [H1|H1]; auto.
Qed.

Variable mode : RoutingMode.

Lemma scanEdge_cases seen b e :
  scanEdge M lat lon mode (seen, b) e =
  if seenHas seen (keyOf e) then (seen, b)
  else if isEdgeAccessible e mode
       then (keyOf e :: seen,
             fold_left (scanSegment M lat lon e) (segmentsOf (geometry e)) b)
       else (keyOf e :: seen, b).
Proof.
  unfold scanEdge. destruct (seenHas seen (keyOf e)); [reflexivity|].
  now destruct (isEdgeAccessible e mode).
Qed.

(** The best candidate after the scan of [l]. *)
Definition scanned (l : list GraphEdge) (seen : list EdgeKey) (b : Best) : Best :=
  snd (fold_left (scanEdge M lat lon mode) l (seen, b)).

Lemma scan_spec : forall l seen b,
  unset b ->
  unset (scanned l seen b)
  /\ (bestEdge (scanned l seen b) = None <->
      bestEdge b = None
      /\ forall e, In e (firstOfKey seen l) ->
                   isEdgeAccessible e mode = true -> reaches e = false)
  /\ (forall e, bestEdge (scanned l seen b) = Some e ->
        bestEdge b = Some e
        \/ (In e (firstOfKey seen l) /\ isEdgeAccessible e mode = true)).
Proof.
  unfold scanned.
  induction l as [|e l IH]; intros seen b Hb; cbn [fold_left firstOfKey].
  - cbn [snd]. split; [exact Hb|]. split.
    + split; [intros H; split; [assumption | intros e []] | tauto].
    + intros e H. now left.
  - rewrite scanEdge_cases.
    destruct (seenHas seen (keyOf e)) eqn:Es; [exact (IH seen b Hb)|].
    destruct (isEdgeAccessible e mode) eqn:Ea.
    + destruct (scanSegments_spec e (segmentsOf (geometry e)) b Hb) as [U1 [N1 S1]].
      destruct (IH (keyOf e :: seen) _ U1) as [U [N S]].
      split; [exact U|]. split.
      * rewrite N, N1. fold (reaches e). split.
        -- intros [[Hn Hr] Hall]. split; [assumption|].
           intros e' [<-|Hin] Hacc; auto.
        -- intros [Hn Hall]. split; [split; [assumption|]|].
           ++ apply Hall; [now left | assumption].
           ++ intros e' Hin Hacc. apply Hall; auto. now right.
      * intros e' H. destruct (S e' H) as [H1|[H1 H2]].
        -- destruct (S1 e' H1) as [H3| ->]; auto. right. split; [now left | assumption].
        -- right. split; [now right | assumption].
    + destruct (IH (keyOf e :: seen) b Hb) as [U [N S]].
      split; [exact U|]. split.
      * rewrite N. split.
        -- intros [Hn Hall]. split; [assumption|].
           intros e' [<-|Hin] Hacc; [congruence | auto].
        -- intros [Hn Hall]. split; [assumption|].
           intros e' Hin Hacc. apply Hall; auto. now right.
      * intros e' H. destruct (S e' H) as [H1|[H1 H2]]; auto.
        right. split; [now right | assumption].
Qed.

End WithMath.
End MatchingFacts.

(** ** Route trimming and the store *)

Lemma replaceAt_nth_other {A : Type} (l : list A) (i j : nat) (x : A) :
  i <> j -> nth_error (replaceAt l i x) j = nth_error l j.
Proof.
  revert i j; induction l as [|y l IH]; intros [|i] [|j] H; cbn; auto;
    try congruence.
Qed.

Module TrimFacts.
Import Store MapMatching Trim.

(** What a computation may do to an object that exists when it starts:
    leave it as it is or, to an edge object of [W], give a new geometry. *)
Definition Regeo (n : nat) (W : loc -> Prop) (l : loc) (o o' : obj) : Prop :=
  o' = o
  \/ (W l /\ exists e g, o = OEdge e /\ o' = OEdge (withGeometry e g) /\ (n <= g)%nat).

(** [Keeps n W m Q]: run in a store of at least [n] objects, [m] only adds
    objects, changes none of the first [n] but for the geometry of the edge
    objects of [W], which it may set to an array that is not among them,
    and its value satisfies [Q]. *)
Definition Keeps (n : nat) (W : loc -> Prop) {A : Type} (m : Comp A)
    (Q : A -> Prop) : Prop :=
  forall s, (n <= length s)%nat ->
    (length s <= length (fst (m s)))%nat
    /\ (forall l o, (l < n)%nat -> nth_error s l = Some o ->
          exists o', nth_error (fst (m s)) l = Some o' /\ Regeo n W l o o')
    /\ (forall a, snd (m s) = Normal a -> Q a).

Definition fresh (n : nat) (l : loc) : Prop := (n <= l)%nat.

Definition any {A : Type} (_ : A) : Prop := True.

Lemma withGeometry_again (e : GraphEdgeOf loc) (g g' : loc) :
  withGeometry (withGeometry e g) g' = withGeometry e g'.
Proof. reflexivity. Qed.

Lemma Regeo_refl n W l o : Regeo n W l o o.
Proof. now left. Qed.

Lemma Regeo_trans n W l o1 o2 o3 :
  Regeo n W l o1 o2 -> Regeo n W l o2 o3 -> Regeo n W l o1 o3.
Proof.
  intros [->|[Hw [e [g [-> [-> Hg]]]]]]; [auto|].
  intros [->|[_ [e' [g' [[= <-] [-> Hg']]]]]].
  - right. split; [assumption|]. now exists e, g.
  - right. split; [assumption|]. exists e, g'. now rewrite withGeometry_again.
Qed.

Section Rules.
Variable n : nat.
Variable W : loc -> Prop.

Lemma keeps_same {A} (m : Comp A) (Q : A -> Prop) :
  (forall s, fst (m s) = s) -> (forall s a, snd (m s) = Normal a -> Q a) ->
  Keeps n W m Q.
Proof.
  intros H1 H2 s Hs. rewrite H1. split; [lia|]. split; [|apply H2].
  intros l o _ Ho. exists o. split; [assumption | apply Regeo_refl].
Qed.

Lemma keeps_ret {A} (a : A) (Q : A -> Prop) : Q a -> Keeps n W (ret a) Q.
Proof.
  intros H. apply keeps_same; [reflexivity|]. now intros s a' [= <-].
Qed.

Lemma keeps_lift {A} (r : Outcome A) (Q : A -> Prop) :
  (forall a, r = Normal a -> Q a) -> Keeps n W (lift r) Q.
Proof. intros H. apply keeps_same; [reflexivity|]. intros s a. apply H. Qed.

Lemma keeps_weaken {A} (m : Comp A) (Q Q' : A -> Prop) :
  Keeps n W m Q -> (forall a, Q a -> Q' a) -> Keeps n W m Q'.
Proof.
  intros H HQ s Hs. destruct (H s Hs) as [H1 [H2 H3]]. repeat split; auto.
Qed.

Lemma keeps_bind {A B} (m : Comp A) (f : A -> Comp B) (Q1 : A -> Prop)
    (Q2 : B -> Prop) :
  Keeps n W m Q1 -> (forall a, Q1 a -> Keeps n W (f a) Q2) ->
  Keeps n W (bind m f) Q2.
Proof.
  intros Hm Hf s Hs. unfold bind.
  destruct (Hm s Hs) as [H1 [H2 H3]].
  destruct (m s) as [s1 [a|]] eqn:Em; cbn [fst snd] in *.
  - destruct (Hf a (H3 a eq_refl) s1 ltac:(lia)) as [K1 [K2 K3]].
    split; [lia|]. split; [|assumption].
    intros l o Hl Ho. destruct (H2 l o Hl Ho) as [o1 [Ho1 R1]].
    destruct (K2 l o1 Hl Ho1) as [o2 [Ho2 R2]].
    exists o2. split; [assumption|]. eapply Regeo_trans; eauto.
  - repeat split; auto. discriminate.
Qed.

Lemma keeps_alloc (o : obj) : Keeps n W (alloc o) (fresh n).
Proof.
  intros s Hs. unfold alloc; cbn [fst snd]. rewrite length_app. cbn [length].
  split; [lia|]. split.
  - intros l o' Hl Ho. exists o'. split; [|apply Regeo_refl].
    rewrite nth_error_app1; [assumption | lia].
  - intros a [= <-]. exact Hs.
Qed.

Lemma keeps_readPair l : Keeps n W (readPair l) any.
Proof.
  apply keeps_same; [|now intros]. intros s. unfold readPair.
  now destruct (nth_error s l) as [[p|?|?]|].
Qed.

Lemma keeps_readArray l : Keeps n W (readArray l) any.
Proof.
  apply keeps_same; [|now intros]. intros s. unfold readArray.
  now destruct (nth_error s l) as [[?|elems|?]|].
Qed.

Lemma keeps_readEdge l : Keeps n W (readEdge l) any.
Proof.
  apply keeps_same; [|now intros]. intros s. unfold readEdge.
  now destruct (nth_error s l) as [[?|?|e]|].
Qed.

(** A write to a new object. *)
Lemma keeps_write l o : fresh n l -> Keeps n W (write l o) any.
Proof.
  intros H s Hs. unfold write; cbn [fst snd]. rewrite replaceAt_length.
  split; [lia|]. split; [|now intros].
  intros l' o' Hl' Ho'. exists o'. split; [|apply Regeo_refl].
  rewrite replaceAt_nth_other; [assumption|]. unfold fresh in H. lia.
Qed.

Lemma keeps_mapM {A B} (f : A -> Comp B) (Q : B -> Prop) (l : list A) :
  (forall a, Keeps n W (f a) Q) -> Keeps n W (mapM f l) (Forall Q).
Proof.
  intros H. induction l as [|a l IH]; cbn [mapM].
  - apply keeps_ret. constructor.
  - eapply keeps_bind; [apply H|]. intros b Hb.
    eapply keeps_bind; [apply IH|]. intros bs Hbs.
    apply keeps_ret. now constructor.
Qed.

Lemma keeps_forEach {A} (f : A -> Comp unit) (l : list A) :
  (forall a, Keeps n W (f a) any) -> Keeps n W (forEach f l) any.
Proof.
  intros H. induction l as [|a l IH]; cbn [forEach].
  - now apply keeps_ret.
  - eapply keeps_bind; [apply H|]. intros _ _. exact IH.
Qed.

Lemma keeps_push arr x : fresh n arr -> Keeps n W (push arr x) any.
Proof.
  intros H. unfold push.
  eapply keeps_bind; [apply keeps_readArray|]. intros elems _.
  now apply keeps_write.
Qed.

Lemma replaceAt_nth_same {A : Type} (l : list A) (i : nat) (x y : A) :
  nth_error l i = Some y -> nth_error (replaceAt l i x) i = Some x.
Proof.
  revert i; induction l as [|z l IH]; intros [|i]; cbn; try discriminate; auto.
Qed.

(** [edge.geometry = g] on a new edge object, or on an edge object of [W]
    with a new array. *)
Lemma keeps_setGeometry edge g :
  fresh n edge \/ (W edge /\ fresh n g) -> Keeps n W (setGeometry edge g) any.
Proof.
  intros H s Hs. unfold setGeometry, bind, readEdge, write.
  destruct (nth_error s edge) as [[?|?|e]|] eqn:Ee; cbn [fst snd];
    try (split; [lia|]; split; [|now intros];
         intros l o _ Ho; exists o; split; [assumption | apply Regeo_refl]).
  rewrite replaceAt_length. split; [lia|]. split; [|now intros].
  intros l o Hl Ho. destruct (Nat.eq_dec edge l) as [->|Hne].
  - destruct H as [H|[Hw Hg]]; [unfold fresh in H; lia|].
    exists (OEdge (withGeometry e g)). split.
    + eapply replaceAt_nth_same; eauto.
    + right. split; [assumption|]. exists e, g.
      split; [congruence|]. split; [reflexivity | exact Hg].
  - exists o. split; [|apply Regeo_refl]. now rewrite replaceAt_nth_other.
Qed.

Lemma keeps_readCoords g : Keeps n W (readCoords g) any.
Proof.
  unfold readCoords.
  eapply keeps_bind; [apply keeps_readArray|]. intros elems _.
  eapply keeps_weaken; [apply keeps_mapM; intros; apply keeps_readPair|].
  now intros.
Qed.

Variable M : MathLib.

Lemma keeps_findSnapSegmentAt lat lon g :
  Keeps n W (findSnapSegmentAt M lat lon g) any.
Proof.
  unfold findSnapSegmentAt.
  eapply keeps_bind; [apply keeps_readCoords|]. intros coords _.
  now apply keeps_lift.
Qed.

(** The trimmed geometry is a new array. *)
Lemma keeps_trimGeometryFromStart g lat lon :
  Keeps n W (trimGeometryFromStart M g lat lon) (fresh n).
Proof.
  unfold trimGeometryFromStart.
  eapply keeps_bind; [apply keeps_findSnapSegmentAt|]. intros seg _.
  eapply keeps_bind; [apply keeps_alloc|]. intros p Hp.
  eapply keeps_bind; [apply keeps_alloc|]. intros result Hr.
  eapply keeps_bind; [apply keeps_readArray|]. intros elems _.
  eapply keeps_bind.
  - apply keeps_forEach. intros x. now apply keeps_push.
  - intros _ _. now apply keeps_ret.
Qed.

Lemma keeps_trimGeometryToEnd g lat lon :
  Keeps n W (trimGeometryToEnd M g lat lon) (fresh n).
Proof.
  unfold trimGeometryToEnd.
  eapply keeps_bind; [apply keeps_findSnapSegmentAt|]. intros seg _.
  eapply keeps_bind; [apply keeps_alloc|]. intros result Hr.
  eapply keeps_bind; [apply keeps_readArray|]. intros elems _.
  eapply keeps_bind.
  { apply keeps_forEach. intros x. now apply keeps_push. }
  intros _ _.
  eapply keeps_bind; [apply keeps_alloc|]. intros p Hp.
  eapply keeps_bind; [now apply keeps_push|]. intros _ _.
  now apply keeps_ret.
Qed.

(** The copy of an edge is a new object. *)
Lemma keeps_copyEdge edge : Keeps n W (copyEdge edge) (fresh n).
Proof.
  unfold copyEdge.
  eapply keeps_bind; [apply keeps_readEdge|]. intros e _.
  eapply keeps_bind; [apply keeps_readArray|]. intros elems _.
  eapply keeps_bind; [apply keeps_alloc|]. intros g _.
  apply keeps_alloc.
Qed.

(** The trimming of the copies [copies], gathered in the array [result]:
    what [trimRouteToSnapPoints] does once the copies are made. *)
Definition trimCopies (copies : list loc) (result : loc)
    (originSnap destinationSnap : SnapResult.t loc) : Comp TrimmedRoute :=
  match copies with
  | [only] =>
      e <- readEdge only ;;
      let geo := geometry e in
      originSeg <- findSnapSegmentAt M (SnapResult.lat originSnap)
                     (SnapResult.lon originSnap) geo ;;
      destSeg <- findSnapSegmentAt M (SnapResult.lat destinationSnap)
                   (SnapResult.lon destinationSnap) geo ;;
      coords <- readCoords geo ;;
      first <- lift (originFirst M coords originSeg destSeg) ;;
      if first then
        trimmed <- trimGeometryFromStart M geo (SnapResult.lat originSnap)
                     (SnapResult.lon originSnap) ;;
        g <- trimGeometryToEnd M trimmed (SnapResult.lat destinationSnap)
               (SnapResult.lon destinationSnap) ;;
        _ <- setGeometry only g ;;
        ret {| edges := result |}
      else
        trimmed <- trimGeometryFromStart M geo (SnapResult.lat destinationSnap)
                     (SnapResult.lon destinationSnap) ;;
        g <- trimGeometryToEnd M trimmed (SnapResult.lat originSnap)
               (SnapResult.lon originSnap) ;;
        _ <- setGeometry only g ;;
        ret {| edges := result |}
  | firstEdge :: _ =>
      e0 <- readEdge firstEdge ;;
      let firstGeo := geometry e0 in
      let firstNodeId := from e0 in
      g0 <- (if (SnapResult.nodeId originSnap =? firstNodeId)%Z then
               trimGeometryFromStart M firstGeo (SnapResult.lat originSnap)
                 (SnapResult.lon originSnap)
             else
               trimGeometryToEnd M firstGeo (SnapResult.lat originSnap)
                 (SnapResult.lon originSnap)) ;;
      _ <- setGeometry firstEdge g0 ;;
      let lastEdge := List.last copies firstEdge in
      e1 <- readEdge lastEdge ;;
      let lastGeo := geometry e1 in
      let lastToNodeId := to e1 in
      g1 <- (if (SnapResult.nodeId destinationSnap =? lastToNodeId)%Z then
               trimGeometryToEnd M lastGeo (SnapResult.lat destinationSnap)
                 (SnapResult.lon destinationSnap)
             else
               trimGeometryFromStart M lastGeo (SnapResult.lat destinationSnap)
                 (SnapResult.lon destinationSnap)) ;;
      _ <- setGeometry lastEdge g1 ;;
      ret {| edges := result |}
  | [] => ret {| edges := result |}
  end.

Lemma trimRouteToSnapPoints_unfold path originSnap destinationSnap :
  trimRouteToSnapPoints M path originSnap destinationSnap =
  (pathEdges <- readArray path ;;
   match pathEdges with
   | [] => (empty <- alloc (OArray []) ;; ret {| edges := empty |})
   | _ :: _ =>
       (copies <- mapM copyEdge pathEdges ;;
        result <- alloc (OArray copies) ;;
        trimCopies copies result originSnap destinationSnap)
   end).
Proof. reflexivity. Qed.

Lemma last_In {A : Type} (l : list A) (d : A) : l <> [] -> In (List.last l d) l.
Proof.
  induction l as [|a l IH]; [congruence|]. intros _.
  destruct l as [|b l]; [now left|].
  right. apply IH. discriminate.
Qed.

(** Trimming the copies gives some of them a new geometry and changes
    nothing else. *)
Lemma keeps_trimCopies copies result originSnap destinationSnap :
  Forall (fun c => fresh n c \/ W c) copies ->
  Keeps n W (trimCopies copies result originSnap destinationSnap)
    (fun r => edges r = result).
Proof.
  intros Hc. unfold trimCopies.
  assert (forall c g, fresh n c \/ W c -> fresh n g ->
                      Keeps n W (setGeometry c g) any) as Hset.
  { intros c g [H|H] Hg; apply keeps_setGeometry; auto. }
  destruct copies as [|firstEdge more]; [now apply keeps_ret|].
  assert (fresh n firstEdge \/ W firstEdge) as Hfirst by now inversion Hc.
  destruct more as [|second more].
  - eapply keeps_bind; [apply keeps_readEdge|]. intros e _.
    eapply keeps_bind; [apply keeps_findSnapSegmentAt|]. intros originSeg _.
    eapply keeps_bind; [apply keeps_findSnapSegmentAt|]. intros destSeg _.
    eapply keeps_bind; [apply keeps_readCoords|]. intros coords _.
    eapply keeps_bind; [apply keeps_lift; intros; exact I|]. intros first _.
    destruct first;
      (eapply keeps_bind; [apply keeps_trimGeometryFromStart|]; intros trimmed _;
       eapply keeps_bind; [apply keeps_trimGeometryToEnd|]; intros g Hg;
       eapply keeps_bind; [apply Hset; assumption|]; intros _ _;
       now apply keeps_ret).
  - set (all := firstEdge :: second :: more) in *.
    assert (fresh n (List.last all firstEdge) \/ W (List.last all firstEdge)) as Hlast.
    { rewrite Forall_forall in Hc. apply Hc. apply last_In. discriminate. }
    eapply keeps_bind; [apply keeps_readEdge|]. intros e0 _.
    eapply keeps_bind.
    { destruct (SnapResult.nodeId originSnap =? from e0)%Z;
        [apply keeps_trimGeometryFromStart | apply keeps_trimGeometryToEnd]. }
    intros g0 Hg0.
    eapply keeps_bind; [apply Hset; assumption|]. intros _ _.
    eapply keeps_bind; [apply keeps_readEdge|]. intros e1 _.
    eapply keeps_bind.
    { destruct (SnapResult.nodeId destinationSnap =? to e1)%Z;
        [apply keeps_trimGeometryToEnd | apply keeps_trimGeometryFromStart]. }
    intros g1 Hg1.
    eapply keeps_bind; [apply Hset; assumption|]. intros _ _.
    now apply keeps_ret.
Qed.

(** [trimRouteToSnapPoints] changes no object of the store it is called in,
    and the array it returns is new. *)
Lemma keeps_trimRouteToSnapPoints path originSnap destinationSnap :
  Keeps n W (trimRouteToSnapPoints M path originSnap destinationSnap)
    (fun r => fresh n (edges r)).
Proof.
  rewrite trimRouteToSnapPoints_unfold.
  eapply keeps_bind; [apply keeps_readArray|]. intros pathEdges _.
  destruct pathEdges as [|e0 rest].
  - eapply keeps_bind; [apply keeps_alloc|]. intros empty He. now apply keeps_ret.
  - eapply keeps_bind; [apply keeps_mapM; intros; apply keeps_copyEdge|].
    intros copies Hc.
    eapply keeps_bind; [apply keeps_alloc|]. intros result Hr.
    eapply keeps_weaken.
    + apply keeps_trimCopies. eapply Forall_impl; [|exact Hc]. intros c H. now left.
    + intros r ->. exact Hr.
Qed.

End Rules.

(** *** The copies *)

Lemma copyEdge_run s edge :
  copyEdge edge s =
  match nth_error s edge with
  | Some (OEdge e) =>
      match nth_error s (geometry e) with
      | Some (OArray elems) =>
          ((s ++ [OArray elems]) ++ [OEdge (withGeometry e (length s))],
           Normal (S (length s)))
      | _ => (s, TypeError)
      end
  | _ => (s, TypeError)
  end.
Proof.
  unfold copyEdge, bind, readEdge, readArray, alloc.
  destruct (nth_error s edge) as [[?|?|e]|]; try reflexivity.
  destruct (nth_error s (geometry e)) as [[?|elems|?]|]; try reflexivity.
  rewrite length_app. cbn [length]. now rewrite Nat.add_1_r.
Qed.

(** [new] is a new edge object that agrees with the edge object [old] of
    the store [s] in every field but its geometry, a new array. *)
Definition IsCopy (s s' : Store.t) (old new : loc) : Prop :=
  (length s <= new)%nat /\ (new < length s')%nat
  /\ forall e, nth_error s old = Some (OEdge e) ->
       exists g, nth_error s' new = Some (OEdge (withGeometry e g))
                 /\ (length s <= g)%nat.

Lemma mapM_copyEdge_run : forall l s s1 copies,
  mapM copyEdge l s = (s1, Normal copies) ->
  (exists ext, s1 = s ++ ext) /\ Forall2 (IsCopy s s1) l copies.
Proof.
  induction l as [|a l IH]; intros s s1 copies; cbn [mapM].
  - unfold ret. intros [= <- <-]. split; [exists []; now rewrite app_nil_r | constructor].
  - unfold bind at 1. rewrite copyEdge_run.
    destruct (nth_error s a) as [[?|?|e]|] eqn:Ea; try discriminate.
    destruct (nth_error s (geometry e)) as [[?|elems|?]|] eqn:Eg; try discriminate.
    set (sm := (s ++ [OArray elems]) ++ [OEdge (withGeometry e (length s))]).
    unfold bind at 1.
    destruct (mapM copyEdge l sm) as [s2 [cs|]] eqn:Em; [|discriminate].
    unfold ret. intros [= <- <-].
    destruct (IH _ _ _ Em) as [[ext Hext] Hcs].
    assert (length sm = S (S (length s))) as Hlen
      by (subst sm; rewrite !length_app; cbn [length]; lia).
    split.
    { exists ([OArray elems] ++ [OEdge (withGeometry e (length s))] ++ ext).
      rewrite Hext. subst sm. now rewrite <- !app_assoc. }
    constructor.
    + split; [lia|]. split.
      { rewrite Hext, length_app. lia. }
      intros e' He'. rewrite Ea in He'. injection He' as <-.
      exists (length s). split; [|lia].
      rewrite Hext, nth_error_app1 by lia.
      subst sm. rewrite nth_error_app2 by (rewrite length_app; cbn [length]; lia).
      rewrite length_app. cbn [length].
      replace (S (length s) - (length s + 1))%nat with O by lia. reflexivity.
    + eapply Forall2_impl; [|exact Hcs].
      intros old new [H1 [H2 H3]]. split; [lia|]. split; [assumption|].
      intros e' He'.
      destruct (H3 e') as [g [Hg Hg']].
      { subst sm. rewrite <- app_assoc. rewrite nth_error_app1; [assumption|].
        apply nth_error_Some. congruence. }
      exists g. split; [assumption | lia].
Qed.

End TrimFacts.

(* ------------------------------------------------------------------------- *)
(** ** The order of binary64 numbers, continued *)

Module FloatLe.
Import FloatOrder.

Lemma SFleb_ltb a b : SFleb a b = true -> SFltb b a = false.
Proof.
  unfold SFleb, SFltb, SFcompare.
  destruct a as [[]|[]| |[] ma ea], b as [[]|[]| |[] mb eb];
    try reflexivity; try discriminate;
    intros H; order_cases; cbn in *; try reflexivity; try discriminate; lia.
Qed.

Lemma SFleb_total a b :
  a <> S754_nan -> b <> S754_nan -> SFleb a b = false -> SFltb b a = true.
Proof.
  unfold SFleb, SFltb, SFcompare. intros Ha Hb.
  destruct a as [[]|[]| |[] ma ea], b as [[]|[]| |[] mb eb];
    try reflexivity; try discriminate; try congruence;
    intros H; order_cases; cbn in *; try reflexivity; try discriminate; lia.
Qed.

Lemma SFltb_trans a b c : SFltb a b = true -> SFltb b c = true -> SFltb a c = true.
Proof.
  unfold SFltb, SFcompare.
  destruct a as [[]|[]| |[] ma ea], b as [[]|[]| |[] mb eb],
           c as [[]|[]| |[] mc ec];
    try reflexivity; try discriminate;
    intros H1 H2; order_cases; cbn in *;
    try reflexivity; try discriminate; lia.
Qed.

Lemma SFltb_leb a b : SFltb a b = true -> SFleb a b = true.
Proof.
  unfold SFleb, SFltb. destruct (SFcompare a b) as [[]|]; congruence.
Qed.

Lemma SFleb_refl a : a <> S754_nan -> SFleb a a = true.
Proof.
  intros Ha. destruct (SFleb a a) eqn:E; [reflexivity|].
  pose proof (SFleb_total a a Ha Ha E) as H. now rewrite SFltb_irrefl in H.
Qed.

Lemma leb_ltb a b : (a <=? b)%float = true -> (b <? a)%float = false.
Proof. rewrite leb_spec, ltb_spec. apply SFleb_ltb. Qed.

Lemma leb_total a b :
  isNumber a -> isNumber b -> (a <=? b)%float = false -> (b <? a)%float = true.
Proof. rewrite leb_spec, ltb_spec. apply SFleb_total. Qed.

Lemma ltb_trans a b c :
  (a <? b)%float = true -> (b <? c)%float = true -> (a <? c)%float = true.
Proof. rewrite !ltb_spec. apply SFltb_trans. Qed.

Lemma ltb_leb a b : (a <? b)%float = true -> (a <=? b)%float = true.
Proof. rewrite leb_spec, ltb_spec. apply SFltb_leb. Qed.

Lemma leb_refl a : isNumber a -> (a <=? a)%float = true.
Proof. rewrite leb_spec. apply SFleb_refl. Qed.

(** Not below, between numbers, is at least. *)
Lemma not_ltb_leb a b :
  isNumber a -> isNumber b -> (a <? b)%float = false -> (b <=? a)%float = true.
Proof.
  intros Ha Hb H. destruct (b <=? a)%float eqn:E; [reflexivity|].
  apply leb_total in E; auto. congruence.
Qed.

Lemma leb_number a b : (a <=? b)%float = true -> isNumber a /\ isNumber b.
Proof.
  rewrite leb_spec. unfold isNumber, SFleb, SFcompare.
  destruct (Prim2SF a), (Prim2SF b); try discriminate; split; discriminate.
Qed.

Lemma leb_trans a b c :
  (a <=? b)%float = true -> (b <=? c)%float = true -> (a <=? c)%float = true.
Proof.
  intros H1 H2.
  destruct (leb_number _ _ H1) as [Ha Hb], (leb_number _ _ H2) as [_ Hc].
  apply not_ltb_leb; auto.
  apply ltb_negtrans with (b := b); auto using leb_ltb.
Qed.

Lemma is_nan_number a : PrimFloat.is_nan a = false <-> isNumber a.
Proof.
  unfold isNumber, PrimFloat.is_nan. rewrite eqb_spec.
  unfold SFeqb, SFcompare.
  destruct (Prim2SF a) as [[]|[]| |[] m e]; cbn; try rewrite Z.compare_refl;
    try rewrite Pos.compare_cont_refl; cbn; split; congruence.
Qed.

End FloatLe.

(* ------------------------------------------------------------------------- *)
(** ** The heap keeps its items and its order *)

Lemma replaceAt_same_nth {A : Type} (l : list A) (i : nat) (x : A) :
  (i < length l)%nat -> nth_error (replaceAt l i x) i = Some x.
Proof.
  revert i; induction l as [|y l IH]; intros [|i] H; cbn in *; try lia; auto.
  apply IH. lia.
Qed.

Lemma replaceAt_split {A : Type} (l : list A) (i : nat) (x y : A) :
  nth_error l i = Some y ->
  exists l1 l2, l = l1 ++ y :: l2 /\ replaceAt l i x = l1 ++ x :: l2
                /\ length l1 = i.
Proof.
  revert i; induction l as [|z l IH]; intros [|i]; cbn; try discriminate.
  - intros [= ->]. now exists [], l.
  - intros H. destruct (IH i H) as [l1 [l2 [-> [E L]]]].
    exists (z :: l1), l2. cbn. rewrite E. auto.
Qed.

(** Reading an array after the exchange of two of its places. *)
Lemma swapAt_nth {A : Type} (l : list A) (i j k : nat) :
  (i < length l)%nat -> (j < length l)%nat ->
  nth_error (swapAt l i j) k =
  if (k =? i)%nat then nth_error l j
  else if (k =? j)%nat then nth_error l i
  else nth_error l k.
Proof.
  intros Hi Hj. unfold swapAt.
  destruct (nth_error l i) as [a|] eqn:Ea; [|apply nth_error_None in Ea; lia].
  destruct (nth_error l j) as [b|] eqn:Eb; [|apply nth_error_None in Eb; lia].
  destruct (Nat.eqb_spec k j) as [->|Hkj].
  - rewrite replaceAt_same_nth by (rewrite replaceAt_length; lia).
    destruct (Nat.eqb_spec j i) as [->|]; congruence.
  - rewrite replaceAt_nth_other by congruence.
    destruct (Nat.eqb_spec k i) as [->|Hki].
    + now rewrite replaceAt_same_nth.
    + now rewrite replaceAt_nth_other by congruence.
Qed.

Lemma replaceAt_Permutation {A : Type} (l : list A) (i : nat) (x y : A) :
  nth_error l i = Some y -> Permutation (y :: replaceAt l i x) (x :: l).
Proof.
  intros H. destruct (replaceAt_split l i x y H) as [l1 [l2 [-> [-> _]]]].
  rewrite <- !Permutation_middle. apply perm_swap.
Qed.

Lemma swapAt_Permutation {A : Type} (l : list A) (i j : nat) :
  Permutation (swapAt l i j) l.
Proof.
  unfold swapAt.
  destruct (nth_error l i) as [a|] eqn:Ea; [|reflexivity].
  destruct (nth_error l j) as [b|] eqn:Eb; [|reflexivity].
  destruct (Nat.eq_dec i j) as [<-|Hij].
  - assert (a = b) as <- by congruence.
    assert (nth_error (replaceAt l i a) i = Some a) as E
      by (apply replaceAt_same_nth; apply nth_error_Some; congruence).
    apply (Permutation_cons_inv (a := a)).
    rewrite (replaceAt_Permutation _ i a a E).
    apply (replaceAt_Permutation _ i a a Ea).
  - assert (nth_error (replaceAt l i b) j = Some b) as E
      by (rewrite replaceAt_nth_other; auto).
    apply (Permutation_cons_inv (a := b)).
    rewrite (replaceAt_Permutation _ j a b E).
    apply (replaceAt_Permutation l i b a Ea).
Qed.

Module HeapOrder.
Import MinHeap MinHeapFacts FloatOrder FloatLe.

Definition parent (i : nat) : nat := Nat.shiftr (i - 1) 1.

Lemma parent_lt i : (0 < i)%nat -> (parent i < i)%nat.
Proof. apply shiftr1_lt. Qed.

Lemma parent_spec i j :
  (0 < j)%nat -> (parent j = i <-> j = (2 * i + 1)%nat \/ j = (2 * i + 2)%nat).
Proof.
  intros Hj. unfold parent. rewrite Nat.shiftr_div_pow2.
  change (2 ^ 1)%nat with 2%nat.
  pose proof (Nat.div_mod_eq (j - 1) 2) as E.
  pose proof (Nat.mod_upper_bound (j - 1) 2) as B.
  split; [intros <- | intros H]; [lia|].
  assert (j - 1 = i * 2 + (j - 1 - i * 2))%nat as E' by lia.
  symmetry. apply (Nat.div_unique (j - 1) 2 i (j - 1 - i * 2)); lia.
Qed.

(** Every key is a number. *)
Definition Numbers (h : t) : Prop := Forall (fun it => isNumber (key it)) h.

(** No item is below its parent. *)
Definition Ordered (h : t) : Prop :=
  forall i, (0 < i < length h)%nat -> keyLt h i (parent i) = false.

(** The index [k] after the exchange of [i] and [j]. *)
Definition exchanged (i j k : nat) : nat :=
  if (k =? i)%nat then j else if (k =? j)%nat then i else k.

Lemma keyLt_swapAt h i j a b :
  (i < length h)%nat -> (j < length h)%nat ->
  keyLt (swapAt h i j) a b = keyLt h (exchanged i j a) (exchanged i j b).
Proof.
  intros Hi Hj. unfold keyLt, exchanged. rewrite !swapAt_nth by assumption.
  destruct (a =? i)%nat, (a =? j)%nat, (b =? i)%nat, (b =? j)%nat; reflexivity.
Qed.

Lemma Numbers_nth h i it : Numbers h -> nth_error h i = Some it -> isNumber (key it).
Proof.
  intros N H. apply nth_error_In in H. unfold Numbers in N.
  rewrite Forall_forall in N. now apply N.
Qed.

Lemma keyLt_negtrans h a b c :
  Numbers h -> (b < length h)%nat ->
  keyLt h a b = false -> keyLt h b c = false -> keyLt h a c = false.
Proof.
  intros N Hb. unfold keyLt.
  destruct (nth_error h b) as [y|] eqn:Eb; [|apply nth_error_None in Eb; lia].
  destruct (nth_error h a) as [x|]; [|reflexivity].
  destruct (nth_error h c) as [z|]; [|reflexivity].
  apply ltb_negtrans. eapply Numbers_nth; eauto.
Qed.

Lemma keyLt_asym h a b : keyLt h a b = true -> keyLt h b a = false.
Proof.
  unfold keyLt. destruct (nth_error h a), (nth_error h b); try discriminate.
  apply ltb_asym.
Qed.

Lemma keyLt_trans h a b c :
  keyLt h a b = true -> keyLt h b c = true -> keyLt h a c = true.
Proof.
  unfold keyLt.
  destruct (nth_error h a), (nth_error h b), (nth_error h c); try discriminate.
  apply ltb_trans.
Qed.

Lemma keyLt_irrefl h a : keyLt h a a = false.
Proof. unfold keyLt. destruct (nth_error h a); [apply ltb_irrefl | reflexivity]. Qed.

Lemma Numbers_Permutation h h' : Permutation h h' -> Numbers h -> Numbers h'.
Proof. intros P. unfold Numbers. now rewrite P. Qed.

(** *** [bubbleUp] *)

(** Ordered but for the item at [i], which may be below its parent; the
    items under [i] are not below the parent of [i]. *)
Definition Up (h : t) (i : nat) : Prop :=
  (forall j, (0 < j < length h)%nat -> j <> i -> keyLt h j (parent j) = false)
  /\ (forall j, (0 < j < length h)%nat -> parent j = i -> (0 < i)%nat ->
                keyLt h j (parent i) = false).

Lemma bubbleUp_Permutation fuel : forall h i, Permutation (bubbleUp fuel h i) h.
Proof.
  induction fuel as [|fuel IH]; intros h i; cbn [bubbleUp]; [reflexivity|].
  destruct (0 <? i)%nat; [|reflexivity].
  destruct (nth_error h i) as [it|]; [|reflexivity].
  destruct (nth_error h (Nat.shiftr (i - 1) 1)) as [pt|]; [|reflexivity].
  destruct (key pt <=? key it)%float; [reflexivity|].
  rewrite IH. apply swapAt_Permutation.
Qed.

Lemma bubbleUp_ordered fuel : forall h i,
  Numbers h -> (i < length h)%nat -> (i <= fuel)%nat -> Up h i ->
  Ordered (bubbleUp fuel h i).
Proof.
  induction fuel as [|fuel IH]; intros h i N Hi Hf [U1 U2].
  - assert (i = 0)%nat as -> by lia. cbn [bubbleUp].
    intros j Hj. apply U1; lia.
  - cbn [bubbleUp]. destruct (Nat.ltb_spec 0 i) as [Hpos|Hz].
    2:{ intros j Hj. apply U1; lia. }
    fold (parent i). pose proof (parent_lt i Hpos) as Hp.
    destruct (nth_error h i) as [it|] eqn:Ei; [|apply nth_error_None in Ei; lia].
    destruct (nth_error h (parent i)) as [pt|] eqn:Ep;
      [|apply nth_error_None in Ep; lia].
    destruct (key pt <=? key it)%float eqn:Ele.
    + intros j Hj. destruct (Nat.eq_dec j i) as [->|Hji]; [|now apply U1].
      unfold keyLt. rewrite Ei, Ep. now apply leb_ltb.
    + assert (keyLt h i (parent i) = true) as Hlt.
      { unfold keyLt. rewrite Ei, Ep.
        apply leb_total; eauto using Numbers_nth. }
      assert (parent i < length h)%nat as Hpl by lia.
      apply IH.
      * eapply Numbers_Permutation; [symmetry; apply swapAt_Permutation | exact N].
      * now rewrite swapAt_length.
      * lia.
      * split; intros j Hj; rewrite swapAt_length in Hj.
        -- intros Hjp. rewrite keyLt_swapAt by assumption. unfold exchanged.
           destruct (Nat.eqb_spec j i) as [->|Hji].
           ++ rewrite Nat.eqb_refl.
              destruct (Nat.eqb_spec (parent i) i); [lia|].
              now apply keyLt_asym.
           ++ destruct (Nat.eqb_spec j (parent i)); [contradiction|].
              destruct (Nat.eqb_spec (parent j) i) as [Hpj|Hpj].
              ** now apply U2.
              ** destruct (Nat.eqb_spec (parent j) (parent i)) as [Hpp|Hpp].
                 --- apply keyLt_negtrans with (b := parent i); [exact N | lia | | ].
                     +++ rewrite <- Hpp. now apply U1.
                     +++ now apply keyLt_asym.
                 --- now apply U1.
        -- intros Hjp Hppos. rewrite keyLt_swapAt by assumption. unfold exchanged.
           pose proof (parent_lt _ Hppos) as Hpp.
           destruct (Nat.eqb_spec (parent (parent i)) i); [lia|].
           destruct (Nat.eqb_spec (parent (parent i)) (parent i)); [lia|].
           destruct (Nat.eqb_spec j i) as [->|Hji].
           ++ apply U1; lia.
           ++ destruct (Nat.eqb_spec j (parent i)) as [->|Hjpi].
              { pose proof (parent_lt (parent i) Hppos). lia. }
              apply keyLt_negtrans with (b := parent i); [exact N | lia | | ].
              ** rewrite <- Hjp. now apply U1.
              ** apply U1; lia.
Qed.

(** *** [sinkDown] *)

(** Ordered but for the item at [i], which may be above the items under it;
    these are not below the parent of [i]. *)
Definition Down (h : t) (i : nat) : Prop :=
  (forall j, (0 < j < length h)%nat -> parent j <> i -> keyLt h j (parent j) = false)
  /\ (forall j, (0 < j < length h)%nat -> parent j = i -> (0 < i)%nat ->
                keyLt h j (parent i) = false).

Lemma sinkDown_Permutation fuel : forall h i, Permutation (sinkDown fuel h i) h.
Proof.
  induction fuel as [|fuel IH]; intros h i; cbn [sinkDown]; [reflexivity|].
  cbv zeta.
  match goal with
  | |- context [if (?s =? i)%nat then _ else _] => destruct (s =? i)%nat
  end; [reflexivity|].
  rewrite IH. apply swapAt_Permutation.
Qed.

Lemma sink_step h i s :
  Numbers h -> (0 < s < length h)%nat -> parent s = i ->
  keyLt h s i = true ->
  (forall t, (0 < t < length h)%nat -> parent t = i -> keyLt h t s = false) ->
  Down h i -> Down (swapAt h i s) s.
Proof.
  intros N Hs Hps Hlt Hsib [D1 D2].
  pose proof (parent_lt s (proj1 Hs)) as Hpl. rewrite Hps in Hpl.
  assert (i < length h)%nat as Hi by lia.
  split; intros j Hj; rewrite swapAt_length in Hj.
  - intros Hjp. rewrite keyLt_swapAt by lia. unfold exchanged.
    destruct (Nat.eqb_spec j i) as [->|Hji].
    + assert (0 < i)%nat as Hipos by lia.
      pose proof (parent_lt i Hipos).
      destruct (Nat.eqb_spec (parent i) i); [lia|].
      destruct (Nat.eqb_spec (parent i) s); [lia|].
      now apply D2.
    + destruct (Nat.eqb_spec j s) as [->|Hjs].
      * rewrite Hps, Nat.eqb_refl. now apply keyLt_asym.
      * destruct (Nat.eqb_spec (parent j) i) as [Hpj|Hpj].
        -- now apply Hsib.
        -- destruct (Nat.eqb_spec (parent j) s); [contradiction|].
           now apply D1.
  - intros Hjp _. rewrite keyLt_swapAt by lia. unfold exchanged.
    pose proof (parent_lt j (proj1 Hj)) as Hjl. rewrite Hjp in Hjl.
    rewrite Hps, Nat.eqb_refl.
    destruct (Nat.eqb_spec j i); [lia|].
    destruct (Nat.eqb_spec j s); [lia|].
    rewrite <- Hjp. apply D1; [assumption | lia].
Qed.

Lemma sinkDown_ordered fuel : forall h i,
  Numbers h -> (i < length h)%nat -> (length h - i <= fuel)%nat -> Down h i ->
  Ordered (sinkDown fuel h i).
Proof.
  induction fuel as [|fuel IH]; intros h i N Hi Hf D; [lia|].
  cbn [sinkDown]. cbv zeta.
  set (left := (2 * i + 1)%nat). set (right := (2 * i + 2)%nat).
  assert (forall j, (0 < j)%nat -> parent j = i -> j = left \/ j = right) as Hch
    by (intros j Hj Hp; now apply parent_spec).
  assert (parent left = i) as Hpl by (apply parent_spec; subst left; lia).
  assert (parent right = i) as Hpr by (apply parent_spec; subst right; lia).
  assert (forall s, (0 < s < length h)%nat -> parent s = i ->
            keyLt h s i = true ->
            (forall t, (0 < t < length h)%nat -> parent t = i -> keyLt h t s = false) ->
            Ordered (sinkDown fuel (swapAt h i s) s)) as Hgo.
  { intros s Hs Hps Hlt Hsib. pose proof (parent_lt s (proj1 Hs)).
    apply IH.
    - eapply Numbers_Permutation; [symmetry; apply swapAt_Permutation | exact N].
    - rewrite swapAt_length. lia.
    - rewrite swapAt_length. lia.
    - now apply sink_step. }
  destruct ((left <? length h)%nat && keyLt h left i) eqn:EL.
  - apply andb_prop in EL as [HL HLlt]. apply Nat.ltb_lt in HL.
    destruct ((right <? length h)%nat && keyLt h right left) eqn:ER.
    + apply andb_prop in ER as [HR HRlt]. apply Nat.ltb_lt in HR.
      destruct (Nat.eqb_spec right i); [subst right; lia|].
      apply Hgo; [subst right; lia | assumption | eapply keyLt_trans; eauto |].
      intros t Ht Hpt. destruct (Hch t (proj1 Ht) Hpt) as [->| ->].
      * now apply keyLt_asym.
      * apply keyLt_irrefl.
    + destruct (Nat.eqb_spec left i); [subst left; lia|].
      apply Hgo; [subst left; lia | assumption | assumption |].
      intros t Ht Hpt. destruct (Hch t (proj1 Ht) Hpt) as [->| ->].
      * apply keyLt_irrefl.
      * apply andb_false_iff in ER as [ER|ER]; [|assumption].
        apply Nat.ltb_ge in ER. lia.
  - destruct ((right <? length h)%nat && keyLt h right i) eqn:ER.
    + apply andb_prop in ER as [HR HRlt]. apply Nat.ltb_lt in HR.
      destruct (Nat.eqb_spec right i); [subst right; lia|].
      apply Hgo; [subst right; lia | assumption | assumption |].
      intros t Ht Hpt. destruct (Hch t (proj1 Ht) Hpt) as [->| ->].
      * apply keyLt_negtrans with (b := i); [exact N | lia | | ].
        -- apply andb_false_iff in EL as [EL|EL]; [|assumption].
           apply Nat.ltb_ge in EL. subst left right. lia.
        -- now apply keyLt_asym.
      * apply keyLt_irrefl.
    + rewrite Nat.eqb_refl. destruct D as [D1 D2].
      intros j Hj. destruct (Nat.eq_dec (parent j) i) as [Hp|Hp]; [|now apply D1].
      rewrite Hp. destruct (Hch j (proj1 Hj) Hp) as [->| ->].
      * apply andb_false_iff in EL as [EL|EL]; [|assumption].
        apply Nat.ltb_ge in EL. lia.
      * apply andb_false_iff in ER as [ER|ER]; [|assumption].
        apply Nat.ltb_ge in ER. lia.
Qed.


(** *** [push] and [pop] *)

Lemma push_Permutation h k v :
  Permutation (push h k v) ({| key := k; value := v |} :: h).
Proof.
  unfold push. rewrite bubbleUp_Permutation.
  symmetry. apply Permutation_cons_append.
Qed.

Lemma push_ordered h k v :
  Ordered h -> Numbers h -> isNumber k ->
  Ordered (push h k v) /\ Numbers (push h k v).
Proof.
  intros O N Hk.
  assert (Numbers (h ++ [{| key := k; value := v |}])) as N'.
  { apply Forall_app. split; [exact N | now constructor]. }
  split.
  - unfold push. rewrite length_app. cbn [length].
    replace (length h + 1 - 1)%nat with (length h) by lia.
    apply bubbleUp_ordered; [exact N' | rewrite length_app; cbn; lia | lia |].
    split; intros j Hj; rewrite length_app in Hj; cbn [length] in Hj.
    + intros Hne. assert (0 < j < length h)%nat as Hj' by lia.
      pose proof (parent_lt j (proj1 Hj)).
      specialize (O j Hj'). unfold keyLt in *.
      rewrite !nth_error_app1 by lia. exact O.
    + intros Hp _. pose proof (parent_lt j (proj1 Hj)). lia.
  - eapply Numbers_Permutation; [symmetry; apply push_Permutation|].
    constructor; assumption.
Qed.

Lemma pop_single top : pop [top] = Some (value top, []).
Proof. reflexivity. Qed.

Lemma pop_longer top mid lst :
  pop (top :: mid ++ [lst])
  = Some (value top, sinkDown (length (lst :: mid)) (lst :: mid) 0).
Proof.
  unfold pop. cbv beta iota zeta.
  rewrite (app_comm_cons mid [lst] top), last_last, removelast_last.
  reflexivity.
Qed.

Lemma heap_shape (h : t) :
  h = [] \/ (exists top, h = [top]) \/ exists top mid lst, h = top :: mid ++ [lst].
Proof.
  destruct h as [|top h]; [now left|]. right.
  destruct (exists_last (l := top :: h) ltac:(discriminate)) as [l [lst E]].
  destruct l as [|x mid].
  - left. exists top. cbn in E. now injection E as -> ->.
  - right. exists top, mid, lst. cbn in E. now injection E as -> ->.
Qed.

Lemma pop_Permutation h v h' :
  pop h = Some (v, h') ->
  exists k, Permutation h ({| key := k; value := v |} :: h').
Proof.
  destruct (heap_shape h) as [->|[[top ->]|[top [mid [lst ->]]]]].
  - discriminate.
  - rewrite pop_single. intros [= <- <-]. exists (key top). now destruct top.
  - rewrite pop_longer.
    remember (sinkDown (length (lst :: mid)) (lst :: mid) 0) as r eqn:Er.
    intros [= <- <-]. exists (key top). subst r.
    replace {| key := key top; value := value top |} with top by now destruct top.
    constructor.
    apply perm_trans with (lst :: mid);
      [symmetry; apply Permutation_cons_append |].
    symmetry. apply sinkDown_Permutation.
Qed.

(** In an ordered heap of numbers no item is below the root. *)
Lemma ordered_root h top :
  Ordered h -> Numbers h -> nth_error h 0 = Some top ->
  forall it, In it h -> (key it <? key top)%float = false.
Proof.
  intros O N Ht it Hin. apply In_nth_error in Hin as [i Hi].
  assert (keyLt h i 0 = false) as H; [|unfold keyLt in H; now rewrite Hi, Ht in H].
  clear it Hi. induction i as [i IH] using lt_wf_ind.
  destruct (Nat.eq_dec i 0) as [->|Hne]; [apply keyLt_irrefl|].
  destruct (Nat.lt_ge_cases i (length h)) as [Hi|Hi].
  2:{ unfold keyLt. apply nth_error_None in Hi. now rewrite Hi. }
  pose proof (parent_lt i ltac:(lia)) as Hp.
  apply keyLt_negtrans with (b := parent i); [exact N | lia | |].
  - apply O. lia.
  - apply IH. exact Hp.
Qed.

Lemma pop_ordered h v h' :
  Ordered h -> Numbers h -> pop h = Some (v, h') ->
  Ordered h' /\ Numbers h'.
Proof.
  intros O N Hpop.
  assert (Numbers h') as N'.
  { destruct (pop_Permutation _ _ _ Hpop) as [k P].
    apply (Numbers_Permutation _ _ P) in N. now inversion N. }
  split; [|exact N'].
  destruct (heap_shape h) as [->|[[top ->]|[top [mid [lst ->]]]]].
  - discriminate.
  - rewrite pop_single in Hpop. injection Hpop as _ <-.
    intros j Hj. cbn in Hj. lia.
  - rewrite pop_longer in Hpop.
    remember (sinkDown (length (lst :: mid)) (lst :: mid) 0) as r eqn:Er.
    injection Hpop as _ <-. subst r.
    apply sinkDown_ordered.
    + assert (Numbers (top :: lst :: mid)) as N2.
      { eapply Numbers_Permutation; [|exact N].
        constructor. symmetry. apply Permutation_cons_append. }
      now inversion N2.
    + cbn; lia.
    + cbn; lia.
    + split; [|intros; lia].
      intros j Hj Hp. cbn [length] in Hj.
      pose proof (parent_lt j (proj1 Hj)).
      assert (0 < j < length (top :: mid ++ [lst]))%nat as Hj'.
      { cbn [length]. rewrite length_app. cbn. lia. }
      specialize (O j Hj'). unfold keyLt in *.
      destruct j as [|j]; [lia|]. destruct (parent (S j)) as [|p]; [lia|].
      cbn [nth_error] in *.
      rewrite !nth_error_app1 in O by lia. exact O.
Qed.

(** What [pop] returns is the value of an item that no item is below. *)
Lemma pop_least h v h' :
  Ordered h -> Numbers h -> pop h = Some (v, h') ->
  exists k, In {| key := k; value := v |} h
            /\ forall it, In it h -> (key it <? k)%float = false.
Proof.
  intros O N Hpop.
  assert (exists top, nth_error h 0 = Some top /\ value top = v) as [top [Ht Hv]].
  { destruct (heap_shape h) as [->|[[top ->]|[top [mid [lst ->]]]]].
    - discriminate.
    - rewrite pop_single in Hpop. injection Hpop as <- _. now exists top.
    - rewrite pop_longer in Hpop.
      remember (sinkDown (length (lst :: mid)) (lst :: mid) 0) as r eqn:Er.
      injection Hpop as <- _. now exists top. }
  exists (key top). split.
  - subst v. replace {| key := key top; value := value top |} with top
      by now destruct top.
    eapply nth_error_In; eauto.
  - now apply ordered_root.
Qed.

(** The heaps the search can hold: made from the empty heap by [push], of a
    key that is a number, and by [pop]. *)
Inductive Built : t -> Prop :=
| built_empty : Built []
| built_push h k v : Built h -> isNumber k -> Built (push h k v)
| built_pop h v h' : Built h -> pop h = Some (v, h') -> Built h'.

Lemma built_ordered h : Built h -> Ordered h /\ Numbers h.
Proof.
  induction 1 as [|h k v _ [O N] Hk|h v h' _ [O N] Hpop].
  - split; [intros j Hj; cbn in Hj; lia | constructor].
  - now apply push_ordered.
  - eapply pop_ordered; eauto.
Qed.

End HeapOrder.

(* ------------------------------------------------------------------------- *)
(** ** What the steps of a search say *)

Module RouteFacts.
Import RoadTypes AStar AStarFacts.

(** The edge [e], stored under the node [n], may be taken out of [n]: the
    mode may use it, in this direction, and no barrier blocks its other
    end. *)
Definition Step (graph : RoutingGraph) (mode : RoutingMode)
    (options : AStarOptions) (n : Z) (e : GraphEdge) : Prop :=
  (exists es, JsMap.get (adjacency graph) n = Some es /\ In e es)
  /\ isEdgeAccessible e mode = true
  /\ canTraverseDirection e n mode (ignoring options) = true
  /\ barrierBlocked graph mode options (targetOf n e) = false.

(** A walk of the graph: the edges taken and the nodes passed, ends
    included. *)
Inductive Walk (graph : RoutingGraph) (mode : RoutingMode)
    (options : AStarOptions) : Z -> list GraphEdge -> list Z -> Z -> Prop :=
| walk_stay n : Walk graph mode options n [] [n] n
| walk_move n e path ids m :
    Step graph mode options n e ->
    Walk graph mode options (targetOf n e) path ids m ->
    Walk graph mode options n (e :: path) (n :: ids) m.

Lemma walk_snoc graph mode options a path ids b e :
  Walk graph mode options a path ids b ->
  Step graph mode options b e ->
  Walk graph mode options a (path ++ [e]) (ids ++ [targetOf b e]) (targetOf b e).
Proof.
  induction 1 as [n|n e' path ids m Hs _ IH]; intros He; cbn [app].
  - constructor; [assumption | constructor].
  - constructor; [assumption | now apply IH].
Qed.

Lemma has_set {V : Type} (m : JsMap.t V) k x v :
  JsMap.has (JsMap.set m k x) v = (k =? v)%Z || JsMap.has m v.
Proof.
  unfold JsMap.has. rewrite JsMapFacts.get_set. now destruct (k =? v)%Z.
Qed.

Section WithGraph.
Variable M : MathLib.
Variable graph : RoutingGraph.
Variable startNodeId endNodeId : Z.
Variable mode : RoutingMode.
Variable options : AStarOptions.
Variable endNode : GraphNode.

Local Abbreviation expand := (AStar.expand M graph mode options endNode).
Local Abbreviation searchLoop :=
  (AStar.searchLoop M graph startNodeId endNodeId mode options endNode).
Local Abbreviation passes := (AStarFacts.passes graph mode options).
Local Abbreviation relax := AStarFacts.relax.

Lemma passes_step c w es e :
  JsMap.get (adjacency graph) c = Some es -> In e es ->
  passes c w e = true -> Step graph mode options c e.
Proof.
  intros Hg He Hp. unfold AStarFacts.passes in Hp.
  apply andb_prop in Hp as [Hp H4]. apply andb_prop in Hp as [Hp H3].
  apply andb_prop in Hp as [H1 H2]. apply negb_true_iff in H4.
  repeat split; eauto.
Qed.

(** *** Explore steps *)

Lemma expand_explore_sound c cg cw : forall (neighbors : list GraphEdge) st e f n,
  In (Explore e f n) (fst (expand c cg cw neighbors st)) ->
  f = c /\ n = targetOf c e /\ In e neighbors /\ passes c cw e = true.
Proof.
  induction neighbors as [|e0 rest IH]; intros st e f n; [intros []|].
  destruct (expand_cons M graph mode options endNode c cg cw e0 rest st)
    as [Hp|Hp Hlt|Hp Hlt Hh|h Hp Hlt Hh]; cbn [fst In].
  - intros H. apply IH in H as [? [? [? ?]]]. auto.
  - intros [[= <- <- <-]|H]; [auto|]. apply IH in H as [? [? [? ?]]]. auto.
  - intros [[= <- <- <-]|[]]. auto.
  - intros [[= <- <- <-]|H]; [auto|]. apply IH in H as [? [? [? ?]]]. auto.
Qed.

Lemma expand_length c cg cw : forall (neighbors : list GraphEdge) st,
  (length (fst (expand c cg cw neighbors st)) <= length neighbors)%nat.
Proof.
  induction neighbors as [|e0 rest IH]; intros st; [cbn; lia|].
  destruct (expand_cons M graph mode options endNode c cg cw e0 rest st)
    as [Hp|Hp Hlt|Hp Hlt Hh|h Hp Hlt Hh]; cbn [fst length].
  - specialize (IH st). lia.
  - specialize (IH st). lia.
  - lia.
  - match goal with |- context [expand c cg cw rest ?s] => specialize (IH s) end.
    lia.
Qed.

Lemma searchLoop_explore_sound fuel : forall st r e f n,
  searchLoop fuel st = Some r ->
  In (Explore e f n) (fst r) ->
  n = targetOf f e /\ Step graph mode options f e /\ f <> endNodeId.
Proof.
  induction fuel as [|fuel IH]; intros st r e f n; cbn [AStar.searchLoop];
    [discriminate|].
  destruct (MinHeap.pop (openSet st)) as [[currentId rest]|].
  2:{ intros [= <-]. cbn. intros [H|[]]. discriminate. }
  destruct (JsSet.has (closed st) currentId); [apply IH|].
  destruct (Z.eqb_spec currentId endNodeId) as [|Hne].
  { destruct (reconstruct startNodeId endNodeId _) as [step|] eqn:Er.
    - intros [= <-]. cbn [fst In]. intros [->|[]].
      apply reconstruct_terminal in Er. discriminate.
    - intros [= <-]. intros []. }
  destruct (JsMap.get (adjacency graph) currentId) as [neighbors|] eqn:Ea;
    [|apply IH].
  match goal with
  | |- context [AStar.expand M graph mode options endNode currentId ?cg ?cw
                  neighbors ?st1] =>
      pose proof (expand_explore_sound currentId cg cw neighbors st1 e f n) as He;
      destruct (expand currentId cg cw neighbors st1) as [steps [st2|]]
  end; cbn [fst] in He.
  - destruct (searchLoop fuel st2) as [[more c]|] eqn:Es; [|discriminate].
    intros [= <-]. cbn [fst]. rewrite in_app_iff. intros [H|H].
    + destruct (He H) as [-> [-> [Hin Hp]]].
      split; [reflexivity|]. split; [|assumption]. eapply passes_step; eauto.
    + eapply IH; [exact Es | exact H].
  - intros [= <-]. cbn [fst]. intros H.
    destruct (He H) as [-> [-> [Hin Hp]]].
    split; [reflexivity|]. split; [|assumption]. eapply passes_step; eauto.
Qed.

(** *** The number of steps *)

Lemma searchLoop_length fuel : forall st r,
  searchLoop fuel st = Some r ->
  (length (fst r) <= S (pending (closed st) (adjacency graph)))%nat.
Proof.
  induction fuel as [|fuel IH]; intros st r; cbn [AStar.searchLoop];
    [discriminate|].
  destruct (MinHeap.pop (openSet st)) as [[currentId rest]|].
  2:{ intros [= <-]. cbn. lia. }
  destruct (JsSet.has (closed st) currentId) eqn:Ec.
  { intros H. apply IH in H. exact H. }
  destruct (currentId =? endNodeId)%Z.
  { destruct (reconstruct startNodeId endNodeId _); intros [= <-]; cbn; lia. }
  destruct (JsMap.get (adjacency graph) currentId) as [neighbors|] eqn:Ea.
  2:{ intros H. apply IH in H. cbn [closed] in H.
      pose proof (pending_add_le (closed st) currentId (adjacency graph)). lia. }
  pose proof (pending_close _ _ _ _ Ec Ea) as Hp.
  match goal with
  | |- context [AStar.expand M graph mode options endNode currentId ?cg ?cw
                  neighbors ?st1] =>
      pose proof (expand_length currentId cg cw neighbors st1) as Hl;
      pose proof (expand_state M graph mode options endNode
                    currentId cg cw neighbors st1) as Hs;
      destruct (expand currentId cg cw neighbors st1) as [steps [st2|]]
  end; cbn [fst snd] in Hl, Hs.
  - destruct (Hs st2 eq_refl) as [Hcl _]. cbn [closed] in Hcl.
    destruct (searchLoop fuel st2) as [[more c]|] eqn:Es; [|discriminate].
    intros [= <-]. cbn [fst]. rewrite length_app.
    apply IH in Es. cbn [fst] in Es. rewrite Hcl in Es. lia.
  - intros [= <-]. cbn [fst]. lia.
Qed.

(** *** The predecessor links *)

(** A node the search has met: the start, or a node with a predecessor. *)
Definition Known (st : SearchState) (v : Z) : Prop :=
  v = startNodeId \/ JsMap.has (cameFrom st) v = true.

(** What the relaxations keep true of the links: each one is an edge that
    may be taken out of a node met before, and leads to the node it is
    stored under; the open nodes have been met, and the nodes met have a
    score. *)
Record Linked (st : SearchState) : Prop := {
  linked_step : forall v entry,
    JsMap.get (cameFrom st) v = Some entry ->
    Step graph mode options (prevNodeId entry) (edge entry)
    /\ targetOf (prevNodeId entry) (edge entry) = v
    /\ Known st (prevNodeId entry);
  linked_open : forall it, In it (openSet st) -> Known st (MinHeap.value it);
  linked_score : forall v, Known st v -> JsMap.has (gScore st) v = true
}.

Lemma linked_initial h0 : Linked (initialState startNodeId h0).
Proof.
  constructor; cbn [initialState cameFrom openSet gScore].
  - intros v entry. discriminate.
  - intros it Hin.
    apply (Permutation_in _ (HeapOrder.push_Permutation [] h0 startNodeId)) in Hin.
    destruct Hin as [<-|[]]. now left.
  - intros v [->|H]; [|discriminate].
    unfold JsMap.has. now rewrite JsMapFacts.get_set_same.
Qed.

Lemma linked_pop st v rest cl :
  Linked st -> MinHeap.pop (openSet st) = Some (v, rest) ->
  Linked {| gScore := gScore st; cameFrom := cameFrom st; openSet := rest;
            closed := cl |}
  /\ Known st v.
Proof.
  intros [L1 L2 L3] Hpop.
  destruct (HeapOrder.pop_Permutation _ _ _ Hpop) as [k P].
  split.
  - constructor; cbn [cameFrom openSet gScore]; auto.
    intros it Hin. apply L2. apply (Permutation_in _ (Permutation_sym P)).
    now right.
  - apply (L2 {| MinHeap.key := k; MinHeap.value := v |}).
    apply (Permutation_in _ (Permutation_sym P)). now left.
Qed.

Lemma known_relax st c e T h v :
  Known st v -> Known (relax c e T h st) v.
Proof.
  intros [->|H]; [now left | right].
  cbn [AStarFacts.relax cameFrom]. rewrite has_set, H. apply orb_true_r.
Qed.

Lemma linked_relax st c e T h :
  Linked st -> Known st c -> Step graph mode options c e ->
  Linked (relax c e T h st).
Proof.
  intros [L1 L2 L3] Hc Hs. constructor.
  - intros v entry. cbn [AStarFacts.relax cameFrom]. rewrite JsMapFacts.get_set.
    destruct (Z.eqb_spec (targetOf c e) v) as [<-|Hne].
    + intros [= <-]. cbn [prevNodeId edge].
      split; [assumption|]. split; [reflexivity|]. now apply known_relax.
    + intros H. destruct (L1 v entry H) as [H1 [H2 H3]].
      split; [assumption|]. split; [assumption|]. now apply known_relax.
  - intros it. cbn [AStarFacts.relax openSet]. intros Hin.
    apply (Permutation_in _ (HeapOrder.push_Permutation _ _ _)) in Hin.
    destruct Hin as [<-|Hin].
    + right. cbn [MinHeap.value AStarFacts.relax cameFrom].
      now rewrite has_set, Z.eqb_refl.
    + apply known_relax. now apply L2.
  - intros v Hv. cbn [AStarFacts.relax gScore]. rewrite has_set.
    destruct Hv as [->|Hv].
    + rewrite (L3 startNodeId) by now left. apply orb_true_r.
    + cbn [AStarFacts.relax cameFrom] in Hv. rewrite has_set in Hv.
      destruct (targetOf c e =? v)%Z; [reflexivity|]. cbn [orb] in *.
      apply L3. now right.
Qed.

Lemma expand_linked c cg cw es : forall (neighbors : list GraphEdge) st st',
  JsMap.get (adjacency graph) c = Some es ->
  (forall e, In e neighbors -> In e es) ->
  Linked st -> Known st c ->
  snd (expand c cg cw neighbors st) = Some st' -> Linked st'.
Proof.
  intros neighbors st st' Hes. revert st st'.
  induction neighbors as [|e0 rest IH]; intros st st' Hin L Hc.
  - cbn. now intros [= <-].
  - assert (forall e, In e rest -> In e es) as Hrest
      by (intros e He; apply Hin; now right).
    destruct (expand_cons M graph mode options endNode c cg cw e0 rest st)
      as [Hp|Hp Hlt|Hp Hlt Hh|h Hp Hlt Hh]; cbn [snd].
    + now apply IH.
    + now apply IH.
    + discriminate.
    + apply IH; [assumption | | now apply known_relax].
      apply linked_relax; [assumption | assumption |].
      eapply passes_step; eauto. apply Hin. now left.
Qed.

Lemma walkBack_walk cf :
  (forall v entry, JsMap.get cf v = Some entry ->
     Step graph mode options (prevNodeId entry) (edge entry)
     /\ targetOf (prevNodeId entry) (edge entry) = v
     /\ (prevNodeId entry = startNodeId \/ JsMap.has cf (prevNodeId entry) = true)) ->
  forall fuel v path ids,
    v = startNodeId \/ JsMap.has cf v = true ->
    walkBack fuel cf v = Some (path, ids) ->
    Walk graph mode options startNodeId (rev path) (rev (ids ++ [startNodeId])) v.
Proof.
  intros L. induction fuel as [|fuel IH]; intros v path ids Hv; cbn [walkBack];
    [discriminate|].
  destruct (JsMap.get cf v) as [entry|] eqn:Eg.
  - destruct (L v entry Eg) as [Hs [Ht Hk]].
    destruct (walkBack fuel cf (prevNodeId entry)) as [[path' ids']|] eqn:Ew;
      [|discriminate].
    intros [= <- <-]. specialize (IH _ _ _ Hk Ew).
    cbn [rev app]. subst v.
    apply walk_snoc; assumption.
  - intros [= <- <-]. cbn.
    destruct Hv as [->|Hv]; [constructor|].
    unfold JsMap.has in Hv. rewrite Eg in Hv. discriminate.
Qed.

Lemma searchLoop_done fuel : forall st r path ids time,
  Linked st ->
  searchLoop fuel st = Some r ->
  In (Done path ids time) (fst r) ->
  Walk graph mode options startNodeId path ids endNodeId
  /\ exists g, time = Some g.
Proof.
  induction fuel as [|fuel IH]; intros st r path ids time L;
    cbn [AStar.searchLoop]; [discriminate|].
  destruct (MinHeap.pop (openSet st)) as [[currentId rest]|] eqn:Ep.
  2:{ intros [= <-]. cbn. intros [H|[]]. discriminate. }
  destruct (JsSet.has (closed st) currentId).
  { apply IH. now apply (linked_pop st currentId rest (closed st)). }
  destruct (linked_pop st currentId rest (JsSet.add (closed st) currentId) L Ep)
    as [L1 Hk].
  destruct (Z.eqb_spec currentId endNodeId) as [->|Hne].
  { unfold reconstruct. cbn [cameFrom gScore].
    destruct (walkBack _ (cameFrom st) endNodeId) as [[path' ids']|] eqn:Ew.
    - intros [= <-]. cbn [fst In]. intros [[= <- <- <-]|[]]. split.
      + eapply walkBack_walk; [| exact Hk | exact Ew].
        intros v entry H. exact (linked_step _ L v entry H).
      + pose proof (linked_score _ L _ Hk) as Hg. unfold JsMap.has in Hg.
        destruct (JsMap.get (gScore st) endNodeId) as [g|]; [eauto|discriminate].
    - intros [= <-]. intros []. }
  destruct (JsMap.get (adjacency graph) currentId) as [neighbors|] eqn:Ea;
    [|now apply IH].
  match goal with
  | |- context [AStar.expand M graph mode options endNode currentId ?cg ?cw
                  neighbors ?st1] =>
      pose proof (expand_explore M graph mode options endNode
                    currentId cg cw neighbors st1) as Hex;
      pose proof (expand_linked currentId cg cw neighbors neighbors st1) as Hl;
      destruct (expand currentId cg cw neighbors st1) as [steps [st2|]]
  end; cbn [fst snd] in Hex, Hl.
  - destruct (searchLoop fuel st2) as [[more c]|] eqn:Es; [|discriminate].
    intros [= <-]. cbn [fst]. rewrite in_app_iff. intros [H|H].
    + rewrite Forall_forall in Hex. apply Hex in H. discriminate.
    + eapply IH; [| exact Es | exact H]. now apply Hl.
  - intros [= <-]. cbn [fst]. intros H.
    rewrite Forall_forall in Hex. apply Hex in H. discriminate.
Qed.

End WithGraph.

(** *** Runs of [aStarRoute] *)

Lemma run_cases M graph startNodeId endNodeId mode options :
  aStarRoute M graph startNodeId endNodeId mode options = ([NoRoute], Returned)
  \/ aStarRoute M graph startNodeId endNodeId mode options
     = ([Done [] [startNodeId] (Some 0%float)], Returned)
     /\ startNodeId = endNodeId
  \/ aStarRoute M graph startNodeId endNodeId mode options = ([], Threw)
  \/ exists endNode h0 r,
       searchLoop M graph startNodeId endNodeId mode options endNode
         (searchFuel graph) (initialState startNodeId h0) = Some r
       /\ aStarRoute M graph startNodeId endNodeId mode options = r.
Proof.
  unfold aStarRoute.
  destruct (JsMap.get (nodes graph) endNodeId) as [endNode|]; [|now left].
  destruct (JsMap.get (nodes graph) startNodeId) as [startNode|]; [|now left].
  destruct (Z.eqb_spec startNodeId endNodeId); [right; left; now split|].
  destruct (heuristic M graph mode endNode startNodeId) as [h0|];
    [|right; right; now left].
  pose proof (searchLoop_total M graph startNodeId endNodeId mode options
                endNode h0) as Ht.
  destruct (searchLoop M graph startNodeId endNodeId mode options endNode
              (searchFuel graph) (initialState startNodeId h0)) as [r|] eqn:Es;
    [|congruence].
  right. right. right. exists endNode, h0, r. split; [exact Es | reflexivity].
Qed.

End RouteFacts.

(* ------------------------------------------------------------------------- *)
(** ** The turn restriction check in the search *)

Module TurnFacts.
Import RoadTypes AStar AStarFacts RouteFacts.

(** The way over which the search reached the node [n]: the way of the edge
    recorded for [n] in [cameFrom], and 0 when none is recorded. *)
Definition arrivalWay (st : SearchState) (n : Z) : Z :=
  match JsMap.get (cameFrom st) n with
  | Some link => wayId (edge link)
  | None => 0%Z
  end.

(** A recorded restriction of a [no_*] type forbids the turn from the way
    [w], via the node [n], into the way of [e]. *)
Definition Forbids (graph : RoutingGraph) (w n : Z) (e : GraphEdge) : Prop :=
  exists r, In r (restrictions graph)
            /\ fromWayId r = w /\ viaNodeId r = n /\ toWayId r = wayId e
            /\ String.prefix "no_" (type r) = true.

(** Every link of the state is the edge of a step yielded before. *)
Definition Recorded (yielded : list AStarStep) (st : SearchState) : Prop :=
  forall v entry,
    JsMap.get (cameFrom st) v = Some entry ->
    In (Explore (edge entry) (prevNodeId entry) v) yielded.

Lemma turnRestricted_spec graph mode options currentWayId currentId e :
  turnRestricted graph mode options currentWayId currentId e = true <->
  mode = car /\ ignoring options = false /\ currentWayId <> 0%Z
  /\ Forbids graph currentWayId currentId e.
Proof.
  unfold turnRestricted, Forbids, isRestricted.
  rewrite !andb_true_iff, !negb_true_iff, Z.eqb_neq, existsb_exists. split.
  - intros [[[Hc Hw] Hi] [r [Hin H]]].
    apply andb_prop in H as [H H4]. apply andb_prop in H as [H H3].
    apply andb_prop in H as [H1 H2]. apply Z.eqb_eq in H1, H2, H3.
    destruct mode; try discriminate. repeat split; auto. exists r. auto.
  - intros [-> [Hi [Hw [r [Hin [<- [<- [<- H]]]]]]]].
    repeat split; auto. exists r. split; [assumption|].
    now rewrite !Z.eqb_refl, H.
Qed.

Section WithGraph.
Variable M : MathLib.
Variable graph : RoutingGraph.
Variable startNodeId endNodeId : Z.
Variable mode : RoutingMode.
Variable options : AStarOptions.
Variable endNode : GraphNode.

Local Abbreviation expand := (AStar.expand M graph mode options endNode).
Local Abbreviation searchLoop :=
  (AStar.searchLoop M graph startNodeId endNodeId mode options endNode).
Local Abbreviation passes := (AStarFacts.passes graph mode options).
Local Abbreviation Linked := (RouteFacts.Linked graph startNodeId mode options).
Local Abbreviation Known := (RouteFacts.Known startNodeId).

(** The neighbour loop explores every neighbour that survives the four
    checks, unless it throws. *)
Lemma expand_complete c cg cw : forall (neighbors : list GraphEdge) st e,
  In e neighbors -> passes c cw e = true ->
  In (Explore e c (targetOf c e)) (fst (expand c cg cw neighbors st))
  \/ snd (expand c cg cw neighbors st) = None.
Proof.
  induction neighbors as [|e0 rest IH]; intros st e; [intros []|].
  intros Hin Hp.
  destruct (expand_cons M graph mode options endNode c cg cw e0 rest st)
    as [Hp0|Hp0 Hlt|Hp0 Hlt Hh|h Hp0 Hlt Hh]; cbn [fst snd In].
  - destruct Hin as [->|Hin]; [congruence|]. now apply IH.
  - destruct Hin as [->|Hin]; [now left; left|].
    destruct (IH st e Hin Hp); auto.
  - now right.
  - destruct Hin as [->|Hin]; [now left; left|].
    match goal with
    | |- context [expand c cg cw rest ?s] => destruct (IH s e Hin Hp); auto
    end.
Qed.

(** The links the neighbour loop adds are edges of the steps it yields. *)
Lemma expand_recorded c cg cw : forall (neighbors : list GraphEdge) st st' yielded,
  Recorded yielded st ->
  snd (expand c cg cw neighbors st) = Some st' ->
  Recorded (yielded ++ fst (expand c cg cw neighbors st)) st'.
Proof.
  induction neighbors as [|e0 rest IH]; intros st st' yielded R.
  - cbn. intros [= <-]. now rewrite app_nil_r.
  - destruct (expand_cons M graph mode options endNode c cg cw e0 rest st)
      as [Hp0|Hp0 Hlt|Hp0 Hlt Hh|h Hp0 Hlt Hh]; cbn [fst snd].
    + now apply IH.
    + intros Hs.
      replace (yielded ++ Explore e0 c (targetOf c e0)
                 :: fst (expand c cg cw rest st))
        with ((yielded ++ [Explore e0 c (targetOf c e0)])
                ++ fst (expand c cg cw rest st))
        by (now rewrite <- app_assoc).
      apply IH; [|assumption].
      intros v entry H. apply in_or_app. left. now apply R.
    + discriminate.
    + intros Hs.
      match goal with
      | |- context [expand c cg cw rest ?s] =>
          replace (yielded ++ Explore e0 c (targetOf c e0)
                     :: fst (expand c cg cw rest s))
            with ((yielded ++ [Explore e0 c (targetOf c e0)])
                    ++ fst (expand c cg cw rest s))
            by (now rewrite <- app_assoc)
      end.
      apply IH; [|assumption].
      intros v entry. cbn [AStarFacts.relax cameFrom].
      rewrite JsMapFacts.get_set.
      destruct (Z.eqb_spec (targetOf c e0) v) as [<-|Hne].
      * intros [= <-]. cbn [edge prevNodeId]. apply in_or_app. right. now left.
      * intros H. apply in_or_app. left. now apply R.
Qed.

(** No step leaves a closed node. *)
Lemma searchLoop_from_open fuel : forall st r e f n,
  searchLoop fuel st = Some r ->
  In (Explore e f n) (fst r) ->
  JsSet.has (closed st) f = false.
Proof.
  induction fuel as [|fuel IH]; intros st r e f n; cbn [AStar.searchLoop];
    [discriminate|].
  destruct (MinHeap.pop (openSet st)) as [[currentId rest]|].
  2:{ intros [= <-]. cbn. intros [H|[]]. discriminate. }
  destruct (JsSet.has (closed st) currentId) eqn:Ec.
  { intros Hs Hin. exact (IH _ _ _ _ _ Hs Hin). }
  assert (forall st2 r2,
            closed st2 = JsSet.add (closed st) currentId ->
            searchLoop fuel st2 = Some r2 ->
            In (Explore e f n) (fst r2) ->
            JsSet.has (closed st) f = false) as Hlater.
  { intros st2 r2 Hcl Hs Hin. pose proof (IH _ _ _ _ _ Hs Hin) as H.
    rewrite Hcl, JsSetFacts.has_add in H. now apply orb_false_elim in H. }
  destruct (currentId =? endNodeId)%Z.
  { destruct (reconstruct startNodeId endNodeId _) as [step|] eqn:Er.
    - intros [= <-]. cbn [fst In]. intros [->|[]].
      apply reconstruct_terminal in Er. discriminate.
    - intros [= <-]. intros []. }
  destruct (JsMap.get (adjacency graph) currentId) as [neighbors|] eqn:Ea.
  2:{ intros Hs Hin. eapply Hlater; [|exact Hs | exact Hin]. reflexivity. }
  match goal with
  | |- context [AStar.expand M graph mode options endNode currentId ?cg ?cw
                  neighbors ?st1] =>
      pose proof (expand_explore_sound M graph mode options endNode
                    currentId cg cw neighbors st1 e f n) as He;
      pose proof (expand_state M graph mode options endNode
                    currentId cg cw neighbors st1) as Hst;
      destruct (expand currentId cg cw neighbors st1) as [steps [st2|]]
  end; cbn [fst snd] in He, Hst.
  - destruct (Hst st2 eq_refl) as [Hcl _]. cbn [closed] in Hcl.
    destruct (searchLoop fuel st2) as [[more c]|] eqn:Es; [|discriminate].
    intros [= <-]. cbn [fst]. rewrite in_app_iff. intros [H|H].
    + destruct (He H) as [-> _]. exact Ec.
    + eapply Hlater; [exact Hcl | exact Es | exact H].
  - intros [= <-]. cbn [fst]. intros H. destruct (He H) as [-> _]. exact Ec.
Qed.

(** One iteration of the main loop, on a node that is expanded: the steps
    of the run that leave the node are those of its neighbours that survive
    the four checks, the turn restriction check being made with the way of
    arrival. *)
Lemma searchLoop_expands fuel st currentId rest neighbors r :
  MinHeap.pop (openSet st) = Some (currentId, rest) ->
  JsSet.has (closed st) currentId = false ->
  currentId <> endNodeId ->
  JsMap.get (adjacency graph) currentId = Some neighbors ->
  searchLoop (S fuel) st = Some r ->
  (forall e n,
     In (Explore e currentId n) (fst r) ->
     In e neighbors /\ passes currentId (arrivalWay st currentId) e = true)
  /\ (forall e,
        In e neighbors -> passes currentId (arrivalWay st currentId) e = true ->
        In (Explore e currentId (targetOf currentId e)) (fst r) \/ snd r = Threw).
Proof.
  intros Ep Ec Hne Ea. cbn [AStar.searchLoop]. rewrite Ep, Ec.
  apply Z.eqb_neq in Hne. rewrite Hne, Ea. cbn [cameFrom].
  fold (arrivalWay st currentId).
  match goal with
  | |- context [AStar.expand M graph mode options endNode currentId ?cg ?cw
                  neighbors ?st1] =>
      pose proof (fun e n =>
                    expand_explore_sound M graph mode options endNode
                      currentId cg cw neighbors st1 e currentId n) as He;
      pose proof (expand_complete currentId cg cw neighbors st1) as Hc;
      pose proof (expand_state M graph mode options endNode
                    currentId cg cw neighbors st1) as Hst;
      destruct (expand currentId cg cw neighbors st1) as [steps [st2|]]
  end; cbn [fst snd] in He, Hc, Hst.
  - destruct (Hst st2 eq_refl) as [Hcl _]. cbn [closed] in Hcl.
    destruct (AStar.searchLoop M graph startNodeId endNodeId mode options endNode
                fuel st2) as [[more c]|] eqn:Es; [|discriminate].
    intros [= <-]. cbn [fst snd]. split.
    + intros e n Hin. apply in_app_or in Hin as [Hin|Hin].
      * destruct (He e n Hin) as [_ [_ [H1 H2]]]. auto.
      * pose proof (searchLoop_from_open _ _ _ _ _ _ Es Hin) as H.
        rewrite Hcl, JsSetFacts.has_add, Z.eqb_refl in H. discriminate.
    + intros e Hin Hp. left. apply in_or_app. left.
      destruct (Hc e Hin Hp) as [H|H]; [exact H | discriminate].
  - intros [= <-]. cbn [fst snd]. split.
    + intros e n Hin. destruct (He e n Hin) as [_ [_ [H1 H2]]]. auto.
    + intros e Hin Hp. now right.
Qed.

(** Every step that leaves a node other than the start comes after a step
    into that node, over the edge recorded for it, and the turn from the way
    of that edge has passed the check. *)
Lemma searchLoop_arrivals fuel : forall st yielded r pre e n to post,
  Linked st -> Recorded yielded st ->
  searchLoop fuel st = Some r ->
  fst r = pre ++ Explore e n to :: post ->
  n = startNodeId
  \/ exists e' m,
       In (Explore e' m n) (yielded ++ pre)
       /\ turnRestricted graph mode options (wayId e') n e = false.
Proof.
  induction fuel as [|fuel IH]; intros st yielded r pre e n to post L R;
    cbn [AStar.searchLoop]; [discriminate|].
  destruct (MinHeap.pop (openSet st)) as [[currentId rest]|] eqn:Ep.
  2:{ intros [= <-]. cbn [fst]. intros H.
      destruct pre as [|x [|y pre]]; discriminate. }
  destruct (JsSet.has (closed st) currentId).
  { apply IH; [|exact R]. now apply (linked_pop _ _ _ _ st currentId rest (closed st)). }
  destruct (linked_pop _ _ _ _ st currentId rest (JsSet.add (closed st) currentId) L Ep)
    as [L1 Hk].
  destruct (currentId =? endNodeId)%Z.
  { destruct (reconstruct startNodeId endNodeId _) as [step|] eqn:Er.
    - intros [= <-]. cbn [fst]. intros H.
      apply reconstruct_terminal in Er.
      destruct pre as [|x [|y pre]]; try discriminate.
      injection H as ->. discriminate.
    - intros [= <-]. cbn [fst]. intros H. destruct pre; discriminate. }
  destruct (JsMap.get (adjacency graph) currentId) as [neighbors|] eqn:Ea.
  2:{ apply IH; [exact L1 | exact R]. }
  cbn [cameFrom]. fold (arrivalWay st currentId).
  assert (forall x (pre' : list AStarStep),
            In x neighbors ->
            passes currentId (arrivalWay st currentId) x = true ->
            currentId = startNodeId
            \/ exists e' m,
                 In (Explore e' m currentId) (yielded ++ pre')
                 /\ turnRestricted graph mode options (wayId e') currentId x
                    = false) as Hhere.
  { intros x pre' Hin Hp. destruct Hk as [->|Hk]; [now left|]. right.
    unfold JsMap.has in Hk. unfold arrivalWay in Hp.
    destruct (JsMap.get (cameFrom st) currentId) as [entry|] eqn:Ee;
      [|discriminate].
    exists (edge entry), (prevNodeId entry). split.
    - apply in_or_app. left. now apply R.
    - unfold AStarFacts.passes in Hp.
      apply andb_prop in Hp as [Hp _]. apply andb_prop in Hp as [_ Hp].
      now apply negb_true_iff in Hp. }
  match goal with
  | |- context [AStar.expand M graph mode options endNode currentId ?cg ?cw
                  neighbors ?st1] =>
      pose proof (expand_explore_sound M graph mode options endNode
                    currentId cg cw neighbors st1) as He;
      pose proof (expand_linked M graph startNodeId mode options endNode
                    currentId cg cw neighbors neighbors st1) as Hl;
      pose proof (expand_recorded currentId cg cw neighbors st1) as Hr;
      destruct (expand currentId cg cw neighbors st1) as [steps [st2|]]
  end; cbn [fst snd] in He, Hl, Hr.
  - destruct (AStar.searchLoop M graph startNodeId endNodeId mode options endNode
                fuel st2) as [[more c]|] eqn:Es; [|discriminate].
    intros [= <-]. cbn [fst]. intros Hsplit.
    apply app_eq_app in Hsplit as [l [[H1 H2]|[H1 H2]]].
    + destruct l as [|x l].
      * rewrite app_nil_r in H1. subst steps. cbn [app] in H2.
        destruct (IH st2 (yielded ++ pre) (more, c) [] e n to post) as [H|H];
          [now apply Hl | now apply Hr | exact Es | now symmetry | now left|].
        right. now rewrite app_nil_r in H.
      * injection H2 as <- H2.
        assert (In (Explore e n to) steps) as Hin
          by (rewrite H1; apply in_or_app; right; now left).
        destruct (He e n to Hin) as [-> [_ [Hin' Hp]]].
        exact (Hhere e pre Hin' Hp).
    + subst pre.
      destruct (IH st2 (yielded ++ steps) (more, c) l e n to post) as [H|H];
        [now apply Hl | now apply Hr | exact Es | now symmetry | now left|].
      right. now rewrite app_assoc.
  - intros [= <-]. cbn [fst]. intros Hsplit.
    assert (In (Explore e n to) steps) as Hin
      by (rewrite Hsplit; apply in_or_app; right; now left).
    destruct (He e n to Hin) as [-> [_ [Hin' Hp]]].
    exact (Hhere e pre Hin' Hp).
Qed.

End WithGraph.

(** The same, of a run of [aStarRoute]. *)
Lemma aStarRoute_arrivals M graph startNodeId endNodeId mode options
    pre e n to post :
  fst (aStarRoute M graph startNodeId endNodeId mode options)
  = pre ++ Explore e n to :: post ->
  n = startNodeId
  \/ exists e' m,
       In (Explore e' m n) pre
       /\ turnRestricted graph mode options (wayId e') n e = false.
Proof.
  destruct (run_cases M graph startNodeId endNodeId mode options)
    as [->|[[-> _]|[->|[endNode [h0 [r [Hs ->]]]]]]]; cbn [fst].
  - intros H. destruct pre as [|x [|y pre]]; discriminate.
  - intros H. destruct pre as [|x [|y pre]]; discriminate.
  - intros H. destruct pre; discriminate.
  - intros H.
    apply (searchLoop_arrivals M graph startNodeId endNodeId mode options endNode
             (searchFuel graph) (initialState startNodeId h0) [] r pre e n to post);
      auto.
    + apply linked_initial.
    + intros v entry. discriminate.
Qed.

End TurnFacts.

(* ------------------------------------------------------------------------- *)
(** ** The shape of the parsed graph *)

Module ParserMore.
Import Parser ParserFacts.

(** Every edge is stored under its [from]. *)
Definition Keyed (adj : JsMap.t (list GraphEdge)) : Prop :=
  forall k es e, JsMap.get adj k = Some es -> In e es -> from e = k.

Lemma pushEdge_get adj k e k' :
  JsMap.get (pushEdge adj k e) k' =
  if (k =? k')%Z
  then Some (match JsMap.get adj k with Some es => es ++ [e] | None => [e] end)
  else JsMap.get adj k'.
Proof.
  unfold pushEdge. destruct (JsMap.get adj k); now rewrite JsMapFacts.get_set.
Qed.

Lemma pushEdge_keyed adj e : Keyed adj -> Keyed (pushEdge adj (from e) e).
Proof.
  intros K k es e'. rewrite pushEdge_get.
  destruct (Z.eqb_spec (from e) k) as [<-|Hne]; [|apply K].
  intros [= <-]. destruct (JsMap.get adj (from e)) as [es|] eqn:Eg.
  - rewrite in_app_iff. intros [H|[<-|[]]]; [eapply K; eauto | reflexivity].
  - intros [<-|[]]. reflexivity.
Qed.

(** A node map whose nodes carry their key and coordinates that are
    numbers. *)
Definition Sound (m : JsMap.t GraphNode) : Prop :=
  forall k n, JsMap.get m k = Some n ->
    id n = k /\ PrimFloat.is_nan (lat n) = false /\ PrimFloat.is_nan (lon n) = false.

Lemma parseNodes_sound els : Sound (parseNodes els).
Proof.
  unfold parseNodes.
  assert (Sound (JsMap.empty (V := GraphNode))) as H by (intros k n; discriminate).
  revert H. generalize (JsMap.empty (V := GraphNode)).
  induction els as [|el els IH]; intros acc H; cbn [fold_left]; [exact H|].
  apply IH. destruct (nodeId el) as [i|]; [|exact H].
  destruct (PrimFloat.is_nan (nodeLat el)) eqn:E1; cbn [negb andb]; [exact H|].
  destruct (PrimFloat.is_nan (nodeLon el)) eqn:E2; cbn [negb]; [exact H|].
  intros k n. rewrite JsMapFacts.get_set.
  destruct (i =? k)%Z eqn:E; [|apply H].
  apply Z.eqb_eq in E. intros [= <-]. cbn. auto.
Qed.

Section WithMath.
Variable M : MathLib.
Variable allNodes : JsMap.t GraphNode.

Lemma addSegment_keyed w b fromRef toRef :
  Keyed (builtAdjacency b) ->
  Keyed (builtAdjacency (addSegment M allNodes w b fromRef toRef)).
Proof.
  intros K. unfold addSegment.
  destruct fromRef as [fromId|], toRef as [toId|]; try exact K.
  destruct (JsMap.get allNodes fromId) as [fromNode|]; [|exact K].
  destruct (JsMap.get allNodes toId) as [toNode|]; [|exact K].
  cbn [builtAdjacency].
  apply (pushEdge_keyed _ (reverseEdge M w fromId toId fromNode toNode)).
  apply (pushEdge_keyed _ (forwardEdge M w fromId toId fromNode toNode)).
  exact K.
Qed.

Lemma addSegments_keyed w : forall nodeIds b,
  Keyed (builtAdjacency b) ->
  Keyed (builtAdjacency (addSegments M allNodes w b nodeIds)).
Proof.
  induction nodeIds as [|fromRef rest IH]; intros b K; [exact K|].
  destruct rest as [|toRef rest']; [exact K|].
  cbn [addSegments]. apply IH. now apply addSegment_keyed.
Qed.

Lemma addWay_keyed b way :
  Keyed (builtAdjacency b) -> Keyed (builtAdjacency (addWay M allNodes b way)).
Proof.
  intros K. unfold addWay.
  destruct (getTag (wayTags way) "highway") as [hw|]; [|exact K].
  destruct (truthy (Some hw)); [|exact K].
  now apply addSegments_keyed.
Qed.

Lemma addWays_keyed : forall ways b,
  Keyed (builtAdjacency b) ->
  Keyed (builtAdjacency (fold_left (addWay M allNodes) ways b)).
Proof.
  induction ways as [|way ways IH]; intros b K; cbn [fold_left]; [exact K|].
  apply IH. now apply addWay_keyed.
Qed.

(** The nodes kept are those of [allNodes] that are referenced. *)
Lemma keepReferenced_get k : forall referenced acc,
  JsMap.get
    (fold_left
       (fun nodes i =>
          match JsMap.get allNodes i with
          | Some node => JsMap.set nodes i node
          | None => nodes
          end)
       referenced acc) k
  = if JsSet.has referenced k
    then match JsMap.get allNodes k with
         | Some n => Some n
         | None => JsMap.get acc k
         end
    else JsMap.get acc k.
Proof.
  unfold JsSet.has.
  induction referenced as [|i referenced IH]; intros acc; cbn [fold_left existsb];
    [reflexivity|].
  rewrite IH. destruct (Z.eqb_spec k i) as [->|Hne]; cbn [orb].
  - destruct (JsMap.get allNodes i) as [node|] eqn:Ei.
    + rewrite JsMapFacts.get_set_same. now destruct (existsb _ referenced).
    + now destruct (existsb _ referenced).
  - destruct (JsMap.get allNodes i) as [node|]; [|reflexivity].
    now rewrite JsMapFacts.get_set_other by congruence.
Qed.

Lemma segmentOf_nodes w p s :
  In s (segmentOf allNodes w p) ->
  JsMap.get allNodes (segFromId s) = Some (segFrom s)
  /\ JsMap.get allNodes (segToId s) = Some (segTo s).
Proof.
  unfold segmentOf. destruct p as [[fromId|] [toId|]]; try contradiction.
  destruct (JsMap.get allNodes fromId) as [fromNode|] eqn:Ef; [|contradiction].
  destruct (JsMap.get allNodes toId) as [toNode|] eqn:Et; [|contradiction].
  intros [<-|[]]. cbn. auto.
Qed.

Lemma waySegments_nodes way s :
  In s (waySegments allNodes way) ->
  JsMap.get allNodes (segFromId s) = Some (segFrom s)
  /\ JsMap.get allNodes (segToId s) = Some (segTo s).
Proof.
  unfold waySegments. destruct (retained way) as [w|]; [|contradiction].
  rewrite in_flat_map. intros [p [_ H]]. eapply segmentOf_nodes; eauto.
Qed.

End WithMath.

Lemma parseOSM_keyed M doc : Keyed (adjacency (parseOSM M doc)).
Proof.
  unfold parseOSM, buildWays. cbn [adjacency].
  apply addWays_keyed. intros k es e. discriminate.
Qed.

(** A node of the parsed graph is the node parsed under its key. *)
Lemma parseOSM_node_get M doc k :
  JsMap.get (nodes (parseOSM M doc)) k
  = if JsMap.has (nodes (parseOSM M doc)) k
    then JsMap.get (parseNodes (nodeEls doc)) k
    else None.
Proof.
  unfold JsMap.has, parseOSM, keepReferenced. cbn [nodes].
  rewrite keepReferenced_get. cbn [JsMap.get JsMap.empty].
  destruct (JsSet.has _ k); [|reflexivity].
  now destruct (JsMap.get (parseNodes (nodeEls doc)) k).
Qed.

Lemma parseOSM_sound M doc : Sound (nodes (parseOSM M doc)).
Proof.
  intros k n H. rewrite parseOSM_node_get in H.
  destruct (JsMap.has _ k); [|discriminate].
  now apply (parseNodes_sound (nodeEls doc)).
Qed.

(** Both ends of the edges of a segment are nodes of the parsed graph, the
    nodes of the segment. *)
Lemma parseOSM_segment_nodes M doc s :
  In s (segments doc) ->
  JsMap.get (nodes (parseOSM M doc)) (segFromId s) = Some (segFrom s)
  /\ JsMap.get (nodes (parseOSM M doc)) (segToId s) = Some (segTo s).
Proof.
  intros Hin.
  assert (endpoint (segments doc) (segFromId s)) as Hf by (exists s; auto).
  assert (endpoint (segments doc) (segToId s)) as Ht by (exists s; auto).
  apply (proj2 (parseOSM_nodes M doc _)), JsMapFacts.has_true in Hf.
  apply (proj2 (parseOSM_nodes M doc _)), JsMapFacts.has_true in Ht.
  rewrite !(parseOSM_node_get M doc), Hf, Ht.
  unfold segments in Hin. apply in_flat_map in Hin as [way [_ Hs]].
  eapply waySegments_nodes; eauto.
Qed.

Lemma parseOSM_edge_ends M doc e :
  In e (allEdges (parseOSM M doc)) ->
  exists a b,
    JsMap.get (nodes (parseOSM M doc)) (from e) = Some a
    /\ JsMap.get (nodes (parseOSM M doc)) (to e) = Some b
    /\ geometry e = [(lat a, lon a); (lat b, lon b)].
Proof.
  intros Hin.
  apply (Permutation_in _ (parseOSM_edges M doc)), In_segmentEdges in Hin
    as [s [Hs He]].
  destruct (parseOSM_segment_nodes M doc s Hs) as [Hf Ht].
  destruct He as [-> | ->].
  - exists (segFrom s), (segTo s). cbn. auto.
  - exists (segTo s), (segFrom s). cbn. auto.
Qed.

Lemma parseOSM_targets M doc : AStarFacts.TargetsPresent (parseOSM M doc).
Proof.
  intros c es e Hg He.
  destruct (parseOSM_edge_ends M doc e (AStarFacts.get_allEdges _ _ _ _ Hg He))
    as [a [b [Ha [Hb _]]]].
  unfold AStar.targetOf, JsMap.has.
  destruct (from e =? c)%Z; [now rewrite Hb | now rewrite Ha].
Qed.

(** *** Restrictions *)

Lemma addRelation_cases rs rel :
  addRelation rs rel = rs
  \/ exists r, addRelation rs rel = rs ++ [r]
               /\ fromWayId r <> 0%Z /\ viaNodeId r <> 0%Z /\ toWayId r <> 0%Z
               /\ type r <> ""%string
               /\ getTag (relationTags rel) "type" = Some "restriction"%string
               /\ getTag (relationTags rel) "restriction" = Some (type r).
Proof.
  unfold addRelation.
  destruct (getTag (relationTags rel) "type") as [ty|] eqn:Ety; cbn [isOneOf negb];
    [|now left].
  cbn [existsb]. rewrite orb_false_r.
  destruct (String.eqb_spec ty "restriction") as [->|]; cbn [negb]; [|now left].
  destruct (getTag (relationTags rel) "restriction") as [rt|]; [|now left].
  destruct (truthy (Some rt)) eqn:Etr; cbn [negb]; [|now left].
  match goal with
  | |- context [if ?c then _ else _] => destruct c eqn:Ec
  end; [|now left].
  apply andb_prop in Ec as [Ec E3]. apply andb_prop in Ec as [E1 E2].
  apply negb_true_iff, Z.eqb_neq in E1, E2, E3.
  right. eexists. split; [reflexivity|]. cbn.
  repeat split; auto. intros ->. discriminate.
Qed.

End ParserMore.

(* ------------------------------------------------------------------------- *)
(** ** [Math.max] and [Math.min] *)

Module JsNumFacts.
Import FloatOrder FloatLe.

Lemma is_nan_nan : PrimFloat.is_nan nan = true.
Proof. reflexivity. Qed.

(** [Math.min(a, b)] is NaN, or one of [a] and [b] and at most both. *)
Lemma mathMin_spec a b :
  PrimFloat.is_nan (JsNum.mathMin a b) = true
  \/ (JsNum.mathMin a b = a \/ JsNum.mathMin a b = b)
     /\ (JsNum.mathMin a b <=? a)%float = true
     /\ (JsNum.mathMin a b <=? b)%float = true.
Proof.
  unfold JsNum.mathMin.
  destruct (PrimFloat.is_nan a) eqn:Ea; cbn [orb]; [now left|].
  destruct (PrimFloat.is_nan b) eqn:Eb; cbn [orb]; [now left|].
  apply is_nan_number in Ea, Eb. right.
  destruct (a <? b)%float eqn:E1.
  { split; [now left|]. split; [now apply leb_refl | now apply ltb_leb]. }
  destruct (b <? a)%float eqn:E2.
  { split; [now right|]. split; [now apply ltb_leb | now apply leb_refl]. }
  destruct (PrimFloat.get_sign a).
  - split; [now left|]. split; [now apply leb_refl | now apply not_ltb_leb].
  - split; [now right|]. split; [now apply not_ltb_leb | now apply leb_refl].
Qed.

(** [Math.max(a, b)] is NaN, or one of [a] and [b] and at least both. *)
Lemma mathMax_spec a b :
  PrimFloat.is_nan (JsNum.mathMax a b) = true
  \/ (JsNum.mathMax a b = a \/ JsNum.mathMax a b = b)
     /\ (a <=? JsNum.mathMax a b)%float = true
     /\ (b <=? JsNum.mathMax a b)%float = true.
Proof.
  unfold JsNum.mathMax.
  destruct (PrimFloat.is_nan a) eqn:Ea; cbn [orb]; [now left|].
  destruct (PrimFloat.is_nan b) eqn:Eb; cbn [orb]; [now left|].
  apply is_nan_number in Ea, Eb. right.
  destruct (a <? b)%float eqn:E1.
  { split; [now right|]. split; [now apply ltb_leb | now apply leb_refl]. }
  destruct (b <? a)%float eqn:E2.
  { split; [now left|]. split; [now apply leb_refl | now apply ltb_leb]. }
  destruct (PrimFloat.get_sign a).
  - split; [now right|]. split; [now apply not_ltb_leb | now apply leb_refl].
  - split; [now left|]. split; [now apply leb_refl | now apply not_ltb_leb].
Qed.

(** [Math.max(lo, Math.min(hi, x))] is NaN or between [lo] and [hi]. *)
Lemma clamp_spec lo hi x :
  (lo <=? hi)%float = true ->
  let c := JsNum.mathMax lo (JsNum.mathMin hi x) in
  PrimFloat.is_nan c = true
  \/ (lo <=? c)%float = true /\ (c <=? hi)%float = true.
Proof.
  intros Hb c. subst c.
  destruct (mathMax_spec lo (JsNum.mathMin hi x)) as [H|[Hc [H1 H2]]]; [now left|].
  right. split; [exact H1|].
  destruct Hc as [-> | ->]; [exact Hb|].
  destruct (mathMin_spec hi x) as [Hn|[_ [H3 _]]]; [|exact H3].
  apply leb_number in H2 as [H2 _]. apply is_nan_number in H2. congruence.
Qed.

End JsNumFacts.

(* ------------------------------------------------------------------------- *)
(** ** The nearest segment *)

Module NearestFacts.
Import RoadTypes MapMatching MatchingFacts FloatOrder.

Section WithMath.
Variable M : MathLib.
Variable lat lon : float.
Variable mode : RoutingMode.

(** The segments the scan projects on, each with its edge, in the order of
    the scan. *)
Definition candidates (seen : list EdgeKey) (l : list GraphEdge)
    : list (GraphEdge * (Coord * Coord)) :=
  flat_map (fun e => map (pair e) (segmentsOf (geometry e)))
    (filter (fun e => isEdgeAccessible e mode) (firstOfKey seen l)).

Definition step (b : Best) (c : GraphEdge * (Coord * Coord)) : Best :=
  scanSegment M lat lon (fst c) b (snd c).

Lemma scanSegments_step e : forall segs b,
  fold_left (scanSegment M lat lon e) segs b
  = fold_left step (map (pair e) segs) b.
Proof. induction segs as [|seg segs IH]; intros b; cbn; [reflexivity | apply IH]. Qed.

Lemma scanned_candidates : forall l seen b,
  scanned M lat lon mode l seen b = fold_left step (candidates seen l) b.
Proof.
  unfold scanned, candidates.
  induction l as [|e l IH]; intros seen b; cbn [fold_left firstOfKey];
    [reflexivity|].
  rewrite scanEdge_cases.
  destruct (seenHas seen (keyOf e)); [apply IH|].
  cbn [filter]. destruct (isEdgeAccessible e mode); [|apply IH].
  cbn [flat_map]. rewrite fold_left_app, <- scanSegments_step. apply IH.
Qed.

(** The candidate [c] gave the best [b]. *)
Definition Achieves (b : Best) (c : GraphEdge * (Coord * Coord)) : Prop :=
  let proj :=
    projectPointOnSegment lat lon (fst (fst (snd c))) (snd (fst (snd c)))
      (fst (snd (snd c))) (snd (snd (snd c))) in
  bestEdge b = Some (fst c)
  /\ bestDist b = projectedDistance M lat lon (snd c)
  /\ bestLat b = x proj /\ bestLon b = y proj.

Lemma fold_step_nearest : forall cs b,
  isNumber (bestDist b) ->
  let r := fold_left step cs b in
  isNumber (bestDist r)
  /\ (bestDist b <? bestDist r)%float = false
  /\ (forall c, In c cs ->
        (projectedDistance M lat lon (snd c) <? bestDist r)%float = false)
  /\ (r = b \/ exists c, In c cs /\ Achieves r c).
Proof.
  induction cs as [|c cs IH]; intros b Hb; cbn [fold_left].
  - split; [exact Hb|]. split; [apply ltb_irrefl|]. split; [intros c []|now left].
  - set (b1 := step b c).
    assert (isNumber (bestDist b1)
            /\ (bestDist b <? bestDist b1)%float = false
            /\ (projectedDistance M lat lon (snd c) <? bestDist b1)%float = false
            /\ (b1 = b \/ Achieves b1 c)) as [N1 [L1 [C1 A1]]].
    { subst b1. unfold step, scanSegment, Achieves, projectedDistance.
      destruct (Geo.haversine M lat lon _ _ <? bestDist b)%float eqn:E;
        cbn [bestDist bestEdge bestLat bestLon].
      - split; [apply (ltb_number _ _ E)|]. split; [now apply ltb_asym|].
        split; [apply ltb_irrefl|]. right. auto.
      - split; [exact Hb|]. split; [apply ltb_irrefl|]. split; [exact E|now left]. }
    destruct (IH b1 N1) as [N [L [C A]]]. cbv zeta in *.
    split; [exact N|]. split; [|split].
    + apply ltb_negtrans with (b := bestDist b1); assumption.
    + intros c' [<-|Hin]; [|now apply C].
      apply ltb_negtrans with (b := bestDist b1); assumption.
    + destruct A as [->|[c' [Hin Hc']]].
      * destruct A1 as [->|A1]; [now left|]. right. exists c. split; [now left|exact A1].
      * right. exists c'. split; [now right | exact Hc'].
Qed.

End WithMath.

(** *** [findSnapSegment] *)

Lemma indexed_bound {A : Type} (l : list A) i a :
  In (i, a) (indexed l) -> (i < length l)%nat.
Proof.
  unfold indexed. intros H. apply in_combine_l in H. apply in_seq in H. lia.
Qed.

Lemma segmentsOf_length {A : Type} (l : list A) :
  length (segmentsOf l) = (length l - 1)%nat.
Proof.
  induction l as [|a [|b l] IH]; [reflexivity | reflexivity |].
  change (segmentsOf (a :: b :: l)) with ((a, b) :: segmentsOf (b :: l)).
  cbn [length] in *. rewrite IH. lia.
Qed.

Lemma fold_findStep_index M snapLat snapLon : forall isegs st n,
  (forall i seg, In (i, seg) isegs -> (i < n)%nat) ->
  (segmentIndex (fBest st) < n)%nat \/ segmentIndex (fBest st) = 0%nat ->
  (segmentIndex (fBest (fold_left (findStep M snapLat snapLon) isegs st)) < n)%nat
  \/ segmentIndex (fBest (fold_left (findStep M snapLat snapLon) isegs st)) = 0%nat.
Proof.
  induction isegs as [|[i seg] isegs IH]; intros st n Hb Hst; cbn [fold_left];
    [exact Hst|].
  apply IH; [intros i' seg' H; eapply Hb; right; exact H|].
  unfold findStep. cbn [fst snd].
  destruct (Geo.haversine M snapLat snapLon _ _ <? fBestDist st)%float;
    [|exact Hst].
  cbn [fBest segmentIndex]. left. eapply Hb. left. reflexivity.
Qed.

End NearestFacts.

(* ------------------------------------------------------------------------- *)
(** ** Runs that do not throw *)

Module ThrowFacts.
Import RoadTypes AStar AStarFacts MapMatching MatchingFacts.

Section WithGraph.
Variable M : MathLib.
Variable graph : RoutingGraph.
Variable startNodeId endNodeId : Z.
Variable mode : RoutingMode.
Variable options : AStarOptions.
Variable endNode : GraphNode.
Hypothesis Htargets : TargetsPresent graph.

Local Abbreviation expand := (AStar.expand M graph mode options endNode).
Local Abbreviation searchLoop :=
  (AStar.searchLoop M graph startNodeId endNodeId mode options endNode).

Lemma expand_returns c cg cw : forall (neighbors : list GraphEdge) st,
  (forall e, In e neighbors -> JsMap.has (nodes graph) (targetOf c e) = true) ->
  exists st', snd (expand c cg cw neighbors st) = Some st'.
Proof.
  induction neighbors as [|e0 rest IH]; intros st Hin; [now exists st|].
  assert (forall e, In e rest -> JsMap.has (nodes graph) (targetOf c e) = true)
    as Hrest by (intros e He; apply Hin; now right).
  destruct (expand_cons M graph mode options endNode c cg cw e0 rest st)
    as [Hp|Hp Hlt|Hp Hlt Hh|h Hp Hlt Hh]; cbn [snd]; auto.
  exfalso. specialize (Hin e0 (or_introl eq_refl)).
  unfold heuristic, JsMap.has in *.
  destruct (JsMap.get (nodes graph) (targetOf c e0)); discriminate.
Qed.

Lemma searchLoop_no_throw fuel : forall st r,
  searchLoop fuel st = Some r -> snd r = Returned \/ snd r = Diverged.
Proof.
  induction fuel as [|fuel IH]; intros st r; cbn [AStar.searchLoop];
    [discriminate|].
  destruct (MinHeap.pop (openSet st)) as [[currentId rest]|].
  2:{ intros [= <-]. now left. }
  destruct (JsSet.has (closed st) currentId); [apply IH|].
  destruct (currentId =? endNodeId)%Z.
  { destruct (reconstruct startNodeId endNodeId _); intros [= <-]; auto. }
  destruct (JsMap.get (adjacency graph) currentId) as [neighbors|] eqn:Ea;
    [|apply IH].
  match goal with
  | |- context [AStar.expand M graph mode options endNode currentId ?cg ?cw
                  neighbors ?st1] =>
      destruct (expand_returns currentId cg cw neighbors st1) as [st2 Hs];
        [intros e He; eapply Htargets; eauto|];
      destruct (expand currentId cg cw neighbors st1) as [steps r2]
  end.
  cbn [snd] in Hs. subst r2.
  destruct (searchLoop fuel st2) as [[more c]|] eqn:Es; [|discriminate].
  intros [= <-]. cbn [snd]. apply (IH _ _ Es).
Qed.

End WithGraph.

Lemma aStarRoute_no_throw M graph startNodeId endNodeId mode options :
  TargetsPresent graph ->
  snd (aStarRoute M graph startNodeId endNodeId mode options) = Returned
  \/ snd (aStarRoute M graph startNodeId endNodeId mode options) = Diverged.
Proof.
  intros Ht. unfold aStarRoute.
  destruct (JsMap.get (nodes graph) endNodeId) as [endNode|]; [|now left].
  destruct (JsMap.get (nodes graph) startNodeId) as [startNode|] eqn:Es; [|now left].
  destruct (startNodeId =? endNodeId)%Z; [now left|].
  unfold heuristic. rewrite Es.
  match goal with
  | |- context [searchLoop M graph startNodeId endNodeId mode options endNode ?f ?st] =>
      pose proof (searchLoop_no_throw M graph startNodeId endNodeId mode options
                    endNode Ht f st) as H;
      destruct (searchLoop M graph startNodeId endNodeId mode options endNode f st)
        as [r|]
  end; [now apply H | now right].
Qed.

(** [snapToRoad] returns when both ends of every edge are nodes of the
    graph. *)
Lemma snapToRoad_returns M lat lon graph mode :
  (forall e, In e (allEdges graph) ->
     JsMap.has (nodes graph) (from e) = true
     /\ JsMap.has (nodes graph) (to e) = true) ->
  exists r, snapToRoad M lat lon graph mode = Normal r.
Proof.
  intros Hends.
  assert (unset noBest) as U0 by (intros _; reflexivity).
  destruct (scan_spec M lat lon mode (allEdges graph) [] noBest U0) as [_ [_ S]].
  unfold scanned in S. unfold snapToRoad.
  destruct (bestEdge (snd (fold_left _ _ _))) as [e|] eqn:Eb; [|eauto].
  destruct (S e eq_refl) as [H|[Hin _]]; [discriminate|].
  apply firstOfKey_In in Hin. destruct (Hends e Hin) as [Hf Ht].
  unfold JsMap.has in Hf, Ht.
  destruct (JsMap.get (nodes graph) (from e)); [|discriminate].
  destruct (JsMap.get (nodes graph) (to e)); [|discriminate].
  eauto.
Qed.

End ThrowFacts.

(* ------------------------------------------------------------------------- *)
(** ** The animation *)

Module AnimationFacts.
Import AStar Animation.

(** The edges of the explore steps of [l]. *)
Definition exploreEdges (l : list AStarStep) : list GraphEdge :=
  flat_map (fun s => match s with Explore e _ _ => [e] | _ => [] end) l.

(** The edges the renderer is asked to draw as explored. *)
Definition drawn (ev : list Event) : list GraphEdge :=
  flat_map (fun e => match e with AddExploredEdge x => [x] | _ => [] end) ev.

(** The calls of [onComplete]. *)
Definition completions (ev : list Event) : nat :=
  length (filter (fun e => match e with Complete => true | _ => false end) ev).

(** The steps before the first terminal step. *)
Fixpoint beforeTerminal (l : list AStarStep) : list AStarStep :=
  match l with
  | Explore e f n :: rest => Explore e f n :: beforeTerminal rest
  | _ => []
  end.

Lemma drawn_app ev1 ev2 : drawn (ev1 ++ ev2) = drawn ev1 ++ drawn ev2.
Proof. apply flat_map_app. Qed.

Lemma completions_app ev1 ev2 :
  completions (ev1 ++ ev2) = (completions ev1 + completions ev2)%nat.
Proof. unfold completions. now rewrite filter_app, length_app. Qed.

Lemma drawn_explored e ev : drawn (AddExploredEdge e :: ev) = e :: drawn ev.
Proof. reflexivity. Qed.

Lemma drawn_route e ev : drawn (AddRouteEdge e :: ev) = drawn ev.
Proof. reflexivity. Qed.

Lemma completions_explored e ev :
  completions (AddExploredEdge e :: ev) = completions ev.
Proof. reflexivity. Qed.

Lemma completions_route e ev : completions (AddRouteEdge e :: ev) = completions ev.
Proof. reflexivity. Qed.

Lemma drawn_emitProgress a : drawn (emitProgress a) = [].
Proof. unfold emitProgress. now destruct (onProgress a). Qed.

Lemma completions_emitProgress a : completions (emitProgress a) = 0%nat.
Proof. unfold emitProgress. now destruct (onProgress a). Qed.

Lemma skipn_cons_nth {A : Type} (l : list A) i x rest :
  skipn i l = x :: rest ->
  nth_error l i = Some x /\ skipn (S i) l = rest /\ (i < length l)%nat.
Proof.
  revert i. induction l as [|y l IH]; intros [|i]; cbn [skipn nth_error length];
    try discriminate.
  - intros [= -> ->]. repeat split. lia.
  - intros H. destruct (IH i H) as [H1 [H2 H3]]. repeat split; auto. lia.
Qed.

(** The settings a frame leaves as they are. *)
Definition sameSetup (a a' : Animator) : Prop :=
  steps a' = steps a /\ pathEdgeSet a' = pathEdgeSet a
  /\ pathEdgeMap a' = pathEdgeMap a /\ speed a' = speed a
  /\ onComplete a' = onComplete a /\ onProgress a' = onProgress a.

Lemma sameSetup_refl a : sameSetup a a.
Proof. repeat split. Qed.

Lemma sameSetup_trans a b c : sameSetup a b -> sameSetup b c -> sameSetup a c.
Proof.
  unfold sameSetup. intros [? [? [? [? [? ?]]]]] [? [? [? [? [? ?]]]]].
  repeat split; congruence.
Qed.

Lemma stop_spec a :
  sameSetup a (fst (stop a))
  /\ animationId (fst (stop a)) = false
  /\ currentIndex (fst (stop a)) = currentIndex a
  /\ exploredCount (fst (stop a)) = exploredCount a
  /\ routeCount (fst (stop a)) = routeCount a
  /\ lastFrameTime (fst (stop a)) = lastFrameTime a
  /\ drawn (snd (stop a)) = [] /\ completions (snd (stop a)) = 0%nat
  /\ forall stats, ~ In (Progress stats) (snd (stop a)).
Proof.
  unfold stop. destruct (animationId a) eqn:E; cbn; repeat split; auto.
  - intros stats [H|[]]. discriminate.
Qed.

Ltac done_in :=
  match goal with
  | H : In _ [] |- _ => destruct H
  | H : ?x <> ?x |- _ => now contradiction H
  | H : ?x = ?x -> False |- _ => now contradiction H
  | H : true = false |- _ => discriminate H
  | H : false = true |- _ => discriminate H
  | |- _ :: _ <> [] => discriminate
  | |- _ :: _ = [] -> False => discriminate
  end.

(** A number that is at least 1 and not above it is 1. *)
Lemma equal_one y :
  (1 <=? y)%float = true -> (1 <? y)%float = false -> y = 1%float.
Proof.
  rewrite leb_spec, ltb_spec. intros H1 H2. apply Prim2SF_inj.
  revert H1 H2.
  replace (Prim2SF 1) with (S754_finite false 4503599627370496 (-52))
    by (vm_compute; reflexivity).
  unfold SFleb, SFltb, SFcompare.
  destruct (Prim2SF y) as [[]|[]| |[] m e]; try discriminate.
  destruct (Z.compare_spec (-52) e) as [E|L|L]; try discriminate.
  change (Pos.compare_cont Eq 4503599627370496 m)
    with (Pos.compare 4503599627370496 m).
  destruct (Pos.compare_spec 4503599627370496 m) as [E'|L|L]; try discriminate.
  now subst.
Qed.

Section WithPow.
Variable P : PowLib.

(** What one run of the loop of [tick] does with the steps left,
    [consumed ++ rest]. *)
Lemma frameLoop_spec spf : forall left processed a,
  skipn (currentIndex a) (steps a) = left ->
  forall fuel, fuel = length left ->
  let '(a', ev, returned) := frameLoop fuel spf processed a in
  exists consumed rest,
    left = consumed ++ rest
    /\ currentIndex a' = (currentIndex a + length consumed)%nat
    /\ sameSetup a a'
    /\ lastFrameTime a' = lastFrameTime a
    /\ drawn ev = exploreEdges consumed
    /\ exploredCount a' = (exploredCount a + length (exploreEdges consumed))%nat
    /\ (routeCount a <= routeCount a')%nat
    /\ (routeCount a' - routeCount a <= length (exploreEdges consumed))%nat
    /\ (forall stats, In (Progress stats) ev ->
          exploredEdges stats = exploredCount a'
          /\ routeEdges stats = routeCount a'
          /\ totalSteps stats = length (steps a))
    /\ (if returned
        then exists term,
               consumed = beforeTerminal left ++ [term]
               /\ isTerminal term = true
               /\ animationId a' = false
               /\ completions ev = (if onComplete a then 1 else 0)%nat
        else consumed = beforeTerminal consumed
             /\ animationId a' = animationId a
             /\ completions ev = 0%nat
             /\ ((processed <? spf)%float = true -> left <> [] -> consumed <> [])).
Proof.
  induction left as [|step left IH]; intros processed a Hleft fuel ->.
  - cbn [length frameLoop]. exists [], []. cbn [app length exploreEdges flat_map].
    rewrite !Nat.add_0_r, Nat.sub_diag.
    repeat split; auto using sameSetup_refl; try lia; try done_in.
  - destruct (skipn_cons_nth _ _ _ _ Hleft) as [Hnth [Hskip Hlt]].
    cbn [length frameLoop]. rewrite Hnth.
    apply Nat.ltb_lt in Hlt. rewrite Hlt, andb_true_r.
    destruct (processed <? spf)%float eqn:Ep.
    2:{ exists [], (step :: left). cbn [app length exploreEdges flat_map].
        rewrite !Nat.add_0_r, Nat.sub_diag.
        repeat split; auto using sameSetup_refl; try lia; try done_in. }
    destruct step as [e f n|path ids time|].
    + cbn [drawExplore].
      match goal with
      | |- context [frameLoop _ spf ?p ?a1] =>
          specialize (IH p a1 Hskip (length left) eq_refl);
          destruct (frameLoop (length left) spf p a1) as [[a2 ev'] returned]
      end.
      destruct IH as [consumed [rest [E [Hi [Hs [Ht [Hd [Hx [Hr1 [Hr2 [Hp Hret]]]]]]]]]]].
      cbn [currentIndex exploredCount routeCount lastFrameTime steps onComplete
             animationId] in *.
      exists (Explore e f n :: consumed), rest.
      cbn [app length exploreEdges flat_map]. fold (exploreEdges consumed).
      split; [now rewrite E|]. split; [lia|].
      split; [exact Hs|]. split; [exact Ht|].
      split.
      { destruct (MapMatching.seenHas _ _); cbn [app];
          now rewrite ?drawn_explored, ?drawn_route, Hd. }
      split; [lia|].
      split; [destruct (MapMatching.seenHas _ _); lia|].
      split; [destruct (MapMatching.seenHas _ _); lia|].
      split.
      { intros stats [H|Hin]; [discriminate|].
        destruct (MapMatching.seenHas _ _); cbn [app] in Hin; [|now apply Hp].
        destruct Hin as [H|Hin]; [discriminate | now apply Hp]. }
      destruct returned.
      * destruct Hret as [term [Ec [Hterm [Ha Hc]]]]. exists term.
        cbn [beforeTerminal]. split; [now rewrite Ec|].
        split; [exact Hterm|]. split; [exact Ha|].
        destruct (MapMatching.seenHas _ _); cbn [app];
          now rewrite ?completions_explored, ?completions_route, Hc.
      * destruct Hret as [Ec [Ha [Hc _]]]. cbn [beforeTerminal].
        split; [now rewrite <- Ec|]. split; [exact Ha|].
        split; [|discriminate].
        destruct (MapMatching.seenHas _ _); cbn [app];
          now rewrite ?completions_explored, ?completions_route, Hc.
    + destruct (stop_spec (passTerminal a))
        as [Hs [Ha [Hi [Hx [Hr [Ht [Hd [Hc Hp]]]]]]]].
      destruct (stop (passTerminal a)) as [a2 ev]. cbn [fst snd] in *.
      exists [Done path ids time], left.
      cbn [app length exploreEdges flat_map passTerminal currentIndex
             exploredCount routeCount lastFrameTime] in *.
      split; [reflexivity|]. split; [lia|]. split; [exact Hs|].
      split; [exact Ht|].
      split; [now rewrite !drawn_app, drawn_emitProgress, Hd;
              unfold callComplete; destruct (onComplete a2)|].
      split; [lia|]. split; [lia|]. split; [lia|].
      split.
      { intros stats Hin. apply in_app_or in Hin as [Hin|Hin].
        - unfold emitProgress in Hin. cbn [onProgress passTerminal] in Hin.
          destruct (onProgress a); [|destruct Hin].
          destruct Hin as [[= <-]|[]]. cbn. auto.
        - apply in_app_or in Hin as [Hin|Hin]; [now apply Hp in Hin|].
          unfold callComplete in Hin. destruct (onComplete a2); [|destruct Hin].
          destruct Hin as [H|[]]. discriminate. }
      exists (Done path ids time). cbn [beforeTerminal app].
      split; [reflexivity|]. split; [reflexivity|]. split; [exact Ha|].
      rewrite !completions_app, completions_emitProgress, Hc.
      destruct Hs as [_ [_ [_ [_ [Hoc _]]]]]. cbn [onComplete passTerminal] in Hoc.
      unfold callComplete. rewrite Hoc. now destruct (onComplete a).
    + destruct (stop_spec (passTerminal a))
        as [Hs [Ha [Hi [Hx [Hr [Ht [Hd [Hc Hp]]]]]]]].
      destruct (stop (passTerminal a)) as [a2 ev]. cbn [fst snd] in *.
      exists [NoRoute], left.
      cbn [app length exploreEdges flat_map passTerminal currentIndex
             exploredCount routeCount lastFrameTime] in *.
      split; [reflexivity|]. split; [lia|]. split; [exact Hs|].
      split; [exact Ht|].
      split; [now rewrite !drawn_app, drawn_emitProgress, Hd;
              unfold callComplete; destruct (onComplete a2)|].
      split; [lia|]. split; [lia|]. split; [lia|].
      split.
      { intros stats Hin. apply in_app_or in Hin as [Hin|Hin].
        - unfold emitProgress in Hin. cbn [onProgress passTerminal] in Hin.
          destruct (onProgress a); [|destruct Hin].
          destruct Hin as [[= <-]|[]]. cbn. auto.
        - apply in_app_or in Hin as [Hin|Hin]; [now apply Hp in Hin|].
          unfold callComplete in Hin. destruct (onComplete a2); [|destruct Hin].
          destruct Hin as [H|[]]. discriminate. }
      exists NoRoute. cbn [beforeTerminal app].
      split; [reflexivity|]. split; [reflexivity|]. split; [exact Ha|].
      rewrite !completions_app, completions_emitProgress, Hc.
      destruct Hs as [_ [_ [_ [_ [Hoc _]]]]]. cbn [onComplete passTerminal] in Hoc.
      unfold callComplete. rewrite Hoc. now destruct (onComplete a).
Qed.


Lemma exploreEdges_app l1 l2 :
  exploreEdges (l1 ++ l2) = exploreEdges l1 ++ exploreEdges l2.
Proof. apply flat_map_app. Qed.

Lemma exploreEdges_length l : (length (exploreEdges l) <= length l)%nat.
Proof.
  induction l as [|s l IH]; [cbn; lia|].
  unfold exploreEdges in *. cbn [flat_map]. rewrite length_app.
  destruct s; cbn [length]; lia.
Qed.

Lemma beforeTerminal_app l rest :
  l = beforeTerminal l -> beforeTerminal (l ++ rest) = l ++ beforeTerminal rest.
Proof.
  induction l as [|s l IH]; [reflexivity|].
  destruct s; cbn [beforeTerminal app]; try discriminate.
  intros [= H]. now rewrite IH.
Qed.

Lemma beforeTerminal_all l : l = beforeTerminal l -> beforeTerminal l = l.
Proof. congruence. Qed.

(** What [tick] does with the steps left. *)
Lemma tick_spec now a :
  let left := skipn (currentIndex a) (steps a) in
  let '(a', ev) := tick P now a in
  sameSetup a a'
  /\ (forall stats, In (Progress stats) ev ->
        exploredEdges stats = exploredCount a'
        /\ routeEdges stats = routeCount a'
        /\ totalSteps stats = length (steps a))
  /\ exists consumed rest,
       left = consumed ++ rest
       /\ currentIndex a' = (currentIndex a + length consumed)%nat
       /\ exploredCount a' = (exploredCount a + length (exploreEdges consumed))%nat
       /\ (routeCount a <= routeCount a')%nat
       /\ (routeCount a' - routeCount a <= length (exploreEdges consumed))%nat
       /\ drawn ev = exploreEdges consumed
       /\ ((now - lastFrameTime a <? getInterval a)%float = false ->
           lastFrameTime a' = now
           /\ (animationId a' = false
               /\ completions ev = (if onComplete a then 1 else 0)%nat
               /\ exploreEdges consumed = exploreEdges (beforeTerminal left)
               \/ animationId a' = true
                  /\ completions ev = 0%nat
                  /\ consumed = beforeTerminal consumed
                  /\ rest <> []
                  /\ ((0 <? getStepsPerFrame P a)%float = true -> consumed <> []))).
Proof.
  cbv zeta. unfold tick.
  destruct (now - lastFrameTime a <? getInterval a)%float eqn:Ei.
  { split; [repeat split|]. split; [intros stats [H|[]]; discriminate|].
    exists [], (skipn (currentIndex a) (steps a)).
    cbn [app length exploreEdges flat_map requested currentIndex exploredCount
           routeCount drawn].
    repeat split; try lia; try done_in. }
  pose proof (frameLoop_spec (getStepsPerFrame P a)
                (skipn (currentIndex (atTime now a)) (steps (atTime now a)))
                0%float (atTime now a) eq_refl
                (length (steps (atTime now a)) - currentIndex (atTime now a))) as H.
  rewrite length_skipn in H. specialize (H eq_refl).
  destruct (frameLoop _ _ _ (atTime now a)) as [[a1 ev] returned].
  destruct H as [consumed [rest [E [Hi [Hs [Ht [Hd [Hx [Hr1 [Hr2 [Hp Hret]]]]]]]]]]].
  cbn [atTime currentIndex steps lastFrameTime exploredCount routeCount
         onComplete animationId] in *.
  assert (sameSetup a a1) as Hs'.
  { destruct Hs as [? [? [? [? [? ?]]]]]. repeat split; assumption. }
  destruct returned.
  - destruct Hret as [term [Ec [Hterm [Ha Hc]]]].
    split; [exact Hs'|]. split; [exact Hp|].
    exists consumed, rest. repeat split; auto.
    left. repeat split; auto.
    rewrite Ec, exploreEdges_app. destruct term; try discriminate;
      cbn; now rewrite app_nil_r.
  - destruct Hret as [Ec [Ha [Hc Hne]]].
    destruct (Nat.leb_spec (length (steps a1)) (currentIndex a1)) as [Hend|Hmore].
    + destruct (stop_spec a1) as [Hs2 [Ha2 [Hi2 [Hx2 [Hr2' [Ht2 [Hd2 [Hc2 Hp2]]]]]]]].
      destruct (stop a1) as [a2 ev']. cbn [fst snd] in *.
      split; [eapply sameSetup_trans; eauto|].
      split.
      { intros stats Hin. apply in_app_or in Hin as [Hin|Hin];
          [rewrite Hx2, Hr2'; now apply Hp|].
        apply in_app_or in Hin as [Hin|Hin].
        - unfold emitProgress in Hin. destruct (onProgress a1); [|destruct Hin].
          destruct Hin as [[= <-]|[]]. cbn.
          destruct Hs' as [-> _]. auto.
        - apply in_app_or in Hin as [Hin|Hin]; [now apply Hp2 in Hin|].
          unfold callComplete in Hin. destruct (onComplete a2); [|destruct Hin].
          destruct Hin as [H|[]]. discriminate. }
      exists consumed, rest.
      split; [exact E|]. split; [lia|]. split; [lia|]. split; [lia|].
      split; [lia|].
      split.
      { rewrite !drawn_app, drawn_emitProgress, Hd, Hd2.
        unfold callComplete. destruct (onComplete a2); cbn; now rewrite app_nil_r. }
      intros _. split; [congruence|]. left. split; [exact Ha2|].
      split.
      { rewrite !completions_app, completions_emitProgress, Hc, Hc2.
        destruct Hs2 as [_ [_ [_ [_ [Hoc _]]]]].
        destruct Hs' as [_ [_ [_ [_ [Hoc' _]]]]].
        unfold callComplete. rewrite Hoc, Hoc'. now destruct (onComplete a). }
      assert (rest = []) as ->.
      { destruct Hs' as [Hst _]. rewrite Hst in Hend.
        assert (length (skipn (currentIndex a) (steps a))
                = length (consumed ++ rest)) as L by now rewrite E.
        rewrite length_skipn, length_app in L.
        destruct rest; [reflexivity | cbn in L; lia]. }
      rewrite app_nil_r in E. rewrite E. now rewrite <- Ec.
    + split; [destruct Hs' as [? [? [? [? [? ?]]]]]; repeat split; assumption|].
      split.
      { intros stats Hin. cbn [requested exploredCount routeCount].
        apply in_app_or in Hin as [Hin|Hin]; [now apply Hp|].
        apply in_app_or in Hin as [Hin|Hin].
        - unfold emitProgress in Hin. destruct (onProgress a1); [|destruct Hin].
          destruct Hin as [[= <-]|[]]. cbn.
          destruct Hs' as [-> _]. auto.
        - destruct Hin as [H|[]]. discriminate. }
      exists consumed, rest. cbn [requested currentIndex exploredCount routeCount
                                   lastFrameTime animationId].
      split; [exact E|]. split; [lia|]. split; [lia|]. split; [lia|].
      split; [lia|].
      split.
      { rewrite !drawn_app, drawn_emitProgress, Hd. cbn. now rewrite app_nil_r. }
      intros _. split; [exact Ht|]. right. split; [reflexivity|].
      split.
      { rewrite !completions_app, completions_emitProgress, Hc. reflexivity. }
      split; [exact Ec|].
      split.
      { intros ->. destruct Hs' as [Hst _]. rewrite Hst in Hmore.
        assert (length (skipn (currentIndex a) (steps a))
                = length (consumed ++ [])) as L by now rewrite E.
        rewrite length_skipn, length_app in L. cbn in L. lia. }
      intros Hspf. apply Hne; [exact Hspf|].
      intros Hnil. rewrite Hnil in E. symmetry in E.
      apply app_eq_nil in E as [-> ->].
      destruct Hs' as [Hst _]. rewrite Hst in Hmore.
      apply (f_equal (@length _)) in Hnil. rewrite length_skipn in Hnil.
      cbn in *. lia.
Qed.

(** The frames the browser runs at the times [nows], as long as one is
    requested. *)
Fixpoint frames (nows : list float) (a : Animator) : Animator * list Event :=
  match nows with
  | [] => (a, [])
  | now :: rest =>
      if animationId a then
        let (a1, ev) := tick P now a in
        let (a2, ev') := frames rest a1 in
        (a2, ev ++ ev')
      else (a, [])
  end.

(** Every frame comes when the interval of [tick] has passed. *)
Fixpoint steady (interval last : float) (nows : list float) : Prop :=
  match nows with
  | [] => True
  | now :: rest => (now - last <? interval)%float = false /\ steady interval now rest
  end.

Lemma getInterval_setup a a' : sameSetup a a' -> getInterval a' = getInterval a.
Proof. intros [_ [_ [_ [H _]]]]. unfold getInterval. now rewrite H. Qed.

Lemma getStepsPerFrame_setup a a' :
  sameSetup a a' -> getStepsPerFrame P a' = getStepsPerFrame P a.
Proof. intros [_ [_ [_ [H _]]]]. unfold getStepsPerFrame. now rewrite H. Qed.

Lemma skipn_add {A : Type} (l : list A) i (consumed rest : list A) :
  skipn i l = consumed ++ rest -> skipn (i + length consumed) l = rest.
Proof.
  intros H. rewrite Nat.add_comm, <- skipn_skipn, H.
  rewrite skipn_app, skipn_all, Nat.sub_diag. reflexivity.
Qed.

Lemma frames_complete : forall nows a,
  animationId a = true ->
  steady (getInterval a) (lastFrameTime a) nows ->
  (0 <? getStepsPerFrame P a)%float = true ->
  (length (skipn (currentIndex a) (steps a)) < length nows)%nat ->
  animationId (fst (frames nows a)) = false
  /\ completions (snd (frames nows a)) = (if onComplete a then 1 else 0)%nat
  /\ drawn (snd (frames nows a))
     = exploreEdges (beforeTerminal (skipn (currentIndex a) (steps a))).
Proof.
  induction nows as [|now nows IH]; intros a Ha Hst Hspf Hlen; [cbn in Hlen; lia|].
  cbn [frames]. rewrite Ha. destruct Hst as [Hpass Hst].
  pose proof (tick_spec now a) as H. cbv zeta in H.
  destruct (tick P now a) as [a1 ev].
  destruct H as [Hs [_ [consumed [rest [E [Hi [_ [_ [_ [Hd Hp]]]]]]]]]].
  destruct (Hp Hpass) as [Ht [[Ha1 [Hc Hb]]|[Ha1 [Hc [Hb [Hrest Hne]]]]]].
  - destruct nows as [|now' nows]; cbn [frames]; [|rewrite Ha1];
      cbn [fst snd]; rewrite app_nil_r; repeat split; auto; congruence.
  - specialize (Hne Hspf).
    assert (skipn (currentIndex a1) (steps a1) = rest) as Hleft.
    { destruct Hs as [-> _]. rewrite Hi. now apply skipn_add. }
    specialize (IH a1 Ha1).
    rewrite (getInterval_setup _ _ Hs), (getStepsPerFrame_setup _ _ Hs), Ht,
      Hleft in IH.
    destruct IH as [IH1 [IH2 IH3]]; auto.
    { rewrite E, length_app in Hlen. cbn [length] in Hlen.
      destruct consumed; [now contradiction Hne | cbn in Hlen; lia]. }
    destruct (frames nows a1) as [a2 ev']. cbn [fst snd] in *.
    split; [exact IH1|]. split.
    + rewrite completions_app, Hc, IH2.
      destruct Hs as [_ [_ [_ [_ [-> _]]]]]. reflexivity.
    + rewrite drawn_app, Hd, IH3, E, (beforeTerminal_app _ _ Hb),
        exploreEdges_app. reflexivity.
Qed.

(** *** Calls in any order *)

Inductive Call :=
| Load (newSteps : list AStarStep) (finalPath : list GraphEdge)
| SetSpeed (s : float)
| Start (complete progress : bool) (now now' : float)
| Stop
| Reset
| Tick (now : float).

Definition call (c : Call) (a : Animator) : Animator * list Event :=
  match c with
  | Load newSteps finalPath => loadSteps newSteps finalPath a
  | SetSpeed s => (setSpeed s a, [])
  | Start complete progress now now' => start P complete progress now now' a
  | Stop => stop a
  | Reset => reset a
  | Tick now => tick P now a
  end.

Fixpoint calls (cs : list Call) (a : Animator) : Animator * list Event :=
  match cs with
  | [] => (a, [])
  | c :: rest =>
      let (a1, ev) := call c a in
      let (a2, ev') := calls rest a1 in
      (a2, ev ++ ev')
  end.

(** The counters stay within the steps read. *)
Definition Counted (a : Animator) : Prop :=
  (currentIndex a <= length (steps a))%nat
  /\ (exploredCount a <= currentIndex a)%nat
  /\ (routeCount a <= exploredCount a)%nat.

Definition Fair (stats : AnimationStats) : Prop :=
  (routeEdges stats <= exploredEdges stats)%nat
  /\ (exploredEdges stats <= totalSteps stats)%nat.

Lemma tick_counted now a :
  Counted a ->
  Counted (fst (tick P now a))
  /\ forall stats, In (Progress stats) (snd (tick P now a)) -> Fair stats.
Proof.
  intros [C1 [C2 C3]].
  pose proof (tick_spec now a) as H. cbv zeta in H.
  destruct (tick P now a) as [a1 ev]. cbn [fst snd].
  destruct H as [Hs [Hp [consumed [rest [E [Hi [Hx [Hr1 [Hr2 _]]]]]]]]].
  pose proof (exploreEdges_length consumed) as Hl.
  assert (length (skipn (currentIndex a) (steps a)) = length (consumed ++ rest))
    as L by now rewrite E.
  rewrite length_skipn, length_app in L.
  assert (Counted a1) as Hc.
  { destruct Hs as [Hst _]. unfold Counted. rewrite Hst. lia. }
  split; [exact Hc|].
  intros stats Hin. destruct (Hp stats Hin) as [H1 [H2 H3]].
  destruct Hc as [D1 [D2 D3]]. destruct Hs as [Hst _].
  unfold Fair. rewrite H1, H2, H3. lia.
Qed.

Lemma stop_counted a :
  Counted a ->
  Counted (fst (stop a))
  /\ forall stats, In (Progress stats) (snd (stop a)) -> Fair stats.
Proof.
  intros C. destruct (stop_spec a) as [[Hst _] [_ [Hi [Hx [Hr [_ [_ [_ Hp]]]]]]]].
  split.
  - unfold Counted. now rewrite Hst, Hi, Hx, Hr.
  - intros stats Hin. now apply Hp in Hin.
Qed.

Lemma call_counted c a :
  Counted a ->
  Counted (fst (call c a))
  /\ forall stats, In (Progress stats) (snd (call c a)) -> Fair stats.
Proof.
  intros C. destruct c as [newSteps finalPath|s|complete progress now now'| | |now];
    cbn [call].
  - unfold loadSteps. destruct (stop_counted a C) as [_ Hp].
    destruct (stop a) as [a1 ev]. cbn [fst snd] in *. split.
    + unfold Counted. cbn. lia.
    + intros stats Hin. apply in_app_or in Hin as [Hin|[H|[]]];
        [now apply Hp | discriminate].
  - cbn [fst snd]. split; [exact C | intros stats []].
  - unfold start. destruct (animationId a); [split; [exact C|intros stats []]|].
    match goal with
    | |- context [tick P now' ?a1] =>
        assert (Counted a1) as C1 by exact C;
        destruct (tick_counted now' a1 C1) as [Hc Hp];
        destruct (tick P now' a1) as [a2 ev]
    end.
    cbn [fst snd] in *. split; [exact Hc|].
    intros stats Hin. apply in_app_or in Hin as [Hin|Hin]; [|now apply Hp].
    unfold emitProgress in Hin. cbn [onProgress] in Hin.
    destruct progress; [|destruct Hin]. destruct Hin as [[= <-]|[]].
    destruct C as [C1' [C2' C3']]. unfold Fair. cbn. lia.
  - now apply stop_counted.
  - unfold reset. destruct (stop_counted a C) as [_ Hp].
    destruct (stop_spec a) as [[Hst _] _].
    destruct (stop a) as [a1 ev]. cbn [fst snd] in *. split.
    + unfold Counted. cbn. lia.
    + intros stats Hin. apply in_app_or in Hin as [Hin|[H|[]]];
        [now apply Hp | discriminate].
  - now apply tick_counted.
Qed.

Lemma calls_counted : forall cs a,
  Counted a ->
  forall stats, In (Progress stats) (snd (calls cs a)) -> Fair stats.
Proof.
  induction cs as [|c cs IH]; intros a C stats; cbn [calls]; [intros []|].
  destruct (call_counted c a C) as [C1 Hp].
  destruct (call c a) as [a1 ev]. cbn [fst snd] in *.
  specialize (IH a1 C1 stats).
  destruct (calls cs a1) as [a2 ev']. cbn [snd] in *.
  intros Hin. apply in_app_or in Hin as [Hin|Hin]; auto.
Qed.

End WithPow.
End AnimationFacts.

(* ------------------------------------------------------------------------- *)
(** ** The route edges the animator draws *)

Module RouteEdgeFacts.
Import AStar MapMatching Animation AnimationFacts.

Lemma keyEqb_eq a b : keyEqb a b = true <-> a = b.
Proof.
  destruct a as [[a1 a2] a3], b as [[b1 b2] b3]. cbn [keyEqb].
  rewrite !andb_true_iff, !Z.eqb_eq. split.
  - intros [[-> ->] ->]. reflexivity.
  - intros [= -> -> ->]. auto.
Qed.

Lemma keyEqb_refl a : keyEqb a a = true.
Proof. now apply keyEqb_eq. Qed.

Lemma seenHas_In s k : seenHas s k = true <-> In k s.
Proof.
  unfold seenHas. rewrite existsb_exists. split.
  - intros [x [Hx E]]. apply keyEqb_eq in E. now subst.
  - intros H. exists k. split; [assumption | apply keyEqb_refl].
Qed.

Lemma setAdd_In s k k' : In k' (setAdd s k) -> In k' s \/ k' = k.
Proof.
  unfold setAdd. destruct (seenHas s k); [auto|].
  intros H. apply in_app_or in H as [H|[<-|[]]]; auto.
Qed.

Lemma mapGet_mapSet m k e q :
  mapGet (mapSet m k e) q = if keyEqb k q then Some e else mapGet m q.
Proof.
  induction m as [|[k' e'] m IH]; cbn [mapSet mapGet]; [reflexivity|].
  destruct (keyEqb k' k) eqn:E1; cbn [mapGet].
  - apply keyEqb_eq in E1. subst k'. now destruct (keyEqb k q).
  - rewrite IH. destruct (keyEqb k' q) eqn:E2; [|reflexivity].
    apply keyEqb_eq in E2. subst q.
    destruct (keyEqb k k') eqn:E3; [|reflexivity].
    apply keyEqb_eq in E3. subst k'. now rewrite keyEqb_refl in E1.
Qed.

(** The edge kept for a key is an edge [Q] holds of, with that key. *)
Definition Synced (Q : GraphEdge -> Prop) (a : Animator) : Prop :=
  forall k, seenHas (pathEdgeSet a) k = true ->
    exists e, mapGet (pathEdgeMap a) k = Some e /\ Q e /\ edgeKey e = k.

(** Every route edge of [ev] is one [Q] holds of, drawn for an explored
    edge of [ev] between the same two nodes of the same way. *)
Definition RouteOk (Q : GraphEdge -> Prop) (ev : list Event) : Prop :=
  forall e, In (AddRouteEdge e) ev ->
    Q e /\ exists explored,
             In (AddExploredEdge explored) ev /\ edgeKey explored = edgeKey e.

Lemma routeOk_app Q ev1 ev2 : RouteOk Q ev1 -> RouteOk Q ev2 -> RouteOk Q (ev1 ++ ev2).
Proof.
  intros H1 H2 e Hin. apply in_app_or in Hin as [Hin|Hin].
  - destruct (H1 e Hin) as [Hq [x [Hx E]]]. split; [assumption|].
    exists x. split; [apply in_or_app; now left | assumption].
  - destruct (H2 e Hin) as [Hq [x [Hx E]]]. split; [assumption|].
    exists x. split; [apply in_or_app; now right | assumption].
Qed.

Lemma routeOk_nil Q : RouteOk Q [].
Proof. intros e []. Qed.

Lemma routeOk_stop Q a : RouteOk Q (snd (stop a)).
Proof.
  unfold stop. destruct (animationId a); cbn [snd]; [|apply routeOk_nil].
  intros e [H|[]]. discriminate.
Qed.

Lemma routeOk_emitProgress Q a : RouteOk Q (emitProgress a).
Proof.
  unfold emitProgress. destruct (onProgress a); [|apply routeOk_nil].
  intros e [H|[]]. discriminate.
Qed.

Lemma routeOk_callComplete Q a : RouteOk Q (callComplete a).
Proof.
  unfold callComplete. destruct (onComplete a); [|apply routeOk_nil].
  intros e [H|[]]. discriminate.
Qed.

Lemma routeOk_one Q x : (forall e, x <> AddRouteEdge e) -> RouteOk Q [x].
Proof. intros H e [E|[]]. now contradiction (H e). Qed.

Lemma synced_setup Q a a' : sameSetup a a' -> Synced Q a -> Synced Q a'.
Proof.
  intros [_ [Hs [Hm _]]] H k. rewrite Hs, Hm. apply H.
Qed.

(** [loadSteps] keeps in the map an edge of the final path for every key
    of the set. *)
Lemma loaded_synced (finalPath : list GraphEdge) :
  forall k,
    seenHas (fold_left (fun s e => setAdd s (edgeKey e)) finalPath []) k = true ->
    exists e,
      mapGet (fold_left (fun m e => mapSet m (edgeKey e) e) finalPath []) k = Some e
      /\ In e finalPath /\ edgeKey e = k.
Proof.
  assert (forall (l : list GraphEdge) s m,
            (forall k, seenHas s k = true ->
               exists e, mapGet m k = Some e /\ In e finalPath /\ edgeKey e = k) ->
            incl l finalPath ->
            forall k,
              seenHas (fold_left (fun s e => setAdd s (edgeKey e)) l s) k = true ->
              exists e,
                mapGet (fold_left (fun m e => mapSet m (edgeKey e) e) l m) k = Some e
                /\ In e finalPath /\ edgeKey e = k) as H.
  { induction l as [|e0 l IH]; intros s m Hsm Hl; cbn [fold_left]; [exact Hsm|].
    apply IH; [|intros x Hx; apply Hl; now right].
    intros k Hk. rewrite mapGet_mapSet.
    destruct (keyEqb (edgeKey e0) k) eqn:E.
    - apply keyEqb_eq in E. exists e0. split; [reflexivity|].
      split; [apply Hl; now left | assumption].
    - apply Hsm. apply seenHas_In. apply seenHas_In in Hk.
      apply setAdd_In in Hk as [Hk|Hk]; [assumption|].
      subst k. now rewrite keyEqb_refl in E. }
  apply H; [discriminate | apply incl_refl].
Qed.

Section WithPow.
Variable P : PowLib.

Lemma routeOk_drawExplore Q e a :
  Synced Q a -> RouteOk Q (snd (drawExplore e a)).
Proof.
  intros H. unfold drawExplore. cbn [snd].
  destruct (seenHas (pathEdgeSet a) (edgeKey e)) eqn:Es.
  - destruct (H _ Es) as [t [-> [Hq Hk]]].
    intros e' [E|[[= <-]|[]]]; [discriminate|].
    split; [assumption|]. exists e. split; [now left | now symmetry].
  - apply routeOk_one. discriminate.
Qed.

Lemma routeOk_frameLoop Q spf : forall fuel processed a,
  Synced Q a -> RouteOk Q (snd (fst (frameLoop fuel spf processed a))).
Proof.
  induction fuel as [|fuel IH]; intros processed a H; cbn [frameLoop];
    [apply routeOk_nil|].
  destruct ((processed <? spf)%float && (currentIndex a <? length (steps a))%nat);
    [|apply routeOk_nil].
  destruct (nth_error (steps a) (currentIndex a)) as [[e f n| |]|];
    try apply routeOk_nil.
  - pose proof (routeOk_drawExplore Q e a H) as Hd.
    assert (Synced Q (fst (drawExplore e a))) as H1 by exact H.
    destruct (drawExplore e a) as [a1 ev]. cbn [fst snd] in *.
    specialize (IH (processed + 1)%float a1 H1).
    destruct (frameLoop fuel spf (processed + 1)%float a1) as [[a2 ev'] r].
    cbn [fst snd] in *. now apply routeOk_app.
  - pose proof (routeOk_stop Q (passTerminal a)) as Hs.
    destruct (stop (passTerminal a)) as [a2 ev]. cbn [fst snd] in *.
    apply routeOk_app; [apply routeOk_emitProgress|].
    apply routeOk_app; [assumption | apply routeOk_callComplete].
  - pose proof (routeOk_stop Q (passTerminal a)) as Hs.
    destruct (stop (passTerminal a)) as [a2 ev]. cbn [fst snd] in *.
    apply routeOk_app; [apply routeOk_emitProgress|].
    apply routeOk_app; [assumption | apply routeOk_callComplete].
Qed.

Lemma routeOk_tick Q now a : Synced Q a -> RouteOk Q (snd (tick P now a)).
Proof.
  intros H. unfold tick.
  destruct (now - lastFrameTime a <? getInterval a)%float;
    [apply routeOk_one; discriminate|].
  pose proof (routeOk_frameLoop Q (getStepsPerFrame P a)
                (length (steps (atTime now a)) - currentIndex (atTime now a))
                0%float (atTime now a) H) as Hf.
  destruct (frameLoop _ _ _ _) as [[a1 ev] returned]. cbn [fst snd] in Hf.
  destruct returned; [exact Hf|].
  destruct (length (steps a1) <=? currentIndex a1)%nat.
  - pose proof (routeOk_stop Q a1) as Hs.
    destruct (stop a1) as [a2 ev']. cbn [fst snd] in *.
    apply routeOk_app; [assumption|].
    apply routeOk_app; [apply routeOk_emitProgress|].
    apply routeOk_app; [assumption | apply routeOk_callComplete].
  - cbn [snd]. apply routeOk_app; [assumption|].
    apply routeOk_app; [apply routeOk_emitProgress | apply routeOk_one; discriminate].
Qed.

(** Every call keeps the map in step with the set and draws route edges
    from the map only. *)
Lemma call_synced Q c a :
  (forall newSteps finalPath e,
     c = Load newSteps finalPath -> In e finalPath -> Q e) ->
  Synced Q a ->
  Synced Q (fst (call P c a)) /\ RouteOk Q (snd (call P c a)).
Proof.
  intros Hq H. destruct c as [newSteps finalPath|s|complete progress now now'| | |now];
    cbn [call fst snd].
  - unfold loadSteps. pose proof (routeOk_stop Q a) as Hs.
    destruct (stop a) as [a1 ev]. cbn [fst snd] in *. split.
    + intros k Hk. cbn [pathEdgeSet pathEdgeMap] in *.
      destruct (loaded_synced finalPath k Hk) as [e [E [Hin Hkey]]].
      exists e. split; [assumption|]. split; [|assumption].
      eapply Hq; eauto.
    + apply routeOk_app; [assumption | apply routeOk_one; discriminate].
  - split; [exact H | apply routeOk_nil].
  - unfold start. destruct (animationId a); cbn [fst snd];
      [split; [exact H | apply routeOk_nil]|].
    match goal with
    | |- context [tick P now' ?a1] =>
        assert (Synced Q a1) as H1 by exact H;
        pose proof (tick_spec P now' a1) as Ht;
        pose proof (routeOk_tick Q now' a1 H1) as Hr;
        destruct (tick P now' a1) as [a2 ev]
    end.
    cbv zeta in Ht. destruct Ht as [Hs _]. cbn [fst snd] in *. split.
    + eapply synced_setup; eauto.
    + apply routeOk_app; [apply routeOk_emitProgress | assumption].
  - destruct (stop_spec a) as [Hs _]. split;
      [eapply synced_setup; eauto | apply routeOk_stop].
  - unfold reset. pose proof (routeOk_stop Q a) as Hr.
    destruct (stop_spec a) as [Hs _].
    destruct (stop a) as [a1 ev]. cbn [fst snd] in *. split.
    + intros k. cbn [pathEdgeSet pathEdgeMap].
      destruct Hs as [_ [-> [-> _]]]. apply H.
    + apply routeOk_app; [assumption | apply routeOk_one; discriminate].
  - pose proof (tick_spec P now a) as Ht.
    pose proof (routeOk_tick Q now a H) as Hr.
    destruct (tick P now a) as [a2 ev]. cbv zeta in Ht.
    destruct Ht as [Hs _]. cbn [fst snd] in *. split;
      [eapply synced_setup; eauto | assumption].
Qed.

Lemma calls_synced Q : forall cs a,
  (forall newSteps finalPath e,
     In (Load newSteps finalPath) cs -> In e finalPath -> Q e) ->
  Synced Q a ->
  RouteOk Q (snd (calls P cs a)).
Proof.
  induction cs as [|c cs IH]; intros a Hq H; cbn [calls]; [apply routeOk_nil|].
  destruct (call_synced Q c a) as [H1 R1]; [|assumption|].
  { intros newSteps finalPath e -> Hin. eapply Hq; [now left | eassumption]. }
  destruct (call P c a) as [a1 ev]. cbn [fst snd] in *.
  specialize (IH a1).
  destruct (calls P cs a1) as [a2 ev']. cbn [snd] in *.
  apply routeOk_app; [assumption|]. apply IH; [|assumption].
  intros newSteps finalPath e Hin. apply (Hq newSteps). now right.
Qed.

End WithPow.
End RouteEdgeFacts.

(* ------------------------------------------------------------------------- *)
(** ** The bounds hold the nodes *)

Module RendererFacts.
Import Renderer FloatOrder FloatLe JsNumFacts.

Lemma mathMin_number a b :
  isNumber a -> isNumber b ->
  isNumber (JsNum.mathMin a b)
  /\ (JsNum.mathMin a b <=? a)%float = true
  /\ (JsNum.mathMin a b <=? b)%float = true.
Proof.
  intros Ha Hb. destruct (mathMin_spec a b) as [H|[Hc [H1 H2]]].
  - unfold JsNum.mathMin in H. apply is_nan_number in Ha, Hb.
    rewrite Ha, Hb in H. cbn [orb] in H.
    destruct (a <? b)%float; [congruence|].
    destruct (b <? a)%float; [congruence|].
    destruct (PrimFloat.get_sign a); congruence.
  - split; [|auto]. destruct Hc as [-> | ->]; assumption.
Qed.

Lemma mathMax_number a b :
  isNumber a -> isNumber b ->
  isNumber (JsNum.mathMax a b)
  /\ (a <=? JsNum.mathMax a b)%float = true
  /\ (b <=? JsNum.mathMax a b)%float = true.
Proof.
  intros Ha Hb. destruct (mathMax_spec a b) as [H|[Hc [H1 H2]]].
  - unfold JsNum.mathMax in H. apply is_nan_number in Ha, Hb.
    rewrite Ha, Hb in H. cbn [orb] in H.
    destruct (a <? b)%float; [congruence|].
    destruct (b <? a)%float; [congruence|].
    destruct (PrimFloat.get_sign a); congruence.
  - split; [|auto]. destruct Hc as [-> | ->]; assumption.
Qed.

Lemma fold_mathMin : forall xs init,
  isNumber init -> Forall isNumber xs ->
  isNumber (fold_left JsNum.mathMin xs init)
  /\ (fold_left JsNum.mathMin xs init <=? init)%float = true
  /\ Forall (fun x => (fold_left JsNum.mathMin xs init <=? x)%float = true) xs.
Proof.
  induction xs as [|x xs IH]; intros init Hi Hxs; cbn [fold_left].
  - split; [exact Hi|]. split; [now apply leb_refl | constructor].
  - inversion Hxs as [|? ? Hx Hrest]; subst.
    destruct (mathMin_number init x Hi Hx) as [Hn [H1 H2]].
    destruct (IH _ Hn Hrest) as [N [L F]].
    split; [exact N|]. split; [eapply leb_trans; eauto|].
    constructor; [eapply leb_trans; eauto | exact F].
Qed.

Lemma fold_mathMax : forall xs init,
  isNumber init -> Forall isNumber xs ->
  isNumber (fold_left JsNum.mathMax xs init)
  /\ (init <=? fold_left JsNum.mathMax xs init)%float = true
  /\ Forall (fun x => (x <=? fold_left JsNum.mathMax xs init)%float = true) xs.
Proof.
  induction xs as [|x xs IH]; intros init Hi Hxs; cbn [fold_left].
  - split; [exact Hi|]. split; [now apply leb_refl | constructor].
  - inversion Hxs as [|? ? Hx Hrest]; subst.
    destruct (mathMax_number init x Hi Hx) as [Hn [H1 H2]].
    destruct (IH _ Hn Hrest) as [N [L F]].
    split; [exact N|]. split; [eapply leb_trans; eauto|].
    constructor; [eapply leb_trans; eauto | exact F].
Qed.

Lemma isNumber_neg_infinity : isNumber neg_infinity.
Proof. unfold isNumber. vm_compute. discriminate. Qed.

(** The corners hold every node whose coordinates are numbers, when all
    are. *)
Lemma getBounds_holds graph sw ne :
  getBounds graph = Some (sw, ne) ->
  (forall node, In node (JsMap.values (nodes graph)) ->
     isNumber (lat node) /\ isNumber (lon node)) ->
  forall node, In node (JsMap.values (nodes graph)) ->
    (fst sw <=? lat node)%float = true /\ (lat node <=? fst ne)%float = true
    /\ (snd sw <=? lon node)%float = true /\ (lon node <=? snd ne)%float = true.
Proof.
  unfold getBounds. destruct (length _ =? 0)%nat; [discriminate|].
  intros [= <- <-] Hnum node Hin. cbn [fst snd]. unfold mathMinAll, mathMaxAll.
  assert (Forall isNumber (map lat (JsMap.values (nodes graph)))) as Flat.
  { apply Forall_forall. intros x Hx. apply in_map_iff in Hx as [n [<- Hn]].
    now apply Hnum. }
  assert (Forall isNumber (map lon (JsMap.values (nodes graph)))) as Flon.
  { apply Forall_forall. intros x Hx. apply in_map_iff in Hx as [n [<- Hn]].
    now apply Hnum. }
  destruct (fold_mathMin _ _ isNumber_infinity Flat) as [_ [_ F1]].
  destruct (fold_mathMin _ _ isNumber_infinity Flon) as [_ [_ F2]].
  destruct (fold_mathMax _ _ isNumber_neg_infinity Flat) as [_ [_ F3]].
  destruct (fold_mathMax _ _ isNumber_neg_infinity Flon) as [_ [_ F4]].
  rewrite Forall_forall in F1, F2, F3, F4.
  repeat split; [apply F1 | apply F3 | apply F2 | apply F4]; now apply in_map.
Qed.

(** *** On a parsed graph *)

Lemma values_set_In {V : Type} (m : JsMap.t V) k (v v' : V) :
  In v (JsMap.values (JsMap.set m k v')) -> v = v' \/ In v (JsMap.values m).
Proof.
  unfold JsMap.values.
  induction m as [|[k0 v0] m IH]; cbn [JsMap.set map In].
  - intros [<-|[]]. now left.
  - destruct (k0 =? k)%Z; cbn [map In fst snd].
    + intros [<-|H]; auto.
    + intros [<-|H]; auto. destruct (IH H); auto.
Qed.

Lemma keepReferenced_values allNodes referenced node :
  In node (JsMap.values (Parser.keepReferenced allNodes referenced)) ->
  exists i, JsMap.get allNodes i = Some node.
Proof.
  unfold Parser.keepReferenced.
  assert (forall v, In v (JsMap.values (JsMap.empty (V := GraphNode))) ->
                    exists i, JsMap.get allNodes i = Some v) as H
    by (intros v []).
  revert H. generalize (JsMap.empty (V := GraphNode)).
  induction referenced as [|i referenced IH]; intros acc H; cbn [fold_left].
  - apply H.
  - apply IH. destruct (JsMap.get allNodes i) as [n|] eqn:E; [|exact H].
    intros v Hv. apply values_set_In in Hv as [->|Hv]; eauto.
Qed.

Lemma parseOSM_values_numbers M doc node :
  In node (JsMap.values (nodes (Parser.parseOSM M doc))) ->
  isNumber (lat node) /\ isNumber (lon node).
Proof.
  unfold Parser.parseOSM. cbn [nodes]. intros H.
  apply keepReferenced_values in H as [i H].
  apply ParserMore.parseNodes_sound in H as [_ [H1 H2]].
  split; now apply is_nan_number.
Qed.

End RendererFacts.

(* ------------------------------------------------------------------------- *)
(** ** The coordinates of a trimmed geometry *)

Module TrimShapes.
Import Store MapMatching Trim.

Lemma replaceAt_replaceAt {A : Type} (l : list A) i (x y : A) :
  replaceAt (replaceAt l i x) i y = replaceAt l i y.
Proof.
  revert i. induction l as [|z l IH]; intros [|i]; cbn; try reflexivity.
  now rewrite IH.
Qed.

Lemma replaceAt_same {A : Type} (l : list A) i (x : A) :
  nth_error l i = Some x -> replaceAt l i x = l.
Proof.
  revert i. induction l as [|z l IH]; intros [|i]; cbn; try discriminate.
  - now intros [= ->].
  - intros H. now rewrite IH.
Qed.

Lemma replaceAt_nth {A : Type} (l : list A) i (x : A) :
  (i < length l)%nat -> nth_error (replaceAt l i x) i = Some x.
Proof.
  revert i; induction l as [|y l IH]; intros [|i] H; cbn in *; try lia; auto.
  apply IH. lia.
Qed.

(** The coordinate pairs the locations [elems] hold in [s]. *)
Definition Holds (s : Store.t) (elems : list loc) (coords : list Coord) : Prop :=
  Forall2 (fun l p => nth_error s l = Some (OPair p)) elems coords.

Lemma mapM_readPair s : forall elems,
  exists r,
    mapM readPair elems s = (s, r)
    /\ forall coords, r = Normal coords -> Holds s elems coords.
Proof.
  induction elems as [|l elems [r [E H]]]; cbn [mapM].
  - exists (Normal []). split; [reflexivity|]. intros coords [= <-]. constructor.
  - unfold bind. unfold readPair at 1.
    destruct (nth_error s l) as [[p| |]|] eqn:El;
      try (exists TypeError; split; [reflexivity | discriminate]).
    rewrite E. destruct r as [cs|].
    + exists (Normal (p :: cs)). split; [reflexivity|].
      intros coords [= <-]. constructor; [assumption | now apply H].
    + exists TypeError. split; [reflexivity | discriminate].
Qed.

Lemma holds_mapM s elems coords :
  Holds s elems coords -> mapM readPair elems s = (s, Normal coords).
Proof.
  induction 1 as [|l p elems coords Hl _ IH]; cbn [mapM]; [reflexivity|].
  unfold bind at 1. unfold readPair at 1. rewrite Hl.
  unfold bind at 1. now rewrite IH.
Qed.

Lemma readCoords_spec geometry s :
  exists r,
    readCoords geometry s = (s, r)
    /\ forall coords,
         r = Normal coords ->
         exists elems,
           nth_error s geometry = Some (OArray elems) /\ Holds s elems coords.
Proof.
  unfold readCoords, bind, readArray.
  destruct (nth_error s geometry) as [[|elems|]|];
    try (exists TypeError; split; [reflexivity | discriminate]).
  destruct (mapM_readPair s elems) as [r [E H]].
  exists r. split; [exact E|]. intros coords Hr. exists elems. auto.
Qed.

Lemma readCoords_holds geometry s elems coords :
  nth_error s geometry = Some (OArray elems) -> Holds s elems coords ->
  readCoords geometry s = (s, Normal coords).
Proof.
  intros Hg Hh. unfold readCoords, bind, readArray. rewrite Hg.
  now apply holds_mapM.
Qed.

Lemma forEach_push arr : forall l s xs,
  nth_error s arr = Some (OArray xs) ->
  forEach (push arr) l s = (replaceAt s arr (OArray (xs ++ l)), Normal tt).
Proof.
  induction l as [|x l IH]; intros s xs Hs; cbn [forEach].
  - unfold ret. now rewrite app_nil_r, replaceAt_same.
  - unfold bind at 1. unfold push at 1. unfold bind, readArray, write.
    rewrite Hs.
    rewrite (IH _ (xs ++ [x])).
    + now rewrite replaceAt_replaceAt, <- app_assoc.
    + apply replaceAt_nth. apply nth_error_Some. congruence.
Qed.

Lemma holds_extend s s' elems coords :
  (forall l o, nth_error s l = Some o -> nth_error s' l = Some o) ->
  Holds s elems coords -> Holds s' elems coords.
Proof.
  intros H. induction 1; constructor; auto.
Qed.

Lemma holds_skipn s elems coords k :
  Holds s elems coords -> Holds s (skipn k elems) (skipn k coords).
Proof.
  unfold Holds. intros H. revert k.
  induction H as [|l p elems' coords' Hl H IH]; intros [|k]; cbn [skipn];
    try constructor; try assumption. apply IH.
Qed.

Lemma holds_firstn s elems coords k :
  Holds s elems coords -> Holds s (firstn k elems) (firstn k coords).
Proof.
  unfold Holds. intros H. revert k.
  induction H as [|l p elems' coords' Hl _ IH]; intros [|k]; cbn [firstn];
    constructor; [assumption | apply IH].
Qed.

Lemma holds_app s e1 c1 e2 c2 :
  Holds s e1 c1 -> Holds s e2 c2 -> Holds s (e1 ++ e2) (c1 ++ c2).
Proof. apply Forall2_app. Qed.

Section WithMath.
Variable M : MathLib.

(** A run of [trimGeometryFromStart] that returns: the new store, and the
    array it returns in it. *)
Lemma trimGeometryFromStart_run geometry snapLat snapLon s s' result :
  trimGeometryFromStart M geometry snapLat snapLon s = (s', Normal result) ->
  exists coords seg,
    readCoords geometry s = (s, Normal coords)
    /\ findSnapSegment M snapLat snapLon coords = Normal seg
    /\ readCoords result s'
       = (s', Normal ((projLat seg, projLon seg)
                      :: skipn (segmentIndex seg + 1) coords))
    /\ (length s <= result)%nat
    /\ forall l o, nth_error s l = Some o -> nth_error s' l = Some o.
Proof.
  unfold trimGeometryFromStart, findSnapSegmentAt.
  unfold bind at 1. unfold bind at 1.
  destruct (readCoords_spec geometry s) as [r [E H2]]. rewrite E.
  destruct r as [coords|]; [|discriminate].
  destruct (H2 coords eq_refl) as [elems [Hg Hh]].
  unfold lift. destruct (findSnapSegment M snapLat snapLon coords) as [seg|] eqn:Ef;
    [|discriminate].
  unfold bind at 1, alloc at 1. unfold bind at 1, alloc at 1.
  set (p := OPair (projLat seg, projLon seg)).
  unfold bind at 1, readArray at 1.
  match goal with |- context [nth_error ?S geometry] => set (s2 := S) end.
  assert (forall l o, nth_error s l = Some o -> nth_error s2 l = Some o) as Hext.
  { intros l o Ho. subst s2. rewrite <- app_assoc.
    rewrite nth_error_app1; [assumption|]. apply nth_error_Some. congruence. }
  rewrite (Hext _ _ Hg).
  assert (nth_error s2 (length (s ++ [p])) = Some (OArray [length s])) as Hr.
  { subst s2. now rewrite nth_error_app2, Nat.sub_diag by lia. }
  unfold bind at 1. rewrite (forEach_push _ _ _ _ Hr).
  unfold ret. intros [= <- <-].
  set (res := length (s ++ [p])).
  set (s3 := replaceAt s2 res _).
  assert (res = S (length s)) as Hres
    by (subst res; rewrite length_app; cbn; lia).
  assert (forall l o, nth_error s l = Some o -> nth_error s3 l = Some o) as Hext3.
  { intros l o Ho. subst s3. rewrite replaceAt_nth_other; [now apply Hext|].
    assert (l < length s)%nat by (apply nth_error_Some; congruence). lia. }
  exists coords, seg. split; [reflexivity|]. split; [exact Ef|].
  split; [|split; [lia | exact Hext3]].
  apply readCoords_holds with (elems := [length s] ++ skipn (segmentIndex seg + 1) elems).
  - subst s3. apply replaceAt_nth. subst s2. rewrite !length_app. cbn. lia.
  - constructor.
    + subst s3. rewrite replaceAt_nth_other by lia. subst s2.
      rewrite <- app_assoc. now rewrite nth_error_app2, Nat.sub_diag by lia.
    + apply holds_skipn. eapply holds_extend; eauto.
Qed.

(** A run of [trimGeometryToEnd] that returns. *)
Lemma trimGeometryToEnd_run geometry snapLat snapLon s s' result :
  trimGeometryToEnd M geometry snapLat snapLon s = (s', Normal result) ->
  exists coords seg,
    readCoords geometry s = (s, Normal coords)
    /\ findSnapSegment M snapLat snapLon coords = Normal seg
    /\ readCoords result s'
       = (s', Normal (firstn (segmentIndex seg + 1) coords
                      ++ [(projLat seg, projLon seg)]))
    /\ (length s <= result)%nat
    /\ forall l o, nth_error s l = Some o -> nth_error s' l = Some o.
Proof.
  unfold trimGeometryToEnd, findSnapSegmentAt.
  unfold bind at 1. unfold bind at 1.
  destruct (readCoords_spec geometry s) as [r [E H2]]. rewrite E.
  destruct r as [coords|]; [|discriminate].
  destruct (H2 coords eq_refl) as [elems [Hg Hh]].
  unfold lift. destruct (findSnapSegment M snapLat snapLon coords) as [seg|] eqn:Ef;
    [|discriminate].
  unfold bind at 1, alloc at 1.
  unfold bind at 1, readArray at 1.
  match goal with |- context [nth_error ?S geometry] => set (s2 := S) end.
  assert (forall l o, nth_error s l = Some o -> nth_error s2 l = Some o) as Hext.
  { intros l o Ho. subst s2.
    rewrite nth_error_app1; [assumption|]. apply nth_error_Some. congruence. }
  rewrite (Hext _ _ Hg).
  assert (nth_error s2 (length s) = Some (OArray [])) as Hr.
  { subst s2. now rewrite nth_error_app2, Nat.sub_diag by lia. }
  unfold bind at 1. rewrite (forEach_push _ _ _ _ Hr). cbn [app].
  set (kept := firstn (segmentIndex seg + 1) elems).
  set (s3 := replaceAt s2 (length s) (OArray kept)).
  unfold bind at 1, alloc at 1.
  set (p := OPair (projLat seg, projLon seg)).
  assert (length s3 = S (length s)) as L3.
  { subst s3 s2. rewrite replaceAt_length, length_app. cbn. lia. }
  assert (nth_error (s3 ++ [p]) (length s) = Some (OArray kept)) as Hr3.
  { rewrite nth_error_app1 by lia. subst s3. apply replaceAt_nth.
    subst s2. rewrite length_app. cbn. lia. }
  unfold bind at 1, push, bind, readArray, write. rewrite Hr3.
  unfold ret. intros [= <- <-].
  set (s4 := replaceAt (s3 ++ [p]) (length s) _).
  assert (forall l o, nth_error s l = Some o -> nth_error s4 l = Some o) as Hext4.
  { intros l o Ho. assert (l < length s)%nat by (apply nth_error_Some; congruence).
    subst s4. rewrite replaceAt_nth_other by lia.
    rewrite nth_error_app1 by lia. subst s3.
    rewrite replaceAt_nth_other by lia. now apply Hext. }
  exists coords, seg. split; [reflexivity|]. split; [exact Ef|].
  split; [|split; [lia | exact Hext4]].
  apply readCoords_holds with (elems := kept ++ [length s3]).
  - subst s4. apply replaceAt_nth. rewrite length_app. cbn. lia.
  - apply holds_app.
    + subst kept. apply holds_firstn. eapply holds_extend; eauto.
    + constructor; [|constructor]. subst s4.
      rewrite replaceAt_nth_other by lia.
      now rewrite nth_error_app2, Nat.sub_diag by lia.
Qed.

End WithMath.
End TrimShapes.

(* ------------------------------------------------------------------------- *)
(** * The test suite of the repository, on the embedding

    The cases of [a-star.test.ts], [parser.test.ts] and
    [map-matching.test.ts] that fix an outcome, replayed on the definitions
    above with [exampleMath] for the math library. *)

Module Tests.
Import RoadTypes AStar Examples Parser MapMatching.

(** The way ids of [finalPath]. *)
Definition ways (g : RoutingGraph) (s t : Z) (mode : RoutingMode)
    (o : AStarOptions) : option (list Z) :=
  option_map (map (fun e : GraphEdge => wayId e))
    (snd (runAStarToCompletion exampleMath g s t mode o)).

(** The node ids and the time of the last step, when it is [done]. *)
Definition arrival (g : RoutingGraph) (s t : Z) (mode : RoutingMode)
    (o : AStarOptions) : option (list Z * option float) :=
  match last (map Some (fst (runAStarToCompletion exampleMath g s t mode o))) None with
  | Some (Done _ ids time) => Some (ids, time)
  | _ => None
  end.

Definition ignoringRestrictions : AStarOptions :=
  {| ignoreRestrictions := Some true |}.

Definition n4 := makeNode 4 52.371 4.893 None.
Definition bollard2 := makeNode 2 52.371 4.891 (Some "bollard"%string).

Definition slow13 :=
  makeEdge 1 3 100 "residential" 10 false 200 [(52.370, 4.890); (52.372, 4.892)]%float.
Definition fast14 :=
  makeEdge 1 4 200 "residential" 100 false 150 [(52.370, 4.890); (52.371, 4.893)]%float.
Definition fast43 :=
  makeEdge 4 3 300 "residential" 100 false 150 [(52.371, 4.893); (52.372, 4.892)]%float.
Definition oneway12 :=
  makeEdge 1 2 100 "residential" 30 true 100 [(52.370, 4.890); (52.371, 4.891)]%float.
Definition long12 :=
  makeEdge 1 2 100 "residential" 36 false 1000 [(52.370, 4.890); (52.371, 4.891)]%float.
Definition foot23 :=
  makeEdge 2 3 200 "footway" 30 false 100 [(52.371, 4.891); (52.372, 4.892)]%float.
Definition short24 :=
  makeEdge 2 4 300 "residential" 30 false 50 [(52.371, 4.891); (52.371, 4.893)]%float.
Definition short43 :=
  makeEdge 4 3 400 "residential" 30 false 50 [(52.371, 4.893); (52.372, 4.892)]%float.
Definition side14 :=
  makeEdge 1 4 300 "residential" 30 false 150 [(52.370, 4.890); (52.371, 4.893)]%float.
Definition side43 :=
  makeEdge 4 3 400 "residential" 30 false 150 [(52.371, 4.893); (52.372, 4.892)]%float.

Definition noLeft : TurnRestriction :=
  {| fromWayId := 100; viaNodeId := 2; toWayId := 200; type := "no_left_turn" |}.

Definition diamond : RoutingGraph :=
  buildGraph [n1; n2; n3; n4] [e12; e23; short24; short43] [noLeft].

Definition detour : RoutingGraph :=
  buildGraph [n1; bollard2; n3; n4] [e12; e23; side14; side43] [].

(** finds path on simple 3-node graph *)
Example finds_path :
  ways lineGraph 1 3 car noOptions = Some [100; 200]%Z
  /\ option_map fst (arrival lineGraph 1 3 car noOptions) = Some [1; 2; 3]%Z.
Proof. vm_compute. split; reflexivity. Qed.

(** finds fastest route preferring higher speed roads *)
Example prefers_faster_roads :
  ways (buildGraph [n1; n2; n3; n4] [slow13; fast14; fast43] []) 1 3 car noOptions
  = Some [200; 300]%Z.
Proof. vm_compute. reflexivity. Qed.

(** respects oneway restrictions for car; ignores oneway for pedestrian;
    ignores oneway for car when ignoreRestrictions is true *)
Example oneway_by_mode :
  ways (buildGraph [n1; n2] [oneway12] []) 2 1 car noOptions = None
  /\ ways (buildGraph [n1; n2] [oneway12] []) 2 1 pedestrian noOptions
     = Some [100]%Z
  /\ ways (buildGraph [n1; n2] [oneway12] []) 2 1 car ignoringRestrictions
     = Some [100]%Z.
Proof. vm_compute. repeat split. Qed.

(** yields no-route when destination unreachable *)
Example no_route_over_footway :
  ways (buildGraph [n1; n2; n3] [e12; foot23] []) 1 3 car noOptions = None
  /\ last (fst (runAStarToCompletion exampleMath
                  (buildGraph [n1; n2; n3] [e12; foot23] []) 1 3 car noOptions))
          (Done [] [] None)
     = NoRoute.
Proof. vm_compute. split; reflexivity. Qed.

(** respects turn restrictions for car; ignores turn restrictions for
    bicycle, and for car when ignoreRestrictions is true *)
Example turn_restrictions_by_mode :
  ways diamond 1 3 car noOptions = Some [100; 300; 400]%Z
  /\ ways (buildGraph [n1; n2; n3] [e12; e23] [noLeft]) 1 3 bicycle noOptions
     = Some [100; 200]%Z
  /\ ways diamond 1 3 car ignoringRestrictions = Some [100; 200]%Z.
Proof. vm_compute. repeat split. Qed.

(** yields done with correct total time: 1000 m at 36 km/h *)
Example total_time :
  arrival (buildGraph [n1; n2] [long12] []) 1 2 car noOptions
  = Some ([1; 2]%Z, Some 100%float).
Proof. vm_compute. reflexivity. Qed.

(** car avoids bollard barrier node and takes detour; pedestrian passes
    through bollard barrier; car ignores barrier when ignoreRestrictions is
    true *)
Example barrier_by_mode :
  ways detour 1 3 car noOptions = Some [300; 400]%Z
  /\ ways (buildGraph [n1; bollard2; n3] [e12; e23] []) 1 3 pedestrian noOptions
     = Some [100; 200]%Z
  /\ ways (buildGraph [n1; bollard2; n3] [e12; e23] []) 1 3 car ignoringRestrictions
     = Some [100; 200]%Z.
Proof. vm_compute. repeat split. Qed.

(** The document of the parser tests: a one-way primary road, a residential
    road, a bollard and a turn restriction. *)
Definition testDoc : Document :=
  {| nodeEls :=
       [ {| nodeId := Some 1%Z; nodeLat := 52.370; nodeLon := 4.890; nodeTags := [] |};
         {| nodeId := Some 2%Z; nodeLat := 52.371; nodeLon := 4.891;
            nodeTags := [("barrier", Some "bollard")]%string |};
         {| nodeId := Some 3%Z; nodeLat := 52.372; nodeLon := 4.892; nodeTags := [] |};
         {| nodeId := Some 4%Z; nodeLat := 52.380; nodeLon := 4.900; nodeTags := [] |} ];
     wayEls :=
       [ {| wayElId := 100;
            wayTags := [("highway", Some "primary"); ("maxspeed", Some "50");
                        ("oneway", Some "yes"); ("oneway:bicycle", Some "no")]%string;
            wayRefs := [Some 1%Z; Some 2%Z] |};
         {| wayElId := 200;
            wayTags := [("highway", Some "residential")]%string;
            wayRefs := [Some 2%Z; Some 3%Z] |} ];
     relationEls :=
       [ {| relationTags := [("type", Some "restriction");
                             ("restriction", Some "no_left_turn")]%string;
            relationMembers :=
              [ {| memberRole := Some "from"; memberType := Some "way";
                   memberRef := Some 100%Z |};
                {| memberRole := Some "via"; memberType := Some "node";
                   memberRef := Some 2%Z |};
                {| memberRole := Some "to"; memberType := Some "way";
                   memberRef := Some 200%Z |} ]%string |} ] |}.

(** parses a simple way into edges; parses maxspeed, oneway and
    oneway:bicycle; parses barrier tag on nodes; parses turn restrictions;
    nodes not referenced by any way are pruned *)
Example parses_document :
  let graph := parseOSM exampleMath testDoc in
  JsMap.keys (nodes graph) = [1; 2; 3]%Z
  /\ option_map barrier (JsMap.get (nodes graph) 2) = Some (Some "bollard"%string)
  /\ option_map
       (map (fun e : GraphEdge =>
               (from e, to e, maxspeed e, oneway e, onewayBicycle e, isReverse e)))
       (JsMap.get (adjacency graph) 1)
     = Some [(1%Z, 2%Z, 50%float, true, false, false)]
  /\ option_map
       (map (fun e : GraphEdge => (from e, to e, wayId e, isReverse e)))
       (JsMap.get (adjacency graph) 2)
     = Some [(2, 1, 100, true); (2, 3, 200, false)]%Z
  /\ restrictions graph = [noLeft].
Proof. vm_compute. repeat split. Qed.

(** haversine: returns 0 for same point; between 700 and 900 metres from
    Amsterdam Centraal to Dam Square *)
Example haversine_known_points :
  Geo.haversine exampleMath 52.37 4.89 52.37 4.89 = 0%float
  /\ (700 <? Geo.haversine exampleMath 52.3791 4.9003 52.3731 4.8932)%float = true
  /\ (Geo.haversine exampleMath 52.3791 4.9003 52.3731 4.8932 <? 900)%float = true.
Proof. vm_compute. repeat split. Qed.

(** projectPointOnSegment: the middle of the segment, the clamps at both
    ends, the zero-length segment *)
Example projects_on_segment :
  projectPointOnSegment 5 5 0 0 10 0 = {| x := 5; y := 0; t := 0.5 |}
  /\ projectPointOnSegment (-5) 0 0 0 10 0 = {| x := 0; y := 0; t := 0 |}
  /\ projectPointOnSegment 15 0 0 0 10 0 = {| x := 10; y := 0; t := 1 |}
  /\ projectPointOnSegment 5 5 3 3 3 3 = {| x := 3; y := 3; t := 0 |}.
Proof. vm_compute. repeat split. Qed.

(** The graph of the snapping tests: every edge stored under both its ends. *)
Definition makeGraph (es : list GraphEdge) (ns : list GraphNode) : RoutingGraph :=
  {| nodes := fold_left (fun m n => JsMap.set m (id n) n) ns JsMap.empty;
     adjacency :=
       fold_left (fun adj e => pushEdge (pushEdge adj (from e) e) (to e) e)
         es JsMap.empty;
     restrictions := [] |}.

Definition corners : list GraphNode :=
  [ makeNode 1 52.370 4.890 None; makeNode 2 52.370 4.900 None;
    makeNode 3 52.380 4.890 None; makeNode 4 52.380 4.900 None ].
Definition residentialEdge :=
  makeEdge 1 2 100 "residential" 30 false 100 [(52.370, 4.890); (52.370, 4.900)]%float.
Definition footwayEdge :=
  makeEdge 3 4 200 "footway" 0 false 100 [(52.380, 4.890); (52.380, 4.900)]%float.

(** What the tests read of a snap: the way and the node. *)
Definition snapped (r : Outcome (option (SnapResult.t GraphEdge)))
    : option (Z * Z) :=
  match r with
  | Normal (Some s) => Some (wayId (SnapResult.edge s), SnapResult.nodeId s)
  | _ => None
  end.

(** snaps to nearest accessible road; returns null when no accessible roads
    exist; respects routing mode access rules; returns nearest node id *)
Example snaps_to_road :
  option_map fst
    (snapped (snapToRoad exampleMath 52.3705 4.895
                (makeGraph [residentialEdge; footwayEdge] corners) car))
  = Some 100%Z
  /\ snapToRoad exampleMath 52.380 4.895 (makeGraph [footwayEdge] corners) car
     = Normal None
  /\ option_map fst
       (snapped (snapToRoad exampleMath 52.379 4.895
                   (makeGraph [residentialEdge; footwayEdge] corners) pedestrian))
     = Some 200%Z
  /\ snapped (snapToRoad exampleMath 52.370 4.891
                (makeGraph [residentialEdge] corners) car)
     = Some (100, 1)%Z
  /\ snapped (snapToRoad exampleMath 52.370 4.899
                (makeGraph [residentialEdge] corners) car)
     = Some (100, 2)%Z.
Proof. vm_compute. repeat split. Qed.

End Tests.

(* ------------------------------------------------------------------------- *)
(** * The claims of the specification *)

Module Claims.
Import RoadTypes AStar AStarFacts Examples.

(** ** Speeds and the heuristic (C1) *)

Lemma DEFAULT_SPEEDS_bound hw :
  (match lookup DEFAULT_SPEEDS hw with Some s => s | None => 30 end <=? 100)%float
  = true.
Proof.
  unfold DEFAULT_SPEEDS. cbn [lookup].
  repeat match goal with
    | |- context [String.eqb ?a hw] => destruct (String.eqb a hw); [reflexivity|]
    end.
  reflexivity.
Qed.

(** The speed used for traversal is a number within the bound of the mode
    for bicycles and pedestrians, and for cars on every edge whose
    [maxspeed] is positive and at most 100, or is not positive while its
    [highway] is not a name of [Object.prototype]. *)
Lemma getTravelSpeed_within_bound (e : GraphEdge) (mode : RoutingMode) :
  (mode = car -> (0 <? maxspeed e)%float = true ->
   (maxspeed e <=? 100)%float = true) ->
  (mode = car -> (0 <? maxspeed e)%float = false ->
   setHas OBJECT_PROTOTYPE_KEYS (highway e) = false) ->
  exists speed,
    getTravelSpeed e mode = NumberValue speed
    /\ (speed <=? getMaxSpeed mode)%float = true.
Proof.
  intros H1 H2. destruct mode; cbn [getTravelSpeed getMaxSpeed]; eauto.
  destruct (0 <? maxspeed e)%float; [eauto|].
  pose proof (DEFAULT_SPEEDS_bound (highway e)) as Hb.
  destruct (lookup DEFAULT_SPEEDS (highway e)) as [s|]; [eauto|].
  rewrite H2 by reflexivity. eauto.
Qed.

(** Under a name of [Object.prototype] and without a positive [maxspeed],
    the car's speed is the inherited member, not 30, and the travel time is
    NaN. *)
Lemma getTravelSpeed_inherited (e : GraphEdge) :
  (0 <? maxspeed e)%float = false ->
  setHas OBJECT_PROTOTYPE_KEYS (highway e) = true ->
  getTravelSpeed e car = InheritedMember (highway e)
  /\ PrimFloat.is_nan (getTravelTime e car) = true.
Proof.
  intros Hm Hk.
  assert (lookup DEFAULT_SPEEDS (highway e) = None) as Hl.
  { revert Hk. unfold setHas, OBJECT_PROTOTYPE_KEYS, DEFAULT_SPEEDS.
    cbn [existsb lookup].
    repeat match goal with
      | |- context [String.eqb (highway e) ?a] =>
          destruct (String.eqb_spec (highway e) a) as [->|]; [reflexivity|]
      end.
    discriminate. }
  assert (getTravelSpeed e car = InheritedMember (highway e)) as Hs
    by (cbn [getTravelSpeed]; now rewrite Hm, Hl, Hk).
  split; [exact Hs|].
  unfold getTravelTime. rewrite Hs. cbn [toNumber].
  unfold PrimFloat.is_nan. rewrite eqb_spec, div_spec.
  replace (Prim2SF (nan / JsNum.c3_6)) with S754_nan by (vm_compute; reflexivity).
  unfold SF64div, SFdiv. now destruct (Prim2SF (distance e)).
Qed.

(** A motorway signed 130 km/h. *)
Definition fastEdge : GraphEdge :=
  makeEdge 1 2 100 "motorway" 130 true 1000 [(52.370, 4.890); (52.379, 4.890)]%float.

(** C1, at the failing input: on an edge tagged [maxspeed=130] the car's
    travel speed is 130, above [getMaxSpeed car = 100]; the travel time of
    the edge is then below what the heuristic's speed gives for its length,
    so the bound the heuristic rests on does not hold. *)
Theorem getTravelSpeed_exceeds_getMaxSpeed :
  getTravelSpeed fastEdge car = NumberValue 130%float
  /\ getMaxSpeed car = 100%float
  /\ (getMaxSpeed car <? toNumber (getTravelSpeed fastEdge car))%float = true
  /\ (getTravelTime fastEdge car
      <? distance fastEdge / (getMaxSpeed car / JsNum.c3_6))%float = true.
Proof. vm_compute. repeat split. Qed.

(** ** Direction of travel (C2) *)

(** C2: [canTraverseDirection] accepts every edge for pedestrians and every
    edge that is not oneway for every mode; on a oneway edge it rejects a
    bicycle exactly when the edge is reversed and [onewayBicycle] is set,
    and a car exactly when the edge is reversed and restrictions are not
    ignored. *)
Theorem canTraverseDirection_spec (e : GraphEdge) (fromNodeId : Z) :
  (forall ignore, canTraverseDirection e fromNodeId pedestrian ignore = true)
  /\ (forall mode ignore,
        oneway e = false -> canTraverseDirection e fromNodeId mode ignore = true)
  /\ (forall ignore,
        oneway e = true ->
        (canTraverseDirection e fromNodeId bicycle ignore = false
         <-> isReverse e = true /\ onewayBicycle e = true))
  /\ (oneway e = true ->
      (canTraverseDirection e fromNodeId car false = false <-> isReverse e = true))
  /\ canTraverseDirection e fromNodeId car true = true.
Proof.
  unfold canTraverseDirection.
  destruct (oneway e), (isReverse e), (onewayBicycle e); cbn;
    repeat split; intros;
    try match goal with m : RoutingMode |- _ => destruct m end;
    try reflexivity; try discriminate; intuition congruence.
Qed.

Definition onewayReversed : GraphEdge :=
  {| from := 2; to := 1; wayId := 100; highway := "residential";
     maxspeed := 30; oneway := true; onewayBicycle := true; isReverse := true;
     distance := 100; geometry := [(52.371, 4.891); (52.370, 4.890)]%float;
     access := None; motorVehicle := None; vehicle := None;
     bicycleTag := None; foot := None |}.

(** The reversed copy of a oneway street: open to pedestrians and to cars
    that ignore restrictions, closed to bicycles and cars. *)
Lemma canTraverseDirection_spec_witness :
  canTraverseDirection onewayReversed 2 pedestrian false = true
  /\ canTraverseDirection onewayReversed 2 bicycle false = false
  /\ canTraverseDirection onewayReversed 2 car false = false
  /\ canTraverseDirection onewayReversed 2 car true = true
  /\ canTraverseDirection e12 1 car false = true.
Proof.
  destruct (canTraverseDirection_spec onewayReversed 2) as [P [_ [B [C I]]]].
  destruct (canTraverseDirection_spec e12 1) as [_ [N _]].
  split; [apply P|].
  split; [apply (B false); [reflexivity | split; reflexivity]|].
  split; [apply C; reflexivity|].
  split; [exact I | apply N; reflexivity].
Defined.

(** ** Turn restrictions (C3) *)

Definition withRestrictions (g : RoutingGraph) (rs : list TurnRestriction)
    : RoutingGraph :=
  {| nodes := nodes g; adjacency := adjacency g; restrictions := rs |}.

(** The restriction is of a [no_*] type. *)
Definition prohibits (r : TurnRestriction) : bool := String.prefix "no_" (type r).

Lemma isRestricted_spec graph fromWay viaNode toWay :
  isRestricted graph fromWay viaNode toWay = true <->
  exists r, In r (restrictions graph)
            /\ fromWayId r = fromWay /\ viaNodeId r = viaNode /\ toWayId r = toWay
            /\ String.prefix "no_" (type r) = true.
Proof.
  unfold isRestricted. rewrite existsb_exists. split.
  - intros [r [Hin H]]. exists r.
    apply andb_prop in H as [H H4]. apply andb_prop in H as [H H3].
    apply andb_prop in H as [H1 H2].
    apply Z.eqb_eq in H1, H2, H3. auto.
  - intros [r [Hin [<- [<- [<- H]]]]]. exists r. split; [assumption|].
    now rewrite !Z.eqb_refl, H.
Qed.

Lemma isRestricted_filter graph fromWay viaNode toWay :
  isRestricted (withRestrictions graph (filter prohibits (restrictions graph)))
    fromWay viaNode toWay
  = isRestricted graph fromWay viaNode toWay.
Proof.
  unfold isRestricted, withRestrictions; cbn [restrictions].
  induction (restrictions graph) as [|r rs IH]; [reflexivity|].
  cbn [filter existsb]. unfold prohibits at 1.
  destruct (String.prefix "no_" (type r)) eqn:E; cbn [existsb]; rewrite IH, ?E.
  - reflexivity.
  - now rewrite andb_false_r.
Qed.

(** The search rejects the edge [e] out of the node [n] for a turn
    restriction: it is a car's, restrictions are not ignored, [n] was reached
    over a way, and a recorded restriction of a [no_*] type matches (way of
    arrival, [n], way of [e]). *)
Definition TurnRejected (graph : RoutingGraph) (mode : RoutingMode)
    (options : AStarOptions) (st : SearchState) (n : Z) (e : GraphEdge) : Prop :=
  mode = car /\ ignoring options = false
  /\ TurnFacts.arrivalWay st n <> 0%Z
  /\ TurnFacts.Forbids graph (TurnFacts.arrivalWay st n) n e.

(** C3: the check of the neighbour loop rejects a candidate edge exactly
    when the search is a car's, restrictions are not ignored, the current
    node was reached over a way, and some recorded restriction of a [no_*]
    type matches (way of arrival, current node, way of the candidate);
    so the restrictions never constrain a bicycle's or a pedestrian's
    search nor a search that ignores restrictions, and restrictions of any
    other type constrain none. In the search itself, when the main loop
    expands a node, the steps of the run that leave this node are for its
    neighbours, none of them rejected with the way of the edge recorded for
    the node in [cameFrom] as the way of arrival, and a neighbour that
    passes the other checks is explored unless it is so rejected (or the run
    throws); and in a whole run every step that leaves a node other than
    the start comes after a step into that node from whose way the turn
    has passed the check. *)
Theorem turn_restriction_scope (M : MathLib) (graph : RoutingGraph)
    (mode : RoutingMode) (options : AStarOptions) :
  (forall currentWayId currentId e,
     turnRestricted graph mode options currentWayId currentId e = true <->
     mode = car /\ ignoring options = false /\ currentWayId <> 0%Z
     /\ exists r, In r (restrictions graph)
                  /\ fromWayId r = currentWayId /\ viaNodeId r = currentId
                  /\ toWayId r = wayId e
                  /\ String.prefix "no_" (type r) = true)
  /\ (forall rs s t,
        mode <> car \/ ignoring options = true ->
        aStarRoute M (withRestrictions graph rs) s t mode options
        = aStarRoute M graph s t mode options)
  /\ (forall s t,
        aStarRoute M (withRestrictions graph (filter prohibits (restrictions graph)))
          s t mode options
        = aStarRoute M graph s t mode options)
  /\ (forall s t endNode fuel st currentId rest neighbors r,
        MinHeap.pop (openSet st) = Some (currentId, rest) ->
        JsSet.has (closed st) currentId = false ->
        currentId <> t ->
        JsMap.get (adjacency graph) currentId = Some neighbors ->
        searchLoop M graph s t mode options endNode (S fuel) st = Some r ->
        (forall e n,
           In (Explore e currentId n) (fst r) ->
           In e neighbors /\ ~ TurnRejected graph mode options st currentId e)
        /\ (forall e,
              In e neighbors ->
              isEdgeAccessible e mode = true ->
              canTraverseDirection e currentId mode (ignoring options) = true ->
              barrierBlocked graph mode options (targetOf currentId e) = false ->
              In (Explore e currentId (targetOf currentId e)) (fst r)
              \/ TurnRejected graph mode options st currentId e
              \/ snd r = Threw))
  /\ (forall s t pre e n to post,
        fst (aStarRoute M graph s t mode options) = pre ++ Explore e n to :: post ->
        n = s
        \/ exists e' m,
             In (Explore e' m n) pre
             /\ turnRestricted graph mode options (wayId e') n e = false).
Proof.
  split; [|split; [|split; [|split]]].
  - intros w c e. unfold turnRestricted. rewrite !andb_true_iff, isRestricted_spec.
    rewrite !negb_true_iff, Z.eqb_neq.
    destruct mode; cbn [isCar]; intuition (try discriminate; auto).
  - intros rs s t H. apply aStarRoute_congr; try reflexivity.
    intros w c e. unfold turnRestricted.
    destruct H as [H| ->].
    + destruct mode; [contradiction| |]; reflexivity.
    + cbn [negb]. now rewrite !andb_false_r.
  - intros s t. apply aStarRoute_congr; try reflexivity.
    intros w c e. unfold turnRestricted. now rewrite isRestricted_filter.
  - intros s t endNode fuel st currentId rest neighbors r Ep Ec Hne Ea Hs.
    destruct (TurnFacts.searchLoop_expands M graph s t mode options endNode
                fuel st currentId rest neighbors r Ep Ec Hne Ea Hs) as [H1 H2].
    split.
    + intros e n Hin. destruct (H1 e n Hin) as [He Hp]. split; [exact He|].
      intros Hr. apply TurnFacts.turnRestricted_spec in Hr.
      unfold passes in Hp. rewrite Hr in Hp. cbn [negb] in Hp.
      now rewrite andb_false_r in Hp.
    + intros e He Ha Hd Hb.
      destruct (turnRestricted graph mode options
                  (TurnFacts.arrivalWay st currentId) currentId e) eqn:Et.
      * right. left. now apply TurnFacts.turnRestricted_spec.
      * destruct (H2 e He) as [H|H]; auto.
        unfold passes. now rewrite Ha, Hd, Et, Hb.
  - intros s t pre e n to post. apply TurnFacts.aStarRoute_arrivals.
Qed.

(** The graph of the turn restriction test: [no_left_turn] from way 100 via
    node 2 to way 200, with the detour over node 4. *)
Definition n4 := makeNode 4 52.371 4.893 None.
Definition e24 :=
  makeEdge 2 4 300 "residential" 30 false 50 [(52.371, 4.891); (52.371, 4.893)]%float.
Definition e43 :=
  makeEdge 4 3 400 "residential" 30 false 50 [(52.371, 4.893); (52.372, 4.892)]%float.
Definition noLeftTurn : TurnRestriction :=
  {| fromWayId := 100; viaNodeId := 2; toWayId := 200; type := "no_left_turn" |}.
Definition restrictedGraph : RoutingGraph :=
  buildGraph [n1; n2; n3; n4] [e12; e23; e24; e43] [noLeftTurn].

Lemma turn_restriction_scope_witness :
  (exists r, In r (restrictions restrictedGraph)
             /\ fromWayId r = 100%Z /\ viaNodeId r = 2%Z
             /\ toWayId r = wayId e23
             /\ String.prefix "no_" (type r) = true)
  /\ aStarRoute exampleMath (withRestrictions restrictedGraph []) 1 3 bicycle noOptions
     = aStarRoute exampleMath restrictedGraph 1 3 bicycle noOptions
  /\ exists e' m,
       In (Explore e' m 2)
          [Explore (withReverse e12 false) 1 2; Explore (reversed e12) 2 1]
       /\ turnRestricted restrictedGraph car noOptions (wayId e') 2
            (withReverse e24 false) = false.
Proof.
  destruct (turn_restriction_scope exampleMath restrictedGraph car noOptions)
    as [Hcar [_ [_ [_ Hrun]]]].
  destruct (turn_restriction_scope exampleMath restrictedGraph bicycle noOptions)
    as [_ [Hbike _]].
  split; [|split].
  - apply (proj1 (Hcar 100%Z 2%Z e23)). reflexivity.
  - apply Hbike. left. discriminate.
  - destruct (Hrun 1%Z 3%Z
                [Explore (withReverse e12 false) 1 2; Explore (reversed e12) 2 1]
                (withReverse e24 false) 2%Z 4%Z
                (skipn 3 (fst (aStarRoute exampleMath restrictedGraph 1 3 car
                                 noOptions))))
      as [H|H]; [vm_compute; reflexivity | discriminate H | exact H].
Defined.

(** ** Terminal steps (C4) *)

(** An edge out of node 1 to a node 2 that the node map does not hold. *)
Definition danglingGraph : RoutingGraph :=
  {| nodes := JsMap.set (JsMap.set JsMap.empty 1 n1) 3 n3;
     adjacency := JsMap.set JsMap.empty 1 [e12];
     restrictions := [] |}.

(** Whatever the math library, the run on [danglingGraph] yields the explore
    step of the edge and throws on the missing node. *)
Lemma aStarRoute_dangling M :
  aStarRoute M danglingGraph 1 3 car noOptions = ([Explore e12 1 2], Threw).
Proof. vm_compute. reflexivity. Qed.

(** C4 as stated fails: a run on a graph with an edge into a missing node
    yields one explore step and no terminal step. *)
Lemma aStarRoute_no_terminal_step :
  aStarRoute exampleMath danglingGraph 1 3 car noOptions = ([Explore e12 1 2], Threw)
  /\ existsb isTerminal (fst (aStarRoute exampleMath danglingGraph 1 3 car noOptions))
     = false.
Proof. rewrite aStarRoute_dangling. split; reflexivity. Qed.

(** C4, amended: on a graph whose edges lead to nodes of its node map and
    whose travel times lower no score, the steps of [aStarRoute] are explore
    steps followed by exactly one terminal step, and the generator returns. *)
Theorem aStarRoute_terminal_last (M : MathLib) (graph : RoutingGraph)
    (startNodeId endNodeId : Z) (mode : RoutingMode) (options : AStarOptions) :
  TargetsPresent graph -> TimesNeverLower graph mode ->
  exists explores terminal,
    aStarRoute M graph startNodeId endNodeId mode options
    = (explores ++ [terminal], Returned)
    /\ allExplore explores /\ isTerminal terminal = true.
Proof.
  intros Htp Htn.
  pose proof (aStarRoute_shape M graph startNodeId endNodeId mode options) as Hs.
  pose proof (aStarRoute_returns M graph startNodeId endNodeId mode options Htp Htn)
    as Hr.
  unfold WellFormedRun in Hs. rewrite Hr in Hs.
  destruct Hs as [ex [t [Hf [Hex Ht]]]]. exists ex, t. repeat split; auto.
  destruct (aStarRoute M graph startNodeId endNodeId mode options) as [steps c].
  cbn [fst snd] in *. congruence.
Qed.

(** The line 1 - 2 - 3 of the test suite with segments of length zero. *)
Definition flat12 :=
  makeEdge 1 2 100 "residential" 30 false 0 [(52.370, 4.890); (52.370, 4.890)]%float.
Definition flat23 :=
  makeEdge 2 3 200 "residential" 30 false 0 [(52.370, 4.890); (52.370, 4.890)]%float.
Definition flatLine : RoutingGraph := buildGraph [n1; n2; n3] [flat12; flat23] [].

Lemma flatLine_targets : TargetsPresent flatLine.
Proof. apply targetsPresentb_sound. reflexivity. Qed.

Lemma flatLine_times mode : TimesNeverLower flatLine mode.
Proof.
  intros e He x. cbn in He.
  assert (getTravelTime e mode = 0%float) as ->.
  { destruct He as [<-|[<-|[<-|[<-|[]]]]]; destruct mode; vm_compute; reflexivity. }
  apply FloatOrder.add_zero_never_lower.
Qed.

Lemma aStarRoute_terminal_last_witness :
  exists explores terminal,
    aStarRoute exampleMath flatLine 1 3 car noOptions
    = (explores ++ [terminal], Returned)
    /\ allExplore explores /\ isTerminal terminal = true.
Proof.
  exact (aStarRoute_terminal_last exampleMath flatLine 1 3 car noOptions
           flatLine_targets (flatLine_times car)).
Defined.

(** ** Edge cases (C5) *)

(** C5: with an endpoint absent from [graph.nodes] the search yields the
    single step [no-route]; otherwise, with the start equal to the end, it
    yields the single step [done] with no edge, the path [[startNodeId]] and
    time 0. *)
Theorem aStarRoute_edge_cases (M : MathLib) (graph : RoutingGraph)
    (startNodeId endNodeId : Z) (mode : RoutingMode) (options : AStarOptions) :
  (JsMap.has (nodes graph) startNodeId = false
   \/ JsMap.has (nodes graph) endNodeId = false ->
   aStarRoute M graph startNodeId endNodeId mode options = ([NoRoute], Returned))
  /\ (JsMap.has (nodes graph) startNodeId = true -> startNodeId = endNodeId ->
      aStarRoute M graph startNodeId endNodeId mode options
      = ([Done [] [startNodeId] (Some 0%float)], Returned)).
Proof.
  unfold aStarRoute, JsMap.has. split.
  - intros [H|H].
    + destruct (JsMap.get (nodes graph) endNodeId); [|reflexivity].
      destruct (JsMap.get (nodes graph) startNodeId); [discriminate | reflexivity].
    + destruct (JsMap.get (nodes graph) endNodeId); [discriminate | reflexivity].
  - intros H <-. destruct (JsMap.get (nodes graph) startNodeId); [|discriminate].
    now rewrite Z.eqb_refl.
Qed.

Lemma aStarRoute_edge_cases_witness :
  aStarRoute exampleMath lineGraph 1 9 car noOptions = ([NoRoute], Returned)
  /\ aStarRoute exampleMath lineGraph 2 2 car noOptions
     = ([Done [] [2%Z] (Some 0%float)], Returned).
Proof.
  split.
  - apply (proj1 (aStarRoute_edge_cases exampleMath lineGraph 1 9 car noOptions)).
    right. reflexivity.
  - apply (proj2 (aStarRoute_edge_cases exampleMath lineGraph 2 2 car noOptions));
      reflexivity.
Defined.


(** ** The parsed graph (C6, C7) *)

Import Parser ParserFacts.

(** Two nodes and a way over them that has no [highway] tag. *)
Definition untaggedWay : WayEl :=
  {| wayElId := 100; wayTags := [("name", Some "Towpath")]%string;
     wayRefs := [Some 1%Z; Some 2%Z] |}.
Definition untaggedDoc : Document :=
  {| nodeEls :=
       [ {| nodeId := Some 1%Z; nodeLat := 52.370; nodeLon := 4.890; nodeTags := [] |};
         {| nodeId := Some 2%Z; nodeLat := 52.371; nodeLon := 4.891; nodeTags := [] |} ];
     wayEls := [untaggedWay];
     relationEls := [] |}.

(** C6 as stated fails: the segment between the references 1 and 2 of
    [untaggedWay] has both endpoints in the parsed node map, and [parseOSM]
    emits no edge for it. *)
Lemma parseOSM_untagged_way_no_edges :
  wayRefs untaggedWay = [Some 1%Z; Some 2%Z]
  /\ JsMap.has (parseNodes (nodeEls untaggedDoc)) 1 = true
  /\ JsMap.has (parseNodes (nodeEls untaggedDoc)) 2 = true
  /\ allEdges (parseOSM exampleMath untaggedDoc) = [].
Proof. repeat split. Qed.

(** C6, amended: for every segment between two consecutive node references
    of a way that has a non-empty [highway] tag, both endpoints being nodes
    of the parsed node map, [parseOSM] emits exactly two directed edges, the
    forward one with [isReverse = false] and the reverse one with
    [isReverse = true], endpoints swapped and geometry reversed, whatever
    [oneway] is; both carry the same way id, highway, maxspeed, oneway,
    onewayBicycle, distance and override tags. *)
Theorem parseOSM_two_edges_per_segment (M : MathLib) (doc : Document) :
  Permutation (allEdges (parseOSM M doc)) (flat_map (segmentEdges M) (segments doc))
  /\ length (allEdges (parseOSM M doc)) = (2 * length (segments doc))%nat
  /\ forall s : Segment,
       let fwd := forwardOf M s in
       let rev := reverseOf M s in
       isReverse fwd = false /\ isReverse rev = true
       /\ from fwd = segFromId s /\ to fwd = segToId s
       /\ from rev = segToId s /\ to rev = segFromId s
       /\ geometry fwd = [(lat (segFrom s), lon (segFrom s));
                          (lat (segTo s), lon (segTo s))]
       /\ geometry rev = List.rev (geometry fwd)
       /\ wayId rev = wayId fwd /\ highway rev = highway fwd
       /\ maxspeed rev = maxspeed fwd /\ oneway rev = oneway fwd
       /\ onewayBicycle rev = onewayBicycle fwd /\ distance rev = distance fwd
       /\ access rev = access fwd /\ motorVehicle rev = motorVehicle fwd
       /\ vehicle rev = vehicle fwd /\ bicycleTag rev = bicycleTag fwd
       /\ foot rev = foot fwd.
Proof.
  pose proof (parseOSM_edges M doc) as P. split; [exact P | split].
  - rewrite (Permutation_length P). apply segmentEdges_length.
  - intros s. cbv zeta. repeat split.
Qed.

(** C7: the keys of the node map of the parsed graph are exactly the node
    ids that are the [from] or the [to] of an edge of its adjacency map. *)
Theorem parseOSM_nodes_are_endpoints (M : MathLib) (doc : Document) (i : Z) :
  In i (JsMap.keys (nodes (parseOSM M doc))) <->
  exists e, In e (allEdges (parseOSM M doc)) /\ (from e = i \/ to e = i).
Proof.
  rewrite parseOSM_nodes. pose proof (parseOSM_edges M doc) as P. split.
  - intros [s [Hin H]].
    destruct H as [-> | ->].
    + exists (forwardOf M s). split; [|now left].
      apply (Permutation_in _ (Permutation_sym P)), In_segmentEdges. eauto.
    + exists (reverseOf M s). split; [|now left].
      apply (Permutation_in _ (Permutation_sym P)), In_segmentEdges. eauto.
  - intros [e [Hin H]].
    apply (Permutation_in _ P), In_segmentEdges in Hin as [s [Hs [-> | ->]]];
      exists s; (split; [assumption|]); cbn in H; destruct H as [<-|<-]; auto.
Qed.

(** ** Snapping (C8) *)

Import MapMatching MatchingFacts.

(** A residential edge whose geometry holds no point. *)
Definition bareEdge : GraphEdge :=
  makeEdge 1 2 100 "residential" 30 false 100 [].
Definition bareGraph : RoutingGraph :=
  {| nodes := JsMap.set (JsMap.set JsMap.empty 1 n1) 2 n2;
     adjacency := JsMap.set JsMap.empty 1 [bareEdge];
     restrictions := [] |}.

(** Whatever the math library, there is nothing to project on. *)
Lemma snapToRoad_bare M lat lon :
  snapToRoad M lat lon bareGraph car = Normal None.
Proof. reflexivity. Qed.

(** C8 as stated fails: [snapToRoad] returns [null] on a graph that holds
    an edge accessible to the mode, when the edge has no geometry segment,
    and also when the query point is not a number. *)
Lemma snapToRoad_null_with_accessible_edge :
  snapToRoad exampleMath 52.370 4.890 bareGraph car = Normal None
  /\ In bareEdge (allEdges bareGraph)
  /\ isEdgeAccessible bareEdge car = true
  /\ snapToRoad exampleMath nan nan lineGraph car = Normal None
  /\ existsb (fun e => isEdgeAccessible e car) (allEdges lineGraph) = true.
Proof.
  split; [apply snapToRoad_bare|].
  split; [now left|].
  split; [reflexivity|].
  split; vm_compute; reflexivity.
Qed.

(** C8, amended: [snapToRoad] returns [null] exactly when no accessible
    edge, counted once per [wayId-from-to] key, has a geometry segment on
    which the query point projects to a distance below [Infinity]; so it
    returns [null] when the graph holds no edge accessible to the mode; and
    the edge of a [SnapResult] is an edge of the graph accessible to the
    mode. *)
Theorem snapToRoad_spec (M : MathLib) (lat lon : float) (graph : RoutingGraph)
    (mode : RoutingMode) :
  (forall r, snapToRoad M lat lon graph mode = Normal (Some r) ->
     isEdgeAccessible (SnapResult.edge r) mode = true
     /\ In (SnapResult.edge r) (allEdges graph))
  /\ ((forall e, In e (allEdges graph) -> isEdgeAccessible e mode = false) ->
      snapToRoad M lat lon graph mode = Normal None)
  /\ (snapToRoad M lat lon graph mode = Normal None <->
      forall e, In e (firstOfKey [] (allEdges graph)) ->
                isEdgeAccessible e mode = true -> reaches M lat lon e = false).
Proof.
  assert (unset noBest) as U0 by (intros _; reflexivity).
  destruct (scan_spec M lat lon mode (allEdges graph) [] noBest U0) as [_ [N S]].
  unfold scanned in N, S.
  assert (snapToRoad M lat lon graph mode = Normal None <->
          bestEdge (snd (fold_left (scanEdge M lat lon mode) (allEdges graph)
                           ([], noBest))) = None) as Hnull.
  { unfold snapToRoad.
    destruct (bestEdge (snd (fold_left _ _ _))) as [e|]; [|tauto].
    destruct (JsMap.get (nodes graph) (from e)), (JsMap.get (nodes graph) (to e));
      split; discriminate. }
  split; [|split].
  - intros r Hr. unfold snapToRoad in Hr.
    destruct (bestEdge (snd (fold_left _ _ _))) as [e|] eqn:Eb; [|discriminate].
    destruct (S e eq_refl) as [H|[Hin Hacc]]; [discriminate|].
    destruct (JsMap.get (nodes graph) (from e)), (JsMap.get (nodes graph) (to e));
      try discriminate.
    injection Hr as <-. cbn [SnapResult.edge]. split; [assumption|].
    eapply firstOfKey_In; eauto.
  - intros Hnone. apply Hnull, N. split; [reflexivity|].
    intros e Hin Hacc. apply firstOfKey_In in Hin. rewrite (Hnone e Hin) in Hacc.
    discriminate.
  - rewrite Hnull, N. cbn [noBest bestEdge]. tauto.
Qed.

(** On the line graph a car snaps to an edge of the graph open to cars; on
    a graph of footways it snaps to nothing. *)
Definition footway12 :=
  makeEdge 1 2 100 "footway" 0 false 100 [(52.370, 4.890); (52.371, 4.891)]%float.
Definition footGraph : RoutingGraph := buildGraph [n1; n2] [footway12] [].

Lemma snapToRoad_spec_witness :
  snapToRoad exampleMath 52.3705 4.8905 footGraph car = Normal None
  /\ exists r,
       snapToRoad exampleMath 52.3705 4.8905 lineGraph car = Normal (Some r)
       /\ isEdgeAccessible (SnapResult.edge r) car = true
       /\ In (SnapResult.edge r) (allEdges lineGraph).
Proof.
  split.
  - apply (proj1 (proj2 (snapToRoad_spec exampleMath 52.3705 4.8905 footGraph car))).
    intros e He. vm_compute in He.
    destruct He as [<-|[<-|[]]]; reflexivity.
  - destruct (snapToRoad exampleMath 52.3705 4.8905 lineGraph car)
      as [[r|]|] eqn:E; [|vm_compute in E; discriminate..].
    exists r. split; [reflexivity|].
    exact (proj1 (snapToRoad_spec exampleMath 52.3705 4.8905 lineGraph car) r E).
Defined.

(** ** Route trimming (C9) *)

Import Store Trim TrimFacts.

(** C9: [trimRouteToSnapPoints] changes no object of the store it is called
    in, whether it returns or throws: the edge objects of the path, their
    geometry arrays and the coordinate pairs are as before the call. What it
    returns is a new array of new edge objects, each with the fields of the
    edge of the path at its place but for its geometry, a new array. *)
Theorem trimRouteToSnapPoints_keeps_input (M : MathLib) (path : loc)
    (originSnap destinationSnap : SnapResult.t loc) (s : Store.t) :
  (forall l o, nth_error s l = Some o ->
     nth_error (fst (trimRouteToSnapPoints M path originSnap destinationSnap s)) l
     = Some o)
  /\ (forall s' r,
        trimRouteToSnapPoints M path originSnap destinationSnap s = (s', Normal r) ->
        exists pathEdges copies,
          nth_error s path = Some (OArray pathEdges)
          /\ nth_error s' (edges r) = Some (OArray copies)
          /\ (length s <= edges r)%nat
          /\ Forall2 (IsCopy s s') pathEdges copies).
Proof.
  split.
  - intros l o Ho.
    destruct (keeps_trimRouteToSnapPoints (length s) (fun _ => False) M path
                originSnap destinationSnap s (le_n _)) as [_ [H _]].
    assert (l < length s)%nat as Hl by (apply nth_error_Some; congruence).
    destruct (H l o Hl Ho) as [o' [Ho' [->|[[] _]]]]. exact Ho'.
  - intros s' r Hrun. rewrite trimRouteToSnapPoints_unfold in Hrun.
    unfold bind at 1, readArray in Hrun.
    destruct (nth_error s path) as [[?|pathEdges|?]|] eqn:Ep; try discriminate.
    exists pathEdges.
    destruct pathEdges as [|e0 rest].
    { unfold bind, alloc, ret in Hrun. injection Hrun as <- <-.
      exists []. cbn [edges].
      split; [reflexivity|]. split; [|split; [lia | constructor]].
      now rewrite nth_error_app2, Nat.sub_diag by lia. }
    unfold bind at 1 in Hrun.
    destruct (mapM copyEdge (e0 :: rest) s) as [s1 [copies|]] eqn:Em; [|discriminate].
    destruct (mapM_copyEdge_run _ _ _ _ Em) as [[ext Hext] Hcopies].
    unfold bind at 1, alloc in Hrun.
    set (s2 := s1 ++ [OArray copies]) in *.
    assert (length s2 = S (length s1)) as Hlen2
      by (subst s2; rewrite length_app; cbn [length]; lia).
    assert (length s <= length s1)%nat as Hle
      by (rewrite Hext, length_app; lia).
    exists copies.
    assert (Forall (fun c => fresh (length s2) c \/ In c copies) copies) as HF
      by (rewrite Forall_forall; intros c Hc; now right).
    destruct (keeps_trimCopies (length s2) (fun l => In l copies) M copies
                (length s1) originSnap destinationSnap HF s2 (le_n _))
      as [K1 [K2 K3]].
    rewrite Hrun in K1, K2, K3. cbn [fst snd] in K1, K2, K3.
    pose proof (K3 r eq_refl) as Hr.
    assert (forall c, In c copies -> (c < length s1)%nat) as Hbound.
    { intros c Hc. apply (Forall2_flip) in Hcopies.
      assert (exists old, IsCopy s s1 old c) as [old [_ [H _]]]; [|exact H].
      clear - Hcopies Hc. induction Hcopies as [|c' old cs olds H Hf IH];
        [destruct Hc|]. destruct Hc as [<-|Hc]; eauto. }
    split; [reflexivity|]. split; [|split; [lia|]].
    + destruct (K2 (length s1) (OArray copies)) as [o' [Ho' R]]; [lia| |].
      { subst s2. now rewrite nth_error_app2, Nat.sub_diag by lia. }
      rewrite Hr. destruct R as [->|[_ [e [g [He _]]]]]; [assumption | discriminate].
    + eapply Forall2_impl; [|exact Hcopies].
      intros old new [H1 [H2 H3]]. split; [assumption|]. split; [lia|].
      intros e He. destruct (H3 e He) as [g [Hg Hg']].
      destruct (K2 new (OEdge (withGeometry e g))) as [o' [Ho' R]]; [lia| |].
      { subst s2. now rewrite nth_error_app1. }
      destruct R as [->|[_ [e1 [g1 [[= <-] [-> Hg1]]]]]].
      * exists g. split; assumption.
      * exists g1. split; [exact Ho' | lia].
Qed.

(** The route of the test suite: two edges over three segments' ends, the
    path an array of the two edge objects. *)
Definition routeStore : Store.t :=
  [ OPair (0, 0)%float; OPair (10, 0)%float; OPair (20, 0)%float;
    OArray [0; 1]%nat; OArray [1; 2]%nat;
    OEdge {| from := 1; to := 2; wayId := 100; highway := "residential";
             maxspeed := 30; oneway := false; onewayBicycle := false;
             isReverse := false; distance := 100; geometry := 3%nat;
             access := None; motorVehicle := None; vehicle := None;
             bicycleTag := None; foot := None |};
    OEdge {| from := 2; to := 3; wayId := 200; highway := "residential";
             maxspeed := 30; oneway := false; onewayBicycle := false;
             isReverse := false; distance := 100; geometry := 4%nat;
             access := None; motorVehicle := None; vehicle := None;
             bicycleTag := None; foot := None |};
    OArray [5; 6]%nat ].

Definition snapAt (node : Z) (la lo : float) (e : loc) : SnapResult.t loc :=
  {| SnapResult.nodeId := node; SnapResult.lat := la; SnapResult.lon := lo;
     SnapResult.edge := e; SnapResult.distanceToSnap := 0 |}.

(** On the route of the test suite the call returns a route in a store that
    begins with the store of the call, and the first edge of the route ends
    on the coordinates it had, after a start at the snapped point. *)
Example trimRouteToSnapPoints_test :
  let run :=
    trimRouteToSnapPoints exampleMath 7 (snapAt 1 5 0 5%nat) (snapAt 3 15 0 6%nat)
      routeStore in
  firstn (length routeStore) (fst run) = routeStore
  /\ snd run = Normal {| edges := 12%nat |}
  /\ nth_error (fst run) 12 = Some (OArray [9; 11]%nat)
  /\ option_map (fun o => match o with OEdge e => geometry e | _ => O end)
       (nth_error (fst run) 9) = Some 14%nat
  /\ nth_error (fst run) 14 = Some (OArray [13; 1]%nat)
  /\ nth_error (fst run) 13 = Some (OPair (5, 0)%float).
Proof. vm_compute. repeat split. Qed.

(** ** The barrier check (C10) *)

Import BarrierFacts.

(** The nodes an explore step leaves and reaches; [None] for the other steps. *)
Definition explored (steps : list AStarStep) : list (option (Z * Z)) :=
  map (fun step =>
         match step with
         | Explore _ fromNodeId toNodeId => Some (fromNodeId, toNodeId)
         | _ => None
         end)
      steps.

Definition bollard : option string := Some "bollard"%string.

(** A road that comes back to the node it leaves. *)
Definition loop11 : GraphEdge :=
  makeEdge 1 1 300 "residential" 30 false 50 [(52.370, 4.890); (52.370, 4.890)]%float.

Definition loopLine : RoutingGraph := buildGraph [n1; n2; n3] [loop11; e12; e23] [].

(** A road of a negative length. *)
Definition back12 : GraphEdge :=
  makeEdge 1 2 100 "residential" 30 false (-100)
    [(52.370, 4.890); (52.371, 4.891)]%float.

Definition backLine : RoutingGraph := buildGraph [n1; n2; n3] [back12; e23] [].

(** C10, as stated, fails: the steps of a search depend on the barrier of
    the start. On the road 1 - 2 - 3, by car from 1 to 3, the edge from 2
    back to 1 is explored, and no longer is with a bollard on node 1. With a
    loop road at node 1 the bollard keeps the search from exploring edges
    that leave the start. With a road of a negative length the search without
    the bollard never ends, and returns a route with it. *)
Lemma aStarRoute_depends_on_start_barrier :
  (explored (fst (aStarRoute exampleMath lineGraph 1 3 car noOptions))
   = ([Some (1, 2); Some (2, 1); Some (2, 3); None])%Z
   /\ explored (fst (aStarRoute exampleMath
                       (setBarrier lineGraph 1 bollard) 1 3 car noOptions))
      = ([Some (1, 2); Some (2, 3); None])%Z)
  /\ (explored (fst (aStarRoute exampleMath loopLine 1 3 car noOptions))
      = ([Some (1, 1); Some (1, 1); Some (1, 2); Some (2, 1); Some (2, 3); None])%Z
      /\ explored (fst (aStarRoute exampleMath
                          (setBarrier loopLine 1 bollard) 1 3 car noOptions))
         = ([Some (1, 2); Some (2, 3); None])%Z)
  /\ (snd (aStarRoute exampleMath backLine 1 3 car noOptions) = Diverged
      /\ snd (aStarRoute exampleMath
                (setBarrier backLine 1 bollard) 1 3 car noOptions)
         = Returned).
Proof. vm_compute. repeat split. Qed.

Lemma terminal_elsewhere s steps :
  filter isTerminal (elsewhere s steps) = filter isTerminal steps.
Proof.
  unfold elsewhere. induction steps as [|step steps IH]; [reflexivity|].
  cbn [filter]. destruct step as [e f n| |]; cbn [leadsTo negb isTerminal filter].
  - destruct (n =? s)%Z; cbn [negb filter isTerminal]; exact IH.
  - now rewrite IH.
  - now rewrite IH.
Qed.

(** C10, amended: the barrier check reads the target of the candidate edge.
    With [ignoreRestrictions] not set, the target of every explore step
    carries no barrier that blocks the mode. On a graph whose travel times
    lower no score, the barrier tag of the start node changes nothing but
    the explore steps of the edges that lead to the start: the other steps,
    the terminal step and the end of the run are the same whatever the
    tag. *)
Theorem barrier_check_on_target (M : MathLib) (graph : RoutingGraph)
    (startNodeId endNodeId : Z) (mode : RoutingMode) (options : AStarOptions) :
  (ignoring options = false ->
   forall e fromNodeId toNodeId toNode,
     In (Explore e fromNodeId toNodeId)
        (fst (aStarRoute M graph startNodeId endNodeId mode options)) ->
     JsMap.get (nodes graph) toNodeId = Some toNode ->
     isBarrierBlocking toNode mode = false)
  /\ (TimesNeverLower graph mode ->
      forall b,
        elsewhere startNodeId
          (fst (aStarRoute M (setBarrier graph startNodeId b)
                  startNodeId endNodeId mode options))
        = elsewhere startNodeId
            (fst (aStarRoute M graph startNodeId endNodeId mode options))
        /\ filter isTerminal
             (fst (aStarRoute M (setBarrier graph startNodeId b)
                     startNodeId endNodeId mode options))
           = filter isTerminal
               (fst (aStarRoute M graph startNodeId endNodeId mode options))
        /\ snd (aStarRoute M (setBarrier graph startNodeId b)
                  startNodeId endNodeId mode options)
           = snd (aStarRoute M graph startNodeId endNodeId mode options)).
Proof.
  split.
  - intros Hi e f n toNode Hin Hn.
    apply aStarRoute_explore_passes in Hin.
    unfold barrierBlocked in Hin. now rewrite Hi, Hn in Hin.
  - intros Htimes b.
    destruct (aStarRoute_setBarrier M graph startNodeId b endNodeId mode options
                Htimes) as [H1 H2].
    split; [exact H1 | split; [|exact H2]].
    rewrite <- (terminal_elsewhere startNodeId), H1.
    apply terminal_elsewhere.
Qed.

(** On the line of zero-length roads, by car from 1 to 3, with and without
    a bollard on node 1. *)
Lemma barrier_check_on_target_witness :
  (forall e fromNodeId toNodeId toNode,
     In (Explore e fromNodeId toNodeId)
        (fst (aStarRoute exampleMath flatLine 1 3 car noOptions)) ->
     JsMap.get (nodes flatLine) toNodeId = Some toNode ->
     isBarrierBlocking toNode car = false)
  /\ (elsewhere 1
        (fst (aStarRoute exampleMath (setBarrier flatLine 1 bollard)
                1 3 car noOptions))
      = elsewhere 1 (fst (aStarRoute exampleMath flatLine 1 3 car noOptions))
      /\ filter isTerminal
           (fst (aStarRoute exampleMath (setBarrier flatLine 1 bollard)
                   1 3 car noOptions))
         = filter isTerminal (fst (aStarRoute exampleMath flatLine 1 3 car noOptions))
      /\ snd (aStarRoute exampleMath (setBarrier flatLine 1 bollard)
                1 3 car noOptions)
         = snd (aStarRoute exampleMath flatLine 1 3 car noOptions)).
Proof.
  destruct (barrier_check_on_target exampleMath flatLine 1 3 car noOptions)
    as [H1 H2].
  split; [exact (H1 eq_refl) | exact (H2 (flatLine_times car) bollard)].
Defined.

(** ** Further properties *)

(** On the residential edge of the line graph the car's travel speed is
    within the bound of the heuristic. *)
Lemma getTravelSpeed_within_bound_witness :
  exists speed,
    getTravelSpeed e12 car = NumberValue speed
    /\ (speed <=? getMaxSpeed car)%float = true.
Proof.
  apply getTravelSpeed_within_bound; intros _ _; reflexivity.
Defined.


(** Predecessor links that go round: node 1 reached from 2, node 2 from 1. *)
Definition roundLinks : JsMap.t CameFromEntry :=
  JsMap.set
    (JsMap.set JsMap.empty 1
       {| prevNodeId := 2; edge := reversed e12; prevWayId := 100 |})
    2 {| prevNodeId := 1; edge := withReverse e12 false; prevWayId := 100 |}.

Lemma walkBack_diverges_witness : walkBack 1000 roundLinks 1 = None.
Proof. exact (walkBack_diverges roundLinks 1 eq_refl 1000%nat). Defined.

End Claims.

(* ------------------------------------------------------------------------- *)
(** * Further properties of the code *)

Module Properties.
Import RoadTypes AStar AStarFacts Examples Parser ParserFacts MapMatching
  MatchingFacts FloatOrder.

(** ** The heap of the search *)

(** [push] adds the pushed item and no other; [pop] takes one item away, the
    one whose value it returns, and returns [undefined] on the empty heap
    only. *)
Theorem heap_keeps_items (h : MinHeap.t) :
  (forall k v,
     Permutation (MinHeap.push h k v)
       ({| MinHeap.key := k; MinHeap.value := v |} :: h))
  /\ (forall v h', MinHeap.pop h = Some (v, h') ->
        exists k, Permutation h ({| MinHeap.key := k; MinHeap.value := v |} :: h'))
  /\ (MinHeap.pop h = None <-> h = []).
Proof.
  split; [|split].
  - intros k v. apply HeapOrder.push_Permutation.
  - intros v h'. apply HeapOrder.pop_Permutation.
  - apply MinHeapFacts.pop_none.
Qed.

(** On a heap made by [push]es of keys that are numbers and by [pop]s,
    [pop] returns the value of an item of the heap that no item of the heap
    has a key below. *)
Theorem heap_pop_least (h : MinHeap.t) (v : Z) (h' : MinHeap.t) :
  HeapOrder.Built h ->
  MinHeap.pop h = Some (v, h') ->
  exists k,
    In {| MinHeap.key := k; MinHeap.value := v |} h
    /\ forall it, In it h -> (MinHeap.key it <? k)%float = false.
Proof.
  intros B Hpop. destruct (HeapOrder.built_ordered h B) as [O N].
  eapply HeapOrder.pop_least; eauto.
Qed.

Definition threeItems : MinHeap.t :=
  MinHeap.push (MinHeap.push (MinHeap.push [] 5 1) 3 2) 4 3.

Lemma heap_pop_least_witness :
  exists k,
    In {| MinHeap.key := k; MinHeap.value := 2 |} threeItems
    /\ forall it, In it threeItems -> (MinHeap.key it <? k)%float = false.
Proof.
  assert (forall x : float, Prim2SF x <> S754_nan -> isNumber x) as Hn
    by (intros x H; exact H).
  apply (heap_pop_least threeItems 2
           [{| MinHeap.key := 4; MinHeap.value := 3 |};
            {| MinHeap.key := 5; MinHeap.value := 1 |}]).
  - unfold threeItems.
    repeat (apply HeapOrder.built_push;
            [|apply Hn; vm_compute; discriminate]).
    constructor.
  - vm_compute. reflexivity.
Defined.

(** ** The steps of the search *)

(** Every [explore] step is for an edge stored under the node it leaves,
    which is not the end node; the edge leads to the node of the step, the
    mode may use it in this direction, and no barrier blocks that node. *)
Theorem explore_step_sound (M : MathLib) (graph : RoutingGraph)
    (startNodeId endNodeId : Z) (mode : RoutingMode) (options : AStarOptions)
    (e : GraphEdge) (fromNodeId toNodeId : Z) :
  In (Explore e fromNodeId toNodeId)
     (fst (aStarRoute M graph startNodeId endNodeId mode options)) ->
  toNodeId = targetOf fromNodeId e
  /\ RouteFacts.Step graph mode options fromNodeId e
  /\ fromNodeId <> endNodeId.
Proof.
  destruct (RouteFacts.run_cases M graph startNodeId endNodeId mode options)
    as [->|[[-> _]|[->|[endNode [h0 [r [Hs ->]]]]]]]; cbn [fst In].
  - intros [H|[]]. discriminate.
  - intros [H|[]]. discriminate.
  - intros [].
  - eapply RouteFacts.searchLoop_explore_sound; eauto.
Qed.

Lemma explore_step_sound_witness :
  2%Z = targetOf 1 (withReverse e12 false)
  /\ RouteFacts.Step lineGraph car noOptions 1 (withReverse e12 false)
  /\ 1%Z <> 3%Z.
Proof.
  apply (explore_step_sound exampleMath lineGraph 1 3 car noOptions).
  vm_compute. left. reflexivity.
Defined.

(** A search yields at most one step per edge of the adjacency map, and one
    more. *)
Theorem step_count_bound (M : MathLib) (graph : RoutingGraph)
    (startNodeId endNodeId : Z) (mode : RoutingMode) (options : AStarOptions) :
  (length (fst (aStarRoute M graph startNodeId endNodeId mode options))
   <= S (length (allEdges graph)))%nat.
Proof.
  destruct (RouteFacts.run_cases M graph startNodeId endNodeId mode options)
    as [->|[[-> _]|[->|[endNode [h0 [r [Hs ->]]]]]]]; cbn [fst length]; try lia.
  apply RouteFacts.searchLoop_length in Hs.
  cbn [initialState closed] in Hs. rewrite pending_empty in Hs. exact Hs.
Qed.

(** The [done] step holds a walk of the graph from the start to the end:
    [pathNodeIds] begins with the start, each edge of [path] is stored under
    the node it is taken from, may be used by the mode in this direction and
    leads to the next node, which no barrier blocks; and [totalTime] is a
    number, not [undefined]. *)
Theorem done_path_is_walk (M : MathLib) (graph : RoutingGraph)
    (startNodeId endNodeId : Z) (mode : RoutingMode) (options : AStarOptions)
    (path : list GraphEdge) (pathNodeIds : list Z) (totalTime : option float) :
  In (Done path pathNodeIds totalTime)
     (fst (aStarRoute M graph startNodeId endNodeId mode options)) ->
  RouteFacts.Walk graph mode options startNodeId path pathNodeIds endNodeId
  /\ exists g, totalTime = Some g.
Proof.
  destruct (RouteFacts.run_cases M graph startNodeId endNodeId mode options)
    as [->|[[-> <-]|[->|[endNode [h0 [r [Hs ->]]]]]]]; cbn [fst In].
  - intros [H|[]]. discriminate.
  - intros [[= <- <- <-]|[]]. split; [constructor | eauto].
  - intros [].
  - eapply RouteFacts.searchLoop_done; [|exact Hs].
    apply RouteFacts.linked_initial.
Qed.

Lemma done_path_is_walk_witness :
  exists path pathNodeIds totalTime,
    In (Done path pathNodeIds totalTime)
       (fst (aStarRoute exampleMath lineGraph 1 3 car noOptions))
    /\ RouteFacts.Walk lineGraph car noOptions 1 path pathNodeIds 3
    /\ exists g, totalTime = Some g.
Proof.
  assert (exists path pathNodeIds totalTime,
            In (Done path pathNodeIds totalTime)
               (fst (aStarRoute exampleMath lineGraph 1 3 car noOptions)))
    as [path [ids [time Hin]]].
  { vm_compute. eexists _, _, _. do 3 right. left. reflexivity. }
  exists path, ids, time. split; [exact Hin|].
  exact (done_path_is_walk exampleMath lineGraph 1 3 car noOptions path ids time Hin).
Defined.

Lemma fold_finalPath_explores (steps : list AStarStep) (acc : option (list GraphEdge)) :
  allExplore steps ->
  fold_left
    (fun finalPath step =>
       match step with Done path _ _ => Some path | _ => finalPath end)
    steps acc = acc.
Proof.
  induction 1 as [|step steps Hs _ IH]; cbn [fold_left]; [reflexivity|].
  destruct step; try discriminate. exact IH.
Qed.

(** [runAStarToCompletion], on a search that returns: the steps are explore
    steps and then one terminal step, and [finalPath] is the path of that
    step when it is [done], [null] when it is [no-route]. *)
Theorem finalPath_is_done_path (M : MathLib) (graph : RoutingGraph)
    (startNodeId endNodeId : Z) (mode : RoutingMode) (options : AStarOptions) :
  snd (aStarRoute M graph startNodeId endNodeId mode options) = Returned ->
  exists explores terminal,
    fst (runAStarToCompletion M graph startNodeId endNodeId mode options)
    = explores ++ [terminal]
    /\ allExplore explores
    /\ isTerminal terminal = true
    /\ snd (runAStarToCompletion M graph startNodeId endNodeId mode options)
       = match terminal with Done path _ _ => Some path | _ => None end.
Proof.
  intros Hr.
  pose proof (aStarRoute_shape M graph startNodeId endNodeId mode options) as Hs.
  unfold WellFormedRun in Hs. rewrite Hr in Hs.
  destruct Hs as [explores [terminal [E [Hex Ht]]]].
  exists explores, terminal. unfold runAStarToCompletion. cbn [fst snd].
  rewrite E, fold_left_app, (fold_finalPath_explores _ _ Hex). cbn [fold_left].
  repeat split; auto.
Qed.

Lemma finalPath_is_done_path_witness :
  exists explores terminal,
    fst (runAStarToCompletion exampleMath lineGraph 1 3 car noOptions)
    = explores ++ [terminal]
    /\ allExplore explores
    /\ isTerminal terminal = true
    /\ snd (runAStarToCompletion exampleMath lineGraph 1 3 car noOptions)
       = match terminal with Done path _ _ => Some path | _ => None end.
Proof.
  apply (finalPath_is_done_path exampleMath lineGraph 1 3 car noOptions).
  vm_compute. reflexivity.
Defined.

(** ** The parsed graph *)

(** In the graph [parseOSM] returns every edge is stored under its [from];
    both its ends are nodes of the graph, and its geometry is the two
    coordinate pairs of these nodes, [from] first; every node is stored
    under its [id] and its coordinates are numbers. *)
Theorem parsed_graph_shape (M : MathLib) (doc : Document) :
  (forall c es e,
     JsMap.get (adjacency (parseOSM M doc)) c = Some es -> In e es ->
     from e = c
     /\ exists a b,
          JsMap.get (nodes (parseOSM M doc)) (from e) = Some a
          /\ JsMap.get (nodes (parseOSM M doc)) (to e) = Some b
          /\ geometry e = [(lat a, lon a); (lat b, lon b)])
  /\ (forall k n,
        JsMap.get (nodes (parseOSM M doc)) k = Some n ->
        id n = k
        /\ PrimFloat.is_nan (lat n) = false /\ PrimFloat.is_nan (lon n) = false).
Proof.
  split.
  - intros c es e Hg He. split; [eapply ParserMore.parseOSM_keyed; eauto|].
    apply ParserMore.parseOSM_edge_ends. eapply get_allEdges; eauto.
  - apply ParserMore.parseOSM_sound.
Qed.

(** Every turn restriction of the parsed graph has a [from] way, a [via]
    node and a [to] way that are not 0 and a type that is not empty, and
    there is at most one per relation of the document. *)
Theorem parsed_restrictions (M : MathLib) (doc : Document) :
  Forall
    (fun r => fromWayId r <> 0%Z /\ viaNodeId r <> 0%Z /\ toWayId r <> 0%Z
              /\ type r <> ""%string)
    (restrictions (parseOSM M doc))
  /\ (length (restrictions (parseOSM M doc)) <= length (relationEls doc))%nat.
Proof.
  unfold parseOSM. cbn [restrictions].
  assert (forall rels rs,
            Forall
              (fun r => fromWayId r <> 0%Z /\ viaNodeId r <> 0%Z
                        /\ toWayId r <> 0%Z /\ type r <> ""%string) rs ->
            Forall
              (fun r => fromWayId r <> 0%Z /\ viaNodeId r <> 0%Z
                        /\ toWayId r <> 0%Z /\ type r <> ""%string)
              (fold_left addRelation rels rs)
            /\ (length (fold_left addRelation rels rs)
                <= length rs + length rels)%nat) as H.
  { induction rels as [|rel rels IH]; intros rs F; cbn [fold_left length].
    - split; [exact F | lia].
    - destruct (ParserMore.addRelation_cases rs rel)
        as [->|[r [-> [H1 [H2 [H3 [H4 _]]]]]]].
      + destruct (IH rs F). split; [assumption | lia].
      + destruct (IH (rs ++ [r])) as [F' L'].
        * apply Forall_app. split; [exact F | constructor; auto].
        * split; [exact F'|]. rewrite length_app in L'. cbn in L'. lia. }
  destruct (H (relationEls doc) [] (Forall_nil _)) as [F L].
  split; [exact F | exact L].
Qed.

(** A search on a parsed graph never throws: it returns, or it stays in the
    reconstruction of the path. *)
Theorem search_on_parsed_graph_never_throws (M : MathLib) (doc : Document)
    (startNodeId endNodeId : Z) (mode : RoutingMode) (options : AStarOptions) :
  snd (aStarRoute M (parseOSM M doc) startNodeId endNodeId mode options) = Returned
  \/ snd (aStarRoute M (parseOSM M doc) startNodeId endNodeId mode options)
     = Diverged.
Proof. apply ThrowFacts.aStarRoute_no_throw, ParserMore.parseOSM_targets. Qed.

(** [snapToRoad] on a parsed graph never throws. *)
Theorem snap_on_parsed_graph_never_throws (M : MathLib) (doc : Document)
    (lat lon : float) (mode : RoutingMode) :
  exists r, snapToRoad M lat lon (parseOSM M doc) mode = Normal r.
Proof.
  apply ThrowFacts.snapToRoad_returns. intros e He.
  destruct (ParserMore.parseOSM_edge_ends M doc e He) as [a [b [Ha [Hb _]]]].
  unfold JsMap.has. now rewrite Ha, Hb.
Qed.

(** ** Access rules *)

(** The edge without its override tags. *)
Definition withoutTags (e : GraphEdge) : GraphEdge :=
  {| from := from e; to := to e; wayId := wayId e; highway := highway e;
     maxspeed := maxspeed e; oneway := oneway e;
     onewayBicycle := onewayBicycle e; isReverse := isReverse e;
     distance := distance e; geometry := geometry e;
     access := None; motorVehicle := None; vehicle := None;
     bicycleTag := None; foot := None |}.

(** Override tags take access away and never give it: an edge a mode may
    use is of a road type the table opens to the mode, so that the edge
    without its tags may be used too. *)
Theorem tags_only_deny (e : GraphEdge) (mode : RoutingMode) :
  isEdgeAccessible e mode = true ->
  isEdgeAccessible (withoutTags e) mode = true
  /\ exists roadAccess,
       lookup ROAD_ACCESS (highway e) = Some roadAccess
       /\ modeAccess roadAccess mode = true.
Proof.
  unfold isEdgeAccessible, withoutTags, generalAccess.
  cbn [highway access motorVehicle vehicle bicycleTag foot].
  destruct (lookup ROAD_ACCESS (highway e)) as [roadAccess|]; [|discriminate].
  destruct (modeAccess roadAccess mode) eqn:Em; cbn [negb]; [|discriminate].
  intros _. split; [now destruct mode | eauto].
Qed.

Definition taggedMotorway : GraphEdge :=
  {| from := 1; to := 2; wayId := 100; highway := "motorway"; maxspeed := 100;
     oneway := true; onewayBicycle := true; isReverse := false; distance := 1000;
     geometry := [(52.370, 4.890); (52.379, 4.890)]%float;
     access := Some "yes"%string; motorVehicle := Some "yes"%string;
     vehicle := None; bicycleTag := Some "yes"%string; foot := None |}.

Lemma tags_only_deny_witness :
  isEdgeAccessible (withoutTags taggedMotorway) car = true
  /\ exists roadAccess,
       lookup ROAD_ACCESS (highway taggedMotorway) = Some roadAccess
       /\ modeAccess roadAccess car = true.
Proof. apply (tags_only_deny taggedMotorway car). reflexivity. Defined.

(** A barrier that blocks bicycles blocks cars; no barrier blocks
    pedestrians; and the direction a car may take an edge in, with the
    restrictions on, a bicycle may take too. *)
Theorem bicycle_goes_where_car_goes (node : GraphNode) (e : GraphEdge)
    (fromNodeId : Z) (ignoreRestrictions : bool) :
  isBarrierBlocking node pedestrian = false
  /\ (isBarrierBlocking node bicycle = true -> isBarrierBlocking node car = true)
  /\ (canTraverseDirection e fromNodeId car false = true ->
      canTraverseDirection e fromNodeId bicycle ignoreRestrictions = true).
Proof.
  split; [|split].
  - unfold isBarrierBlocking. destruct (barrier node) as [[|c s]|]; reflexivity.
  - unfold isBarrierBlocking. destruct (barrier node) as [[|c s]|]; try discriminate.
    unfold BICYCLE_BLOCKING_BARRIERS, CAR_BLOCKING_BARRIERS, setHas.
    cbn [existsb]. rewrite !orb_false_r.
    intros H.
    repeat (apply orb_true_iff in H as [H|H]); rewrite H;
      rewrite ?orb_true_r; reflexivity.
  - unfold canTraverseDirection.
    destruct (oneway e), (isReverse e), (onewayBicycle e); cbn; auto.
Qed.

(** ** Snapping *)

(** The parameter of a projection is NaN or within [0, 1]: the projected
    point never leaves the segment; on a segment of length 0 it is the first
    end, with parameter 0. *)
Theorem projection_stays_on_segment (px py ax ay bx by_ : float) :
  let p := projectPointOnSegment px py ax ay bx by_ in
  (PrimFloat.is_nan (t p) = true
   \/ (0 <=? t p)%float = true /\ (t p <=? 1)%float = true)
  /\ (((bx - ax) * (bx - ax) + (by_ - ay) * (by_ - ay) =? 0)%float = true ->
      p = {| x := ax; y := ay; t := 0 |}).
Proof.
  unfold projectPointOnSegment. cbv zeta.
  destruct ((bx - ax) * (bx - ax) + (by_ - ay) * (by_ - ay) =? 0)%float.
  - split; [right; split; reflexivity | reflexivity].
  - split; [|discriminate]. cbn [t].
    apply (JsNumFacts.clamp_spec 0 1). reflexivity.
Qed.

(** The point [snapToRoad] returns is the projection of the query point on
    a segment of the returned edge, at the returned distance, and no segment
    of an accessible edge of the scan is at a distance below it; the node
    returned is an end of the edge. *)
Theorem snapToRoad_nearest (M : MathLib) (lat lon : float) (graph : RoutingGraph)
    (mode : RoutingMode) (r : SnapResult.t GraphEdge) :
  snapToRoad M lat lon graph mode = Normal (Some r) ->
  (SnapResult.nodeId r = from (SnapResult.edge r)
   \/ SnapResult.nodeId r = to (SnapResult.edge r))
  /\ (exists seg,
        In seg (segmentsOf (geometry (SnapResult.edge r)))
        /\ SnapResult.distanceToSnap r = projectedDistance M lat lon seg
        /\ SnapResult.lat r
           = x (projectPointOnSegment lat lon (fst (fst seg)) (snd (fst seg))
                  (fst (snd seg)) (snd (snd seg)))
        /\ SnapResult.lon r
           = y (projectPointOnSegment lat lon (fst (fst seg)) (snd (fst seg))
                  (fst (snd seg)) (snd (snd seg))))
  /\ (forall e seg,
        In e (firstOfKey [] (allEdges graph)) ->
        isEdgeAccessible e mode = true ->
        In seg (segmentsOf (geometry e)) ->
        (projectedDistance M lat lon seg <? SnapResult.distanceToSnap r)%float
        = false).
Proof.
  unfold snapToRoad.
  change (snd (fold_left (scanEdge M lat lon mode) (allEdges graph) ([], noBest)))
    with (scanned M lat lon mode (allEdges graph) [] noBest).
  rewrite NearestFacts.scanned_candidates.
  destruct (NearestFacts.fold_step_nearest M lat lon
              (NearestFacts.candidates mode [] (allEdges graph)) noBest
              isNumber_infinity) as [_ [_ [Hall Hach]]].
  cbv zeta in Hall, Hach.
  set (b := fold_left (NearestFacts.step M lat lon) _ noBest) in *.
  destruct (bestEdge b) as [e|] eqn:Eb; [|discriminate].
  destruct (JsMap.get (nodes graph) (from e)) as [fromNode|]; [|discriminate].
  destruct (JsMap.get (nodes graph) (to e)) as [toNode|]; [|discriminate].
  intros [= <-]. cbn [SnapResult.nodeId SnapResult.edge SnapResult.distanceToSnap
                     SnapResult.lat SnapResult.lon].
  split; [|split].
  - destruct (_ <=? _)%float; auto.
  - destruct Hach as [Hb|[c [Hin [H1 [H2 [H3 H4]]]]]].
    { rewrite Hb in Eb. discriminate. }
    exists (snd c). rewrite Eb in H1. injection H1 as ->.
    split; [|auto].
    unfold NearestFacts.candidates in Hin. apply in_flat_map in Hin as [e' [_ Hin]].
    apply in_map_iff in Hin as [seg [<- Hseg]]. exact Hseg.
  - intros e' seg He' Hacc Hseg.
    apply (Hall (e', seg)). unfold NearestFacts.candidates.
    apply in_flat_map. exists e'. split.
    + apply filter_In. now split.
    + now apply in_map.
Qed.

Lemma snapToRoad_nearest_witness :
  exists r,
    snapToRoad exampleMath 52.3705 4.8905 lineGraph car = Normal (Some r)
    /\ (SnapResult.nodeId r = from (SnapResult.edge r)
        \/ SnapResult.nodeId r = to (SnapResult.edge r))
    /\ forall e seg,
         In e (firstOfKey [] (allEdges lineGraph)) ->
         isEdgeAccessible e car = true ->
         In seg (segmentsOf (geometry e)) ->
         (projectedDistance exampleMath 52.3705 4.8905 seg
          <? SnapResult.distanceToSnap r)%float = false.
Proof.
  destruct (snapToRoad exampleMath 52.3705 4.8905 lineGraph car)
    as [[r|]|] eqn:E; [|vm_compute in E; discriminate..].
  exists r. split; [reflexivity|].
  destruct (snapToRoad_nearest exampleMath 52.3705 4.8905 lineGraph car r E)
    as [H1 [_ H3]].
  split; assumption.
Defined.

(** [findSnapSegment] throws on the empty geometry only; the index it
    returns is that of a segment of the geometry, or 0 when the geometry has
    one point and no segment. *)
Theorem findSnapSegment_index (M : MathLib) (snapLat snapLon : float)
    (geometry : list Coord) :
  (findSnapSegment M snapLat snapLon geometry = TypeError <-> geometry = [])
  /\ (forall seg,
        findSnapSegment M snapLat snapLon geometry = Normal seg ->
        (segmentIndex seg + 2 <= length geometry)%nat
        \/ segmentIndex seg = 0%nat /\ length geometry = 1%nat
           /\ Some (projLat seg, projLon seg) = nth_error geometry 0).
Proof.
  unfold findSnapSegment. destruct geometry as [|first rest].
  - split; [tauto | discriminate].
  - split; [split; discriminate|]. intros seg [= <-].
    destruct rest as [|second rest].
    + right. cbn. destruct first. auto.
    + left.
      match goal with
      | |- context [fold_left ?f ?l ?st] =>
          destruct (NearestFacts.fold_findStep_index M snapLat snapLon l st
                      (length (segmentsOf (first :: second :: rest))))
            as [H|H]
      end.
      * intros i seg. apply NearestFacts.indexed_bound.
      * right. reflexivity.
      * rewrite NearestFacts.segmentsOf_length in H. cbn [length] in *. lia.
      * rewrite H. cbn [length]. lia.
Qed.

(** ** Trimmed geometries *)

(** [trimGeometryFromStart], when it returns, returns a new array that holds
    the projection of the snap point and then the points of the geometry
    after the snap segment; [trimGeometryToEnd] one that holds the points up
    to the snap segment and then the projection. Both leave the geometry
    they are given as it was. *)
Theorem trimmed_geometry_points (M : MathLib) (geometry : Store.loc)
    (snapLat snapLon : float) (s : Store.t) :
  (forall s' result,
     Trim.trimGeometryFromStart M geometry snapLat snapLon s = (s', Normal result) ->
     exists coords seg,
       Trim.readCoords geometry s = (s, Normal coords)
       /\ findSnapSegment M snapLat snapLon coords = Normal seg
       /\ Trim.readCoords result s'
          = (s', Normal ((projLat seg, projLon seg)
                         :: skipn (segmentIndex seg + 1) coords))
       /\ (length s <= result)%nat
       /\ Trim.readCoords geometry s' = (s', Normal coords))
  /\ (forall s' result,
        Trim.trimGeometryToEnd M geometry snapLat snapLon s = (s', Normal result) ->
        exists coords seg,
          Trim.readCoords geometry s = (s, Normal coords)
          /\ findSnapSegment M snapLat snapLon coords = Normal seg
          /\ Trim.readCoords result s'
             = (s', Normal (firstn (segmentIndex seg + 1) coords
                            ++ [(projLat seg, projLon seg)]))
          /\ (length s <= result)%nat
          /\ Trim.readCoords geometry s' = (s', Normal coords)).
Proof.
  assert (forall s' coords,
            Trim.readCoords geometry s = (s, Normal coords) ->
            (forall l o, nth_error s l = Some o -> nth_error s' l = Some o) ->
            Trim.readCoords geometry s' = (s', Normal coords)) as Hkeep.
  { intros s' coords E Hext.
    destruct (TrimShapes.readCoords_spec geometry s) as [r [E' H]].
    rewrite E in E'. injection E' as <-.
    destruct (H coords eq_refl) as [elems [Hg Hh]].
    apply TrimShapes.readCoords_holds with (elems := elems); [now apply Hext|].
    eapply TrimShapes.holds_extend; eauto. }
  split; intros s' result Hrun.
  - destruct (TrimShapes.trimGeometryFromStart_run M _ _ _ _ _ _ Hrun)
      as [coords [seg [E [Ef [Er [Hl Hext]]]]]].
    exists coords, seg. repeat split; auto.
  - destruct (TrimShapes.trimGeometryToEnd_run M _ _ _ _ _ _ Hrun)
      as [coords [seg [E [Ef [Er [Hl Hext]]]]]].
    exists coords, seg. repeat split; auto.
Qed.

(** ** The animator *)

(** Powers with a whole exponent up to 16, which is what the speeds 7 to 10
    ask of [Math.pow], and [Math.round] on whole numbers. *)
Fixpoint powLoop (fuel : nat) (base exponent : float) : float :=
  match fuel with
  | O => 1%float
  | S fuel' =>
      if (exponent <? 1)%float then 1%float
      else (base * powLoop fuel' base (exponent - 1))%float
  end.

Definition examplePow : PowLib :=
  {| Math_pow := powLoop 16; Math_round := fun x => x |}.

(** The search on the line graph, loaded at speed 1 and started at time 0. *)
Definition shownSearch : Animation.Animator :=
  let r := runAStarToCompletion exampleMath lineGraph 1 3 car noOptions in
  let loaded :=
    fst (Animation.loadSteps (fst r)
           (match snd r with Some path => path | None => [] end)
           Animation.create) in
  fst (Animation.start examplePow true true 0 0 (Animation.setSpeed 1 loaded)).

(** A running animation whose frames come when the interval has passed, and
    that takes at least one step per frame, ends when it is given more frames
    than it has steps left: it is no longer running, [onComplete] has been
    called once if it was given, and the renderer has been given the edges of
    the explore steps up to the first terminal step, each once and in their
    order. *)
Theorem animation_completes (P : PowLib) (nows : list float)
    (a : Animation.Animator) :
  Animation.isRunning a = true ->
  AnimationFacts.steady (Animation.getInterval a) (Animation.lastFrameTime a) nows ->
  (0 <? Animation.getStepsPerFrame P a)%float = true ->
  (length (skipn (Animation.currentIndex a) (Animation.steps a)) < length nows)%nat ->
  Animation.isRunning (fst (AnimationFacts.frames P nows a)) = false
  /\ AnimationFacts.completions (snd (AnimationFacts.frames P nows a))
     = (if Animation.onComplete a then 1 else 0)%nat
  /\ AnimationFacts.drawn (snd (AnimationFacts.frames P nows a))
     = AnimationFacts.exploreEdges
         (AnimationFacts.beforeTerminal
            (skipn (Animation.currentIndex a) (Animation.steps a))).
Proof. unfold Animation.isRunning. apply AnimationFacts.frames_complete. Qed.

Lemma animation_completes_witness :
  Animation.isRunning
    (fst (AnimationFacts.frames examplePow [100; 200; 300; 400; 500; 600]%float
            shownSearch)) = false
  /\ AnimationFacts.completions
       (snd (AnimationFacts.frames examplePow [100; 200; 300; 400; 500; 600]%float
               shownSearch)) = 1%nat.
Proof.
  destruct (animation_completes examplePow [100; 200; 300; 400; 500; 600]%float
              shownSearch) as [H1 [H2 _]].
  - vm_compute. reflexivity.
  - vm_compute. repeat split.
  - vm_compute. reflexivity.
  - vm_compute. repeat constructor.
  - split; [exact H1 | exact H2].
Defined.

(** Whatever is called on a new animator (its public methods and the frame
    callback, in any order and at any times), every progress report counts no
    more route edges than explored edges and no more explored edges than
    steps. *)
Theorem progress_counts_in_order (P : PowLib) (cs : list AnimationFacts.Call)
    (stats : Animation.AnimationStats) :
  In (Animation.Progress stats) (snd (AnimationFacts.calls P cs Animation.create)) ->
  (Animation.routeEdges stats <= Animation.exploredEdges stats)%nat
  /\ (Animation.exploredEdges stats <= Animation.totalSteps stats)%nat.
Proof.
  apply AnimationFacts.calls_counted. unfold AnimationFacts.Counted. cbn. lia.
Qed.

(** The search on the line graph, loaded, slowed down, started and given
    three frames. *)
Definition shownCalls : list AnimationFacts.Call :=
  let r := runAStarToCompletion exampleMath lineGraph 1 3 car noOptions in
  [AnimationFacts.Load (fst r) (match snd r with Some path => path | None => [] end);
   AnimationFacts.SetSpeed 1;
   AnimationFacts.Start true true 0 0;
   AnimationFacts.Tick 100; AnimationFacts.Tick 200; AnimationFacts.Tick 300].

(** The report after the first frame that draws. *)
Definition shownStats : Animation.AnimationStats :=
  {| Animation.exploredEdges := 2; Animation.routeEdges := 2;
     Animation.totalSteps := 4 |}.

Lemma progress_counts_in_order_witness :
  (Animation.routeEdges shownStats <= Animation.exploredEdges shownStats)%nat
  /\ (Animation.exploredEdges shownStats <= Animation.totalSteps shownStats)%nat.
Proof.
  apply (progress_counts_in_order examplePow shownCalls shownStats).
  vm_compute. do 7 right. left. reflexivity.
Defined.

(** Whatever is called on a new animator, every edge it gives the renderer
    as a route edge is an edge of a final path it was given by [loadSteps],
    and it is drawn for an explored edge of the same way between the same
    two nodes: the fallback to the explored edge itself is never taken. *)
Theorem route_edges_from_final_path (P : PowLib) (cs : list AnimationFacts.Call)
    (e : GraphEdge) :
  In (Animation.AddRouteEdge e) (snd (AnimationFacts.calls P cs Animation.create)) ->
  (exists newSteps finalPath,
     In (AnimationFacts.Load newSteps finalPath) cs /\ In e finalPath)
  /\ exists explored,
       In (Animation.AddExploredEdge explored)
          (snd (AnimationFacts.calls P cs Animation.create))
       /\ Animation.edgeKey explored = Animation.edgeKey e.
Proof.
  apply (RouteEdgeFacts.calls_synced P
           (fun e => exists newSteps finalPath,
                       In (AnimationFacts.Load newSteps finalPath) cs
                       /\ In e finalPath)).
  - intros newSteps finalPath e' Hin He. eauto.
  - intros k Hk. discriminate.
Qed.

Lemma route_edges_from_final_path_witness :
  (exists newSteps finalPath,
     In (AnimationFacts.Load newSteps finalPath) shownCalls
     /\ In (withReverse e12 false) finalPath)
  /\ exists explored,
       In (Animation.AddExploredEdge explored)
          (snd (AnimationFacts.calls examplePow shownCalls Animation.create))
       /\ Animation.edgeKey explored = Animation.edgeKey (withReverse e12 false).
Proof.
  apply (route_edges_from_final_path examplePow shownCalls (withReverse e12 false)).
  vm_compute. repeat (first [left; reflexivity | right]).
Defined.

(** [setSpeed] keeps a speed from 1 to 10 and brings any other number into
    that range; NaN is stored as it is. *)
Theorem setSpeed_range (s : float) (a : Animation.Animator) :
  (isNumber s ->
     (1 <=? Animation.getSpeed (Animation.setSpeed s a))%float = true
     /\ (Animation.getSpeed (Animation.setSpeed s a) <=? 10)%float = true)
  /\ ((1 <=? s)%float = true -> (s <=? 10)%float = true ->
      Animation.getSpeed (Animation.setSpeed s a) = s)
  /\ (PrimFloat.is_nan s = true ->
      PrimFloat.is_nan (Animation.getSpeed (Animation.setSpeed s a)) = true).
Proof.
  unfold Animation.getSpeed, Animation.setSpeed. cbn [Animation.speed].
  split; [|split].
  - intros Hs.
    destruct (JsNumFacts.clamp_spec 1 10 s eq_refl) as [H|H]; [|exact H].
    exfalso. unfold JsNum.mathMax, JsNum.mathMin in H.
    apply FloatLe.is_nan_number in Hs. rewrite Hs in H.
    change (PrimFloat.is_nan 10) with false in H.
    change (PrimFloat.is_nan 1) with false in H. cbn [orb] in H.
    destruct (10 <? s)%float, (s <? 10)%float; cbn in H;
      try discriminate;
      rewrite ?Hs in H; cbn in H;
      repeat match type of H with
             | context [if ?c then _ else _] => destruct c
             end; cbn in H; congruence.
  - intros L1 L2.
    destruct (FloatLe.leb_number _ _ L1) as [_ Hs].
    apply FloatLe.is_nan_number in Hs.
    assert (JsNum.mathMin 10 s = s) as ->.
    { unfold JsNum.mathMin. rewrite Hs. change (PrimFloat.is_nan 10) with false.
      cbn [orb]. rewrite (FloatLe.leb_ltb _ _ L2).
      destruct (s <? 10)%float; reflexivity. }
    unfold JsNum.mathMax. rewrite Hs. change (PrimFloat.is_nan 1) with false.
    cbn [orb]. rewrite (FloatLe.leb_ltb _ _ L1).
    destruct (1 <? s)%float eqn:E; [reflexivity|].
    symmetry. now apply AnimationFacts.equal_one.
  - intros Hs. unfold JsNum.mathMax, JsNum.mathMin. rewrite Hs.
    rewrite Bool.orb_true_r. reflexivity.
Qed.

(** ** The bounds of the map *)

(** [getBounds] returns [null] for a graph without nodes only; when the
    coordinates of all nodes are numbers, every node lies within the corners
    it returns. *)
Theorem getBounds_holds_nodes (graph : RoutingGraph) :
  (Renderer.getBounds graph = None <-> JsMap.values (nodes graph) = [])
  /\ (forall sw ne,
        Renderer.getBounds graph = Some (sw, ne) ->
        (forall node, In node (JsMap.values (nodes graph)) ->
           isNumber (lat node) /\ isNumber (lon node)) ->
        forall node, In node (JsMap.values (nodes graph)) ->
          (fst sw <=? lat node)%float = true /\ (lat node <=? fst ne)%float = true
          /\ (snd sw <=? lon node)%float = true
          /\ (lon node <=? snd ne)%float = true).
Proof.
  split; [|intros sw ne; apply RendererFacts.getBounds_holds].
  unfold Renderer.getBounds. rewrite length_map.
  destruct (JsMap.values (nodes graph)) as [|n l]; cbn; split;
    congruence.
Qed.

(** Every node of a parsed graph lies within the bounds [getBounds] returns
    for it. *)
Theorem parsed_map_bounds (M : MathLib) (doc : Document) (sw ne : Coord)
    (i : Z) (node : GraphNode) :
  Renderer.getBounds (parseOSM M doc) = Some (sw, ne) ->
  JsMap.get (nodes (parseOSM M doc)) i = Some node ->
  (fst sw <=? lat node)%float = true /\ (lat node <=? fst ne)%float = true
  /\ (snd sw <=? lon node)%float = true /\ (lon node <=? snd ne)%float = true.
Proof.
  intros Hb Hg.
  apply (RendererFacts.getBounds_holds _ _ _ Hb).
  - apply RendererFacts.parseOSM_values_numbers.
  - eapply JsMapFacts.get_In_values; eauto.
Qed.

Lemma parsed_map_bounds_witness :
  exists sw ne node,
    Renderer.getBounds (parseOSM exampleMath Tests.testDoc) = Some (sw, ne)
    /\ JsMap.get (nodes (parseOSM exampleMath Tests.testDoc)) 2 = Some node
    /\ (fst sw <=? lat node)%float = true /\ (lat node <=? fst ne)%float = true
    /\ (snd sw <=? lon node)%float = true /\ (lon node <=? snd ne)%float = true.
Proof.
  destruct (Renderer.getBounds (parseOSM exampleMath Tests.testDoc))
    as [[sw ne]|] eqn:Eb; [|vm_compute in Eb; discriminate].
  destruct (JsMap.get (nodes (parseOSM exampleMath Tests.testDoc)) 2)
    as [node|] eqn:Eg; [|vm_compute in Eg; discriminate].
  exists sw, ne, node. split; [reflexivity|]. split; [reflexivity|].
  exact (parsed_map_bounds exampleMath Tests.testDoc sw ne 2 node Eb Eg).
Defined.

End Properties.
